(** * google-bandwidth-controller: the bandwidth calculator and the fleet scheduler

    A shallow embedding of [internal/bandwidth/calculator.go] and of the
    controller's scheduler ([Scheduler], [SchedulerState]), followed by the
    properties of the specification that concern them.

    Numbers.  Go's [int] and [int64] are 64-bit two's complement integers:
    they are integers of [Z], and [wrap64] is written wherever the source
    does arithmetic that can leave the range.  Go's [float64] is IEEE 754
    binary64: it is the kernel's [float], whose operations round to nearest
    even like the hardware's.  [math.Sin] has no counterpart there, so the
    concurrency wave function alone is read over the real numbers (module
    [wave]).

    Randomness and time.  [math/rand], [time.Now] and [uuid.New] are inputs:
    a random source is a pair of tapes read in order, and the readings of the
    clock are arguments of the operations that take them. *)

From Stdlib Require Import ZArith Floats Reals Lra Lia List Bool.
From stdpp Require Import gmap strings list.

Local Open Scope Z_scope.

(** ** Machine integers and conversions *)

Definition int64_min : Z := - 2 ^ 63.
Definition int64_max : Z := 2 ^ 63 - 1.

Definition in_int64 (z : Z) : Prop := int64_min <= z <= int64_max.

(** Two's complement wrap-around of 64-bit signed arithmetic. *)
Definition wrap64 (z : Z) : Z := (z + 2 ^ 63) mod 2 ^ 64 - 2 ^ 63.

(** [float64(z)] for an integer [z]: the nearest binary64, ties to even. *)
Definition float64_of_int (z : Z) : float :=
  SF2Prim (binary_normalize prec emax z 0 false).

(** The integer part of a finite float, rounded toward zero. *)
Definition trunc_float (f : float) : option Z :=
  match Prim2SF f with
  | S754_zero _ => Some 0
  | S754_finite s m e =>
      let a := if 0 <=? e then Z.shiftl (Z.pos m) e else Z.shiftr (Z.pos m) (- e) in
      Some (if s then - a else a)
  | S754_infinity _ | S754_nan => None
  end.

(** [int64(f)] for a float [f].  Go truncates toward zero; when the value
    does not fit (or is a NaN) the result is implementation-dependent, and
    this is amd64's: the conversion instruction returns the smallest int64. *)
Definition int64_of_float (f : float) : Z :=
  match trunc_float f with
  | Some v => if (int64_min <=? v) && (v <=? int64_max) then v else int64_min
  | None => int64_min
  end.

(** ** The environment: math/rand, time.Now, uuid.New

    What the program reads from outside is a [World] of tapes, each read in
    order: the results of the successive calls of [rand.Float64()] (values
    the library promises in [0,1), see [float_draws_ok]); raw integers that
    [rand.Intn(n)] reduces into [0,n); the successive readings of the wall
    clock, in nanoseconds; and the successive identifiers [uuid.New()]
    hands out. *)

Record World := mkWorld {
  float_draws : nat -> float;
  int_draws : nat -> Z;
  clock : nat -> Z;
  uuids : nat -> string;
  next_float : nat;
  next_int : nat;
  next_clock : nat;
  next_uuid : nat
}.

(** A computation that reads the world and may panic. *)
Definition M (A : Type) : Type := World -> option (A * World).

Definition ret {A} (a : A) : M A := fun w => Some (a, w).

Definition bind {A B} (m : M A) (k : A -> M B) : M B :=
  fun w => match m w with
           | Some (a, w') => k a w'
           | None => None
           end.

Definition panic {A} : M A := fun _ => None.

Declare Scope world_scope.
Delimit Scope world_scope with world.
Notation "x <- m ;; k" := (bind m (fun x => k))
  (at level 100, m at next level, right associativity) : world_scope.

Module rand.

Definition Float64 : M float :=
  fun w => Some (float_draws w (next_float w),
                 mkWorld (float_draws w) (int_draws w) (clock w) (uuids w)
                   (S (next_float w)) (next_int w) (next_clock w) (next_uuid w)).

Definition Intn (n : Z) : M Z :=
  fun w => if n <=? 0 then None
           else Some (int_draws w (next_int w) mod n,
                      mkWorld (float_draws w) (int_draws w) (clock w) (uuids w)
                        (next_float w) (S (next_int w)) (next_clock w) (next_uuid w)).

(** What the library promises of [rand.Float64]. *)
Definition float_draws_ok (w : World) : Prop :=
  forall k, (0 <=? float_draws w k)%float = true /\ (float_draws w k <? 1)%float = true.

End rand.

(** ** internal/bandwidth/calculator.go *)
Module bandwidth.

Import rand.
Local Open Scope world_scope.

Definition Clamp (value min max : Z) : Z :=
  if value <? min then min
  else if value >? max then max
  else value.

Definition Clamp64 (value min max : Z) : Z :=
  if value <? min then min
  else if value >? max then max
  else value.

Definition ClampFloat (value min max : float) : float :=
  if (value <? min)%float then min
  else if (max <? value)%float then max
  else value.

Definition Min64 (a b : Z) : Z := if a <? b then a else b.

Definition Max64 (a b : Z) : Z := if a >? b then a else b.

(** *** WeightedRandomSelection *)

(** [totalWeight := 0.0; for _, w := range availableWeights { totalWeight += w }] *)
Definition sum_weights (availableWeights : list float) : float :=
  fold_left (fun acc w => (acc + w)%float) availableWeights 0%float.

(** The cumulative walk: the first index whose running sum reaches [r];
    [None] is the source's [selectedIdx == -1]. *)
Fixpoint walk_weights (r cumulative : float) (idx : nat)
    (availableWeights : list float) : option nat :=
  match availableWeights with
  | [] => None
  | w :: ws =>
      let cumulative := (cumulative + w)%float in
      if (r <=? cumulative)%float then Some idx
      else walk_weights r cumulative (S idx) ws
  end.

(** [append(l[:idx], l[idx+1:]...)] *)
Definition remove_at {A} (idx : nat) (l : list A) : list A :=
  take idx l ++ drop (S idx) l.

(** One iteration of the selection loop.  Indexing a slice out of its
    range panics. *)
Definition select_one (selected available : list nat) (availableWeights : list float)
    : M (list nat * list nat * list float) :=
  let totalWeight := sum_weights availableWeights in
  if (totalWeight =? 0)%float then
    idx <- Intn (Z.of_nat (length available)) ;;
    match available !! Z.to_nat idx with
    | Some a =>
        if (Z.to_nat idx <? length availableWeights)%nat then
          ret (selected ++ [a], remove_at (Z.to_nat idx) available,
               remove_at (Z.to_nat idx) availableWeights)
        else panic
    | None => panic
    end
  else
    u <- Float64 ;;
    let r := (u * totalWeight)%float in
    let selectedIdx :=
      match walk_weights r 0%float 0%nat availableWeights with
      | Some idx => idx
      | None => (length available - 1)%nat
      end in
    match available !! selectedIdx with
    | Some a =>
        if (selectedIdx <? length availableWeights)%nat then
          ret (selected ++ [a], remove_at selectedIdx available,
               remove_at selectedIdx availableWeights)
        else panic
    | None => panic
    end.

(** [for i := 0; i < count; i++ { ... }] *)
Fixpoint select_loop (count : nat) (selected available : list nat)
    (availableWeights : list float) : M (list nat) :=
  match count with
  | O => ret selected
  | S count' =>
      st <- select_one selected available availableWeights ;;
      let '(selected', available', availableWeights') := st in
      select_loop count' selected' available' availableWeights'
  end.

Definition WeightedRandomSelection (count : Z) (weights : list float) : M (list nat) :=
  if count >=? Z.of_nat (length weights) then
    ret (seq 0 (length weights))
  else if count <? 0 then
    panic (* make([]int, 0, count): cap out of range *)
  else
    select_loop (Z.to_nat count) [] (seq 0 (length weights)) weights.

(** *** AllocateBandwidth *)

(** First loop: one weight in [0.5, 1.5) per agent and their running sum. *)
Fixpoint draw_weights (n : nat) (weights : list float) (totalWeight : float)
    : M (list float * float) :=
  match n with
  | O => ret (weights, totalWeight)
  | S n' =>
      u <- Float64 ;;
      let weight := (0.5 + u)%float in
      draw_weights n' (weights ++ [weight]) (totalWeight + weight)%float
  end.

(** Second loop: the proportional share, clamped, perturbed, clamped. *)
Fixpoint allocate_shares (weights : list float) (totalWeight targetTotal : float)
    (minPerAgent maxPerAgent : Z) (randomnessFactor : float)
    (allocations : list Z) (actualTotal : Z) : M (list Z * Z) :=
  match weights with
  | [] => ret (allocations, actualTotal)
  | w :: ws =>
      let proportion := (w / totalWeight)%float in
      let allocated := int64_of_float (proportion * targetTotal)%float in
      let allocated := Clamp64 allocated minPerAgent maxPerAgent in
      u <- Float64 ;;
      let variation := (float64_of_int allocated * randomnessFactor * (u * 2 - 1))%float in
      let allocated := int64_of_float (float64_of_int allocated + variation)%float in
      let allocated := Clamp64 allocated minPerAgent maxPerAgent in
      allocate_shares ws totalWeight targetTotal minPerAgent maxPerAgent randomnessFactor
        (allocations ++ [allocated]) (wrap64 (actualTotal + allocated))
  end.

(** Third loop: rescale by [targetTotal / actualTotal] and clamp. *)
Definition normalize (allocations : list Z) (ratio : float)
    (minPerAgent maxPerAgent : Z) : list Z :=
  map (fun a => Clamp64 (int64_of_float (float64_of_int a * ratio)%float)
                  minPerAgent maxPerAgent) allocations.

Definition AllocateBandwidth (targetTotal : float) (numAgents : Z)
    (minPerAgent maxPerAgent : Z) (randomnessFactor : float) : M (list Z) :=
  if numAgents =? 0 then ret []
  else if numAgents <? 0 then
    panic (* make([]int64, numAgents): len out of range *)
  else
    ws <- draw_weights (Z.to_nat numAgents) [] 0%float ;;
    let '(weights, totalWeight) := ws in
    al <- allocate_shares weights totalWeight targetTotal minPerAgent maxPerAgent
            randomnessFactor [] 0 ;;
    let '(allocations, actualTotal) := al in
    if negb (actualTotal =? int64_of_float targetTotal) && (actualTotal >? 0) then
      let ratio := (targetTotal / float64_of_int actualTotal)%float in
      ret (normalize allocations ratio minPerAgent maxPerAgent)
    else ret allocations.

(** *** CalculateStagger *)

Fixpoint stagger_loop (n : nat) (i : Z) (baseDelay : float) (delays : list float)
    : M (list float) :=
  match n with
  | O => ret delays
  | S n' =>
      let delay := (float64_of_int i * baseDelay)%float in
      u <- Float64 ;;
      let jitter := (baseDelay * 0.25 * (u * 2 - 1))%float in
      let delay := (delay + jitter)%float in
      let delay := if (delay <? 0)%float then 0%float else delay in
      stagger_loop n' (i + 1) baseDelay (delays ++ [delay])
  end.

Definition CalculateStagger (count : Z) (totalDuration : float) : M (list float) :=
  if count =? 0 then ret []
  else if count <? 0 then
    panic (* make([]float64, count): len out of range *)
  else
    let baseDelay := (totalDuration / float64_of_int count)%float in
    stagger_loop (Z.to_nat count) 0 baseDelay [].

(** *** RandomDuration *)

Definition RandomDuration (minSeconds maxSeconds jitterFactor : float) : M float :=
  u <- Float64 ;;
  let duration := (minSeconds + u * (maxSeconds - minSeconds))%float in
  v <- Float64 ;;
  let jitter := (duration * jitterFactor * (v * 2 - 1))%float in
  let duration := (duration + jitter)%float in
  ret (ClampFloat duration minSeconds maxSeconds).

End bandwidth.

(** ** The time package

    A [time.Time] is a number of nanoseconds on the wall clock and a
    [time.Duration] a signed 64-bit number of nanoseconds. *)
Module time.

Local Open Scope world_scope.

Definition Second : Z := 1000000000.
Definition Minute : Z := 60 * Second.
Definition Hour : Z := 60 * Minute.

Definition Now : M Z :=
  fun w => Some (clock w (next_clock w),
                 mkWorld (float_draws w) (int_draws w) (clock w) (uuids w)
                   (next_float w) (next_int w) (S (next_clock w)) (next_uuid w)).

Definition Add (t d : Z) : Z := t + d.

(** [t.Sub(u)] saturates at the ends of the range of a [Duration]. *)
Definition Sub (t u : Z) : Z :=
  if t - u <? int64_min then int64_min
  else if t - u >? int64_max then int64_max
  else t - u.

Definition After (t u : Z) : bool := t >? u.

Definition Since (t : Z) : M Z := now <- Now ;; ret (Sub now t).


(** [d.Seconds()] and [d.Minutes()]: Go divides and takes remainders
    toward zero. *)
Definition Seconds (d : Z) : float :=
  (float64_of_int (Z.quot d Second) + float64_of_int (Z.rem d Second) / 1e9)%float.

Definition Minutes (d : Z) : float :=
  (float64_of_int (Z.quot d Minute) + float64_of_int (Z.rem d Minute) / 6e10)%float.

(** [time.Duration(x * float64(time.Second))] for a number of seconds [x]. *)
Definition of_seconds (x : float) : Z := int64_of_float (x * 1e9)%float.

End time.

Module uuid.

(** [uuid.New().String()] *)
Definition NewString : M string :=
  fun w => Some (uuids w (next_uuid w),
                 mkWorld (float_draws w) (int_draws w) (clock w) (uuids w)
                   (next_float w) (next_int w) (next_clock w) (S (next_uuid w))).

End uuid.

(** ** The concurrency wave function, over the real numbers

    [CalculateConcurrency] calls [math.Sin].  In this module a [float64] is
    read as the real number it stands for and the arithmetic is exact; the
    integer arguments keep their machine arithmetic. *)
Module wave.

Local Open Scope world_scope.

(** [int(x)]: the integer part, toward zero. *)
Definition trunc (x : R) : Z :=
  if Rle_dec 0 x then Int_part x else - Int_part (- x).

(** The value [CalculateConcurrency] returns when [rand.Intn(3)] returns
    [draw]. *)
Definition concurrency_of (elapsedSeconds : R) (min max : Z) (draw : Z) : Z :=
  let wave1 := sin (elapsedSeconds / 300) in
  let wave2 := sin (elapsedSeconds / 180) in
  let wave3 := sin (elapsedSeconds / 420) in
  let combined := ((wave1 + wave2 * 0.5 + wave3 * 0.3) / 1.8)%R in
  let normalized := ((combined + 1) / 2)%R in
  let concurrent := wrap64 (min + trunc (IZR (wrap64 (max - min)) * normalized)) in
  let randomAdjust := draw - 1 in
  let concurrent := wrap64 (concurrent + randomAdjust) in
  bandwidth.Clamp concurrent min max.

(** The argument [randomness] is not used by the source. *)
Definition CalculateConcurrency (elapsedSeconds : R) (min max : Z) (randomness : R)
    : M Z :=
  draw <- rand.Intn 3 ;;
  ret (concurrency_of elapsedSeconds min max draw).

(** The wave function as the specification words it: three sinusoids of
    periods 300 s, 180 s and 420 s, weights 1.0, 0.5 and 0.3, normalised
    by 1.8; mapped from [-1,1] to [0,1]; interpolated linearly into
    [min,max]; perturbed by one of -1, 0, +1; clamped to [min,max]. *)
Definition sinusoid (period t : R) : R := sin (2 * PI * t / period).

Definition reference_concurrency (elapsedSeconds : R) (min max : Z) (perturbation : Z)
    : Z :=
  let combined :=
    ((1.0 * sinusoid 300 elapsedSeconds + 0.5 * sinusoid 180 elapsedSeconds
      + 0.3 * sinusoid 420 elapsedSeconds) / 1.8)%R in
  let unit := ((combined + 1) / 2)%R in
  let interpolated := min + trunc (IZR (max - min) * unit) in
  bandwidth.Clamp (interpolated + perturbation) min max.

End wave.

(** ** internal/protocol: the commands sent to agents

    The [Duration] of a download command is kept as the duration itself
    rather than as its printed form. *)
Module protocol.

Module DownloadCommand.
Record t := mk {
  CommandID : string;
  URL : string;
  Duration : Z;
  Bandwidth : Z
}.
End DownloadCommand.

Module StopCommand.
Record t := mk { CommandID : string }.
End StopCommand.

End protocol.

(** ** internal/controller: configuration and scheduler state *)
Module controller.

Local Open Scope world_scope.

Module AgentConfig.
Record t := mk {
  ID : string;
  Host : string;
  Name : string;
  MaxBandwidth : Z;
  Region : string
}.
End AgentConfig.

Module BandwidthConfig.
Record t := mk { TargetGbps : float; Tolerance : float }.
End BandwidthConfig.

Module SchedulerConfig.
Record t := mk {
  MinConcurrent : Z;
  MaxConcurrent : Z;
  RotationIntervalMin : Z;
  RotationIntervalMax : Z;
  ServerBandwidthMin : Z;
  ServerBandwidthMax : Z;
  RampUpDuration : Z;
  RampDownDuration : Z;
  TimingRandomness : float;
  BandwidthRandomness : float
}.
End SchedulerConfig.

Module Config.
Record t := mk {
  Bandwidth : BandwidthConfig.t;
  Scheduler : SchedulerConfig.t;
  Agents : list AgentConfig.t;
  URLs : list string
}.

Definition GetTargetBandwidthMbps (c : t) : float :=
  (BandwidthConfig.TargetGbps (Bandwidth c) * 1000)%float.
End Config.

Module AgentAllocation.
Record t := mk {
  AgentID : string;
  AllocatedBW : Z;
  StartTime : Z;
  PlannedDuration : Z;
  CurrentCommand : string;
  URL : string
}.
End AgentAllocation.

Module AgentStatus.
Record t := mk {
  AgentID : string;
  LastUsed : Z;
  TotalRuntime : Z;
  UseCount : Z;
  Region : string
}.
End AgentStatus.

Module SchedulerState.
Record t := mk {
  Phase : string;
  ActiveAgents : gmap string AgentAllocation.t;
  NextRotation : Z;
  TargetTotalBW : float;
  CurrentTotalBW : float;
  LastRotation : Z;
  RotationCount : Z
}.

Definition set_Phase (p : string) (st : t) : t :=
  mk p (ActiveAgents st) (NextRotation st) (TargetTotalBW st) (CurrentTotalBW st)
    (LastRotation st) (RotationCount st).

Definition set_ActiveAgents (a : gmap string AgentAllocation.t) (st : t) : t :=
  mk (Phase st) a (NextRotation st) (TargetTotalBW st) (CurrentTotalBW st)
    (LastRotation st) (RotationCount st).

Definition set_NextRotation (n : Z) (st : t) : t :=
  mk (Phase st) (ActiveAgents st) n (TargetTotalBW st) (CurrentTotalBW st)
    (LastRotation st) (RotationCount st).

Definition set_CurrentTotalBW (b : float) (st : t) : t :=
  mk (Phase st) (ActiveAgents st) (NextRotation st) (TargetTotalBW st) b
    (LastRotation st) (RotationCount st).
End SchedulerState.

Module AggregatedMetrics.
Record t := mk {
  TotalBandwidth : float;
  AgentBreakdown : gmap string float
}.
End AggregatedMetrics.

(** The scheduler.  Its server and metrics collaborators are inputs of the
    operations that consult them; its mutex is the grain of the steps. *)
Module Scheduler.
Record t := mk {
  config : Config.t;
  state : SchedulerState.t;
  startTime : Z;
  agentStatus : gmap string AgentStatus.t
}.

Definition set_state (st : SchedulerState.t) (s : t) : t :=
  mk (config s) st (startTime s) (agentStatus s).
End Scheduler.

Import Scheduler.

Definition sched_cfg (s : Scheduler.t) : SchedulerConfig.t :=
  Config.Scheduler (config s).

(** *** NewScheduler *)

Fixpoint init_status (agents : list AgentConfig.t) (acc : gmap string AgentStatus.t)
    : M (gmap string AgentStatus.t) :=
  match agents with
  | [] => ret acc
  | agent :: rest =>
      now <- time.Now ;;
      init_status rest
        (<[AgentConfig.ID agent :=
             AgentStatus.mk (AgentConfig.ID agent) (time.Add now (- (24 * time.Hour)))
               0 0 (AgentConfig.Region agent)]> acc)
  end.

Definition NewScheduler (config : Config.t) : M Scheduler.t :=
  now <- time.Now ;;
  let state :=
    SchedulerState.mk "idle" ∅ now (Config.GetTargetBandwidthMbps config) 0%float 0 0 in
  agentStatus <- init_status (Config.Agents config) ∅ ;;
  start <- time.Now ;;
  ret (Scheduler.mk config state start agentStatus).

(** *** Selection *)

Definition isRegionOverused (s : Scheduler.t) (region : string) : bool :=
  if String.eqb region "" then false
  else
    let active := map_to_list (SchedulerState.ActiveAgents (state s)) in
    let regionCount :=
      length (List.filter (fun kv : string * AgentAllocation.t =>
                match agentStatus s !! kv.1 with
                | Some status => String.eqb (AgentStatus.Region status) region
                | None => false
                end) active) in
    let totalActive := length active in
    if (totalActive =? 0)%nat then false
    else (0.5 <? float64_of_int (Z.of_nat regionCount)
                 / float64_of_int (Z.of_nat totalActive))%float.

(** The weight of one candidate.  A configured agent without a status
    entry would be a nil dereference. *)
Definition agent_weight (s : Scheduler.t) (agent : AgentConfig.t) : M float :=
  let weight := 1%float in
  let weight := (weight * (float64_of_int (AgentConfig.MaxBandwidth agent) / 1000))%float in
  match agentStatus s !! AgentConfig.ID agent with
  | None => panic
  | Some status =>
      since <- time.Since (AgentStatus.LastUsed status) ;;
      let timeSinceUse := time.Minutes since in
      let weight :=
        (weight * bandwidth.ClampFloat (timeSinceUse / 10) 0.5 2)%float in
      let weight :=
        if negb (isRegionOverused s (AgentConfig.Region agent))
        then (weight * 1.5)%float else weight in
      ret weight
  end.

Fixpoint agent_weights (s : Scheduler.t) (available : list AgentConfig.t)
    : M (list float) :=
  match available with
  | [] => ret []
  | agent :: rest =>
      w <- agent_weight s agent ;;
      ws <- agent_weights s rest ;;
      ret (w :: ws)
  end.

(** [selected[i] = available[idx]] *)
Fixpoint pick_agents (available : list AgentConfig.t) (selectedIndices : list nat)
    : M (list AgentConfig.t) :=
  match selectedIndices with
  | [] => ret []
  | idx :: rest =>
      match available !! idx with
      | None => panic
      | Some agent => picked <- pick_agents available rest ;; ret (agent :: picked)
      end
  end.

Definition selectAgents (s : Scheduler.t) (connectedAgents : list string) (count : Z)
    : M (list AgentConfig.t) :=
  let available :=
    filter (fun agent => AgentConfig.ID agent ∈ connectedAgents)
      (Config.Agents (config s)) in
  if (length available =? 0)%nat then ret []
  else
    let count :=
      if count >? Z.of_nat (length available) then Z.of_nat (length available)
      else count in
    weights <- agent_weights s available ;;
    selectedIndices <- bandwidth.WeightedRandomSelection count weights ;;
    pick_agents available selectedIndices.

(** *** Allocation *)

(** The loop of [allocateBandwidth] that applies each agent's capacity. *)
Fixpoint cap_allocations (agents : list AgentConfig.t) (i : nat)
    (bandwidthAllocations : list Z) (allocations : gmap string AgentAllocation.t)
    : M (gmap string AgentAllocation.t) :=
  match agents with
  | [] => ret allocations
  | agent :: rest =>
      match bandwidthAllocations !! i with
      | None => panic
      | Some allocated =>
          let allocated :=
            if allocated >? AgentConfig.MaxBandwidth agent
            then AgentConfig.MaxBandwidth agent else allocated in
          now <- time.Now ;;
          cap_allocations rest (S i) bandwidthAllocations
            (<[AgentConfig.ID agent :=
                 AgentAllocation.mk (AgentConfig.ID agent) allocated now 0 "" ""]>
               allocations)
      end
  end.

Definition allocateBandwidth (s : Scheduler.t) (agents : list AgentConfig.t)
    : M (gmap string AgentAllocation.t) :=
  if (length agents =? 0)%nat then ret ∅
  else
    let targetTotal := SchedulerState.TargetTotalBW (state s) in
    let numAgents := Z.of_nat (length agents) in
    bandwidthAllocations <-
      bandwidth.AllocateBandwidth targetTotal numAgents
        (SchedulerConfig.ServerBandwidthMin (sched_cfg s))
        (SchedulerConfig.ServerBandwidthMax (sched_cfg s))
        (SchedulerConfig.BandwidthRandomness (sched_cfg s)) ;;
    cap_allocations agents 0 bandwidthAllocations ∅.

(** *** The difference with the active set

    Go ranges over a map in an unspecified order; the order here is that
    of [map_to_list]. *)

Definition findAgentsToStop (s : Scheduler.t)
    (newAllocations : gmap string AgentAllocation.t) : list string :=
  omap (fun kv : string * AgentAllocation.t =>
          match newAllocations !! kv.1 with
          | Some _ => None
          | None => Some kv.1
          end)
    (map_to_list (SchedulerState.ActiveAgents (state s))).

Definition findAgentsToStart (s : Scheduler.t)
    (newAllocations : gmap string AgentAllocation.t) : list AgentAllocation.t :=
  omap (fun kv : string * AgentAllocation.t =>
          match SchedulerState.ActiveAgents (state s) !! kv.1 with
          | Some _ => None
          | None => Some kv.2
          end)
    (map_to_list newAllocations).

(** *** Ramp-down and ramp-up

    The commands go out from tasks that sleep first: what these operations
    produce is the list of the sends they schedule, each with its delay. *)

Fixpoint with_delays {A} (items : list A) (i : nat) (delays : list float)
    : M (list (A * Z)) :=
  match items with
  | [] => ret []
  | x :: rest =>
      match delays !! i with
      | None => panic
      | Some d =>
          scheduled <- with_delays rest (S i) delays ;;
          ret ((x, time.of_seconds d) :: scheduled)
      end
  end.

Definition rampDownAgents (s : Scheduler.t) (agentIDs : list string)
    : M (list (string * Z)) :=
  if (length agentIDs =? 0)%nat then ret []
  else
    delays <- bandwidth.CalculateStagger (Z.of_nat (length agentIDs))
                (time.Seconds (SchedulerConfig.RampDownDuration (sched_cfg s))) ;;
    with_delays agentIDs 0 delays.

Definition rampUpAgents (s : Scheduler.t) (allocations : list AgentAllocation.t)
    : M (list (AgentAllocation.t * Z)) :=
  if (length allocations =? 0)%nat then ret []
  else
    delays <- bandwidth.CalculateStagger (Z.of_nat (length allocations))
                (time.Seconds (SchedulerConfig.RampUpDuration (sched_cfg s))) ;;
    with_delays allocations 0 delays.

Definition stopAgent (agentID : string) : string * protocol.StopCommand.t :=
  (agentID, protocol.StopCommand.mk "").

(** *** Rescheduling *)

Definition scheduleNextRotation (s : Scheduler.t) : M Scheduler.t :=
  let minInterval := time.Seconds (SchedulerConfig.RotationIntervalMin (sched_cfg s)) in
  let maxInterval := time.Seconds (SchedulerConfig.RotationIntervalMax (sched_cfg s)) in
  let jitterFactor := SchedulerConfig.TimingRandomness (sched_cfg s) in
  durationSeconds <- bandwidth.RandomDuration minInterval maxInterval jitterFactor ;;
  let nextInterval := time.of_seconds durationSeconds in
  now <- time.Now ;;
  ret (set_state (SchedulerState.set_NextRotation (time.Add now nextInterval) (state s)) s).

(** *** The rotation pipeline

    [newConcurrency] is what [s.calculateConcurrency()] returned (the wave
    function of module [wave]) and [connectedAgents] what the server
    answered to [GetConnectedAgents()]. *)

Record RotationLog := mkLog {
  stops : list (string * Z);
  starts : list (AgentAllocation.t * Z)
}.

Definition set_phase (p : string) (s : Scheduler.t) : Scheduler.t :=
  set_state (SchedulerState.set_Phase p (state s)) s.

(** Phase 1: the new schedule. *)
Definition plan_rotation (s : Scheduler.t) (connectedAgents : list string)
    (newConcurrency : Z) : M (gmap string AgentAllocation.t) :=
  selectedAgents <- selectAgents s connectedAgents newConcurrency ;;
  allocateBandwidth s selectedAgents.

(** Phase 4: the new allocations become the active ones. *)
Definition commit_rotation (s : Scheduler.t)
    (allocations : gmap string AgentAllocation.t) : M Scheduler.t :=
  now <- time.Now ;;
  let st := state s in
  ret (set_state
         (SchedulerState.mk "stable" allocations (SchedulerState.NextRotation st)
            (SchedulerState.TargetTotalBW st) (SchedulerState.CurrentTotalBW st)
            now (wrap64 (SchedulerState.RotationCount st + 1))) s).

Definition performRotation (s : Scheduler.t) (connectedAgents : list string)
    (newConcurrency : Z) : M (Scheduler.t * RotationLog) :=
  let s := set_phase "ramping_down" s in
  allocations <- plan_rotation s connectedAgents newConcurrency ;;
  let toStop := findAgentsToStop s allocations in
  stops <- (if (0 <? length toStop)%nat then rampDownAgents s toStop else ret []) ;;
  let s := set_phase "ramping_up" s in
  let toStart := findAgentsToStart s allocations in
  starts <- (if (0 <? length toStart)%nat then rampUpAgents s toStart else ret []) ;;
  s <- commit_rotation s allocations ;;
  s <- scheduleNextRotation s ;;
  ret (s, mkLog stops starts).

(** *** The adaptive loop *)

(** The boosts [adjustBandwidthIfNeeded] starts: for each, the agent and
    the [int64(deficit)] handed to [boostAgentBandwidth]. *)
Definition adjustBandwidthIfNeeded (s : Scheduler.t) (agg : AggregatedMetrics.t)
    : list (string * Z) :=
  if negb (String.eqb (SchedulerState.Phase (state s)) "stable") then []
  else
    omap (fun kv : string * AgentAllocation.t =>
            let agentID := kv.1 in
            let alloc := kv.2 in
            match AggregatedMetrics.AgentBreakdown agg !! agentID with
            | None => None
            | Some agentBW =>
                let targetBW := float64_of_int (AgentAllocation.AllocatedBW alloc) in
                let tolerance := BandwidthConfig.Tolerance (Config.Bandwidth (config s)) in
                let minAcceptable := (targetBW * (1 - tolerance))%float in
                if (agentBW <? minAcceptable)%float then
                  let deficit := (targetBW - agentBW)%float in
                  let deficitPercent := (deficit / targetBW * 100)%float in
                  if (20 <? deficitPercent)%float
                  then Some (agentID, int64_of_float deficit)
                  else None
                else None
            end)
      (map_to_list (SchedulerState.ActiveAgents (state s))).

Inductive TickOutcome :=
| StartRotation
| Boosts (spawned : list (string * Z)).

Definition evaluateAndAdjust (s : Scheduler.t) (agg : AggregatedMetrics.t)
    : M (Scheduler.t * TickOutcome) :=
  now <- time.Now ;;
  if time.After now (SchedulerState.NextRotation (state s)) then
    ret (s, StartRotation)
  else
    let s :=
      set_state (SchedulerState.set_CurrentTotalBW
                   (AggregatedMetrics.TotalBandwidth agg) (state s)) s in
    ret (s, Boosts (adjustBandwidthIfNeeded s agg)).

Definition selectRandomURL (s : Scheduler.t) : M string :=
  let urls := Config.URLs (config s) in
  if (length urls =? 0)%nat then
    ret "https://dl.google.com/linux/direct/google-chrome-stable_current_amd64.deb"
  else
    idx <- rand.Intn (Z.of_nat (length urls)) ;;
    match urls !! Z.to_nat idx with
    | Some url => ret url
    | None => panic
    end.


(** *** Notifications from the server *)

Definition OnAgentConnect (s : Scheduler.t) (agentID : string) : Scheduler.t := s.

Definition OnAgentDisconnect (s : Scheduler.t) (agentID : string) : Scheduler.t :=
  set_state
    (SchedulerState.set_ActiveAgents
       (delete agentID (SchedulerState.ActiveAgents (state s))) (state s)) s.

Definition stopAllAgents (s : Scheduler.t) : list (string * protocol.StopCommand.t) :=
  map (fun kv : string * AgentAllocation.t => stopAgent kv.1)
    (map_to_list (SchedulerState.ActiveAgents (state s))).

(** *** The scheduler and its tasks, interleaved

    [Run] calls [performRotation] once, then every tick calls
    [evaluateAndAdjust], which starts [performRotation] as a task of its
    own when the deadline has passed.  A task advances from one critical
    section of the source to the next; [time.Sleep] notes the time as it
    starts and ends once the clock has reached the time to wake. *)

Inductive rotation_pc :=
| AtStart
| AtPlan
| AtFindStop (allocations : gmap string AgentAllocation.t)
| AtRampDown (allocations : gmap string AgentAllocation.t) (toStop : list string)
| Sleeping (allocations : gmap string AgentAllocation.t) (wake : Z)
| AtRampUp (allocations : gmap string AgentAllocation.t)
| AtFindStart (allocations : gmap string AgentAllocation.t)
| AtCommit (allocations : gmap string AgentAllocation.t)
| AtSchedule.

(** The time the next reading of the clock will show. *)
Definition clock_peek (w : World) : Z := clock w (next_clock w).

(** One step of a rotation task: the scheduler after it and the rest of the
    task, [None] once the task has returned.  A sleeping task that is not
    yet due cannot step. *)
Definition rotation_step (s : Scheduler.t) (connectedAgents : list string)
    (newConcurrency : Z) (pc : rotation_pc) : M (Scheduler.t * option rotation_pc) :=
  match pc with
  | AtStart => ret (set_phase "ramping_down" s, Some AtPlan)
  | AtPlan =>
      allocations <- plan_rotation s connectedAgents newConcurrency ;;
      ret (s, Some (AtFindStop allocations))
  | AtFindStop allocations =>
      ret (s, Some (AtRampDown allocations (findAgentsToStop s allocations)))
  | AtRampDown allocations toStop =>
      if (0 <? length toStop)%nat then
        _ <- rampDownAgents s toStop ;;
        now <- time.Now ;;
        ret (s, Some (Sleeping allocations
                        (time.Add now (SchedulerConfig.RampDownDuration (sched_cfg s)))))
      else ret (s, Some (AtRampUp allocations))
  | Sleeping allocations wake =>
      fun w => if wake <=? clock_peek w then Some (s, Some (AtRampUp allocations), w)
               else None
  | AtRampUp allocations =>
      ret (set_phase "ramping_up" s, Some (AtFindStart allocations))
  | AtFindStart allocations =>
      let toStart := findAgentsToStart s allocations in
      _ <- (if (0 <? length toStart)%nat then rampUpAgents s toStart else ret []) ;;
      ret (s, Some (AtCommit allocations))
  | AtCommit allocations =>
      s <- commit_rotation s allocations ;;
      ret (s, Some AtSchedule)
  | AtSchedule =>
      s <- scheduleNextRotation s ;;
      ret (s, None)
  end.

Record System := mkSystem {
  sched : Scheduler.t;
  rotations : list rotation_pc;
  world : World
}.

Inductive Event :=
| Tick (agg : AggregatedMetrics.t)
| Rotation (task : nat) (connectedAgents : list string) (newConcurrency : Z)
| Disconnect (agentID : string).

Definition step (e : Event) (sys : System) : option System :=
  match e with
  | Tick agg =>
      match evaluateAndAdjust (sched sys) agg (world sys) with
      | Some ((s, StartRotation), w) => Some (mkSystem s (rotations sys ++ [AtStart]) w)
      | Some ((s, Boosts _), w) => Some (mkSystem s (rotations sys) w)
      | None => None
      end
  | Rotation task connectedAgents newConcurrency =>
      match rotations sys !! task with
      | None => None
      | Some pc =>
          match rotation_step (sched sys) connectedAgents newConcurrency pc (world sys) with
          | Some ((s, Some pc'), w) => Some (mkSystem s (<[task := pc']> (rotations sys)) w)
          | Some ((s, None), w) => Some (mkSystem s (delete task (rotations sys)) w)
          | None => None
          end
      end
  | Disconnect agentID =>
      Some (mkSystem (OnAgentDisconnect (sched sys) agentID) (rotations sys) (world sys))
  end.

Fixpoint run (events : list Event) (sys : System) : option System :=
  match events with
  | [] => Some sys
  | e :: rest =>
      match step e sys with
      | Some sys' => run rest sys'
      | None => None
      end
  end.

(** The rotations in flight. *)
Definition in_flight (sys : System) : nat := length (rotations sys).

(** [Run], up to its loop: the scheduler is built and rotates once, with no
    task in flight when the ticks begin. *)
Definition Run_start (config : Config.t) (connectedAgents : list string)
    (newConcurrency : Z) : M Scheduler.t :=
  s <- NewScheduler config ;;
  r <- performRotation s connectedAgents newConcurrency ;;
  ret r.1.

End controller.

(** ** internal/controller/scheduler.go, continued: one rotation among the
    other tasks

    [performRotation] holds the lock only while it sets the phase, computes
    the agents to stop and commits; the ramp-down sleep and the computation
    of the agents to start run with the lock released, so ticks,
    disconnections and other rotations take their steps in between.  Here
    one rotation task is followed through such steps, with the sends it
    schedules. *)
Module rotation.

Import controller.
Local Open Scope world_scope.

(** A step of a rotation task with the sends it schedules, which
    [rotation_step] leaves out: the stops of the ramp-down and the starts
    of the ramp-up. *)
Definition rotation_step_sends (s : Scheduler.t) (connectedAgents : list string)
    (newConcurrency : Z) (pc : rotation_pc)
    : M (Scheduler.t * option rotation_pc * RotationLog) :=
  match pc with
  | AtRampDown allocations toStop =>
      if (0 <? length toStop)%nat then
        stops <- rampDownAgents s toStop ;;
        now <- time.Now ;;
        ret (s, Some (Sleeping allocations
                        (time.Add now (SchedulerConfig.RampDownDuration (sched_cfg s)))),
             mkLog stops [])
      else ret (s, Some (AtRampUp allocations), mkLog [] [])
  | AtFindStart allocations =>
      let toStart := findAgentsToStart s allocations in
      starts <- (if (0 <? length toStart)%nat then rampUpAgents s toStart else ret []) ;;
      ret (s, Some (AtCommit allocations), mkLog [] starts)
  | _ =>
      r <- rotation_step s connectedAgents newConcurrency pc ;;
      ret (r, mkLog [] [])
  end.

(** The rotation followed: the rest of the system (the scheduler, the other
    rotation tasks, the world), what is left of the task, [None] once it
    has returned, and the sends it has scheduled so far. *)
Record Followed := mkFollowed {
  others : System;
  task : option rotation_pc;
  sent : RotationLog
}.

(** Either the rest of the system takes a step, or the task does. *)
Inductive Move :=
| Others (e : Event)
| Own (connectedAgents : list string) (newConcurrency : Z).

Definition move (m : Move) (f : Followed) : option Followed :=
  match m with
  | Others e =>
      match step e (others f) with
      | Some sys => Some (mkFollowed sys (task f) (sent f))
      | None => None
      end
  | Own connectedAgents newConcurrency =>
      match task f with
      | None => None
      | Some pc =>
          match rotation_step_sends (sched (others f)) connectedAgents newConcurrency pc
                  (world (others f)) with
          | Some ((s, pc', log), w) =>
              Some (mkFollowed (mkSystem s (rotations (others f)) w) pc'
                      (mkLog (stops (sent f) ++ stops log)
                         (starts (sent f) ++ starts log)))
          | None => None
          end
      end
  end.

Fixpoint follow (moves : list Move) (f : Followed) : option Followed :=
  match moves with
  | [] => Some f
  | m :: rest =>
      match move m f with
      | Some f' => follow rest f'
      | None => None
      end
  end.

(** A rotation that [evaluateAndAdjust] (or [Run]) has just started in the
    system [sys]. *)
Definition start_following (sys : System) : Followed :=
  mkFollowed sys (Some AtStart) (mkLog [] []).

End rotation.

(** ** internal/controller/config.go

    The whole configuration file.  [controller.Config] above keeps the four
    sections the scheduler reads; [LoadConfig] reads the file, parses it and
    fills the defaults in, and [defaults] is that last part. *)
Module config.

Module ServerConfig.
Record t := mk {
  Host : string;
  WSPort : Z;
  HTTPPort : Z;
  AuthToken : string
}.
End ServerConfig.

Module MetricsConfig.
Record t := mk {
  CollectionInterval : string;
  RetentionPeriod : string;
  AggregationWindow : string
}.
End MetricsConfig.

Module LoggingConfig.
Record t := mk {
  Level : string;
  Format : string;
  Output : string
}.
End LoggingConfig.

Module Config.
Record t := mk {
  Server : ServerConfig.t;
  Bandwidth : controller.BandwidthConfig.t;
  Scheduler : controller.SchedulerConfig.t;
  Agents : list controller.AgentConfig.t;
  URLs : list string;
  Metrics : MetricsConfig.t;
  Logging : LoggingConfig.t
}.
End Config.

(** The configuration as the scheduler holds it. *)
Definition scheduler_view (c : Config.t) : controller.Config.t :=
  controller.Config.mk (Config.Bandwidth c) (Config.Scheduler c) (Config.Agents c)
    (Config.URLs c).

Definition default_string (value fallback : string) : string :=
  if String.eqb value "" then fallback else value.

Definition default_int (value fallback : Z) : Z :=
  if value =? 0 then fallback else value.

Definition default_float (value fallback : float) : float :=
  if (value =? 0)%float then fallback else value.

(** [LoadConfig], after the file is parsed: "Set defaults". *)
Definition defaults (c : Config.t) : Config.t :=
  let sv := Config.Server c in
  let bw := Config.Bandwidth c in
  let sc := Config.Scheduler c in
  let mt := Config.Metrics c in
  let lg := Config.Logging c in
  Config.mk
    (ServerConfig.mk
       (default_string (ServerConfig.Host sv) "0.0.0.0")
       (default_int (ServerConfig.WSPort sv) 8080)
       (default_int (ServerConfig.HTTPPort sv) 9090)
       (ServerConfig.AuthToken sv))
    (controller.BandwidthConfig.mk
       (default_float (controller.BandwidthConfig.TargetGbps bw) 10)
       (default_float (controller.BandwidthConfig.Tolerance bw) 0x1.3333333333333p-3 (* 0.15 *)))
    (controller.SchedulerConfig.mk
       (default_int (controller.SchedulerConfig.MinConcurrent sc) 2)
       (default_int (controller.SchedulerConfig.MaxConcurrent sc) 8)
       (default_int (controller.SchedulerConfig.RotationIntervalMin sc) (30 * time.Second))
       (default_int (controller.SchedulerConfig.RotationIntervalMax sc) (180 * time.Second))
       (default_int (controller.SchedulerConfig.ServerBandwidthMin sc) 400)
       (default_int (controller.SchedulerConfig.ServerBandwidthMax sc) 1200)
       (default_int (controller.SchedulerConfig.RampUpDuration sc) (15 * time.Second))
       (default_int (controller.SchedulerConfig.RampDownDuration sc) (20 * time.Second))
       (default_float (controller.SchedulerConfig.TimingRandomness sc)
          0x1.3333333333333p-2 (* 0.3 *))
       (default_float (controller.SchedulerConfig.BandwidthRandomness sc) 0.25))
    (Config.Agents c)
    (Config.URLs c)
    (MetricsConfig.mk
       (default_string (MetricsConfig.CollectionInterval mt) "5s")
       (default_string (MetricsConfig.RetentionPeriod mt) "24h")
       (default_string (MetricsConfig.AggregationWindow mt) "1m"))
    (LoggingConfig.mk
       (default_string (LoggingConfig.Level lg) "info")
       (default_string (LoggingConfig.Format lg) "json")
       (LoggingConfig.Output lg)).

(** The loop of [Validate] over the agents; [agentIDs] is the set of the ids
    seen so far.  [None] is Go's [nil] error, [Some msg] an error of that
    message. *)
Fixpoint validate_agents (agents : list controller.AgentConfig.t) (agentIDs : gset string)
    : option string :=
  match agents with
  | [] => None
  | agent :: rest =>
      let id := controller.AgentConfig.ID agent in
      if String.eqb id "" then Some "agent ID is required"
      else if decide (id ∈ agentIDs) then Some ("duplicate agent ID: " +:+ id)
      else if controller.AgentConfig.MaxBandwidth agent <=? 0 then
        Some ("agent " +:+ id +:+ " must have max_bandwidth > 0")
      else validate_agents rest ({[ id ]} ∪ agentIDs)
  end.

Definition Validate (c : Config.t) : option string :=
  if String.eqb (ServerConfig.AuthToken (Config.Server c)) "" then
    Some "server.auth_token is required"
  else if (length (Config.Agents c) =? 0)%nat then
    Some "at least one agent must be configured"
  else if (length (Config.URLs c) =? 0)%nat then
    Some "at least one download URL must be configured"
  else if controller.SchedulerConfig.MinConcurrent (Config.Scheduler c)
          >? controller.SchedulerConfig.MaxConcurrent (Config.Scheduler c) then
    Some "scheduler.min_concurrent cannot be greater than max_concurrent"
  else if controller.SchedulerConfig.MinConcurrent (Config.Scheduler c)
          >? Z.of_nat (length (Config.Agents c)) then
    Some "scheduler.min_concurrent cannot be greater than number of agents"
  else validate_agents (Config.Agents c) ∅.

End config.

(** ** internal/controller/metrics.go

    The aggregator of the figures the agents report.  [controller.AggregatedMetrics]
    above keeps the two fields of an aggregate that the scheduler reads. *)
Module metrics.

Local Open Scope world_scope.

(** [protocol.CommandMetrics] and [protocol.MetricsPayload] *)
Module CommandMetrics.
Record t := mk {
  CommandID : string;
  URL : string;
  BytesDownloaded : Z;
  CurrentSpeed : float;
  Progress : float
}.
End CommandMetrics.

Module MetricsPayload.
Record t := mk {
  CurrentBandwidth : float;
  AverageBandwidth : float;
  BytesDownloaded : Z;
  ActiveCommands : Z;
  CommandMetrics : list CommandMetrics.t
}.
End MetricsPayload.

Module AgentMetrics.
Record t := mk {
  AgentID : string;
  LastUpdate : Z;
  CurrentBandwidth : float;
  AverageBandwidth : float;
  BytesTotal : Z;
  ActiveCommands : Z;
  CommandMetrics : list CommandMetrics.t
}.
End AgentMetrics.

Module AggregatedMetrics.
Record t := mk {
  Timestamp : Z;
  TotalBandwidth : float;
  AverageBandwidth : float;
  ActiveAgents : Z;
  TotalAgents : Z;
  AgentBreakdown : gmap string float
}.
End AggregatedMetrics.

Module BandwidthStats.
Record t := mk {
  Average : float;
  Min : float;
  Max : float;
  StandardDeviation : float;
  SampleCount : Z
}.
End BandwidthStats.

Module MetricsAggregator.
Record t := mk {
  agentMetrics : gmap string AgentMetrics.t;
  history : list AggregatedMetrics.t;
  maxHistory : Z
}.
End MetricsAggregator.

Import MetricsAggregator.

Definition NewMetricsAggregator : MetricsAggregator.t :=
  MetricsAggregator.mk ∅ [] 1440.

Definition UpdateAgentMetrics (m : MetricsAggregator.t) (agentID : string)
    (metrics : MetricsPayload.t) : M MetricsAggregator.t :=
  now <- time.Now ;;
  ret (MetricsAggregator.mk
         (<[agentID :=
              AgentMetrics.mk agentID now
                (MetricsPayload.CurrentBandwidth metrics)
                (MetricsPayload.AverageBandwidth metrics)
                (MetricsPayload.BytesDownloaded metrics)
                (MetricsPayload.ActiveCommands metrics)
                (MetricsPayload.CommandMetrics metrics)]> (agentMetrics m))
         (history m) (maxHistory m)).

Definition RemoveAgent (m : MetricsAggregator.t) (agentID : string) : MetricsAggregator.t :=
  MetricsAggregator.mk (delete agentID (agentMetrics m)) (history m) (maxHistory m).

(** The running figures of the loop of [GetAggregated].  The count of the
    active agents stays below the length of the map, an [int]: it does not
    wrap. *)
Record Tally := mkTally {
  breakdown : gmap string float;
  totalBW : float;
  totalAvgBW : float;
  activeCount : Z
}.

Definition tally_agent (acc : Tally) (entry : string * AgentMetrics.t) : Tally :=
  let agentID := entry.1 in
  let metrics := entry.2 in
  mkTally
    (<[agentID := AgentMetrics.CurrentBandwidth metrics]> (breakdown acc))
    (totalBW acc + AgentMetrics.CurrentBandwidth metrics)%float
    (totalAvgBW acc + AgentMetrics.AverageBandwidth metrics)%float
    (if AgentMetrics.ActiveCommands metrics >? 0
     then activeCount acc + 1 else activeCount acc).

(** Go ranges over the map in an unspecified order; the order here is that
    of [map_to_list]. *)
Definition GetAggregated (m : MetricsAggregator.t) : M AggregatedMetrics.t :=
  now <- time.Now ;;
  let agents := map_to_list (agentMetrics m) in
  let sums := fold_left tally_agent agents (mkTally ∅ 0%float 0%float 0) in
  let averageBandwidth :=
    if (0 <? length agents)%nat
    then (totalAvgBW sums / float64_of_int (Z.of_nat (length agents)))%float
    else 0%float in
  ret (AggregatedMetrics.mk now (totalBW sums) averageBandwidth (activeCount sums)
         (Z.of_nat (length agents)) (breakdown sums)).

(** A missing agent is Go's [nil]. *)
Definition GetAgentMetrics (m : MetricsAggregator.t) (agentID : string)
    : option AgentMetrics.t :=
  agentMetrics m !! agentID.

(** [history[len(history)-maxHistory:]] panics when the bound is out of
    range. *)
Definition RecordSnapshot (m : MetricsAggregator.t) : M MetricsAggregator.t :=
  agg <- GetAggregated m ;;
  let history := history m ++ [agg] in
  if Z.of_nat (length history) >? maxHistory m then
    let start := Z.of_nat (length history) - maxHistory m in
    if (start <? 0) || (start >? Z.of_nat (length history)) then panic
    else ret (MetricsAggregator.mk (agentMetrics m) (drop (Z.to_nat start) history)
                (maxHistory m))
  else ret (MetricsAggregator.mk (agentMetrics m) history (maxHistory m)).

Definition GetHistory (m : MetricsAggregator.t) (duration : Z)
    : M (list AggregatedMetrics.t) :=
  now <- time.Now ;;
  let cutoff := time.Add now (wrap64 (- duration)) in
  ret (List.filter (fun snapshot => time.After (AggregatedMetrics.Timestamp snapshot) cutoff)
         (history m)).

(** [make([]AggregatedMetrics, count)] panics for a negative count. *)
Definition GetRecentHistory (m : MetricsAggregator.t) (count : Z)
    : option (list AggregatedMetrics.t) :=
  let count :=
    if count >? Z.of_nat (length (history m)) then Z.of_nat (length (history m))
    else count in
  if count =? 0 then Some []
  else
    let start := Z.of_nat (length (history m)) - count in
    if count <? 0 then None
    else Some (take (Z.to_nat count) (drop (Z.to_nat start) (history m))).

(** The first loop of [GetStats]: the sum, the smallest and the largest. *)
Fixpoint stats_extremes (history : list AggregatedMetrics.t) (total min max : float)
    : float * float * float :=
  match history with
  | [] => (total, min, max)
  | snapshot :: rest =>
      let bw := AggregatedMetrics.TotalBandwidth snapshot in
      let total := (total + bw)%float in
      let min := if (bw <? min)%float then bw else min in
      let max := if (max <? bw)%float then bw else max in
      stats_extremes rest total min max
  end.

(** The second loop: the sum of the squared differences to the average. *)
Definition variance_sum (history : list AggregatedMetrics.t) (avg : float) : float :=
  fold_left (fun varianceSum snapshot =>
               let diff := (AggregatedMetrics.TotalBandwidth snapshot - avg)%float in
               (varianceSum + diff * diff)%float)
    history 0%float.

Definition GetStats (m : MetricsAggregator.t) (duration : Z) : M BandwidthStats.t :=
  history <- GetHistory m duration ;;
  match history with
  | [] => ret (BandwidthStats.mk 0 0 0 0 0)
  | first :: _ =>
      let '(total, min, max) :=
        stats_extremes history 0%float
          (AggregatedMetrics.TotalBandwidth first) (AggregatedMetrics.TotalBandwidth first) in
      let avg := (total / float64_of_int (Z.of_nat (length history)))%float in
      let varianceSum := variance_sum history avg in
      let stdDev :=
        if (1 <? length history)%nat
        then (varianceSum / float64_of_int (Z.of_nat (length history) - 1))%float
        else 0%float in
      ret (BandwidthStats.mk avg min max stdDev (Z.of_nat (length history)))
  end.

(** What the scheduler reads of an aggregate. *)
Definition scheduler_view (agg : AggregatedMetrics.t) : controller.AggregatedMetrics.t :=
  controller.AggregatedMetrics.mk (AggregatedMetrics.TotalBandwidth agg)
    (AggregatedMetrics.AgentBreakdown agg).

End metrics.

(** ** internal/controller/server.go

    The registry of the connected agents.  A [Client] is an object shared
    between the registry and the task that serves its connection: the
    objects live in a store, by address, and the registry ([sync.Map]) maps
    agent ids to addresses.  The connection itself is outside; a client's
    [SendChan], a channel of capacity 256, is the queue of the messages not
    yet written to it. *)
Module server.

Local Open Scope world_scope.

(** A message and its payload, kept as the command rather than as its JSON
    text ([json.Marshal] does not fail on these structures).  The field
    [Type] of a message is [MsgType] here. *)
Inductive Payload :=
| DownloadPayload (cmd : protocol.DownloadCommand.t)
| StopPayload (cmd : protocol.StopCommand.t).

Module Message.
Record t := mk {
  MsgType : string;
  Timestamp : Z;
  AgentID : string;
  Payload : Payload
}.
End Message.

Definition MsgTypeStopCommand : string := "stop_command".

(** [protocol.NewMessage] *)
Definition NewMessage (msgType agentID : string) (payload : Payload) : M Message.t :=
  now <- time.Now ;;
  ret (Message.mk msgType now agentID payload).

Module RegisterPayload.
Record t := mk {
  AgentID : string;
  Name : string;
  Version : string;
  Capabilities : gmap string bool;
  MaxBandwidth : Z
}.
End RegisterPayload.

Module Client.
Record t := mk {
  AgentID : string;
  AgentName : string;
  SendChan : list Message.t;
  LastSeen : Z;
  Info : option RegisterPayload.t
}.

Definition set_SendChan (q : list Message.t) (c : t) : t :=
  mk (AgentID c) (AgentName c) q (LastSeen c) (Info c).

Definition set_LastSeen (seen : Z) (c : t) : t :=
  mk (AgentID c) (AgentName c) (SendChan c) seen (Info c).
End Client.

Module Server.
Record t := mk {
  config : config.Config.t;
  clients : gmap string nat;
  objects : gmap nat Client.t
}.

Definition set_clients (r : gmap string nat) (s : t) : t :=
  mk (config s) r (objects s).

Definition set_objects (o : gmap nat Client.t) (s : t) : t :=
  mk (config s) (clients s) o.
End Server.

Import Server.

(** The capacity of a client's channel: [make(chan *protocol.Message, 256)]. *)
Definition SendChan_capacity : nat := 256.

(** [strings.TrimPrefix] *)
Definition TrimPrefix (s prefix : string) : string :=
  if String.prefix prefix s
  then String.substring (String.length prefix) (String.length s - String.length prefix) s
  else s.

(** The test of [handleWebSocket] on the Authorization header: whether the
    connection is taken on. *)
Definition authorized (s : Server.t) (authHeader : string) : bool :=
  let token := TrimPrefix authHeader "Bearer " in
  String.eqb token (config.ServerConfig.AuthToken (config.Config.Server (config s))).

(** [handleWebSocket], past the upgrade: a new client object, of no agent
    yet, at the address [p]. *)
Definition new_client (s : Server.t) (p : nat) : M Server.t :=
  now <- time.Now ;;
  ret (set_objects (<[p := Client.mk "" "" [] now None]> (objects s)) s).

(** [client.LastSeen = time.Now()], on each message read. *)
Definition touch (s : Server.t) (p : nat) : M Server.t :=
  match objects s !! p with
  | None => panic
  | Some client =>
      now <- time.Now ;;
      ret (set_objects (<[p := Client.set_LastSeen now client]> (objects s)) s)
  end.

(** [handleRegister]; the scheduler's [OnAgentConnect] that it ends with
    changes nothing. *)
Definition handleRegister (s : Server.t) (p : nat) (payload : RegisterPayload.t)
    : option Server.t :=
  match objects s !! p with
  | None => None
  | Some client =>
      let client :=
        Client.mk (RegisterPayload.AgentID payload) (RegisterPayload.Name payload)
          (Client.SendChan client) (Client.LastSeen client) (Some payload) in
      Some (Server.mk (config s)
              (<[RegisterPayload.AgentID payload := p]> (clients s))
              (<[p := client]> (objects s)))
  end.

(** [handleMetrics]: the figures of a client that has not registered are
    dropped. *)
Definition handleMetrics (s : Server.t) (m : metrics.MetricsAggregator.t) (p : nat)
    (payload : metrics.MetricsPayload.t) : M metrics.MetricsAggregator.t :=
  match objects s !! p with
  | None => panic
  | Some client =>
      if String.eqb (Client.AgentID client) "" then ret m
      else metrics.UpdateAgentMetrics m (Client.AgentID client) payload
  end.

(** [SendToAgent]: the server after the call and the error, [None] for
    [nil].  The send does not block: it fails on a full channel.  A stored
    address is that of a live object. *)
Definition SendToAgent (s : Server.t) (agentID : string) (msg : Message.t)
    : option (Server.t * option string) :=
  match clients s !! agentID with
  | None => Some (s, Some ("agent " +:+ agentID +:+ " not connected"))
  | Some p =>
      match objects s !! p with
      | None => None
      | Some client =>
          if (length (Client.SendChan client) <? SendChan_capacity)%nat then
            Some (set_objects
                    (<[p := Client.set_SendChan (Client.SendChan client ++ [msg]) client]>
                       (objects s)) s,
                  None)
          else Some (s, Some ("agent " +:+ agentID +:+ " send channel full"))
      end
  end.

(** [GetConnectedAgents]; [Range] visits the registry in an unspecified
    order, here that of [map_to_list]. *)
Definition GetConnectedAgents (s : Server.t) : list string :=
  (map_to_list (clients s)).*1.

Definition GetClient (s : Server.t) (agentID : string) : option Client.t :=
  match clients s !! agentID with
  | None => None
  | Some p => objects s !! p
  end.

(** [checkStaleClients]: each client is checked against a reading of the
    clock of its own. *)
Fixpoint check_stale (entries : list (string * nat)) (s : Server.t) : M Server.t :=
  match entries with
  | [] => ret s
  | (key, p) :: rest =>
      match objects s !! p with
      | None => panic
      | Some client =>
          since <- time.Since (Client.LastSeen client) ;;
          if since >? 120 * time.Second
          then check_stale rest (set_clients (delete key (clients s)) s)
          else check_stale rest s
      end
  end.

Definition checkStaleClients (s : Server.t) : M Server.t :=
  check_stale (map_to_list (clients s)) s.

(** The end of [handleClient], once the connection of the client at [p] is
    lost: the deferred function. *)
Definition handleClient_cleanup (s : Server.t) (sched : controller.Scheduler.t)
    (m : metrics.MetricsAggregator.t) (p : nat)
    : option (Server.t * controller.Scheduler.t * metrics.MetricsAggregator.t) :=
  match objects s !! p with
  | None => None
  | Some client =>
      if negb (String.eqb (Client.AgentID client) "") then
        Some (set_clients (delete (Client.AgentID client) (clients s)) s,
              controller.OnAgentDisconnect sched (Client.AgentID client),
              metrics.RemoveAgent m (Client.AgentID client))
      else Some (s, sched, m)
  end.

End server.

(** ** internal/controller/scheduler.go, continued: the tasks that reach the
    server *)
Module dispatch.

Local Open Scope world_scope.

Import controller.



(** [stopAgent], with the server it hands its command to: whether the
    command went out or not, the scheduler is as it was. *)
Definition send_stop (sv : server.Server.t) (agentID : string) : M server.Server.t :=
  let target := stopAgent agentID in
  msg <- server.NewMessage server.MsgTypeStopCommand target.1 (server.StopPayload target.2) ;;
  match server.SendToAgent sv target.1 msg with
  | None => panic
  | Some (sv, _) => ret sv
  end.

(** [s.selectAgents(count)], with the server it asks for the connected
    agents. *)
Definition selectAgents_connected (s : Scheduler.t) (sv : server.Server.t) (count : Z)
    : M (list AgentConfig.t) :=
  selectAgents s (server.GetConnectedAgents sv) count.

End dispatch.

(** * Notions used by the properties *)

(** What a computation returns, the world left aside. *)
Definition returns {A} (m : M A) (w : World) : option A :=
  match m w with
  | Some (a, _) => Some a
  | None => None
  end.


(** A float that is not below zero is at least zero, or is not a number. *)
Definition not_negative (d : float) : Prop :=
  (0 <=? d)%float = true \/ is_nan d = true.

(** No operation rewinds the clock or rewrites its tape: the readings a
    computation takes are those between its first position and its last. *)
Definition clock_later (w w' : World) : Prop :=
  clock w' = clock w /\ (next_clock w <= next_clock w')%nat.

Definition advances {A} (m : M A) : Prop :=
  forall w a w', m w = Some (a, w') -> clock_later w w'.

(** An allocation as [allocateBandwidth] creates it for the agent [id]: no
    command, no locator and no planned duration yet, a start time read from
    the clock between the worlds [w] and [w'], and a throughput within the
    capacity of an agent of that id among [agents]. *)
Definition fresh_allocation (agents : list controller.AgentConfig.t) (w w' : World)
    (id : string) (a : controller.AgentAllocation.t) : Prop :=
  controller.AgentAllocation.AgentID a = id /\
  controller.AgentAllocation.PlannedDuration a = 0 /\
  controller.AgentAllocation.CurrentCommand a = "" /\
  controller.AgentAllocation.URL a = "" /\
  (exists k, (next_clock w <= k < next_clock w')%nat /\
             controller.AgentAllocation.StartTime a = clock w k) /\
  (exists agent, agent ∈ agents /\ controller.AgentConfig.ID agent = id /\
                 controller.AgentAllocation.AllocatedBW a
                 <= controller.AgentConfig.MaxBandwidth agent).

(** ** Binary64 values as real numbers

    The value of a float and the bound on one rounding: a result that does
    not overflow is within a relative [u53] and an absolute [eta] of the
    exact one. *)
Section Binary64Values.

Local Open Scope R_scope.

Definition bpow (e : Z) : R := powerRZ 2 e.

(** The real [x] lies where the record says: at the integer [shr_m], at its
    half, or strictly within one of the two halves of the unit above it. *)
Definition located (mrs : shr_record) (x : R) : Prop :=
  (0 <= shr_m mrs)%Z /\
  match shr_r mrs, shr_s mrs with
  | false, false => x = IZR (shr_m mrs)
  | false, true => IZR (shr_m mrs) < x < IZR (shr_m mrs) + / 2
  | true, false => x = IZR (shr_m mrs) + / 2
  | true, true => IZR (shr_m mrs) + / 2 < x < IZR (shr_m mrs) + 1
  end.

Definition fexp64 (e : Z) : Z := SpecFloat.fexp prec emax e.

Definition u53 : R := bpow (-53).
Definition eta : R := bpow (-1075).

Definition SF2R (x : spec_float) : R :=
  match x with
  | S754_finite s m e => (if s then -1 else 1) * (IZR (Z.pos m) * bpow e)
  | _ => 0
  end.

Definition SFfin (x : spec_float) : Prop :=
  match x with
  | S754_zero _ | S754_finite _ _ _ => True
  | _ => False
  end.

Definition rnd_bound (X : R) : R := Rabs X * (1 + u53) + eta.

Definition F2R (f : float) : R := SF2R (Prim2SF f).
Definition Ffin (f : float) : Prop := SFfin (Prim2SF f).

End Binary64Values.

(** A delay within the duration: at least zero and strictly below it. *)
Definition within_duration (totalDuration d : float) : Prop :=
  (0 <=? d)%float = true /\ (d <? totalDuration)%float = true.

(** ** Numbers, the fleet and the registry *)

(** A float that is a number: it equals itself. *)
Definition is_number (a : float) : Prop := (a =? a)%float = true.

(** The same of a value of the specification: any but NaN. *)
Definition SFnum (x : spec_float) : Prop :=
  match x with S754_nan => False | _ => True end.

(** The total bandwidths of the snapshots of a history. *)
Definition bandwidths (history : list metrics.AggregatedMetrics.t) : list float :=
  metrics.AggregatedMetrics.TotalBandwidth <$> history.


(** The allocations of the scheduler and of its rotation tasks. *)
Module fleet.
Import controller.

(** The allocations of a map are filed under their agents' ids, and the
    agents are configured ones. *)
Definition of_fleet (cfg : Config.t) (allocations : gmap string AgentAllocation.t) : Prop :=
  forall id alloc, allocations !! id = Some alloc ->
    AgentAllocation.AgentID alloc = id /\ id ∈ AgentConfig.ID <$> Config.Agents cfg.

(** The allocations a rotation task holds. *)
Definition planned (pc : rotation_pc) : gmap string AgentAllocation.t :=
  match pc with
  | AtStart | AtPlan | AtSchedule => ∅
  | AtFindStop allocations | AtRampDown allocations _ | Sleeping allocations _
  | AtRampUp allocations | AtFindStart allocations | AtCommit allocations => allocations
  end.

(** What every state of the system keeps, for the configuration [cfg]. *)
Definition fleet_invariant (cfg : Config.t) (sys : System) : Prop :=
  Scheduler.config (sched sys) = cfg /\
  of_fleet cfg (SchedulerState.ActiveAgents (Scheduler.state (sched sys))) /\
  Forall (fun pc => of_fleet cfg (planned pc)) (rotations sys).
End fleet.

(** The registry of the server. *)
Module registry.
Import server.

(** Each registered address is that of a client object. *)
Definition live (s : Server.t) : Prop :=
  forall id p, Server.clients s !! id = Some p -> is_Some (Server.objects s !! p).

(** No client's channel holds more than its capacity. *)
Definition within_capacity (s : Server.t) : Prop :=
  forall p client, Server.objects s !! p = Some client ->
    (length (Client.SendChan client) <= SendChan_capacity)%nat.
End registry.

(** ** A rotation among the other tasks *)

(** The system of which the rotation followed is the first task, and the
    event of that system that a move is. *)
Definition whole (f : rotation.Followed) : controller.System :=
  controller.mkSystem (controller.sched (rotation.others f))
    (match rotation.task f with
     | Some pc => pc :: controller.rotations (rotation.others f)
     | None => controller.rotations (rotation.others f)
     end)
    (controller.world (rotation.others f)).

Definition event_of (m : rotation.Move) : controller.Event :=
  match m with
  | rotation.Others (controller.Rotation k connectedAgents newConcurrency) =>
      controller.Rotation (S k) connectedAgents newConcurrency
  | rotation.Others e => e
  | rotation.Own connectedAgents newConcurrency =>
      controller.Rotation 0 connectedAgents newConcurrency
  end.

(** The allocation set the rotation followed holds: empty before it has
    planned and after it has committed. *)
Definition new_set (f : rotation.Followed)
    : gmap string controller.AgentAllocation.t :=
  match rotation.task f with
  | Some pc => fleet.planned pc
  | None => ∅
  end.

(** The agents the rotation has scheduled a stop for, and those it has
    scheduled a start for. *)
Definition stopped (f : rotation.Followed) : list string :=
  (controller.stops (rotation.sent f)).*1.

Definition started (f : rotation.Followed) : list string :=
  controller.AgentAllocation.AgentID <$> (controller.starts (rotation.sent f)).*1.

(** What holds of a rotation followed from the system [sys0], at each
    point. *)
Definition following (sys0 : controller.System) (f : rotation.Followed) : Prop :=
  controller.Scheduler.config (controller.sched (rotation.others f))
  = controller.Scheduler.config (controller.sched sys0) /\
  clock_later (controller.world sys0) (controller.world (rotation.others f)) /\
  (forall id a, new_set f !! id = Some a ->
     fresh_allocation
       (controller.Config.Agents (controller.Scheduler.config (controller.sched sys0)))
       (controller.world sys0) (controller.world (rotation.others f)) id a) /\
  NoDup (stopped f) /\
  NoDup (started f) /\
  (forall id, id ∈ stopped f -> new_set f !! id = None) /\
  (forall id, id ∈ stopped f -> id ∉ started f) /\
  match rotation.task f with
  | Some controller.AtStart | Some controller.AtPlan | Some (controller.AtFindStop _) =>
      rotation.sent f = controller.mkLog [] []
  | Some (controller.AtRampDown allocations toStop) =>
      rotation.sent f = controller.mkLog [] [] /\
      NoDup toStop /\
      forall id, id ∈ toStop -> allocations !! id = None
  | Some (controller.Sleeping _ _) | Some (controller.AtRampUp _)
  | Some (controller.AtFindStart _) =>
      controller.starts (rotation.sent f) = []
  | Some (controller.AtCommit allocations) =>
      forall alloc, alloc ∈ (controller.starts (rotation.sent f)).*1 ->
        allocations !! controller.AgentAllocation.AgentID alloc = Some alloc
  | Some controller.AtSchedule | None => True
  end.

(** * Examples: worlds, a fleet, a run *)

(** A world whose [rand.Float64()] returns the entries of [draws] in turn and
    0.5 after them, whose raw integers are those of [ints] (then 0), and
    whose clock shows the entries of [readings] (then the last of them). *)
Definition world_of (draws : list float) (ints readings : list Z) : World :=
  mkWorld (fun k => nth k draws 0.5%float) (fun k => nth k ints 0)
    (fun k => nth k readings (List.last readings 0))
    (fun k => nth k ["cmd-1"; "cmd-2"; "cmd-3"; "cmd-4"] "cmd-5") 0 0 0 0.

(** Every draw is the middle of the interval: each weight is 1.0 and each
    perturbation is zero. *)
Definition even_world : World := world_of [] [] [].

(** Five agents whose weights are 0.5, 0.75, 1.0, 1.25 and 1.375, and no
    perturbation. *)
Definition uneven_world : World := world_of [0; 0.25; 0.5; 0.75; 0.875]%float [] [].

(** A world whose [rand.Intn(3)] returns 1: the perturbation of the wave
    function is zero. *)
Definition unperturbed_world : World := world_of [] [1] [].

Definition seconds (n : Z) : Z := n * time.Second.

(** A fleet of three agents of capacity 3000 and one locator, with the
    default durations of the configuration loader (rotations every 30 s to
    180 s, ramp-up 15 s, ramp-down 20 s, bounds [400,1200]), a target of
    2000 and a tolerance of one eighth. *)
Definition fleet_agent (id : string) : controller.AgentConfig.t :=
  controller.AgentConfig.mk id "10.0.0.1" id 3000 "".

Definition fleet_config : controller.Config.t :=
  controller.Config.mk
    (controller.BandwidthConfig.mk 2 0.125)
    (controller.SchedulerConfig.mk 1 2 (seconds 30) (seconds 180) 400 1200
       (seconds 15) (seconds 20) 0.25 0.25)
    [fleet_agent "a1"; fleet_agent "a2"; fleet_agent "a3"] ["u1"].

(** The allocation of agent a1, started at 1000 s with command cmd-0. *)
Definition prior_allocation : controller.AgentAllocation.t :=
  controller.AgentAllocation.mk "a1" 500 (seconds 1000) (seconds 240) "cmd-0" "u1".

(** The scheduler after a rotation at 1000 s that started a1 alone; the next
    rotation is due at 1180 s. *)
Definition stable_scheduler : controller.Scheduler.t :=
  controller.Scheduler.mk fleet_config
    (controller.SchedulerState.mk "stable" {[ "a1" := prior_allocation ]}
       (seconds 1180) 2000 0 (seconds 1000) 1)
    (seconds 900)
    (list_to_map
       [("a1", controller.AgentStatus.mk "a1" (seconds 1000) 0 1 "");
        ("a2", controller.AgentStatus.mk "a2" (seconds 0) 0 0 "");
        ("a3", controller.AgentStatus.mk "a3" (seconds 0) 0 0 "")]).


Definition no_metrics : controller.AggregatedMetrics.t :=
  controller.AggregatedMetrics.mk 0 ∅.

(** A tick at 1100 s, before the rotation due at 1180 s. *)
Definition tick_world : World := world_of [] [] [seconds 1100].


(** A rotation while a1 is active, connected and selected again: one agent
    is wanted, only a1 is connected, and the clock shows 1200 s. *)
Definition rotation_world : World := world_of [] [] [seconds 1200].

(** The controller starts at 1000 s with a1 connected and rotates once; the
    next rotation falls due at 1105 s.  The tick of 1110 s starts a rotation
    that plans a2 and a3, hence stops a1 and sleeps through the ramp-down
    until 1130 s; the next tick comes at 1115 s. *)
Definition overlap_world : World :=
  world_of [] []
    (replicate 9 (seconds 1000) ++ replicate 6 (seconds 1110) ++ [seconds 1115]).

Definition overlap_events : list controller.Event :=
  [controller.Tick no_metrics;
   controller.Rotation 0 ["a2"; "a3"] 2;
   controller.Rotation 0 ["a2"; "a3"] 2;
   controller.Rotation 0 ["a2"; "a3"] 2;
   controller.Rotation 0 ["a2"; "a3"] 2;
   controller.Tick no_metrics].

(** Two ticks, at 1190 s and 1195 s, after a deadline of 1180 s that a
    sleeping rotation has yet to move. *)
Definition late_system : controller.System :=
  controller.mkSystem stable_scheduler [controller.Sleeping ∅ (seconds 1205)]
    (world_of [] [] [seconds 1190; seconds 1195]).

(** ** A server and a run with a disconnection *)

(** The scheduler of the fleet at 1190 s, its rotation due since 1180 s and
    none in flight. *)
Definition due_system : controller.System :=
  controller.mkSystem stable_scheduler [] (world_of [] [] [seconds 1190]).

(** A tick that starts a rotation, three steps of that rotation, which
    plans a2 and a3, and the disconnection of a1. *)
Definition disconnect_events : list controller.Event :=
  [controller.Tick no_metrics;
   controller.Rotation 0 ["a2"; "a3"] 2;
   controller.Rotation 0 ["a2"; "a3"] 2;
   controller.Rotation 0 ["a2"; "a3"] 2;
   controller.Disconnect "a1"].

(** The configuration file of the fleet. *)
Definition site_config : config.Config.t :=
  config.Config.mk (config.ServerConfig.mk "0.0.0.0" 8080 8081 "secret")
    (controller.Config.Bandwidth fleet_config) (controller.Config.Scheduler fleet_config)
    (controller.Config.Agents fleet_config) (controller.Config.URLs fleet_config)
    (config.MetricsConfig.mk "10s" "24h" "1m") (config.LoggingConfig.mk "info" "json" "stdout").

(** Two registered agents: a1 was last heard at 1000 s, a2 at 1150 s. *)
Definition site_server : server.Server.t :=
  server.Server.mk site_config
    {[ "a1" := 0%nat; "a2" := 1%nat ]}
    {[ 0%nat := server.Client.mk "a1" "a1" [] (seconds 1000) None;
       1%nat := server.Client.mk "a2" "a2" [] (seconds 1150) None ]}.

(** The registration of agent a1. *)
Definition a1_registration : server.RegisterPayload.t :=
  server.RegisterPayload.mk "a1" "alpha" "1.0" ∅ 3000.

(** ** A rotation during which an agent disconnects *)

(** The scheduler with a1 and a2 active since 1000 s. *)
Definition busy_scheduler : controller.Scheduler.t :=
  controller.Scheduler.mk fleet_config
    (controller.SchedulerState.mk "stable"
       {[ "a1" := prior_allocation;
          "a2" := controller.AgentAllocation.mk "a2" 700 (seconds 1000) (seconds 240)
                    "cmd-00" "u1" ]}
       (seconds 1180) 2000 0 (seconds 1000) 1)
    (seconds 900)
    (list_to_map
       [("a1", controller.AgentStatus.mk "a1" (seconds 1000) 0 1 "");
        ("a2", controller.AgentStatus.mk "a2" (seconds 1000) 0 1 "");
        ("a3", controller.AgentStatus.mk "a3" (seconds 0) 0 0 "")]).

(** The rotation due at 1180 s starts at 1190 s with a1 and a3 connected and
    two agents wanted: it plans a1 and a3, schedules the stop of a2 and
    sleeps through the ramp-down until 1210 s.  Meanwhile a1 disconnects.
    The rotation wakes at 1211 s and comes to compute the agents to
    start. *)
Definition busy_system : controller.System :=
  controller.mkSystem busy_scheduler []
    (world_of [] [] (replicate 5 (seconds 1190) ++ [seconds 1211])).

Definition disconnect_moves : list rotation.Move :=
  [rotation.Own ["a1"; "a3"] 2;
   rotation.Own ["a1"; "a3"] 2;
   rotation.Own ["a1"; "a3"] 2;
   rotation.Own ["a1"; "a3"] 2;
   rotation.Others (controller.Disconnect "a1");
   rotation.Own ["a1"; "a3"] 2;
   rotation.Own ["a1"; "a3"] 2].

(** * Properties *)

(** ** Running a computation *)

Lemma bind_Some {A B} (m : M A) (k : A -> M B) w b w' :
  bind m k w = Some (b, w') <->
  exists a w1, m w = Some (a, w1) /\ k a w1 = Some (b, w').
Proof.
  unfold bind. split.
  - destruct (m w) as [[a w1]|] eqn:E; [|discriminate]. intros H. eauto.
  - intros (a & w1 & -> & H). exact H.
Qed.

Lemma ret_Some {A} (a b : A) w w' : ret a w = Some (b, w') <-> a = b /\ w = w'.
Proof. unfold ret. split; [intros [= -> ->]; auto | intros [-> ->]; reflexivity]. Qed.

(** Splits a run [m w = Some _] along the binds of [m]. *)
Ltac run_inv H :=
  repeat match type of H with
  | bind _ _ _ = Some _ =>
      let a := fresh "a" in let w := fresh "w" in
      let H1 := fresh "Hrun" in
      apply bind_Some in H; destruct H as (a & w & H1 & H)
  | ret _ _ = Some _ => apply ret_Some in H; destruct H as [? ?]; subst
  | panic _ = Some _ => discriminate H
  end.

(** ** Clamping *)

Lemma Clamp64_bounds v lo hi :
  lo <= hi -> lo <= bandwidth.Clamp64 v lo hi <= hi.
Proof.
  intros Hle. unfold bandwidth.Clamp64.
  destruct (Z.ltb_spec v lo); [lia|].
  rewrite Z.gtb_ltb. destruct (Z.ltb_spec hi v); lia.
Qed.

Lemma Clamp_bounds v lo hi :
  lo <= hi -> lo <= bandwidth.Clamp v lo hi <= hi.
Proof. exact (Clamp64_bounds v lo hi). Qed.

(** ** AllocateBandwidth *)

Section AllocateBandwidth.

Import bandwidth.

Variables (targetTotal randomnessFactor : float) (minPerAgent maxPerAgent : Z).

Local Abbreviation within := (fun a : Z => minPerAgent <= a <= maxPerAgent).

Lemma draw_weights_returns n : forall weights totalWeight w,
  exists weights' totalWeight' w',
    draw_weights n weights totalWeight w = Some ((weights', totalWeight'), w') /\
    length weights' = (length weights + n)%nat.
Proof.
  induction n as [|n IH]; intros weights totalWeight w; simpl.
  - exists weights, totalWeight, w. split; [reflexivity | lia].
  - unfold bind at 1. unfold rand.Float64 at 1.
    edestruct IH as (ws & tw & w' & -> & Hlen).
    exists ws, tw, w'. split; [reflexivity|].
    rewrite Hlen, length_app. simpl. lia.
Qed.

Lemma allocate_shares_returns weights : forall totalWeight allocations actualTotal w,
  exists allocations' actualTotal' w',
    allocate_shares weights totalWeight targetTotal minPerAgent maxPerAgent
      randomnessFactor allocations actualTotal w
    = Some ((allocations', actualTotal'), w') /\
    length allocations' = (length allocations + length weights)%nat /\
    (minPerAgent <= maxPerAgent -> Forall within allocations ->
     Forall within allocations').
Proof.
  induction weights as [|x weights IH]; intros totalWeight allocations actualTotal w; simpl.
  - exists allocations, actualTotal, w. repeat split; [lia | auto].
  - unfold bind at 1. unfold rand.Float64 at 1.
    edestruct IH as (al & tot & w' & -> & Hlen & Hin).
    exists al, tot, w'. split; [reflexivity|]. split.
    + rewrite Hlen, length_app. simpl. lia.
    + intros Hle Hall. apply Hin; [exact Hle|].
      apply Forall_app. split; [exact Hall|].
      constructor; [|constructor]. apply Clamp64_bounds, Hle.
Qed.

Lemma normalize_within allocations ratio :
  minPerAgent <= maxPerAgent ->
  Forall within (normalize allocations ratio minPerAgent maxPerAgent).
Proof.
  intros Hle. unfold normalize. apply Forall_map, Forall_forall.
  intros a _. apply Clamp64_bounds, Hle.
Qed.

(** With a positive number of agents the allocator returns, one value per
    agent, each of them the result of a last clamp. *)
Lemma AllocateBandwidth_returns numAgents w :
  0 < numAgents ->
  exists allocations w',
    AllocateBandwidth targetTotal numAgents minPerAgent maxPerAgent randomnessFactor w
    = Some (allocations, w') /\
    length allocations = Z.to_nat numAgents /\
    (minPerAgent <= maxPerAgent -> Forall within allocations).
Proof.
  intros Hpos. unfold AllocateBandwidth.
  destruct (Z.eqb_spec numAgents 0); [lia|].
  destruct (Z.ltb_spec numAgents 0); [lia|].
  unfold bind at 1.
  destruct (draw_weights_returns (Z.to_nat numAgents) [] 0%float w)
    as (ws & tw & w1 & -> & Hws).
  unfold bind at 1.
  destruct (allocate_shares_returns ws tw [] 0 w1) as (al & tot & w2 & -> & Hal & Hin).
  simpl in Hws, Hal.
  destruct (negb (tot =? int64_of_float targetTotal) && (tot >? 0)).
  - eexists _, w2. split; [reflexivity|]. split.
    + unfold normalize. rewrite length_map. lia.
    + intros Hle. apply normalize_within, Hle.
  - exists al, w2. split; [reflexivity|]. split; [lia|].
    intros Hle. apply Hin; [exact Hle | constructor].
Qed.

End AllocateBandwidth.


(** C5: for numAgents > 0 and minPerAgent <= maxPerAgent, AllocateBandwidth
    returns, and every value of the list it returns lies in
    [minPerAgent, maxPerAgent], whatever the random draws, the target and the
    randomness factor. *)
Theorem AllocateBandwidth_within_bounds
    (targetTotal : float) (numAgents minPerAgent maxPerAgent : Z)
    (randomnessFactor : float) (w : World) :
  numAgents > 0 ->
  minPerAgent <= maxPerAgent ->
  exists allocations w',
    bandwidth.AllocateBandwidth targetTotal numAgents minPerAgent maxPerAgent
      randomnessFactor w = Some (allocations, w') /\
    Forall (fun a => minPerAgent <= a <= maxPerAgent) allocations.
Proof.
  intros Hpos Hle.
  destruct (AllocateBandwidth_returns targetTotal randomnessFactor minPerAgent
              maxPerAgent numAgents w) as (allocations & w' & Hrun & _ & Hin);
    [lia|].
  exists allocations, w'. split; [exact Hrun|].
  exact (Hin Hle).
Qed.

Lemma AllocateBandwidth_within_bounds_witness :
  exists allocations w',
    bandwidth.AllocateBandwidth 10000 5 400 1200 0.25 uneven_world
    = Some (allocations, w') /\
    Forall (fun a => 400 <= a <= 1200) allocations.
Proof. apply AllocateBandwidth_within_bounds; lia. Defined.

(** C3, as stated, fails: with two agents and a target of zero, or a
    negative one, the allocator returns two allocations, not an empty set. *)
Lemma AllocateBandwidth_nonpositive_target_not_empty :
  returns (bandwidth.AllocateBandwidth 0 2 400 1200 0.25) even_world = Some [400; 400] /\
  returns (bandwidth.AllocateBandwidth (-500) 2 400 1200 0.25) even_world = Some [400; 400].
Proof. split; vm_compute; reflexivity. Qed.

(** C3, amended: the allocator raises no error for any target; it returns
    one value per agent, so its result is empty exactly when the number of
    agents is zero. *)
Theorem AllocateBandwidth_empty_iff_no_agents
    (targetTotal : float) (numAgents minPerAgent maxPerAgent : Z)
    (randomnessFactor : float) (w : World) :
  0 <= numAgents ->
  exists allocations w',
    bandwidth.AllocateBandwidth targetTotal numAgents minPerAgent maxPerAgent
      randomnessFactor w = Some (allocations, w') /\
    length allocations = Z.to_nat numAgents /\
    (allocations = [] <-> numAgents = 0).
Proof.
  intros Hn. destruct (Z.eq_dec numAgents 0) as [->|Hne].
  - exists [], w. repeat split; auto.
  - destruct (AllocateBandwidth_returns targetTotal randomnessFactor minPerAgent
                maxPerAgent numAgents w) as (allocations & w' & Hrun & Hlen & _);
      [lia|].
    exists allocations, w'. split; [exact Hrun|]. split; [exact Hlen|].
    split; [|contradiction].
    intros ->. simpl in Hlen. lia.
Qed.

Lemma AllocateBandwidth_empty_iff_no_agents_witness :
  exists allocations w',
    bandwidth.AllocateBandwidth (-500) 0 400 1200 0.25 even_world
    = Some (allocations, w') /\
    length allocations = Z.to_nat 0 /\
    (allocations = [] <-> 0 = 0).
Proof. apply AllocateBandwidth_empty_iff_no_agents. lia. Defined.




(** ** WeightedRandomSelection *)

Section WeightedRandomSelection.

Import bandwidth.

Lemma walk_weights_lt r ws : forall cumulative idx i,
  walk_weights r cumulative idx ws = Some i ->
  (idx <= i < idx + length ws)%nat.
Proof.
  induction ws as [|x ws IH]; intros cumulative idx i; simpl; [discriminate|].
  destruct (r <=? cumulative + x)%float.
  - intros [= ->]. lia.
  - intros H. apply IH in H. lia.
Qed.

Lemma remove_at_length {A} idx (l : list A) :
  (idx < length l)%nat -> length (remove_at idx l) = (length l - 1)%nat.
Proof.
  intros Hlt. unfold remove_at.
  rewrite length_app, length_take, length_drop. lia.
Qed.

Lemma remove_at_perm {A} idx (l : list A) a :
  l !! idx = Some a -> l ≡ₚ a :: remove_at idx l.
Proof.
  intros Hl. unfold remove_at.
  rewrite <- (take_drop_middle l idx a Hl) at 1.
  symmetry. apply Permutation_middle.
Qed.

(** What one iteration does, whichever branch it takes: it moves one
    available index to the end of the selection. *)
Lemma select_one_moves selected available availableWeights w :
  length availableWeights = length available ->
  (0 < length available)%nat ->
  exists a idx w',
    select_one selected available availableWeights w
    = Some ((selected ++ [a], remove_at idx available,
             remove_at idx availableWeights), w') /\
    available !! idx = Some a.
Proof.
  intros Hlen Hpos. unfold select_one.
  destruct (sum_weights availableWeights =? 0)%float.
  - unfold bind, rand.Intn.
    destruct (Z.leb_spec (Z.of_nat (length available)) 0) as [|_]; [lia|].
    set (idx := Z.to_nat (int_draws w (next_int w) mod Z.of_nat (length available))).
    assert (Hidx : (idx < length available)%nat).
    { subst idx.
      pose proof (Z.mod_pos_bound (int_draws w (next_int w))
                    (Z.of_nat (length available))). lia. }
    destruct (lookup_lt_is_Some_2 available idx Hidx) as [a Ha].
    rewrite Ha. rewrite Hlen.
    destruct (Nat.ltb_spec idx (length available)); [|lia].
    eexists a, idx, _. split; [reflexivity | exact Ha].
  - unfold bind at 1. unfold rand.Float64 at 1.
    set (r := (float_draws w (next_float w) * sum_weights availableWeights)%float).
    set (idx := match walk_weights r 0 0 availableWeights with
                | Some i => i
                | None => (length available - 1)%nat
                end).
    assert (Hidx : (idx < length available)%nat).
    { subst idx. destruct (walk_weights r 0 0 availableWeights) as [i|] eqn:Hwalk.
      - apply walk_weights_lt in Hwalk. lia.
      - lia. }
    destruct (lookup_lt_is_Some_2 available idx Hidx) as [a Ha].
    rewrite Ha. rewrite Hlen.
    destruct (Nat.ltb_spec idx (length available)); [|lia].
    eexists a, idx, _. split; [reflexivity | exact Ha].
Qed.

(** The loop selects [count] more indices, taken out of the available ones. *)
Lemma select_loop_selects count : forall selected available availableWeights w,
  length availableWeights = length available ->
  (count <= length available)%nat ->
  exists selected' rest w',
    select_loop count selected available availableWeights w = Some (selected', w') /\
    length selected' = (length selected + count)%nat /\
    selected ++ available ≡ₚ selected' ++ rest.
Proof.
  induction count as [|count IH];
    intros selected available availableWeights w Hlen Hcount; simpl.
  - exists selected, available, w. split; [reflexivity|]. split; [lia | reflexivity].
  - destruct (select_one_moves selected available availableWeights w Hlen)
      as (a & idx & w1 & Hone & Ha); [lia|].
    unfold bind at 1. rewrite Hone.
    pose proof (lookup_lt_Some _ _ _ Ha) as Hidx.
    destruct (IH (selected ++ [a]) (remove_at idx available)
                (remove_at idx availableWeights) w1)
      as (selected' & rest & w' & Hloop & Hsel & Hperm).
    + rewrite !remove_at_length; lia.
    + rewrite remove_at_length; lia.
    + exists selected', rest, w'. split; [exact Hloop|]. split.
      * rewrite Hsel, length_app. simpl. lia.
      * rewrite <- Hperm, <- app_assoc. simpl.
        apply Permutation_app_head, remove_at_perm, Ha.
Qed.

End WeightedRandomSelection.

(** C8: for every count >= 0 and every list of weights,
    WeightedRandomSelection returns, and what it returns is exactly
    min(count, number of candidates) indices, pairwise distinct, each a valid
    index into the candidates; when count is at least the number of
    candidates they are all the candidate indices. *)
Theorem WeightedRandomSelection_distinct_indices
    (count : Z) (weights : list float) (w : World) :
  0 <= count ->
  exists selected w',
    bandwidth.WeightedRandomSelection count weights w = Some (selected, w') /\
    Z.of_nat (length selected) = Z.min count (Z.of_nat (length weights)) /\
    NoDup selected /\
    Forall (fun idx => (idx < length weights)%nat) selected /\
    (Z.of_nat (length weights) <= count -> selected = seq 0 (length weights)).
Proof.
  intros Hcount. unfold bandwidth.WeightedRandomSelection.
  destruct (Z.geb_spec count (Z.of_nat (length weights))) as [Hall|Hfew].
  - exists (seq 0 (length weights)), w. split; [reflexivity|].
    split; [rewrite length_seq; lia|].
    split; [apply NoDup_seq|].
    split; [|reflexivity].
    apply Forall_forall. intros idx Hin. apply elem_of_seq in Hin. lia.
  - destruct (Z.ltb_spec count 0); [lia|].
    destruct (select_loop_selects (Z.to_nat count) [] (seq 0 (length weights)) weights w)
      as (selected & rest & w' & Hloop & Hlen & Hperm).
    + rewrite length_seq. reflexivity.
    + rewrite length_seq. lia.
    + simpl in Hlen, Hperm.
      assert (Hnodup : NoDup (selected ++ rest)).
      { rewrite <- Hperm. apply NoDup_seq. }
      exists selected, w'. split; [exact Hloop|].
      split; [lia|].
      split; [apply NoDup_app in Hnodup; tauto|].
      split; [|lia].
      apply Forall_forall. intros idx Hin.
      assert (Hseq : idx ∈ seq 0 (length weights)).
      { rewrite Hperm. apply elem_of_app. left. exact Hin. }
      apply elem_of_seq in Hseq. lia.
Qed.

Lemma WeightedRandomSelection_distinct_indices_witness :
  exists selected w',
    bandwidth.WeightedRandomSelection 2 [1; 2; 3; 0]%float even_world
    = Some (selected, w') /\
    Z.of_nat (length selected) = Z.min 2 (Z.of_nat (length [1; 2; 3; 0]%float)) /\
    NoDup selected /\
    Forall (fun idx => (idx < length [1; 2; 3; 0]%float)%nat) selected /\
    (Z.of_nat (length [1; 2; 3; 0]%float) <= 2 -> selected = seq 0 (length [1; 2; 3; 0]%float)).
Proof. apply WeightedRandomSelection_distinct_indices. lia. Defined.

(** ** CalculateStagger *)

Lemma not_below_zero (d : float) : (d <? 0)%float = false -> not_negative d.
Proof.
  unfold not_negative, is_nan.
  rewrite FloatAxioms.ltb_spec, FloatAxioms.leb_spec, FloatAxioms.eqb_spec.
  unfold SFltb, SFleb, SFeqb.
  replace (Prim2SF 0) with (S754_zero false) by reflexivity.
  destruct (Prim2SF d) as [s|s| |s m e]; simpl; try destruct s; simpl; auto;
    discriminate.
Qed.

Lemma stagger_loop_returns n : forall i baseDelay delays w,
  exists delays' w',
    bandwidth.stagger_loop n i baseDelay delays w = Some (delays', w') /\
    length delays' = (length delays + n)%nat /\
    (Forall not_negative delays -> Forall not_negative delays').
Proof.
  induction n as [|n IH]; intros i baseDelay delays w; simpl.
  - exists delays, w. split; [reflexivity|]. split; [lia | auto].
  - unfold bind at 1. unfold rand.Float64 at 1.
    edestruct IH as (delays' & w' & -> & Hlen & Hall).
    exists delays', w'. split; [reflexivity|]. split.
    + rewrite Hlen, length_app. simpl. lia.
    + intros Hd. apply Hall, Forall_app. split; [exact Hd|].
      constructor; [|constructor].
      match goal with |- not_negative (if ?c then _ else ?d) => destruct c eqn:Hc end.
      * left. reflexivity.
      * apply not_below_zero, Hc.
Qed.

(** *** Rounding in binary64

    What one operation can add to a magnitude: the sign and the order of
    the values are those of the real numbers, and a product, a quotient, a
    sum or a difference that does not overflow exceeds the exact one by at
    most [rnd_bound]. *)
Section Binary64Rounding.

Local Open Scope R_scope.

Lemma bpow_pos e : 0 < bpow e.
Proof. apply powerRZ_lt. lra. Qed.

Lemma bpow_add a b : bpow (a + b) = bpow a * bpow b.
Proof. apply powerRZ_add. lra. Qed.

Lemma bpow_0 : bpow 0 = 1.
Proof. reflexivity. Qed.

Lemma bpow_1 : bpow 1 = 2.
Proof. unfold bpow. simpl. lra. Qed.

Lemma bpow_opp a : bpow (- a) = / bpow a.
Proof. apply powerRZ_neg'. Qed.

Lemma bpow_m1 : bpow (-1) = / 2.
Proof. unfold bpow. simpl. lra. Qed.

Lemma bpow_IZR n : (0 <= n)%Z -> bpow n = IZR (2 ^ n).
Proof.
  intros Hn. unfold bpow. destruct n as [|p|p]; [simpl; lra | | lia].
  rewrite <- Zpower_pos_powerRZ. reflexivity.
Qed.

Lemma bpow_ge_1 n : (0 <= n)%Z -> 1 <= bpow n.
Proof.
  intros Hn. rewrite bpow_IZR by exact Hn. apply IZR_le.
  pose proof (Z.pow_pos_nonneg 2 n). lia.
Qed.

Lemma bpow_le a b : (a <= b)%Z -> bpow a <= bpow b.
Proof.
  intros Hab. replace b with (a + (b - a))%Z by lia. rewrite bpow_add.
  pose proof (bpow_pos a). pose proof (bpow_ge_1 (b - a) ltac:(lia)). nra.
Qed.

Lemma bpow_lt a b : (a < b)%Z -> bpow a < bpow b.
Proof.
  intros Hab. replace b with (a + 1 + (b - a - 1))%Z by lia. rewrite !bpow_add, bpow_1.
  pose proof (bpow_pos a). pose proof (bpow_ge_1 (b - a - 1) ltac:(lia)). nra.
Qed.

Lemma bpow_succ a : bpow (a + 1) = 2 * bpow a.
Proof. rewrite bpow_add, bpow_1. lra. Qed.

(** digits *)
Lemma digits2_pos_bounds p :
  (2 ^ (Z.pos (digits2_pos p) - 1) <= Z.pos p < 2 ^ Z.pos (digits2_pos p))%Z.
Proof.
  induction p as [p IH|p IH|]; simpl digits2_pos.
  - rewrite Pos2Z.inj_succ. set (d := Z.pos (digits2_pos p)) in *.
    assert (1 <= d)%Z by (subst d; lia).
    replace (Z.succ d - 1)%Z with (Z.succ (d - 1)) by lia.
    rewrite (Z.pow_succ_r 2 (d - 1)), (Z.pow_succ_r 2 d) by lia.
    replace (2 ^ d)%Z with (2 * 2 ^ (d - 1))%Z in *
      by (rewrite <- Z.pow_succ_r by lia; f_equal; lia).
    lia.
  - rewrite Pos2Z.inj_succ. set (d := Z.pos (digits2_pos p)) in *.
    assert (1 <= d)%Z by (subst d; lia).
    replace (Z.succ d - 1)%Z with (Z.succ (d - 1)) by lia.
    rewrite (Z.pow_succ_r 2 (d - 1)), (Z.pow_succ_r 2 d) by lia.
    replace (2 ^ d)%Z with (2 * 2 ^ (d - 1))%Z in *
      by (rewrite <- Z.pow_succ_r by lia; f_equal; lia).
    lia.
  - simpl. lia.
Qed.

Lemma Zdigits2_bounds m : (0 < m)%Z ->
  bpow (Zdigits2 m - 1) <= IZR m < bpow (Zdigits2 m).
Proof.
  intros Hm. destruct m as [|p|p]; try lia. simpl Zdigits2.
  pose proof (digits2_pos_bounds p) as [Hlo Hhi].
  rewrite !bpow_IZR by lia. split; [apply IZR_le | apply IZR_lt]; assumption.
Qed.

Lemma Zdigits2_pos m : (0 < m)%Z -> (0 < Zdigits2 m)%Z.
Proof. destruct m; simpl; lia. Qed.

Lemma located_range mrs x : located mrs x -> IZR (shr_m mrs) <= x < IZR (shr_m mrs) + 1.
Proof. destruct mrs as [m [|] [|]]; simpl; intros [_ H]; simpl in H; lra. Qed.

Lemma shr_1_located mrs x : located mrs x -> located (shr_1 mrs) (x / 2).
Proof.
  destruct mrs as [m r s]. unfold located. simpl shr_m. simpl shr_r. simpl shr_s.
  intros [Hm H].
  destruct m as [|[p|p|]|p]; try lia; simpl shr_1;
    [ | rewrite Pos2Z.inj_xI, plus_IZR, mult_IZR in H
    | rewrite Pos2Z.inj_xO, mult_IZR in H
    | ];
    destruct r, s; simpl; (split; [lia | lra]).
Qed.

Lemma iter_shr_1_located n : forall mrs x,
  located mrs x -> located (SpecFloat.iter_pos shr_1 n mrs) (x * bpow (- Z.pos n)).
Proof.
  induction n as [n IH|n IH|]; intros mrs x H; simpl SpecFloat.iter_pos.
  - replace (x * bpow (- Z.pos n~1)) with (x / 2 * bpow (- Z.pos n) * bpow (- Z.pos n)).
    + apply IH, IH, shr_1_located, H.
    + replace (- Z.pos n~1)%Z with (-1 + (- Z.pos n + - Z.pos n))%Z by lia.
      rewrite !bpow_add, bpow_m1. lra.
  - replace (x * bpow (- Z.pos n~0)) with (x * bpow (- Z.pos n) * bpow (- Z.pos n)).
    + apply IH, IH, H.
    + replace (- Z.pos n~0)%Z with (- Z.pos n + - Z.pos n)%Z by lia.
      rewrite !bpow_add. lra.
  - change (- Z.pos 1)%Z with (-1)%Z. rewrite bpow_m1.
    apply shr_1_located, H.
Qed.

Lemma shr_located mrs e n x :
  located mrs x ->
  snd (shr mrs e n) = (e + Z.max 0 n)%Z /\
  located (fst (shr mrs e n)) (x * bpow (- Z.max 0 n)).
Proof.
  intros H. destruct n as [|p|p]; unfold shr; cbn [fst snd].
  - split; [lia|]. change (- Z.max 0 0)%Z with 0%Z. rewrite bpow_0, Rmult_1_r. exact H.
  - split; [lia|]. replace (Z.max 0 (Z.pos p)) with (Z.pos p) by lia.
    apply iter_shr_1_located, H.
  - split; [lia|]. replace (- Z.max 0 (Z.neg p))%Z with 0%Z by lia.
    rewrite bpow_0, Rmult_1_r. exact H.
Qed.

Lemma shr_record_of_loc_m m l : shr_m (shr_record_of_loc m l) = m.
Proof. destruct l as [|[| |]]; reflexivity. Qed.

Lemma round_located mrs x :
  located mrs x ->
  (shr_m mrs <= round_nearest_even (shr_m mrs) (loc_of_shr_record mrs) <= shr_m mrs + 1)%Z /\
  IZR (round_nearest_even (shr_m mrs) (loc_of_shr_record mrs)) <= x + / 2 /\
  (shr_r mrs = false -> shr_s mrs = false ->
   IZR (round_nearest_even (shr_m mrs) (loc_of_shr_record mrs)) = x).
Proof.
  destruct mrs as [m r s]. unfold located. simpl shr_m. simpl shr_r. simpl shr_s.
  intros [Hm H].
  destruct r, s; simpl.
  - rewrite plus_IZR. repeat split; try lia; try lra; discriminate.
  - destruct (Z.even m); [|rewrite plus_IZR]; repeat split; try lia; try lra; discriminate.
  - repeat split; try lia; try lra; discriminate.
  - repeat split; try lia; try lra.
Qed.

Lemma fexp64_eq e : fexp64 e = Z.max (e - 53) (-1074).
Proof. reflexivity. Qed.

Lemma located_exact m : (0 <= m)%Z -> located (shr_record_of_loc m loc_Exact) (IZR m).
Proof. intros Hm. split; [exact Hm | reflexivity]. Qed.

Lemma located_record_m m l x :
  located (shr_record_of_loc m l) x -> (0 <= m)%Z /\ IZR m <= x < IZR m + 1.
Proof.
  intros H. pose proof (located_range _ _ H) as Hr. destruct H as [Hm _].
  rewrite shr_record_of_loc_m in *. auto.
Qed.

Lemma IZR_lt_succ_le a b : IZR a - 1 < IZR b -> (a <= b)%Z.
Proof.
  intros H. apply Z.lt_succ_r. apply lt_IZR. rewrite succ_IZR. lra.
Qed.

Lemma binary_round_aux_spec sx mx ex lx x :
  located (shr_record_of_loc mx lx) x ->
  let n := (fexp64 (Zdigits2 mx + ex) - ex)%Z in
  let E := (ex + Z.max 0 n)%Z in
  exists m1 : Z,
    (0 <= m1)%Z /\
    IZR m1 * bpow E <= x * bpow ex + / 2 * bpow E /\
    (lx = loc_Exact -> (n <= 0)%Z -> IZR m1 = x) /\
    match binary_round_aux prec emax sx mx ex lx with
    | S754_zero s => s = sx
    | S754_finite s m e =>
        s = sx /\ IZR (Z.pos m) * bpow e <= IZR m1 * bpow E /\ (e <= 971)%Z
    | S754_infinity s =>
        s = sx /\ (bpow 1024 <= IZR m1 * bpow E \/ (971 < ex /\ n <= 0)%Z)
    | S754_nan => False
    end.
Proof.
  intros Hloc n E.
  pose proof (located_record_m _ _ _ Hloc) as [Hmx Hx].
  unfold binary_round_aux, shr_fexp.
  change (fexp prec emax (Zdigits2 mx + ex) - ex)%Z with n.
  destruct (shr_located (shr_record_of_loc mx lx) ex n x Hloc) as [He' Hloc'].
  destruct (shr (shr_record_of_loc mx lx) ex n) as [mrs' e'] eqn:Hshr.
  simpl in He', Hloc'. fold E in He'. subst e'.
  set (m1 := round_nearest_even (shr_m mrs') (loc_of_shr_record mrs')).
  destruct (round_located mrs' _ Hloc') as (Hm1 & Hm1x & Hm1e). fold m1 in Hm1, Hm1x, Hm1e.
  assert (Hm' : (0 <= shr_m mrs')%Z) by (destruct Hloc'; assumption).
  assert (Hm1pos : (0 <= m1)%Z) by lia.
  assert (HE : bpow (- Z.max 0 n) * bpow E = bpow ex).
  { rewrite <- bpow_add. f_equal. subst E. lia. }
  exists m1. split; [exact Hm1pos|]. split; [|split].
  - pose proof (bpow_pos E). 
    replace (x * bpow ex) with (x * bpow (- Z.max 0 n) * bpow E) by (rewrite Rmult_assoc, HE; reflexivity).
    nra.
  - intros -> Hn. unfold shr in Hshr. destruct n as [|p|p] eqn:En; try lia;
      injection Hshr as <- _; simpl in Hloc; destruct Hloc as [_ ->]; reflexivity.
  - set (n2 := (fexp64 (Zdigits2 m1 + E) - E)%Z).
    change (fexp prec emax (Zdigits2 m1 + E) - E)%Z with n2.
    destruct (shr_located (shr_record_of_loc m1 loc_Exact) E n2 (IZR m1) (located_exact m1 Hm1pos))
      as [He'' Hloc''].
    destruct (shr (shr_record_of_loc m1 loc_Exact) E n2) as [mrs'' e''] eqn:Hshr2.
    simpl in He'', Hloc''. subst e''.
    pose proof (located_range _ _ Hloc'') as [Hm''x _].
    assert (Hm'' : (0 <= shr_m mrs'')%Z) by (destruct Hloc''; assumption).
    assert (Hval : IZR (shr_m mrs'') * bpow (E + Z.max 0 n2) <= IZR m1 * bpow E).
    { rewrite bpow_add. pose proof (bpow_pos E) as HpE.
      pose proof (bpow_pos (Z.max 0 n2)) as Hp2.
      assert (Hinv : bpow (- Z.max 0 n2) * bpow (Z.max 0 n2) = 1)
        by (rewrite <- bpow_add, Z.add_opp_diag_l; apply bpow_0).
      assert (Hstep : IZR (shr_m mrs'') * bpow (Z.max 0 n2) <= IZR m1).
      { apply (Rmult_le_compat_r (bpow (Z.max 0 n2))) in Hm''x; [|lra].
        rewrite Rmult_assoc, Hinv, Rmult_1_r in Hm''x. exact Hm''x. }
      apply (Rmult_le_compat_r (bpow E)) in Hstep; [|lra]. lra. }
    destruct (shr_m mrs'') as [|m|m] eqn:Em''; [reflexivity | | lia].
    change (emax - prec)%Z with 971%Z.
    destruct (Z.leb_spec (E + Z.max 0 n2) 971) as [Hle|Hgt].
    + split; [reflexivity|]. split; [exact Hval | exact Hle].
    + split; [reflexivity|].
      assert (Hm1gt : (0 < m1)%Z).
      { destruct (Z.eq_dec m1 0%Z) as [Hz|]; [|lia].
        rewrite Hz in Hm''x. simpl in Hm''x. rewrite Rmult_0_l in Hm''x.
        apply le_IZR in Hm''x. lia. }
      destruct (Z.max_spec 0 n2) as [[Hn2 Hmax]|[Hn2 Hmax]].
      * (* second shift happened *)
        left. rewrite Hmax in Hgt.
        assert (Hd : (Zdigits2 m1 = E + n2 - E + 53)%Z).
        { subst n2. rewrite fexp64_eq in *. lia. }
        pose proof (Zdigits2_bounds m1 Hm1gt) as [Hlo _].
        apply Rle_trans with (bpow (Zdigits2 m1 - 1) * bpow E).
        -- rewrite <- bpow_add. apply bpow_le. lia.
        -- pose proof (bpow_pos E). nra.
      * rewrite Hmax, Z.add_0_r in Hgt.
        destruct (Z.max_spec 0 n) as [[Hn Hmaxn]|[Hn Hmaxn]].
        -- left.
           assert (Hmxpos : (0 < mx)%Z).
           { destruct (Z.eq_dec mx 0%Z) as [Hz|]; [|lia].
             subst mx. simpl in n. subst n E. rewrite fexp64_eq in *. lia. }
           pose proof (Zdigits2_bounds mx Hmxpos) as [Hlo _].
           assert (Hd : (Zdigits2 mx - 1 - n = 52)%Z).
           { subst n E. rewrite fexp64_eq in *. lia. }
           pose proof (located_range _ _ Hloc') as [_ Hup].
           assert (H52 : (2 ^ 52 <= shr_m mrs')%Z).
           { apply IZR_lt_succ_le.
             rewrite <- bpow_IZR by lia. rewrite <- Hd.
             replace (Zdigits2 mx - 1 - n)%Z with ((Zdigits2 mx - 1) + - n)%Z by lia.
             rewrite bpow_add. rewrite Hmaxn in Hup.
             pose proof (bpow_pos (- n)). nra. }
           apply Rle_trans with (bpow 52 * bpow E).
           ++ rewrite <- bpow_add. apply bpow_le. lia.
           ++ pose proof (bpow_pos E). rewrite bpow_IZR by lia.
              assert (IZR (2 ^ 52) <= IZR m1) by (apply IZR_le; lia). nra.
        -- right. subst E. rewrite Hmaxn in Hgt. lia.
Qed.

Lemma u53_pos : 0 < u53.
Proof. apply bpow_pos. Qed.
Lemma eta_pos : 0 < eta.
Proof. apply bpow_pos. Qed.

(** Half a unit in the last place of a number of mantissa mx and exponent ex. *)
Lemma half_ulp mx ex x :
  (0 < mx)%Z -> IZR mx <= x ->
  / 2 * bpow (fexp64 (Zdigits2 mx + ex)) <= u53 * (x * bpow ex) + eta.
Proof.
  intros Hmx Hx. rewrite fexp64_eq.
  pose proof (bpow_pos ex) as Hex. pose proof u53_pos as Hu. pose proof eta_pos as Heta.
  assert (H0 : 0 <= IZR mx) by (apply IZR_le; lia).
  destruct (Z.max_spec (Zdigits2 mx + ex - 53) (-1074)) as [[Hlt ->]|[Hge ->]].
  - replace (/ 2 * bpow (-1074)) with eta.
    + assert (0 <= u53 * (x * bpow ex))
        by (apply Rmult_le_pos; [lra | apply Rmult_le_pos; lra]).
      lra.
    + unfold eta. replace (-1074)%Z with (1 + -1075)%Z by lia.
      rewrite bpow_add, bpow_1. lra.
  - pose proof (Zdigits2_bounds mx Hmx) as [Hlo _].
    replace (Zdigits2 mx + ex - 53)%Z with (1 + (-53 + ((Zdigits2 mx - 1) + ex)))%Z by lia.
    rewrite !bpow_add, bpow_1. fold u53.
    assert (Hm : bpow (Zdigits2 mx - 1) * bpow ex <= x * bpow ex)
      by (apply Rmult_le_compat_r; lra).
    assert (Hu' : u53 * (bpow (Zdigits2 mx - 1) * bpow ex) <= u53 * (x * bpow ex))
      by (apply Rmult_le_compat_l; lra).
    lra.
Qed.

(** Rounding a positive number located at (mx, lx), when the mantissa has
    digits to spare. *)
Lemma binary_round_aux_bound sx mx ex lx x :
  located (shr_record_of_loc mx lx) x ->
  (0 < mx)%Z ->
  (0 <= fexp64 (Zdigits2 mx + ex) - ex)%Z ->
  match binary_round_aux prec emax sx mx ex lx with
  | S754_zero s => s = sx
  | S754_finite s m e =>
      s = sx /\ IZR (Z.pos m) * bpow e <= x * bpow ex * (1 + u53) + eta /\ (e <= 971)%Z
  | S754_infinity s => bpow 1024 <= x * bpow ex * (1 + u53) + eta
  | S754_nan => False
  end.
Proof.
  intros Hloc Hmx Hn.
  pose proof (located_record_m _ _ _ Hloc) as [_ [Hx _]].
  pose proof (half_ulp mx ex x Hmx Hx) as Hulp.
  destruct (binary_round_aux_spec sx mx ex lx x Hloc) as (m1 & Hm1 & Hval & _ & Hres).
  cbv zeta in Hval, Hres.
  replace (ex + Z.max 0 (fexp64 (Zdigits2 mx + ex) - ex))%Z
    with (fexp64 (Zdigits2 mx + ex)) in * by lia.
  destruct (binary_round_aux prec emax sx mx ex lx) as [s|s| |s m e]; auto.
  - destruct Hres as [_ [Hbig|[Hex Hn0]]]; [lra|].
    (* no shift at all: the mantissa has 53 digits *)
    assert (Hd : (Zdigits2 mx = 53)%Z) by (rewrite fexp64_eq in *; lia).
    pose proof (Zdigits2_bounds mx Hmx) as [Hlo _]. rewrite Hd in Hlo.
    pose proof (bpow_pos ex). pose proof u53_pos. pose proof eta_pos.
    assert (bpow 1024 <= bpow (53 - 1) * bpow ex).
    { rewrite <- bpow_add. apply bpow_le. lia. }
    assert (bpow (53 - 1) * bpow ex <= x * bpow ex)
      by (apply Rmult_le_compat_r; lra).
    assert (0 <= x * bpow ex * u53).
    { apply Rmult_le_pos; [apply Rmult_le_pos|]; try lra.
      apply Rle_trans with (IZR mx); [apply IZR_le; lia | exact Hx]. }
    lra.
  - destruct Hres as (Hs & Hle & He). split; [exact Hs|]. split; [lra | exact He].
Qed.

(** ** Values *)

Lemma rnd_bound_ge X : Rabs X <= rnd_bound X.
Proof.
  unfold rnd_bound. pose proof (Rabs_pos X). pose proof u53_pos. pose proof eta_pos. nra.
Qed.

Lemma SF2R_abs_finite s m e : Rabs (SF2R (S754_finite s m e)) = IZR (Z.pos m) * bpow e.
Proof.
  simpl. pose proof (bpow_pos e). assert (0 < IZR (Z.pos m)) by (apply IZR_lt; lia).
  assert (0 < IZR (Z.pos m) * bpow e) by nra.
  destruct s; [rewrite Rabs_left | rewrite Rabs_right]; lra.
Qed.

Lemma valid_finite s m e :
  valid_binary (S754_finite s m e) = true ->
  fexp64 (Z.pos (digits2_pos m) + e) = e /\ (e <= 971)%Z.
Proof.
  simpl. unfold bounded, canonical_mantissa. intros H.
  apply andb_true_iff in H. destruct H as [H1 H2].
  apply Z.eqb_eq in H1. apply Z.leb_le in H2. split; [exact H1 | exact H2].
Qed.

Lemma digits2_pos_mul mx my :
  (Z.pos (digits2_pos mx) + Z.pos (digits2_pos my) - 1 <= Z.pos (digits2_pos (mx * my)))%Z.
Proof.
  pose proof (digits2_pos_bounds mx) as [Hx _].
  pose proof (digits2_pos_bounds my) as [Hy _].
  pose proof (digits2_pos_bounds (mx * my)) as [_ Hxy].
  set (dx := Z.pos (digits2_pos mx)) in *. set (dy := Z.pos (digits2_pos my)) in *.
  set (d := Z.pos (digits2_pos (mx * my))) in *.
  assert (1 <= dx)%Z by (subst dx; lia). assert (1 <= dy)%Z by (subst dy; lia).
  assert (H2 : (2 ^ (dx - 1 + (dy - 1)) < 2 ^ d)%Z).
  { rewrite Z.pow_add_r by lia. rewrite Pos2Z.inj_mul in Hxy.
    assert (0 < 2 ^ (dx - 1))%Z by (apply Z.pow_pos_nonneg; lia).
    assert (0 < 2 ^ (dy - 1))%Z by (apply Z.pow_pos_nonneg; lia).
    nia. }
  apply Z.pow_lt_mono_r_iff in H2; lia.
Qed.

Lemma Rabs_mul_finite sx mx ex sy my ey :
  Rabs (SF2R (S754_finite sx mx ex) * SF2R (S754_finite sy my ey))
  = IZR (Z.pos (mx * my)) * bpow (ex + ey).
Proof.
  rewrite Rabs_mult, !SF2R_abs_finite, Pos2Z.inj_mul, mult_IZR, bpow_add. ring.
Qed.

Lemma SFmul_bound x y :
  valid_binary x = true -> valid_binary y = true -> SFfin x -> SFfin y ->
  rnd_bound (SF2R x * SF2R y) < bpow 1024 ->
  SFfin (SFmul prec emax x y) /\
  Rabs (SF2R (SFmul prec emax x y)) <= rnd_bound (SF2R x * SF2R y).
Proof.
  intros Vx Vy Fx Fy Hb.
  assert (Hz : 0 <= rnd_bound (SF2R x * SF2R y)).
  { eapply Rle_trans; [apply Rabs_pos | apply rnd_bound_ge]. }
  destruct x as [sx|sx| |sx mx ex]; try contradiction;
    destruct y as [sy|sy| |sy my ey]; try contradiction;
    try (simpl SFmul; simpl SF2R at 1; rewrite Rabs_R0; split; [exact I | exact Hz]).
  unfold SFmul.
  unfold rnd_bound in *. rewrite Rabs_mul_finite in *.
  set (m := (mx * my)%positive) in *. set (e := (ex + ey)%Z) in *.
  pose proof (located_exact (Z.pos m) ltac:(lia)) as Hloc.
  pose proof (bpow_pos e) as Hpe. pose proof u53_pos. pose proof eta_pos.
  assert (Hm0 : 0 < IZR (Z.pos m)) by (apply IZR_lt; lia).
  assert (HX : 0 < IZR (Z.pos m) * bpow e) by nra.
  destruct (Z_le_gt_dec 0 (fexp64 (Zdigits2 (Z.pos m) + e) - e)) as [Hn|Hn].
  - pose proof (binary_round_aux_bound (xorb sx sy) (Z.pos m) e loc_Exact _ Hloc ltac:(lia) Hn) as Hr.
    destruct (binary_round_aux prec emax (xorb sx sy) (Z.pos m) e loc_Exact) as [s|s| |s m' e'].
    + split; [exact I|]. simpl. rewrite Rabs_R0. lra.
    + lra.
    + contradiction.
    + split; [exact I|]. rewrite SF2R_abs_finite. lra.
  - destruct (binary_round_aux_spec (xorb sx sy) (Z.pos m) e loc_Exact _ Hloc)
      as (m1 & Hm1 & _ & Hex & Hres).
    cbv zeta in Hres. specialize (Hex eq_refl ltac:(lia)).
    replace (e + Z.max 0 (fexp64 (Zdigits2 (Z.pos m) + e) - e))%Z with e in Hres by lia.
    rewrite Hex in Hres.
    assert (Hsmall : 0 <= IZR (Z.pos m) * bpow e * u53) by nra.
    destruct (binary_round_aux prec emax (xorb sx sy) (Z.pos m) e loc_Exact) as [s|s| |s m' e'].
    + split; [exact I|]. simpl. rewrite Rabs_R0. lra.
    + exfalso. destruct Hres as [_ [Hbig|[He _]]]; [lra|].
      (* both factors are normal, so their product has digits to shift out *)
      apply valid_finite in Vx, Vy. destruct Vx as [Cx Bx], Vy as [Cy By].
      rewrite fexp64_eq in *.
      pose proof (digits2_pos_mul mx my). fold m in H1.
      simpl Zdigits2 in Hn. subst e. lia.
    + contradiction.
    + split; [exact I|]. rewrite SF2R_abs_finite. lra.
Qed.

Lemma iter_xO_spec m d :
  Z.pos (Pos.iter xO m d) = (Z.pos m * 2 ^ Z.pos d)%Z /\
  Z.pos (digits2_pos (Pos.iter xO m d)) = (Z.pos (digits2_pos m) + Z.pos d)%Z.
Proof.
  induction d as [|d IH] using Pos.peano_ind.
  - simpl. split; lia.
  - rewrite Pos.iter_succ. destruct IH as [IH1 IH2].
    change (digits2_pos (Pos.iter xO m d)~0) with (Pos.succ (digits2_pos (Pos.iter xO m d))).
    rewrite Pos2Z.inj_xO, !Pos2Z.inj_succ, IH1, IH2.
    rewrite Z.pow_succ_r by lia. split; lia.
Qed.

Lemma shl_align_spec mx ex ex' :
  snd (shl_align mx ex ex') = Z.min ex ex' /\
  Z.pos (fst (shl_align mx ex ex')) = (Z.pos mx * 2 ^ (ex - Z.min ex ex'))%Z /\
  Z.pos (digits2_pos (fst (shl_align mx ex ex')))
  = (Z.pos (digits2_pos mx) + (ex - Z.min ex ex'))%Z.
Proof.
  unfold shl_align. destruct (ex' - ex)%Z as [|d|d] eqn:E; simpl fst; simpl snd.
  - replace (Z.min ex ex') with ex by lia. rewrite Z.sub_diag. simpl. split; [|split]; lia.
  - replace (Z.min ex ex') with ex by lia. rewrite Z.sub_diag. simpl. split; [|split]; lia.
  - replace (Z.min ex ex') with ex' by lia.
    replace (ex - ex')%Z with (Z.pos d) by lia.
    destruct (iter_xO_spec mx d) as [H1 H2]. split; [reflexivity|]. split; assumption.
Qed.

Lemma shl_align_value mx ex ex' :
  IZR (Z.pos (fst (shl_align mx ex ex'))) * bpow (Z.min ex ex') = IZR (Z.pos mx) * bpow ex.
Proof.
  destruct (shl_align_spec mx ex ex') as (_ & Hm & _). rewrite Hm, mult_IZR.
  rewrite <- bpow_IZR by lia. rewrite Rmult_assoc, <- bpow_add. f_equal. f_equal. lia.
Qed.

(** Rounding the integer m * 2^ez. *)
Lemma binary_round_bound sx m ez :
  IZR (Z.pos m) * bpow ez * (1 + u53) + eta < bpow 1024 ->
  match binary_round prec emax sx m ez with
  | S754_zero s => s = sx
  | S754_finite s m' e' =>
      s = sx /\ IZR (Z.pos m') * bpow e' <= IZR (Z.pos m) * bpow ez * (1 + u53) + eta
  | _ => False
  end.
Proof.
  intros Hb. unfold binary_round.
  set (f := fexp prec emax (Z.pos (digits2_pos m) + ez)).
  destruct (shl_align_spec m ez f) as (He & Hm & Hd).
  pose proof (shl_align_value m ez f) as Hv.
  destruct (shl_align m ez f) as [mz e]. cbn [fst snd] in He, Hm, Hd, Hv. subst e.
  pose proof (located_exact (Z.pos mz) ltac:(lia)) as Hloc.
  assert (Hn : (0 <= fexp64 (Zdigits2 (Z.pos mz) + Z.min ez f) - Z.min ez f)%Z).
  { change (Zdigits2 (Z.pos mz)) with (Z.pos (digits2_pos mz)). rewrite Hd.
    replace (Z.pos (digits2_pos m) + (ez - Z.min ez f) + Z.min ez f)%Z
      with (Z.pos (digits2_pos m) + ez)%Z by lia.
    change (fexp64 (Z.pos (digits2_pos m) + ez)) with f. lia. }
  pose proof (binary_round_aux_bound sx (Z.pos mz) (Z.min ez f) loc_Exact _ Hloc ltac:(lia) Hn) as Hr.
  rewrite Hv in Hr.
  destruct (binary_round_aux prec emax sx (Z.pos mz) (Z.min ez f) loc_Exact) as [s|s| |s m' e'].
  - exact Hr.
  - lra.
  - exact Hr.
  - destruct Hr as (Hs & Hle & _). auto.
Qed.

Lemma binary_normalize_bound z ez :
  Rabs (IZR z * bpow ez) * (1 + u53) + eta < bpow 1024 ->
  SFfin (binary_normalize prec emax z ez false) /\
  Rabs (SF2R (binary_normalize prec emax z ez false))
  <= Rabs (IZR z * bpow ez) * (1 + u53) + eta /\
  (0 <= IZR z * bpow ez -> 0 <= SF2R (binary_normalize prec emax z ez false)) /\
  (IZR z * bpow ez <= 0 -> SF2R (binary_normalize prec emax z ez false) <= 0).
Proof.
  intros Hb. pose proof (bpow_pos ez) as Hpe. pose proof u53_pos. pose proof eta_pos.
  destruct z as [|m|m]; unfold binary_normalize.
  - simpl. rewrite Rmult_0_l, Rabs_R0. repeat split; lra.
  - assert (Hm : 0 < IZR (Z.pos m)) by (apply IZR_lt; lia).
    assert (HX : 0 < IZR (Z.pos m) * bpow ez) by nra.
    rewrite (Rabs_right (IZR (Z.pos m) * bpow ez)) in * by lra.
    pose proof (binary_round_bound false m ez Hb) as Hr.
    destruct (binary_round prec emax false m ez) as [s|s| |s m' e']; try contradiction.
    + simpl. rewrite Rabs_R0. repeat split; try lra. assert (0 <= IZR (Z.pos m) * bpow ez * u53) by nra. lra.
    + destruct Hr as [-> Hle]. split; [exact I|]. rewrite SF2R_abs_finite.
      split; [exact Hle|]. simpl.
      assert (0 < IZR (Z.pos m')) by (apply IZR_lt; lia). pose proof (bpow_pos e').
      assert (0 < IZR (Z.pos m') * bpow e') by nra.
      split; lra.
  - assert (Hm : 0 < IZR (Z.pos m)) by (apply IZR_lt; lia).
    assert (HX : 0 < IZR (Z.pos m) * bpow ez) by nra.
    assert (Hz : IZR (Z.neg m) * bpow ez = - (IZR (Z.pos m) * bpow ez)).
    { replace (IZR (Z.neg m)) with (- IZR (Z.pos m)) by reflexivity. ring. }
    rewrite Hz in *. rewrite Rabs_Ropp in *.
    rewrite (Rabs_right (IZR (Z.pos m) * bpow ez)) in * by lra.
    pose proof (binary_round_bound true m ez Hb) as Hr.
    destruct (binary_round prec emax true m ez) as [s|s| |s m' e']; try contradiction.
    + simpl. rewrite Rabs_R0. repeat split; try lra. assert (0 <= IZR (Z.pos m) * bpow ez * u53) by nra. lra.
    + destruct Hr as [-> Hle]. split; [exact I|]. rewrite SF2R_abs_finite.
      split; [exact Hle|]. simpl.
      assert (0 < IZR (Z.pos m')) by (apply IZR_lt; lia). pose proof (bpow_pos e').
      assert (0 < IZR (Z.pos m') * bpow e') by nra.
      split; lra.
Qed.

Lemma cond_Zopp_value s m e :
  IZR (cond_Zopp s (Z.pos m)) * bpow e = SF2R (S754_finite s m e).
Proof.
  destruct s; unfold cond_Zopp, SF2R.
  - change (- Z.pos m)%Z with (Z.neg m).
    replace (IZR (Z.neg m)) with (- IZR (Z.pos m)) by reflexivity. ring.
  - ring.
Qed.

Lemma SFadd_bound x y :
  SFfin x -> SFfin y ->
  Rabs (SF2R x + SF2R y) * (1 + u53) + eta < bpow 1024 ->
  SFfin (SFadd prec emax x y) /\
  Rabs (SF2R (SFadd prec emax x y)) <= Rabs (SF2R x + SF2R y) * (1 + u53) + eta /\
  (0 <= SF2R x + SF2R y -> 0 <= SF2R (SFadd prec emax x y)) /\
  (SF2R x + SF2R y <= 0 -> SF2R (SFadd prec emax x y) <= 0).
Proof.
  intros Fx Fy Hb. pose proof u53_pos. pose proof eta_pos.
  assert (Hgen : forall v, 0 <= Rabs v * u53) by (intros v; pose proof (Rabs_pos v); nra).
  destruct x as [sx|sx| |sx mx ex]; try contradiction;
    destruct y as [sy|sy| |sy my ey]; try contradiction.
  - assert (Hzero : SF2R (SFadd prec emax (S754_zero sx) (S754_zero sy)) = 0)
      by (destruct sx, sy; reflexivity).
    rewrite Hzero. simpl SF2R. rewrite Rplus_0_l, Rabs_R0.
    split; [destruct sx, sy; exact I|]. repeat split; lra.
  - unfold SFadd. simpl (SF2R (S754_zero sx)). rewrite Rplus_0_l.
    split; [exact I|]. specialize (Hgen (SF2R (S754_finite sy my ey))).
    repeat split; try lra.
  - unfold SFadd. simpl (SF2R (S754_zero sy)). rewrite Rplus_0_r.
    split; [exact I|]. specialize (Hgen (SF2R (S754_finite sx mx ex))).
    repeat split; try lra.
  - unfold SFadd.
    set (ez := Z.min ex ey).
    set (z := (cond_Zopp sx (Z.pos (fst (shl_align mx ex ez)))
               + cond_Zopp sy (Z.pos (fst (shl_align my ey ez))))%Z).
    assert (Hz : IZR z * bpow ez = SF2R (S754_finite sx mx ex) + SF2R (S754_finite sy my ey)).
    { assert (Hc : forall s a b, IZR (cond_Zopp s (Z.pos a)) * b
                                 = (if s then -1 else 1) * (IZR (Z.pos a) * b)).
      { intros s a b. destruct s; unfold cond_Zopp.
        - change (- Z.pos a)%Z with (Z.neg a).
          replace (IZR (Z.neg a)) with (- IZR (Z.pos a)) by reflexivity. ring.
        - ring. }
      pose proof (shl_align_value mx ex ez) as Hx.
      pose proof (shl_align_value my ey ez) as Hy.
      replace (Z.min ex ez) with ez in Hx by (subst ez; lia).
      replace (Z.min ey ez) with ez in Hy by (subst ez; lia).
      subst z. rewrite plus_IZR, Rmult_plus_distr_r, !Hc, Hx, Hy. reflexivity. }
    rewrite <- Hz in *. apply binary_normalize_bound. exact Hb.
Qed.

Lemma new_location_located m2 q r :
  (0 <= q)%Z -> (0 <= r < m2)%Z ->
  located (shr_record_of_loc q (new_location m2 r)) (IZR q + IZR r / IZR m2).
Proof.
  intros Hq Hr. assert (Hm2 : 0 < IZR m2) by (apply IZR_lt; lia).
  set (t := IZR r / IZR m2).
  assert (Ht : t * IZR m2 = IZR r) by (unfold t; field; lra).
  unfold new_location, new_location_even, new_location_odd.
  destruct (Z.even m2) eqn:Hev; destruct (Z.eqb_spec r 0) as [Hz|Hne].
  - subst r. split; simpl; [lia|]. nra.
  - assert (0 < IZR r) by (apply IZR_lt; lia).
    destruct (Z.compare_spec (2 * r) m2) as [He|Hl|Hg].
    + split; simpl; [lia|]. apply (f_equal IZR) in He. rewrite mult_IZR in He. nra.
    + split; simpl; [lia|]. apply IZR_lt in Hl. rewrite mult_IZR in Hl. nra.
    + split; simpl; [lia|]. apply IZR_lt in Hg. rewrite mult_IZR in Hg.
      assert (IZR r < IZR m2) by (apply IZR_lt; lia). nra.
  - subst r. split; simpl; [lia|]. nra.
  - assert (0 < IZR r) by (apply IZR_lt; lia).
    assert (Hodd : (2 * r <> m2)%Z).
    { intros <-. rewrite Z.even_mul in Hev. discriminate. }
    destruct (Z.compare_spec (2 * r + 1) m2) as [He|Hl|Hg].
    + split; simpl; [lia|]. assert (Hl : (2 * r < m2)%Z) by lia.
      apply IZR_lt in Hl. rewrite mult_IZR in Hl. nra.
    + split; simpl; [lia|]. assert (Hl' : (2 * r < m2)%Z) by lia.
      apply IZR_lt in Hl'. rewrite mult_IZR in Hl'. nra.
    + split; simpl; [lia|]. assert (Hg' : (m2 < 2 * r)%Z) by lia.
      apply IZR_lt in Hg'. rewrite mult_IZR in Hg'.
      assert (IZR r < IZR m2) by (apply IZR_lt; lia). nra.
Qed.

Lemma SFdiv_core_binary_spec mx ex my ey :
  bpow (-1074) <= IZR (Z.pos mx) * bpow ex / (IZR (Z.pos my) * bpow ey) ->
  exists x,
    let '(q, e', l) := SFdiv_core_binary prec emax (Z.pos mx) ex (Z.pos my) ey in
    located (shr_record_of_loc q l) x /\
    (0 < q)%Z /\
    (0 <= fexp64 (Zdigits2 q + e') - e')%Z /\
    x * bpow e' = IZR (Z.pos mx) * bpow ex / (IZR (Z.pos my) * bpow ey).
Proof.
  intros Hlow. unfold SFdiv_core_binary.
  set (d1 := Zdigits2 (Z.pos mx)). set (d2 := Zdigits2 (Z.pos my)).
  change (fexp prec emax (d1 + ex - (d2 + ey))) with (fexp64 (d1 + ex - (d2 + ey))).
  set (e' := Z.min (fexp64 (d1 + ex - (d2 + ey))) (ex - ey)).
  set (s := (ex - ey - e')%Z).
  assert (Hs : (0 <= s)%Z) by (subst s e'; lia).
  set (m' := match s with Z.pos _ => Z.shiftl (Z.pos mx) s | 0%Z => Z.pos mx | Z.neg _ => 0%Z end).
  assert (Hm' : m' = (Z.pos mx * 2 ^ s)%Z).
  { subst m'. destruct s as [|p|p] eqn:Es; [simpl; lia | | lia].
    rewrite Z.shiftl_mul_pow2 by lia. reflexivity. }
  pose proof (Z_div_mod m' (Z.pos my) ltac:(lia)) as Hdiv.
  destruct (Z.div_eucl m' (Z.pos my)) as [q r]. destruct Hdiv as [Hdiv Hr].
  assert (Hp2 : (0 < 2 ^ s)%Z) by (apply Z.pow_pos_nonneg; lia).
  assert (Hmy : 0 < IZR (Z.pos my)) by (apply IZR_lt; lia).
  assert (Hmx : 0 < IZR (Z.pos mx)) by (apply IZR_lt; lia).
  pose proof (bpow_pos ex) as Hbex. pose proof (bpow_pos ey) as Hbey.
  pose proof (bpow_pos e') as Hbe'.
  assert (Hq0 : (0 <= q)%Z) by nia.
  assert (Hval : (IZR q + IZR r / IZR (Z.pos my)) * bpow e'
                 = IZR (Z.pos mx) * bpow ex / (IZR (Z.pos my) * bpow ey)).
  { assert (Hreal : IZR q + IZR r / IZR (Z.pos my) = IZR m' / IZR (Z.pos my)).
    { rewrite Hdiv, plus_IZR, mult_IZR. field. lra. }
    rewrite Hreal, Hm', mult_IZR, <- bpow_IZR by lia.
    assert (Hex : bpow ex = bpow s * bpow e' * bpow ey).
    { rewrite <- !bpow_add. f_equal. subst s. lia. }
    rewrite Hex. field. split; lra. }
  exists (IZR q + IZR r / IZR (Z.pos my)).
  split; [apply new_location_located; lia|].
  assert (Hcases : (1 <= q)%Z /\ ((e' <= -1074)%Z \/ (2 ^ 52 <= q)%Z)).
  { destruct (Z_lt_le_dec (d1 + ex - (d2 + ey) - 53) (-1074)) as [Hsub|Hnorm].
    - assert (He' : (e' <= -1074)%Z) by (subst e'; rewrite fexp64_eq; lia).
      split; [|left; exact He'].
      assert (Hge : 1 <= IZR q + IZR r / IZR (Z.pos my)).
      { rewrite <- Hval in Hlow.
        assert (bpow e' <= bpow (-1074)) by (apply bpow_le; lia).
        pose proof (bpow_pos (-1074)).
        set (t := IZR q + IZR r / IZR (Z.pos my)) in *.
        destruct (Rle_lt_dec 1 t) as [|Hlt]; [assumption|].
        assert (t * bpow e' < bpow e') by nra. lra. }
      destruct (Z_lt_le_dec q 1) as [Hq1|]; [|assumption]. exfalso.
      assert (q = 0%Z) by lia. subst q. simpl IZR in Hge.
      assert (IZR r < IZR (Z.pos my)) by (apply IZR_lt; lia).
      assert (IZR r / IZR (Z.pos my) < 1).
      { apply (Rmult_lt_reg_r (IZR (Z.pos my))); [lra|]. unfold Rdiv.
        rewrite Rmult_assoc, Rinv_l by lra. lra. }
      lra.
    - assert (He' : (e' <= d1 + ex - (d2 + ey) - 53)%Z) by (subst e'; rewrite fexp64_eq; lia).
      assert (Hs53 : (53 - d1 + d2 <= s)%Z) by (subst s; lia).
      destruct (digits2_pos_bounds mx) as [Hd1l Hd1u].
      destruct (digits2_pos_bounds my) as [Hd2l Hd2u].
      change (Z.pos (digits2_pos mx)) with d1 in Hd1l, Hd1u.
      change (Z.pos (digits2_pos my)) with d2 in Hd2l, Hd2u.
      assert (Hd1 : (0 < d1)%Z) by (apply Zdigits2_pos; lia).
      assert (Hd2 : (0 < d2)%Z) by (apply Zdigits2_pos; lia).
      assert (Hbig : (2 ^ 52 * 2 ^ d2 <= m')%Z).
      { rewrite Hm'. rewrite <- Z.pow_add_r by lia.
        apply Z.le_trans with (2 ^ (d1 - 1) * 2 ^ s)%Z.
        - rewrite <- Z.pow_add_r by lia. apply Z.pow_le_mono_r; lia.
        - apply Z.mul_le_mono_nonneg_r; lia. }
      assert (H52 : (2 ^ 52 <= q)%Z).
      { destruct (Z_lt_le_dec q (2 ^ 52)) as [Hlt|]; [|assumption]. exfalso.
        assert (Z.pos my * (q + 1) <= Z.pos my * 2 ^ 52)%Z by (apply Z.mul_le_mono_nonneg_l; lia).
        assert (2 ^ 52 * Z.pos my < 2 ^ 52 * 2 ^ d2)%Z by (apply Z.mul_lt_mono_pos_l; lia).
        lia. }
      split; [|right; exact H52]. assert (0 < 2 ^ 52)%Z by lia. lia. }
  destruct Hcases as [Hq1 Hcase].
  split; [lia|]. split; [|exact Hval].
  rewrite fexp64_eq. destruct Hcase as [He'|H52]; [lia|].
  destruct q as [|pq|pq]; try lia.
  destruct (digits2_pos_bounds pq) as [_ Hu].
  change (Z.pos (digits2_pos pq)) with (Zdigits2 (Z.pos pq)) in Hu.
  assert (52 < Zdigits2 (Z.pos pq))%Z.
  { destruct (Z_lt_le_dec 52 (Zdigits2 (Z.pos pq))); [assumption|]. exfalso.
    assert (2 ^ Zdigits2 (Z.pos pq) <= 2 ^ 52)%Z by (apply Z.pow_le_mono_r; lia). lia. }
  lia.
Qed.

Lemma SFdiv_bound x y :
  SFfin x -> SFfin y -> SF2R x <> 0 -> SF2R y <> 0 ->
  bpow (-1074) <= Rabs (SF2R x / SF2R y) ->
  rnd_bound (SF2R x / SF2R y) < bpow 1024 ->
  SFfin (SFdiv prec emax x y) /\
  Rabs (SF2R (SFdiv prec emax x y)) <= rnd_bound (SF2R x / SF2R y).
Proof.
  intros Fx Fy Nx Ny Hlow Hb.
  destruct x as [sx|sx| |sx mx ex]; try contradiction; try (simpl in Nx; lra).
  destruct y as [sy|sy| |sy my ey]; try contradiction; try (simpl in Ny; lra).
  assert (Habs : Rabs (SF2R (S754_finite sx mx ex) / SF2R (S754_finite sy my ey))
                 = IZR (Z.pos mx) * bpow ex / (IZR (Z.pos my) * bpow ey)).
  { unfold Rdiv. rewrite Rabs_mult, Rabs_inv, !SF2R_abs_finite. reflexivity. }
  unfold rnd_bound in *. rewrite Habs in *.
  destruct (SFdiv_core_binary_spec mx ex my ey Hlow) as (xq & Hspec).
  unfold SFdiv.
  destruct (SFdiv_core_binary prec emax (Z.pos mx) ex (Z.pos my) ey) as [[q e'] l].
  destruct Hspec as (Hloc & Hq & Hn & Hval).
  pose proof (binary_round_aux_bound (xorb sx sy) q e' l xq Hloc Hq Hn) as Hr.
  rewrite Hval in Hr.
  destruct (binary_round_aux prec emax (xorb sx sy) q e' l) as [s|s| |s m e].
  - split; [exact I|]. simpl SF2R. rewrite Rabs_R0.
    pose proof (bpow_pos (-1074)). pose proof u53_pos. pose proof eta_pos. nra.
  - lra.
  - contradiction.
  - split; [exact I|]. rewrite SF2R_abs_finite. tauto.
Qed.

Lemma SFsub_as_add x y :
  SFfin x -> SFfin y -> SFsub prec emax x y = SFadd prec emax x (SFopp y).
Proof.
  destruct x as [[|]|[|]| |sx mx ex]; try contradiction;
    destruct y as [[|]|[|]| |[|] my ey]; try contradiction; reflexivity.
Qed.

Lemma SFopp_value y : SFfin (SFopp y) = SFfin y /\ SF2R (SFopp y) = - SF2R y.
Proof.
  destruct y as [s|s| |s m e]; simpl; split; try reflexivity; try lra.
  destruct s; simpl; lra.
Qed.

Lemma SFsub_bound x y :
  SFfin x -> SFfin y ->
  rnd_bound (SF2R x - SF2R y) < bpow 1024 ->
  SFfin (SFsub prec emax x y) /\
  Rabs (SF2R (SFsub prec emax x y)) <= rnd_bound (SF2R x - SF2R y).
Proof.
  intros Fx Fy Hb. rewrite SFsub_as_add by assumption.
  destruct (SFopp_value y) as [Hf Hv].
  assert (Fy' : SFfin (SFopp y)) by (rewrite Hf; exact Fy).
  unfold rnd_bound in *. unfold Rminus in *. rewrite <- Hv in *.
  destruct (SFadd_bound x (SFopp y) Fx Fy' Hb) as (H1 & H2 & _). split; assumption.
Qed.

Lemma binary_round_aux_sign sx mx ex lx :
  match binary_round_aux prec emax sx mx ex lx with
  | S754_finite s _ _ => s = sx
  | _ => True
  end.
Proof.
  unfold binary_round_aux.
  destruct (shr_fexp prec emax mx ex lx) as [mrs e].
  destruct (shr_fexp prec emax _ e loc_Exact) as [mrs' e'].
  destruct (shr_m mrs'); try exact I.
  destruct (e' <=? emax - prec)%Z; [reflexivity | exact I].
Qed.

Lemma SFmul_not_negative x y :
  0 <= SF2R x -> 0 <= SF2R y -> 0 <= SF2R (SFmul prec emax x y).
Proof.
  intros Hx Hy.
  destruct x as [sx|sx| |sx mx ex]; destruct y as [sy|sy| |sy my ey];
    try (simpl; lra).
  assert (Hpos : forall s m e, 0 <= SF2R (S754_finite s m e) -> s = false).
  { intros s m e H. destruct s; [|reflexivity]. exfalso. simpl in H.
    pose proof (bpow_pos e). assert (0 < IZR (Z.pos m)) by (apply IZR_lt; lia). nra. }
  apply Hpos in Hx, Hy. subst sx sy. unfold SFmul.
  pose proof (binary_round_aux_sign (xorb false false) (Z.pos (mx * my)) (ex + ey) loc_Exact) as Hs.
  destruct (binary_round_aux prec emax (xorb false false) (Z.pos (mx * my)) (ex + ey) loc_Exact)
    as [s|s| |s m e]; try (simpl; lra).
  subst s. simpl. pose proof (bpow_pos e). assert (0 < IZR (Z.pos m)) by (apply IZR_lt; lia). nra.
Qed.

(** Comparison of canonical floats is comparison of their values. *)
Lemma canonical_lt m1 e1 m2 e2 :
  fexp64 (Z.pos (digits2_pos m1) + e1) = e1 ->
  fexp64 (Z.pos (digits2_pos m2) + e2) = e2 ->
  (e1 < e2)%Z ->
  IZR (Z.pos m1) * bpow e1 < IZR (Z.pos m2) * bpow e2.
Proof.
  intros C1 C2 He. rewrite fexp64_eq in C1, C2.
  destruct (Zdigits2_bounds (Z.pos m1) ltac:(lia)) as [_ H1].
  destruct (Zdigits2_bounds (Z.pos m2) ltac:(lia)) as [H2 _].
  simpl Zdigits2 in H1, H2.
  assert (Hd2 : Z.pos (digits2_pos m2) = 53%Z) by lia.
  rewrite Hd2 in H2. change (53 - 1)%Z with 52%Z in H2.
  assert (H1' : IZR (Z.pos m1) < bpow 53).
  { eapply Rlt_le_trans; [exact H1|]. apply bpow_le. lia. }
  pose proof (bpow_pos e1). pose proof (bpow_pos e2).
  apply Rlt_le_trans with (bpow 53 * bpow e1); [nra|].
  apply Rle_trans with (bpow 52 * bpow e2); [|nra].
  rewrite <- !bpow_add. apply bpow_le. lia.
Qed.

Lemma SFcompare_real x y :
  valid_binary x = true -> valid_binary y = true -> SFfin x -> SFfin y ->
  match SFcompare x y with
  | Some Lt => SF2R x < SF2R y
  | Some Eq => SF2R x = SF2R y
  | Some Gt => SF2R y < SF2R x
  | None => False
  end.
Proof.
  intros Vx Vy Fx Fy.
  assert (Hpos : forall m e, 0 < IZR (Z.pos m) * bpow e).
  { intros m e. pose proof (bpow_pos e). assert (0 < IZR (Z.pos m)) by (apply IZR_lt; lia). nra. }
  destruct x as [sx|sx| |sx mx ex]; try contradiction;
    destruct y as [sy|sy| |sy my ey]; try contradiction.
  - reflexivity.
  - simpl. pose proof (Hpos my ey). destruct sy; lra.
  - simpl. pose proof (Hpos mx ex). destruct sx; lra.
  - apply valid_finite in Vx, Vy. destruct Vx as [Cx _], Vy as [Cy _].
    pose proof (Hpos mx ex) as Px. pose proof (Hpos my ey) as Py.
    assert (Hcmp : match Z.compare ex ey with
                   | Lt => IZR (Z.pos mx) * bpow ex < IZR (Z.pos my) * bpow ey
                   | Gt => IZR (Z.pos my) * bpow ey < IZR (Z.pos mx) * bpow ex
                   | Eq => match Pos.compare_cont Eq mx my with
                           | Lt => IZR (Z.pos mx) * bpow ex < IZR (Z.pos my) * bpow ey
                           | Gt => IZR (Z.pos my) * bpow ey < IZR (Z.pos mx) * bpow ex
                           | Eq => IZR (Z.pos mx) * bpow ex = IZR (Z.pos my) * bpow ey
                           end
                   end).
    { destruct (Z.compare_spec ex ey) as [He|He|He].
      - subst ey. change (Pos.compare_cont Eq mx my) with (Pos.compare mx my).
        pose proof (bpow_pos ex).
        destruct (Pos.compare_spec mx my) as [Hm|Hm|Hm].
        + subst my. reflexivity.
        + assert (IZR (Z.pos mx) < IZR (Z.pos my)) by (apply IZR_lt; lia). nra.
        + assert (IZR (Z.pos my) < IZR (Z.pos mx)) by (apply IZR_lt; lia). nra.
      - apply canonical_lt; assumption.
      - apply canonical_lt; assumption. }
    unfold SFcompare. unfold SF2R.
    destruct sx, sy; try lra;
      destruct (Z.compare ex ey); try lra;
      destruct (Pos.compare_cont Eq mx my); simpl CompOpp; lra.
Qed.

Lemma Fmul_bound a b :
  Ffin a -> Ffin b -> rnd_bound (F2R a * F2R b) < bpow 1024 ->
  Ffin (a * b) /\ Rabs (F2R (a * b)) <= rnd_bound (F2R a * F2R b) /\
  (0 <= F2R a -> 0 <= F2R b -> 0 <= F2R (a * b)).
Proof.
  unfold Ffin, F2R. rewrite FloatAxioms.mul_spec. intros Fa Fb Hb.
  destruct (SFmul_bound _ _ (Prim2SF_valid a) (Prim2SF_valid b) Fa Fb Hb) as [H1 H2].
  split; [exact H1|]. split; [exact H2|]. apply SFmul_not_negative.
Qed.

Lemma Fadd_bound a b :
  Ffin a -> Ffin b -> rnd_bound (F2R a + F2R b) < bpow 1024 ->
  Ffin (a + b) /\ Rabs (F2R (a + b)) <= rnd_bound (F2R a + F2R b).
Proof.
  unfold Ffin, F2R. rewrite FloatAxioms.add_spec. intros Fa Fb Hb.
  destruct (SFadd_bound _ _ Fa Fb Hb) as (H1 & H2 & _). split; assumption.
Qed.

Lemma Fsub_bound a b :
  Ffin a -> Ffin b -> rnd_bound (F2R a - F2R b) < bpow 1024 ->
  Ffin (a - b) /\ Rabs (F2R (a - b)) <= rnd_bound (F2R a - F2R b).
Proof.
  unfold Ffin, F2R. rewrite FloatAxioms.sub_spec. intros Fa Fb Hb.
  apply SFsub_bound; assumption.
Qed.

Lemma Fdiv_bound a b :
  Ffin a -> Ffin b -> F2R a <> 0 -> F2R b <> 0 ->
  bpow (-1074) <= Rabs (F2R a / F2R b) ->
  rnd_bound (F2R a / F2R b) < bpow 1024 ->
  Ffin (a / b) /\ Rabs (F2R (a / b)) <= rnd_bound (F2R a / F2R b).
Proof.
  unfold Ffin, F2R. rewrite FloatAxioms.div_spec. intros Fa Fb Na Nb Hl Hb.
  apply SFdiv_bound; assumption.
Qed.

Lemma Fcompare_real a b :
  Ffin a -> Ffin b ->
  match SFcompare (Prim2SF a) (Prim2SF b) with
  | Some Lt => F2R a < F2R b
  | Some Eq => F2R a = F2R b
  | Some Gt => F2R b < F2R a
  | None => False
  end.
Proof. intros Fa Fb. apply SFcompare_real; auto using Prim2SF_valid. Qed.

Lemma Fltb_true a b : Ffin a -> Ffin b -> F2R a < F2R b -> (a <? b)%float = true.
Proof.
  intros Fa Fb H. rewrite FloatAxioms.ltb_spec. unfold SFltb.
  pose proof (Fcompare_real a b Fa Fb) as Hc.
  destruct (SFcompare (Prim2SF a) (Prim2SF b)) as [[| |]|]; try reflexivity; try contradiction; lra.
Qed.

Lemma Fltb_real a b : Ffin a -> Ffin b -> (a <? b)%float = true -> F2R a < F2R b.
Proof.
  intros Fa Fb. rewrite FloatAxioms.ltb_spec. unfold SFltb.
  pose proof (Fcompare_real a b Fa Fb) as Hc.
  destruct (SFcompare (Prim2SF a) (Prim2SF b)) as [[| |]|]; try discriminate. intros _. exact Hc.
Qed.

Lemma Fleb_real a b : Ffin a -> Ffin b -> (a <=? b)%float = true -> F2R a <= F2R b.
Proof.
  intros Fa Fb. rewrite FloatAxioms.leb_spec. unfold SFleb.
  pose proof (Fcompare_real a b Fa Fb) as Hc.
  destruct (SFcompare (Prim2SF a) (Prim2SF b)) as [[| |]|]; try discriminate; intros _; lra.
Qed.

(** A float between two finite floats is finite. *)
Lemma SFfin_between lo x hi :
  SFfin lo -> SFfin hi ->
  (SFleb lo x = true \/ SFltb lo x = true) ->
  (SFleb x hi = true \/ SFltb x hi = true) ->
  SFfin x.
Proof.
  intros Flo Fhi Hlo Hhi. unfold SFleb, SFltb in *.
  destruct x as [s|s| |s m e]; try exact I.
  - destruct s.
    + destruct lo as [?|?| |? ? ?]; try contradiction; simpl in Hlo;
        destruct Hlo; discriminate.
    + destruct hi as [?|?| |? ? ?]; try contradiction; simpl in Hhi;
        destruct Hhi; discriminate.
  - destruct lo as [?|?| |? ? ?]; try contradiction; simpl in Hlo;
      destruct Hlo; discriminate.
Qed.

Lemma Ffin_between lo x hi :
  Ffin lo -> Ffin hi ->
  (lo <=? x)%float = true -> (x <=? hi)%float = true -> Ffin x.
Proof.
  intros Flo Fhi H1 H2. rewrite FloatAxioms.leb_spec in H1, H2.
  apply (SFfin_between (Prim2SF lo) (Prim2SF x) (Prim2SF hi));
    [exact Flo | exact Fhi | left; exact H1 | left; exact H2].
Qed.

Lemma Ffin_draw u :
  (0 <=? u)%float = true -> (u <? 1)%float = true -> Ffin u /\ 0 <= F2R u < 1.
Proof.
  intros H1 H2.
  assert (F0 : Ffin 0%float) by exact I.
  assert (F1 : Ffin 1%float) by exact I.
  assert (Fu : Ffin u).
  { rewrite FloatAxioms.leb_spec in H1. rewrite FloatAxioms.ltb_spec in H2.
    eapply SFfin_between; [exact F0 | exact F1 | left; exact H1 | right; exact H2]. }
  split; [exact Fu|].
  pose proof (Fleb_real _ _ F0 Fu H1) as L. pose proof (Fltb_real _ _ Fu F1 H2) as U.
  replace (F2R 0%float) with 0 in L by reflexivity.
  replace (F2R 1%float) with 1 in U; [lra|].
  unfold F2R. replace (Prim2SF 1%float) with (S754_finite false 4503599627370496 (-52)) by reflexivity.
  unfold SF2R, bpow. simpl. lra.
Qed.

(** Integers below 2^53 are floats. *)
Lemma binary_round_aux_canonical sx m e :
  Z.pos (digits2_pos m) = 53%Z -> (-1074 <= e <= 971)%Z ->
  binary_round_aux prec emax sx (Z.pos m) e loc_Exact = S754_finite sx m e.
Proof.
  intros Hd He.
  assert (Hn : (fexp prec emax (Zdigits2 (Z.pos m) + e) - e = 0)%Z).
  { change (fexp prec emax) with fexp64. simpl Zdigits2. rewrite Hd, fexp64_eq. lia. }
  unfold binary_round_aux, shr_fexp. rewrite Hn. unfold shr.
  cbn [shr_record_of_loc shr_m loc_of_shr_record shr_r shr_s round_nearest_even].
  rewrite Hn. cbn [shr_m].
  replace (e <=? emax - prec)%Z with true; [reflexivity|].
  symmetry. apply Z.leb_le. change (emax - prec)%Z with 971%Z. lia.
Qed.

Lemma float64_of_int_exact z :
  (0 <= z < 2 ^ 53)%Z ->
  Ffin (float64_of_int z) /\ F2R (float64_of_int z) = IZR z.
Proof.
  intros Hz. unfold float64_of_int, Ffin, F2R.
  destruct z as [|m|m]; try lia.
  - split; [exact I | reflexivity].
  - unfold binary_normalize, binary_round.
    set (f := fexp prec emax (Z.pos (digits2_pos m) + 0)).
    destruct (shl_align_spec m 0 f) as (He & Hm & Hd).
    pose proof (shl_align_value m 0 f) as Hv.
    destruct (shl_align m 0 f) as [mz e]. cbn [fst snd] in He, Hm, Hd, Hv. subst e.
    destruct (digits2_pos_bounds m) as [Hl Hu].
    assert (Hdm : (Z.pos (digits2_pos m) <= 53)%Z).
    { destruct (Z_le_gt_dec (Z.pos (digits2_pos m)) 53) as [|Hgt]; [assumption|]. exfalso.
      assert (2 ^ 53 <= 2 ^ (Z.pos (digits2_pos m) - 1))%Z by (apply Z.pow_le_mono_r; lia). lia. }
    assert (Hf : f = (Z.pos (digits2_pos m) - 53)%Z).
    { subst f. change (fexp prec emax) with fexp64. rewrite fexp64_eq. lia. }
    assert (Hmin : Z.min 0 f = f) by lia. rewrite Hmin in *.
    rewrite binary_round_aux_canonical by lia.
    rewrite Prim2SF_SF2Prim.
    + split; [exact I|]. unfold SF2R. rewrite Hv. unfold bpow. simpl. lra.
    + simpl. unfold bounded, canonical_mantissa.
      apply andb_true_iff. split.
      * apply Z.eqb_eq. change (fexp prec emax) with fexp64. rewrite fexp64_eq. lia.
      * apply Z.leb_le. change (emax - prec)%Z with 971%Z. lia.
Qed.

Lemma u53_value : u53 = / 9007199254740992.
Proof. unfold u53, bpow. simpl. lra. Qed.

Lemma eta_split : eta = bpow (-1022) * u53.
Proof. unfold eta, u53. rewrite <- bpow_add. reflexivity. Qed.

Lemma F2R_quarter : F2R 0.25%float = / 4.
Proof.
  unfold F2R.
  replace (Prim2SF 0.25%float) with (S754_finite false 4503599627370496 (-54)) by reflexivity.
  unfold SF2R, bpow. simpl. lra.
Qed.

Lemma F2R_two : F2R 2%float = 2.
Proof.
  unfold F2R.
  replace (Prim2SF 2%float) with (S754_finite false 4503599627370496 (-51)) by reflexivity.
  unfold SF2R, bpow. simpl. lra.
Qed.

Lemma F2R_one : F2R 1%float = 1.
Proof.
  unfold F2R.
  replace (Prim2SF 1%float) with (S754_finite false 4503599627370496 (-52)) by reflexivity.
  unfold SF2R, bpow. simpl. lra.
Qed.

Lemma Rabs_le_of x b : Rabs x <= b -> - b <= x <= b.
Proof. intros H. unfold Rabs in H. destruct (Rcase_abs x); lra. Qed.

Lemma Rabs_bound x b : - b <= x <= b -> Rabs x <= b.
Proof. intros H. unfold Rabs. destruct (Rcase_abs x); lra. Qed.

(** The jitter factor [u * 2 - 1] has magnitude about one at most. *)
Lemma jitter_factor_bound u :
  Ffin u -> 0 <= F2R u < 1 ->
  Ffin (u * 2 - 1)%float /\
  Rabs (F2R (u * 2 - 1)%float) <= 1 + 8 * / 9007199254740992.
Proof.
  intros Fu Hu.
  assert (He : eta <= / 9007199254740992).
  { rewrite eta_split, u53_value.
    assert (bpow (-1022) <= bpow 0) by (apply bpow_le; lia).
    rewrite bpow_0 in H. pose proof (bpow_pos (-1022)). nra. }
  pose proof eta_pos as He0.
  assert (Hbig : 4 <= bpow 1024).
  { change 1024%Z with (2 + 1022)%Z. rewrite bpow_add.
    assert (bpow 0 <= bpow 1022) by (apply bpow_le; lia). rewrite bpow_0 in H.
    assert (bpow 2 = 4) by (unfold bpow; simpl; lra). nra. }
  assert (F2 : Ffin 2%float) by exact I.
  assert (F1 : Ffin 1%float) by exact I.
  destruct (Fmul_bound u 2 Fu F2) as (Ft & Bt & St).
  { unfold rnd_bound. rewrite F2R_two, Rabs_right by lra. rewrite u53_value. lra. }
  rewrite F2R_two in Bt, St. specialize (St ltac:(lra) ltac:(lra)).
  unfold rnd_bound in Bt. rewrite (Rabs_right (F2R u * 2)) in Bt by lra.
  rewrite u53_value in Bt. apply Rabs_le_of in Bt.
  assert (Hd : Rabs (F2R (u * 2)%float - F2R 1%float) <= 1 + 3 * / 9007199254740992).
  { rewrite F2R_one. apply Rabs_bound. lra. }
  destruct (Fsub_bound (u * 2)%float 1%float Ft F1) as (Fs & Bs).
  { unfold rnd_bound. rewrite u53_value. nra. }
  split; [exact Fs|]. unfold rnd_bound in Bs. rewrite u53_value in Bs. nra.
Qed.

Lemma stagger_delay_below D count i u :
  Ffin D -> bpow (-990) <= F2R D <= bpow 1023 ->
  (1 <= count <= 4294967296)%Z -> (0 <= i < count)%Z ->
  Ffin u -> 0 <= F2R u < 1 ->
  Ffin (float64_of_int i * (D / float64_of_int count)
        + D / float64_of_int count * 0.25 * (u * 2 - 1))%float /\
  Rabs (F2R (float64_of_int i * (D / float64_of_int count)
             + D / float64_of_int count * 0.25 * (u * 2 - 1))%float) < F2R D.
Proof.
  intros FD [HDlo HDhi] Hcount Hi Fu Hu.
  destruct (float64_of_int_exact count ltac:(lia)) as [Fc Vc].
  destruct (float64_of_int_exact i ltac:(lia)) as [Fi Vi].
  destruct (jitter_factor_bound u Fu Hu) as [Fs Bs].
  set (b := (D / float64_of_int count)%float).
  set (s := (u * 2 - 1)%float) in *.
  set (C := IZR count) in *. set (Ir := IZR i) in *. set (Dr := F2R D) in *.
  assert (HC : 1 <= C <= 4294967296) by (unfold C; split; apply IZR_le; lia).
  assert (HI : 0 <= Ir <= C - 1).
  { unfold Ir, C. split; [apply IZR_le; lia|]. rewrite <- minus_IZR. apply IZR_le. lia. }
  set (beta := bpow (-1022)).
  assert (Hbeta : 0 < beta) by apply bpow_pos.
  assert (H990 : bpow (-990) = beta * 4294967296).
  { change (-990)%Z with (-1022 + 32)%Z. rewrite bpow_add. fold beta.
    f_equal. unfold bpow. simpl. lra. }
  assert (H1074 : bpow (-1074) <= beta) by (apply bpow_le; lia).
  assert (H1024 : bpow 1024 = 2 * bpow 1023).
  { change 1024%Z with (1 + 1023)%Z. rewrite bpow_add, bpow_1. reflexivity. }
  set (M := bpow 1023) in *.
  set (dl := Dr / C).
  assert (HdlC : dl * C = Dr) by (unfold dl; field; lra).
  assert (Hdl : beta <= dl).
  { apply (Rmult_le_reg_r C); [lra|]. rewrite HdlC. nra. }
  set (x := dl * Ir).
  assert (Hx : 0 <= x <= Dr - dl).
  { unfold x. split; [nra|]. rewrite <- HdlC. nra. }
  assert (HDr : Dr <= 4294967296 * dl) by (rewrite <- HdlC; nra).
  pose proof eta_pos as He0.
  assert (He : eta <= dl * / 9007199254740992).
  { rewrite eta_split, u53_value. fold beta. nra. }
  (* the base delay *)
  destruct (Fdiv_bound D (float64_of_int count) FD Fc) as [Fb Bb].
  { fold Dr. lra. }
  { rewrite Vc. lra. }
  { rewrite Vc. fold Dr dl. rewrite Rabs_right by lra. lra. }
  { rewrite Vc. fold Dr dl. unfold rnd_bound. rewrite Rabs_right by lra.
    rewrite u53_value, H1024. lra. }
  fold b in Fb, Bb. rewrite Vc in Bb. fold Dr dl in Bb. unfold rnd_bound in Bb.
  rewrite (Rabs_right dl) in Bb by lra. rewrite u53_value in Bb.
  assert (Bb' : Rabs (F2R b) <= dl * (1 + 2 * / 9007199254740992)) by lra.
  (* i * baseDelay *)
  assert (Hib : Rabs (F2R (float64_of_int i) * F2R b) <= x * (1 + 2 * / 9007199254740992)).
  { rewrite Vi, Rabs_mult, (Rabs_right Ir) by lra. unfold x.
    replace (dl * Ir * (1 + 2 * / 9007199254740992))
      with (Ir * (dl * (1 + 2 * / 9007199254740992))) by ring.
    apply Rmult_le_compat_l; lra. }
  destruct (Fmul_bound (float64_of_int i) b Fi Fb) as (Fp & Bp & _).
  { unfold rnd_bound. rewrite u53_value, H1024. lra. }
  unfold rnd_bound in Bp. rewrite u53_value in Bp.
  (* baseDelay * 0.25 *)
  assert (Hbq : Rabs (F2R b * F2R 0.25%float) <= dl * (1 + 2 * / 9007199254740992) * / 4).
  { rewrite F2R_quarter, Rabs_mult, (Rabs_right (/ 4)) by lra. lra. }
  destruct (Fmul_bound b 0.25%float Fb I) as (Fq & Bq & _).
  { unfold rnd_bound. rewrite u53_value, H1024. lra. }
  unfold rnd_bound in Bq. rewrite u53_value in Bq.
  (* the jitter *)
  assert (Hqs : Rabs (F2R (b * 0.25)%float * F2R s)
                <= dl * (/ 4 + 3 * / 9007199254740992) * (1 + 8 * / 9007199254740992)).
  { rewrite Rabs_mult. apply Rmult_le_compat; try apply Rabs_pos; lra. }
  destruct (Fmul_bound (b * 0.25)%float s Fq Fs) as (Fj & Bj & _).
  { unfold rnd_bound. rewrite u53_value, H1024. lra. }
  unfold rnd_bound in Bj. rewrite u53_value in Bj.
  (* the delay *)
  pose proof (Rabs_triang (F2R (float64_of_int i * b)%float) (F2R (b * 0.25 * s)%float)) as Htri.
  destruct (Fadd_bound (float64_of_int i * b)%float (b * 0.25 * s)%float Fp Fj) as (Fd & Bd).
  { unfold rnd_bound. rewrite u53_value, H1024. lra. }
  unfold rnd_bound in Bd. rewrite u53_value in Bd.
  split; [exact Fd|]. lra.
Qed.

Lemma Fleb_true a b : Ffin a -> Ffin b -> F2R a <= F2R b -> (a <=? b)%float = true.
Proof.
  intros Fa Fb H. rewrite FloatAxioms.leb_spec. unfold SFleb.
  pose proof (Fcompare_real a b Fa Fb) as Hc.
  destruct (SFcompare (Prim2SF a) (Prim2SF b)) as [[| |]|]; try reflexivity; try contradiction; lra.
Qed.

Lemma Fltb_false_real a b : Ffin a -> Ffin b -> (a <? b)%float = false -> F2R b <= F2R a.
Proof.
  intros Fa Fb. rewrite FloatAxioms.ltb_spec. unfold SFltb.
  pose proof (Fcompare_real a b Fa Fb) as Hc.
  destruct (SFcompare (Prim2SF a) (Prim2SF b)) as [[| |]|]; try discriminate; try contradiction;
    intros _; lra.
Qed.

Lemma F2R_low : F2R 0x1p-990%float = bpow (-990).
Proof.
  unfold F2R.
  replace (Prim2SF 0x1p-990%float) with (S754_finite false 4503599627370496 (-1042)) by reflexivity.
  unfold SF2R. change 4503599627370496%Z with (2 ^ 52)%Z. rewrite <- bpow_IZR by lia.
  rewrite <- bpow_add. change (52 + -1042)%Z with (-990)%Z. lra.
Qed.

Lemma F2R_high : F2R 0x1p1023%float = bpow 1023.
Proof.
  unfold F2R.
  replace (Prim2SF 0x1p1023%float) with (S754_finite false 4503599627370496 971) by reflexivity.
  unfold SF2R. change 4503599627370496%Z with (2 ^ 52)%Z. rewrite <- bpow_IZR by lia.
  rewrite <- bpow_add. change (52 + 971)%Z with 1023%Z. lra.
Qed.

Lemma stagger_delay_in_range D count i u :
  (0x1p-990 <=? D)%float = true -> (D <=? 0x1p1023)%float = true ->
  (1 <= count <= 4294967296)%Z -> (0 <= i < count)%Z ->
  (0 <=? u)%float = true -> (u <? 1)%float = true ->
  forall delay,
    delay = (float64_of_int i * (D / float64_of_int count)
             + D / float64_of_int count * 0.25 * (u * 2 - 1))%float ->
    (0 <=? (if (delay <? 0)%float then 0%float else delay))%float = true /\
    ((if (delay <? 0)%float then 0%float else delay) <? D)%float = true.
Proof.
  intros Hlo Hhi Hcount Hi Hu0 Hu1 delay ->.
  assert (Flo : Ffin 0x1p-990%float) by exact I.
  assert (Fhi : Ffin 0x1p1023%float) by exact I.
  assert (F0 : Ffin 0%float) by exact I.
  pose proof (Ffin_between _ _ _ Flo Fhi Hlo Hhi) as FD.
  pose proof (Fleb_real _ _ Flo FD Hlo) as Rlo. rewrite F2R_low in Rlo.
  pose proof (Fleb_real _ _ FD Fhi Hhi) as Rhi. rewrite F2R_high in Rhi.
  destruct (Ffin_draw u Hu0 Hu1) as [Fu Ru].
  destruct (stagger_delay_below D count i u FD (conj Rlo Rhi) Hcount Hi Fu Ru) as [Fd Bd].
  pose proof (bpow_pos (-990)) as Hpos.
  assert (Hzero : F2R 0%float = 0) by reflexivity.
  set (d := (float64_of_int i * (D / float64_of_int count)
             + D / float64_of_int count * 0.25 * (u * 2 - 1))%float) in *.
  destruct (d <? 0)%float eqn:Hneg.
  - split; [reflexivity|]. apply Fltb_true; [exact F0 | exact FD | rewrite Hzero; lra].
  - pose proof (Fltb_false_real _ _ Fd F0 Hneg) as Hge. rewrite Hzero in Hge.
    split.
    + apply Fleb_true; [exact F0 | exact Fd | rewrite Hzero; exact Hge].
    + apply Fltb_true; [exact Fd | exact FD |]. rewrite Rabs_right in Bd by lra. exact Bd.
Qed.

End Binary64Rounding.

(** The loop keeps every delay within the duration. *)
Lemma stagger_loop_within (totalDuration : float) (count : Z) :
  (0x1p-990 <=? totalDuration)%float = true ->
  (totalDuration <=? 0x1p1023)%float = true ->
  1 <= count <= 4294967296 ->
  forall n i delays w delays' w',
    rand.float_draws_ok w -> 0 <= i -> i + Z.of_nat n = count ->
    bandwidth.stagger_loop n i (totalDuration / float64_of_int count)%float delays w
    = Some (delays', w') ->
    Forall (within_duration totalDuration) delays ->
    Forall (within_duration totalDuration) delays'.
Proof.
  intros Hlo Hhi Hcount.
  induction n as [|n IH]; intros i delays w delays' w' Hok Hi Hn Hrun Hall.
  - simpl in Hrun. injection Hrun as <- _. exact Hall.
  - simpl in Hrun. unfold bind at 1 in Hrun. unfold rand.Float64 at 1 in Hrun.
    eapply IH in Hrun; [exact Hrun | exact Hok | lia | lia |].
    apply Forall_app. split; [exact Hall|]. constructor; [|constructor].
    destruct (Hok (next_float w)) as [H0 H1].
    apply (stagger_delay_in_range totalDuration count i (float_draws w (next_float w))
             Hlo Hhi Hcount ltac:(lia) H0 H1 _ eq_refl).
Qed.

(** C10, as stated, fails at both ends.  With an infinite duration the only
    delay is not a number, hence neither at least zero nor below the
    duration; with a duration of three units of the smallest subnormal and
    four delays, the base delay rounds up to one unit and the last delay is
    the duration itself. *)
Lemma CalculateStagger_delay_not_below_duration :
  (0 <? infinity)%float = true /\
  returns (bandwidth.CalculateStagger 1 infinity) even_world = Some [nan] /\
  (0 <=? nan)%float = false /\ (nan <? infinity)%float = false /\
  (0 <? 0x3p-1074)%float = true /\
  returns (bandwidth.CalculateStagger 4 0x3p-1074) even_world
  = Some [0; 0x1p-1074; 0x2p-1074; 0x3p-1074]%float /\
  (0x3p-1074 <? 0x3p-1074)%float = false.
Proof. repeat split; vm_compute; reflexivity. Qed.

(** Every draw of the example tape is in [0,1). *)
Lemma uneven_world_draws_ok : rand.float_draws_ok uneven_world.
Proof.
  intros k. do 5 (destruct k as [|k]; [split; reflexivity|]).
  destruct k; split; reflexivity.
Qed.

(** C10, amended: for every count > 0 and every duration, CalculateStagger
    returns exactly count delays and none of them is below zero, whatever
    the jitter draws: each is at least zero, or is not a number.  When the
    duration is a float between 2^-990 and 2^1023, the count is at most
    2^32 and the draws are in [0,1) as the library promises, every delay
    is at least zero and strictly below the duration. *)
Theorem CalculateStagger_count_and_range
    (count : Z) (totalDuration : float) (w : World) :
  count > 0 ->
  exists delays w',
    bandwidth.CalculateStagger count totalDuration w = Some (delays, w') /\
    Z.of_nat (length delays) = count /\
    Forall not_negative delays /\
    (count <= 4294967296 ->
     (0x1p-990 <=? totalDuration)%float = true ->
     (totalDuration <=? 0x1p1023)%float = true ->
     rand.float_draws_ok w ->
     Forall (within_duration totalDuration) delays).
Proof.
  intros Hpos. unfold bandwidth.CalculateStagger.
  destruct (Z.eqb_spec count 0); [lia|].
  destruct (Z.ltb_spec count 0); [lia|].
  destruct (stagger_loop_returns (Z.to_nat count) 0
              (totalDuration / float64_of_int count)%float [] w)
    as (delays & w' & Hrun & Hlen & Hall).
  exists delays, w'. split; [exact Hrun|].
  simpl in Hlen. split; [lia|]. split; [apply Hall; constructor|].
  intros Hmax Hlo Hhi Hok.
  apply (stagger_loop_within totalDuration count Hlo Hhi ltac:(lia)
           (Z.to_nat count) 0 [] w delays w' Hok ltac:(lia) ltac:(lia) Hrun).
  constructor.
Qed.

Lemma CalculateStagger_count_and_range_witness :
  exists delays w',
    bandwidth.CalculateStagger 4 20 uneven_world = Some (delays, w') /\
    Z.of_nat (length delays) = 4 /\
    Forall not_negative delays /\
    Forall (within_duration 20) delays.
Proof.
  destruct (CalculateStagger_count_and_range 4 20 uneven_world ltac:(lia))
    as (delays & w' & Hrun & Hlen & Hfloor & Hrange).
  exists delays, w'. split; [exact Hrun|]. split; [exact Hlen|]. split; [exact Hfloor|].
  apply Hrange; [lia | reflexivity | reflexivity | exact uneven_world_draws_ok].
Defined.

(** ** The concurrency wave function *)

Section Wave.

Local Open Scope R_scope.

Lemma trunc_between (x : R) (z : Z) :
  (0 <= z)%Z -> IZR z <= x < IZR z + 1 -> wave.trunc x = z.
Proof.
  intros Hz [Hlo Hhi]. unfold wave.trunc.
  assert (0 <= IZR z) by (apply IZR_le; exact Hz).
  destruct (Rle_dec 0 x) as [_|Hneg]; [|lra].
  symmetry. apply Int_part_spec. lra.
Qed.

Lemma sin_lower (a : R) : 0 <= a -> a <= 2 -> a - a * a * a / 6 <= sin a.
Proof.
  intros H0 H2.
  assert (Hpi : a <= PI) by (pose proof PI2_1; lra).
  destruct (sin_bound a 0 H0 Hpi) as [Hlo _].
  unfold sin_approx, sin_term in Hlo. simpl in Hlo. lra.
Qed.

Lemma sin_upper (a : R) : 0 <= a -> sin a <= a.
Proof.
  intros [Hpos| <-]; [left; apply sin_lt_x, Hpos | rewrite sin_0; lra].
Qed.

(** After 75 seconds the source's three waves are the sines of 0.25, of
    0.41... and of 0.17...: the signal is 0.279..., and the count is 6. *)
Lemma source_wave_at_75 : wave.concurrency_of 75 0 10 1 = 6%Z.
Proof.
  unfold wave.concurrency_of.
  change (wrap64 (10 - 0)) with 10%Z.
  pose proof (sin_lower (75 / 300)) as L1.
  pose proof (sin_lower (75 / 180)) as L2.
  pose proof (sin_lower (75 / 420)) as L3.
  pose proof (sin_upper (75 / 300)) as U1.
  pose proof (sin_upper (75 / 180)) as U2.
  pose proof (sin_upper (75 / 420)) as U3.
  rewrite (trunc_between _ 6); [reflexivity | lia |].
  lra.
Qed.

Lemma sin_5PI14_lower : 7 / 10 <= sin (2 * PI * 75 / 420).
Proof.
  pose proof PI_RGT_0 as Hpi.
  assert (Hq : 7 / 10 <= sin (PI / 4)).
  { rewrite sin_PI4.
    assert (Hs : sqrt 2 < 10 / 7).
    { rewrite <- (sqrt_square (10 / 7)) by lra.
      apply sqrt_lt_1_alt. lra. }
    pose proof (sqrt_lt_R0 2 ltac:(lra)) as Hs0.
    assert (E : 1 / sqrt 2 * sqrt 2 = 1) by (field; lra).
    nra. }
  apply (Rle_trans _ _ _ Hq).
  apply sin_incr_1; lra.
Qed.

(** After 75 seconds a sinusoid of period 300 s is at its crest, one of
    period 180 s at one half, one of period 420 s above 0.7: the signal is
    above 0.8, and the count is 9. *)
Lemma reference_wave_at_75 : wave.reference_concurrency 75 0 10 0 = 9%Z.
Proof.
  unfold wave.reference_concurrency, wave.sinusoid.
  replace (2 * PI * 75 / 300) with (PI / 2) by lra.
  replace (2 * PI * 75 / 180) with (PI - PI / 6) by lra.
  rewrite sin_PI2, sin_PI_x, sin_PI6.
  pose proof sin_5PI14_lower as Hlo.
  pose proof (SIN_bound (2 * PI * 75 / 420)) as [_ Hhi].
  rewrite (trunc_between _ 9); [reflexivity | lia |].
  change (10 - 0)%Z with 10%Z.
  lra.
Qed.

End Wave.

(** C6: the source's wave function is not the wave function of the
    specification.  75 seconds into the run, between 0 and 10 agents and
    with no perturbation, [CalculateConcurrency] returns 6 where three
    sinusoids of periods 300 s, 180 s and 420 s give 9: the source's waves
    are [sin (t / 300)], [sin (t / 180)] and [sin (t / 420)], whose periods
    are 2 pi times longer than the cycles its comments announce. *)
Theorem CalculateConcurrency_is_not_the_reference_wave :
  returns (wave.CalculateConcurrency 75 0 10 0.3) unperturbed_world = Some 6 /\
  wave.reference_concurrency 75 0 10 0 = 9.
Proof.
  split; [|exact reference_wave_at_75].
  unfold returns, wave.CalculateConcurrency, bind, rand.Intn, ret.
  change (3 <=? 0) with false. cbv iota.
  change (int_draws unperturbed_world (next_int unperturbed_world) mod 3) with 1.
  rewrite source_wave_at_75. reflexivity.
Qed.

(** ** Disconnection *)

(** C9: the disconnect notification removes the agent's entry from the
    active allocations and changes nothing else: every other allocation,
    the per-agent status entries, the phase, the rotation counter, the
    rotation times, the throughput figures, the configuration and the start
    time are as before. *)
Theorem OnAgentDisconnect_removes_only_the_allocation
    (s : controller.Scheduler.t) (agentID : string) :
  let s' := controller.OnAgentDisconnect s agentID in
  let st := controller.Scheduler.state s in
  let st' := controller.Scheduler.state s' in
  controller.SchedulerState.ActiveAgents st' !! agentID = None /\
  (forall other, other <> agentID ->
     controller.SchedulerState.ActiveAgents st' !! other
     = controller.SchedulerState.ActiveAgents st !! other) /\
  controller.Scheduler.agentStatus s' = controller.Scheduler.agentStatus s /\
  controller.SchedulerState.Phase st' = controller.SchedulerState.Phase st /\
  controller.SchedulerState.RotationCount st' = controller.SchedulerState.RotationCount st /\
  controller.SchedulerState.NextRotation st' = controller.SchedulerState.NextRotation st /\
  controller.SchedulerState.LastRotation st' = controller.SchedulerState.LastRotation st /\
  controller.SchedulerState.TargetTotalBW st' = controller.SchedulerState.TargetTotalBW st /\
  controller.SchedulerState.CurrentTotalBW st' = controller.SchedulerState.CurrentTotalBW st /\
  controller.Scheduler.config s' = controller.Scheduler.config s /\
  controller.Scheduler.startTime s' = controller.Scheduler.startTime s.
Proof.
  intros s' st st'. subst s' st st'. unfold controller.OnAgentDisconnect. simpl.
  split; [apply lookup_delete_eq|].
  split; [|repeat split].
  intros other Hne. apply lookup_delete_ne. congruence.
Qed.

Lemma OnAgentDisconnect_removes_only_the_allocation_witness :
  controller.SchedulerState.ActiveAgents
    (controller.Scheduler.state (controller.OnAgentDisconnect stable_scheduler "a1"))
  !! "a1" = None /\
  controller.Scheduler.agentStatus (controller.OnAgentDisconnect stable_scheduler "a1")
  = controller.Scheduler.agentStatus stable_scheduler.
Proof.
  pose proof (OnAgentDisconnect_removes_only_the_allocation stable_scheduler "a1") as H.
  cbv zeta in H. destruct H as (Hgone & _ & Hstatus & _).
  split; [exact Hgone | exact Hstatus].
Defined.

(** ** The adaptive loop *)

Section Boost.

Import controller.




End Boost.



(** ** The clock through a computation *)

Lemma clock_later_refl w : clock_later w w.
Proof. split; [reflexivity | lia]. Qed.

Lemma clock_later_trans w1 w2 w3 :
  clock_later w1 w2 -> clock_later w2 w3 -> clock_later w1 w3.
Proof. intros [E1 L1] [E2 L2]. split; [congruence | lia]. Qed.

Lemma advances_ret {A} (a : A) : advances (ret a).
Proof. intros w b w' [= _ <-]. apply clock_later_refl. Qed.

Lemma advances_panic {A} : advances (@panic A).
Proof. intros w a w' H. discriminate H. Qed.

Lemma advances_bind {A B} (m : M A) (k : A -> M B) :
  advances m -> (forall a, advances (k a)) -> advances (bind m k).
Proof.
  intros Hm Hk w b w' H. apply bind_Some in H. destruct H as (a & w1 & H1 & H2).
  eapply clock_later_trans; [eapply Hm | eapply Hk]; eassumption.
Qed.

Lemma advances_Float64 : advances rand.Float64.
Proof. intros w a w' [= _ <-]. split; [reflexivity | simpl; lia]. Qed.

Lemma advances_Intn n : advances (rand.Intn n).
Proof.
  intros w a w'. unfold rand.Intn. destruct (n <=? 0); [discriminate|].
  intros [= _ <-]. split; [reflexivity | simpl; lia].
Qed.

Lemma advances_Now : advances time.Now.
Proof. intros w a w' [= _ <-]. split; [reflexivity | simpl; lia]. Qed.

Lemma advances_NewString : advances uuid.NewString.
Proof. intros w a w' [= _ <-]. split; [reflexivity | simpl; lia]. Qed.

Create HintDb advances.
#[local] Hint Resolve advances_Float64 advances_Intn advances_Now advances_NewString
  : advances.

(** Proves [advances m] along the binds and the tests of [m]. *)
Ltac advance :=
  repeat first
    [ apply advances_ret
    | apply advances_panic
    | apply advances_bind; [|intros ?]
    | solve [auto with advances]
    | match goal with
      | |- advances (if ?c then _ else _) => destruct c
      | |- advances (match ?x with _ => _ end) => destruct x
      | |- advances (let '(_, _) := ?x in _) => destruct x
      end ].

Section Advances.

Import bandwidth controller.

Lemma advances_select_one selected available availableWeights :
  advances (select_one selected available availableWeights).
Proof. unfold select_one. advance. Qed.

Hint Resolve advances_select_one : advances.

Lemma advances_select_loop count : forall selected available availableWeights,
  advances (select_loop count selected available availableWeights).
Proof. induction count as [|count IH]; intros; simpl; advance. Qed.

Hint Resolve advances_select_loop : advances.

Lemma advances_WeightedRandomSelection count weights :
  advances (WeightedRandomSelection count weights).
Proof. unfold WeightedRandomSelection. advance. Qed.

Lemma advances_draw_weights n : forall weights totalWeight,
  advances (draw_weights n weights totalWeight).
Proof. induction n as [|n IH]; intros; simpl; advance. Qed.

Lemma advances_allocate_shares weights :
  forall totalWeight targetTotal lo hi f allocations actualTotal,
  advances (allocate_shares weights totalWeight targetTotal lo hi f allocations actualTotal).
Proof. induction weights as [|x weights IH]; intros; simpl; advance. Qed.

Hint Resolve advances_draw_weights advances_allocate_shares : advances.

Lemma advances_AllocateBandwidth targetTotal numAgents lo hi f :
  advances (AllocateBandwidth targetTotal numAgents lo hi f).
Proof. unfold AllocateBandwidth. advance. Qed.

Lemma advances_stagger_loop n : forall i baseDelay delays,
  advances (stagger_loop n i baseDelay delays).
Proof. induction n as [|n IH]; intros; simpl; advance. Qed.

Hint Resolve advances_stagger_loop : advances.

Lemma advances_CalculateStagger count totalDuration :
  advances (CalculateStagger count totalDuration).
Proof. unfold CalculateStagger. advance. Qed.

Lemma advances_RandomDuration lo hi f : advances (RandomDuration lo hi f).
Proof. unfold RandomDuration. advance. Qed.

Lemma advances_agent_weight s agent : advances (agent_weight s agent).
Proof. unfold agent_weight, time.Since. advance. Qed.

Hint Resolve advances_agent_weight : advances.

Lemma advances_agent_weights s available : advances (agent_weights s available).
Proof. induction available as [|agent rest IH]; simpl; advance. Qed.

Lemma advances_pick_agents available selectedIndices :
  advances (pick_agents available selectedIndices).
Proof. induction selectedIndices as [|idx rest IH]; simpl; advance. Qed.

Hint Resolve advances_WeightedRandomSelection advances_AllocateBandwidth
  advances_CalculateStagger advances_RandomDuration advances_agent_weights
  advances_pick_agents : advances.

Lemma advances_selectAgents s connectedAgents count :
  advances (selectAgents s connectedAgents count).
Proof. unfold selectAgents. advance. Qed.

Lemma advances_with_delays {A} (items : list A) : forall i delays,
  advances (with_delays items i delays).
Proof. induction items as [|x rest IH]; intros; simpl; advance. Qed.

Hint Resolve advances_with_delays : advances.

Lemma advances_rampDownAgents s agentIDs : advances (rampDownAgents s agentIDs).
Proof. unfold rampDownAgents. advance. Qed.

Lemma advances_rampUpAgents s allocations : advances (rampUpAgents s allocations).
Proof. unfold rampUpAgents. advance. Qed.

Lemma advances_commit_rotation s allocations : advances (commit_rotation s allocations).
Proof. unfold commit_rotation. advance. Qed.

Lemma advances_scheduleNextRotation s : advances (scheduleNextRotation s).
Proof. unfold scheduleNextRotation. advance. Qed.

End Advances.

(** ** Rotation *)

Section Rotation.

Import controller.

Lemma fresh_allocation_weaken agents agents' w0 w w' w1 id a :
  fresh_allocation agents w w' id a ->
  (forall agent, agent ∈ agents -> agent ∈ agents') ->
  clock_later w0 w -> clock_later w' w1 ->
  fresh_allocation agents' w0 w1 id a.
Proof.
  intros (Hid & Hdur & Hcmd & Hurl & (k & Hk & Hstart) & (agent & Hin & Hagent & Hcap))
    Hsub [Hclock Hnext] [_ Hnext'].
  repeat split; auto.
  - exists k. split; [lia | congruence].
  - exists agent. auto.
Qed.

Lemma cap_allocations_fresh agents : forall i bandwidthAllocations acc w result w',
  cap_allocations agents i bandwidthAllocations acc w = Some (result, w') ->
  clock_later w w' /\
  forall id a, result !! id = Some a ->
    acc !! id = Some a \/ fresh_allocation agents w w' id a.
Proof.
  induction agents as [|agent rest IH]; intros i bws acc w result w'; simpl.
  - intros [= <- <-]. split; [apply clock_later_refl | auto].
  - destruct (bws !! i) as [allocated|]; [|discriminate].
    unfold bind at 1. unfold time.Now at 1.
    set (w1 := mkWorld _ _ _ _ _ _ _ _).
    intros Hrest. apply IH in Hrest. destruct Hrest as [Hlater Hfresh].
    assert (Hstep : clock_later w w1) by (split; [reflexivity | simpl; lia]).
    split; [eapply clock_later_trans; eassumption|].
    intros id a Ha. apply Hfresh in Ha. destruct Ha as [Ha|Ha].
    + destruct (decide (AgentConfig.ID agent = id)) as [<-|Hne].
      * rewrite lookup_insert_eq in Ha. injection Ha as <-. right.
        destruct Hlater as [_ Hnext]. simpl in Hnext.
        repeat split; simpl.
        -- exists (next_clock w). split; [lia | reflexivity].
        -- exists agent. split; [left|]. split; [reflexivity|].
           rewrite Z.gtb_ltb.
           destruct (Z.ltb_spec (AgentConfig.MaxBandwidth agent) allocated); lia.
      * rewrite lookup_insert_ne in Ha by exact Hne. left. exact Ha.
    + right. eapply fresh_allocation_weaken; [exact Ha | | exact Hstep | apply clock_later_refl].
      intros x Hx. right. exact Hx.
Qed.

Lemma allocateBandwidth_fresh s agents w allocations w' :
  allocateBandwidth s agents w = Some (allocations, w') ->
  clock_later w w' /\
  forall id a, allocations !! id = Some a -> fresh_allocation agents w w' id a.
Proof.
  unfold allocateBandwidth. destruct (_ =? _)%nat.
  - intros [= <- <-]. split; [apply clock_later_refl|].
    intros id a Ha. rewrite lookup_empty in Ha. discriminate.
  - intros H. apply bind_Some in H. destruct H as (bws & w1 & Hbw & Hcap).
    apply advances_AllocateBandwidth in Hbw.
    apply cap_allocations_fresh in Hcap. destruct Hcap as [Hlater Hfresh].
    split; [eapply clock_later_trans; eassumption|].
    intros id a Ha. apply Hfresh in Ha. destruct Ha as [Ha|Ha].
    + rewrite lookup_empty in Ha. discriminate.
    + eapply fresh_allocation_weaken; [exact Ha | auto | exact Hbw | apply clock_later_refl].
Qed.

Lemma pick_agents_among available selectedIndices : forall w selected w',
  pick_agents available selectedIndices w = Some (selected, w') ->
  forall agent, agent ∈ selected -> agent ∈ available.
Proof.
  induction selectedIndices as [|idx rest IH]; intros w selected w'; simpl.
  - intros [= <- _] agent Hin. inversion Hin.
  - destruct (available !! idx) as [picked|] eqn:Hidx; [|discriminate].
    intros H. run_inv H. intros agent Hin.
    apply elem_of_cons in Hin. destruct Hin as [->|Hin].
    + eapply list_elem_of_lookup_2, Hidx.
    + eapply IH; eassumption.
Qed.

Lemma selectAgents_configured s connectedAgents count w selected w' :
  selectAgents s connectedAgents count w = Some (selected, w') ->
  forall agent, agent ∈ selected -> agent ∈ Config.Agents (Scheduler.config s).
Proof.
  unfold selectAgents. destruct (_ =? _)%nat.
  - intros [= <- _] agent Hin. inversion Hin.
  - intros H. run_inv H. intros agent Hin.
    eapply pick_agents_among in H; [|exact Hin].
    apply list_elem_of_filter in H. tauto.
Qed.

(** The allocations a rotation plans are all fresh. *)
Lemma plan_rotation_fresh s connectedAgents newConcurrency w allocations w' :
  plan_rotation s connectedAgents newConcurrency w = Some (allocations, w') ->
  clock_later w w' /\
  forall id a, allocations !! id = Some a ->
    fresh_allocation (Config.Agents (Scheduler.config s)) w w' id a.
Proof.
  unfold plan_rotation. intros H.
  apply bind_Some in H. destruct H as (selected & w1 & Hsel & Halloc).
  pose proof (selectAgents_configured _ _ _ _ _ _ Hsel) as Hconf.
  apply advances_selectAgents in Hsel.
  apply allocateBandwidth_fresh in Halloc. destruct Halloc as [Hlater Hfresh].
  split; [eapply clock_later_trans; eassumption|].
  intros id a Ha. eapply fresh_allocation_weaken;
    [apply Hfresh, Ha | exact Hconf | exact Hsel | apply clock_later_refl].
Qed.

Lemma findAgentsToStop_spec s newAllocations agentID :
  agentID ∈ findAgentsToStop s newAllocations <->
  is_Some (SchedulerState.ActiveAgents (Scheduler.state s) !! agentID) /\
  newAllocations !! agentID = None.
Proof.
  unfold findAgentsToStop. rewrite list_elem_of_omap. split.
  - intros ([id a] & Hin & Hf). apply elem_of_map_to_list in Hin. simpl in Hf.
    destruct (newAllocations !! id) eqn:Hnew; [discriminate|].
    injection Hf as <-. eauto.
  - intros ([a Ha] & Hnew). exists (agentID, a).
    split; [apply elem_of_map_to_list, Ha|]. simpl. rewrite Hnew. reflexivity.
Qed.

Lemma findAgentsToStart_spec s newAllocations alloc :
  alloc ∈ findAgentsToStart s newAllocations <->
  exists id, newAllocations !! id = Some alloc /\
             SchedulerState.ActiveAgents (Scheduler.state s) !! id = None.
Proof.
  unfold findAgentsToStart. rewrite list_elem_of_omap. split.
  - intros ([id a] & Hin & Hf). apply elem_of_map_to_list in Hin. simpl in Hf.
    destruct (SchedulerState.ActiveAgents (Scheduler.state s) !! id) eqn:Hold;
      [discriminate|].
    injection Hf as <-. eauto.
  - intros (id & Hnew & Hold). exists (id, alloc).
    split; [apply elem_of_map_to_list, Hnew|]. simpl. rewrite Hold. reflexivity.
Qed.

(** The sends scheduled are for the items given, and for nothing else. *)
Lemma with_delays_items {A} (items : list A) : forall i delays w scheduled w',
  with_delays items i delays w = Some (scheduled, w') ->
  scheduled.*1 = items.
Proof.
  induction items as [|x rest IH]; intros i delays w scheduled w'; simpl.
  - intros [= <- _]. reflexivity.
  - destruct (delays !! i); [|discriminate].
    intros H. run_inv H. simpl. f_equal. eapply IH. eassumption.
Qed.

Lemma rampDownAgents_items s agentIDs w scheduled w' :
  rampDownAgents s agentIDs w = Some (scheduled, w') -> scheduled.*1 = agentIDs.
Proof.
  unfold rampDownAgents. destruct (length agentIDs =? 0)%nat eqn:Hlen.
  - intros [= <- _]. destruct agentIDs; [reflexivity | discriminate].
  - intros H. run_inv H. eapply with_delays_items. eassumption.
Qed.

Lemma rampUpAgents_items s allocations w scheduled w' :
  rampUpAgents s allocations w = Some (scheduled, w') -> scheduled.*1 = allocations.
Proof.
  unfold rampUpAgents. destruct (length allocations =? 0)%nat eqn:Hlen.
  - intros [= <- _]. destruct allocations; [reflexivity | discriminate].
  - intros H. run_inv H. eapply with_delays_items. eassumption.
Qed.

Lemma scheduleNextRotation_keeps s w s' w' :
  scheduleNextRotation s w = Some (s', w') ->
  SchedulerState.ActiveAgents (Scheduler.state s')
  = SchedulerState.ActiveAgents (Scheduler.state s) /\
  Scheduler.config s' = Scheduler.config s.
Proof.
  unfold scheduleNextRotation. intros H. run_inv H. simpl. auto.
Qed.

End Rotation.

(** C1, as stated, fails: a1 is in the active set before the rotation and in
    the newly computed one, no command is sent to it, and the allocation
    recorded for it after the commit differs from its prior one in
    throughput, start time, command id and locator. *)
Lemma performRotation_drops_prior_allocation :
  exists s' w',
    controller.performRotation stable_scheduler ["a1"] 1 rotation_world
    = Some ((s', controller.mkLog [] []), w') /\
    controller.SchedulerState.ActiveAgents (controller.Scheduler.state stable_scheduler)
    !! "a1"
    = Some (controller.AgentAllocation.mk "a1" 500 (seconds 1000) (seconds 240)
              "cmd-0" "u1") /\
    controller.SchedulerState.ActiveAgents (controller.Scheduler.state s') !! "a1"
    = Some (controller.AgentAllocation.mk "a1" 1200 (seconds 1200) 0 "" "").
Proof. eexists _, _. repeat split; vm_compute; reflexivity. Qed.

(** ** Ticks and rotations *)

(** A due tick starts a rotation and leaves the scheduler as it is. *)
Lemma due_tick_starts_rotation sys agg :
  controller.SchedulerState.NextRotation
    (controller.Scheduler.state (controller.sched sys))
  < controller.clock_peek (controller.world sys) ->
  exists w',
    controller.step (controller.Tick agg) sys
    = Some (controller.mkSystem (controller.sched sys)
              (controller.rotations sys ++ [controller.AtStart]) w') /\
    clock w' = clock (controller.world sys) /\
    next_clock w' = S (next_clock (controller.world sys)).
Proof.
  intros Hdue. unfold controller.step, controller.evaluateAndAdjust, bind, time.Now.
  unfold controller.clock_peek in Hdue. unfold time.After. rewrite Z.gtb_ltb.
  destruct (Z.ltb_spec
              (controller.SchedulerState.NextRotation
                 (controller.Scheduler.state (controller.sched sys)))
              (clock (controller.world sys) (next_clock (controller.world sys))));
    [|lia].
  eexists. split; [reflexivity|]. split; reflexivity.
Qed.

(** No step of a rotation before its last moves the deadline. *)
Lemma rotation_step_keeps_deadline s connectedAgents newConcurrency pc w s' pc' w' :
  controller.rotation_step s connectedAgents newConcurrency pc w
  = Some ((s', Some pc'), w') ->
  controller.SchedulerState.NextRotation (controller.Scheduler.state s')
  = controller.SchedulerState.NextRotation (controller.Scheduler.state s).
Proof.
  assert (Hpair : forall (a : controller.Scheduler.t) (x y : option controller.rotation_pc),
             (a, x) = (s', y) ->
             controller.SchedulerState.NextRotation (controller.Scheduler.state a)
             = controller.SchedulerState.NextRotation (controller.Scheduler.state s) ->
             controller.SchedulerState.NextRotation (controller.Scheduler.state s')
             = controller.SchedulerState.NextRotation (controller.Scheduler.state s))
    by (intros a x y [= -> _] E; exact E).
  destruct pc; simpl; intros H.
  - run_inv H. eapply Hpair; [eassumption | reflexivity].
  - run_inv H. eapply Hpair; [eassumption | reflexivity].
  - run_inv H. eapply Hpair; [eassumption | reflexivity].
  - destruct (0 <? length toStop)%nat; run_inv H;
      (eapply Hpair; [eassumption | reflexivity]).
  - destruct (wake <=? controller.clock_peek w); [|discriminate].
    injection H as <- _ _. reflexivity.
  - run_inv H. eapply Hpair; [eassumption | reflexivity].
  - run_inv H. eapply Hpair; [eassumption | reflexivity].
  - apply bind_Some in H. destruct H as (s1 & w1 & Hcommit & H).
    unfold controller.commit_rotation in Hcommit. run_inv Hcommit.
    run_inv H. eapply Hpair; [eassumption | reflexivity].
  - run_inv H. match goal with E : (_, _) = (_, _) |- _ => discriminate E end.
Qed.

(** C2, as stated, fails: the tick of 1115 s starts a second rotation while
    the first, started by the tick of 1110 s, sleeps in its ramp-down until
    1130 s.  Two rotations are in flight, and the first cannot move yet. *)
Lemma rotations_overlap :
  exists s w sys allocations,
    controller.Run_start fleet_config ["a1"] 1 overlap_world = Some (s, w) /\
    controller.run overlap_events (controller.mkSystem s [] w) = Some sys /\
    controller.rotations sys
    = [controller.Sleeping allocations (seconds 1130); controller.AtStart] /\
    controller.in_flight sys = 2%nat /\
    controller.clock_peek (controller.world sys) = seconds 1115 /\
    controller.step (controller.Rotation 0 ["a2"; "a3"] 2) sys = None.
Proof.
  eexists _, _, _, _.
  split; [vm_compute; reflexivity|].
  split; [vm_compute; reflexivity|].
  split; [vm_compute; reflexivity|].
  split; [vm_compute; reflexivity|].
  split; vm_compute; reflexivity.
Qed.

(** C2, amended: rotations are not serialized.  Every tick that reads a time
    after the stored next-rotation deadline starts a rotation task, whatever
    the number of rotations already in flight, and leaves the scheduler and
    its deadline as they are: n such ticks in a row put n more rotations in
    flight. *)
Theorem due_ticks_all_start_rotations
    (sys : controller.System) (aggs : list controller.AggregatedMetrics.t) :
  (forall j, (j < length aggs)%nat ->
     controller.SchedulerState.NextRotation
       (controller.Scheduler.state (controller.sched sys))
     < clock (controller.world sys) (next_clock (controller.world sys) + j)) ->
  exists sys',
    controller.run (map controller.Tick aggs) sys = Some sys' /\
    controller.in_flight sys' = (controller.in_flight sys + length aggs)%nat /\
    controller.sched sys' = controller.sched sys.
Proof.
  revert sys. induction aggs as [|agg aggs IH]; intros sys Hdue.
  - exists sys. split; [reflexivity|]. split; [simpl; lia | reflexivity].
  - destruct (due_tick_starts_rotation sys agg) as (w' & Hstep & Hclock & Hnext).
    { specialize (Hdue 0%nat ltac:(simpl; lia)).
      rewrite Nat.add_0_r in Hdue. exact Hdue. }
    change (controller.run (map controller.Tick (agg :: aggs)) sys)
      with (match controller.step (controller.Tick agg) sys with
            | Some sys' => controller.run (map controller.Tick aggs) sys'
            | None => None
            end).
    rewrite Hstep.
    destruct (IH (controller.mkSystem (controller.sched sys)
                    (controller.rotations sys ++ [controller.AtStart]) w'))
      as (sys' & Hrun & Hcount & Hsched).
    { intros j Hj. simpl. rewrite Hclock, Hnext.
      specialize (Hdue (S j) ltac:(simpl; lia)).
      rewrite Nat.add_succ_r in Hdue. exact Hdue. }
    exists sys'. split; [exact Hrun|]. split; [|exact Hsched].
    rewrite Hcount. unfold controller.in_flight. simpl.
    rewrite length_app. simpl. lia.
Qed.

Lemma due_ticks_all_start_rotations_witness :
  exists sys',
    controller.run (map controller.Tick [no_metrics; no_metrics]) late_system
    = Some sys' /\
    controller.in_flight sys' = 3%nat /\
    controller.sched sys' = stable_scheduler.
Proof.
  apply (due_ticks_all_start_rotations late_system [no_metrics; no_metrics]).
  intros j Hj. destruct j as [|[|j]]; [vm_compute; reflexivity.. | simpl in Hj; lia].
Defined.

(** * Further properties of the controller *)

(** ** The order of binary64 *)

Section FloatOrder.

Local Open Scope R_scope.

Lemma SFltb_finite x y :
  valid_binary x = true -> valid_binary y = true -> SFfin x -> SFfin y ->
  (SFltb x y = true <-> SF2R x < SF2R y).
Proof.
  intros Vx Vy Fx Fy. unfold SFltb.
  pose proof (SFcompare_real x y Vx Vy Fx Fy) as Hxy.
  destruct (SFcompare x y) as [[| |]|]; split; intros H;
    try discriminate; try reflexivity; try contradiction; lra.
Qed.

Lemma SFltb_irrefl x : valid_binary x = true -> SFltb x x = false.
Proof.
  intros Vx. destruct x as [s|s| |s m e].
  - reflexivity.
  - destruct s; reflexivity.
  - reflexivity.
  - destruct (SFltb (S754_finite s m e) (S754_finite s m e)) eqn:E; [|reflexivity].
    apply SFltb_finite in E; try assumption; try exact I. lra.
Qed.

Lemma SFltb_trans x y z :
  valid_binary x = true -> valid_binary y = true -> valid_binary z = true ->
  SFltb x y = true -> SFltb y z = true -> SFltb x z = true.
Proof.
  intros Vx Vy Vz Hxy Hyz.
  assert (Hfin : SFfin x -> SFfin y -> SFfin z -> SFltb x z = true).
  { intros Fx Fy Fz. apply SFltb_finite in Hxy, Hyz; try assumption.
    apply SFltb_finite; try assumption. lra. }
  destruct x as [sx|[|]| |sx mx ex]; try discriminate Hxy;
    destruct z as [sz|[|]| |sz mz ez];
    try (apply Hfin; try exact I;
         destruct y as [sy|[|]| |sy my ey]; try exact I; discriminate);
    try reflexivity;
    try (destruct y as [sy|[|]| |[|] my ey]; discriminate);
    try (destruct sx; reflexivity).
Qed.

End FloatOrder.

Lemma Fltb_irrefl (a : float) : (a <? a)%float = false.
Proof. rewrite FloatAxioms.ltb_spec. apply SFltb_irrefl, Prim2SF_valid. Qed.

Lemma Fltb_trans (a b c : float) :
  (a <? b)%float = true -> (b <? c)%float = true -> (a <? c)%float = true.
Proof.
  rewrite !FloatAxioms.ltb_spec. apply SFltb_trans; apply Prim2SF_valid.
Qed.

Section FloatComparison.

Local Open Scope R_scope.

Lemma SFcompare_opp x y :
  valid_binary x = true -> valid_binary y = true ->
  SFcompare y x = option_map CompOpp (SFcompare x y).
Proof.
  intros Vx Vy.
  assert (Hfin : SFfin x -> SFfin y ->
                 SFcompare y x = option_map CompOpp (SFcompare x y)).
  { intros Fx Fy.
    pose proof (SFcompare_real x y Vx Vy Fx Fy) as Hxy.
    pose proof (SFcompare_real y x Vy Vx Fy Fx) as Hyx.
    destruct (SFcompare x y) as [[| |]|], (SFcompare y x) as [[| |]|];
      try contradiction; try reflexivity; exfalso; lra. }
  destruct x as [sx|[|]| |sx mx ex]; destruct y as [sy|[|]| |sy my ey];
    try (apply Hfin; exact I); try reflexivity;
    try (destruct sx; reflexivity); try (destruct sy; reflexivity).
Qed.

Lemma SFcompare_none x y : SFcompare x y = None -> ~ SFnum x \/ ~ SFnum y.
Proof.
  destruct x as [sx|[|]| |sx mx ex]; destruct y as [sy|[|]| |sy my ey];
    simpl; try discriminate; try (intros _; now left); try (intros _; now right);
    try (destruct sx; discriminate); try (destruct sy; discriminate).
Qed.

Lemma SFeqb_refl x : valid_binary x = true -> (SFeqb x x = true <-> SFnum x).
Proof.
  intros Vx. unfold SFeqb. destruct x as [sx|[|]| |sx mx ex]; try (simpl; tauto).
  - simpl. split; [discriminate | contradiction].
  - split; [intros; exact I|]. intros _.
    pose proof (SFcompare_real _ _ Vx Vx I I) as H.
    destruct (SFcompare _ _) as [[| |]|]; try reflexivity; try contradiction; exfalso; lra.
Qed.

End FloatComparison.

(** The same for the floats of the program. *)

Lemma is_number_SF a : is_number a <-> SFnum (Prim2SF a).
Proof.
  unfold is_number. rewrite FloatAxioms.eqb_spec. apply SFeqb_refl, Prim2SF_valid.
Qed.

Lemma Fleb_numbers a b : (a <=? b)%float = true -> is_number a /\ is_number b.
Proof.
  rewrite FloatAxioms.leb_spec, !is_number_SF. unfold SFleb.
  destruct (Prim2SF a) as [sx|[|]| |sx mx ex]; destruct (Prim2SF b) as [sy|[|]| |sy my ey];
    simpl; try discriminate; intros _; split; exact I.
Qed.

Lemma Fltb_false_leb a b :
  is_number a -> is_number b -> (a <? b)%float = false -> (b <=? a)%float = true.
Proof.
  rewrite !is_number_SF, FloatAxioms.ltb_spec, FloatAxioms.leb_spec.
  unfold SFltb, SFleb. intros Na Nb.
  rewrite (SFcompare_opp _ _ (Prim2SF_valid a) (Prim2SF_valid b)).
  destruct (SFcompare (Prim2SF a) (Prim2SF b)) as [[| |]|] eqn:E;
    try discriminate; try reflexivity.
  apply SFcompare_none in E. tauto.
Qed.

Lemma Fleb_refl a : is_number a -> (a <=? a)%float = true.
Proof. intros Na. apply Fltb_false_leb; [exact Na | exact Na | apply Fltb_irrefl]. Qed.

Lemma Fleb_not_ltb a b : (a <=? b)%float = true -> (b <? a)%float = false.
Proof.
  rewrite FloatAxioms.ltb_spec, FloatAxioms.leb_spec. unfold SFltb, SFleb.
  rewrite (SFcompare_opp _ _ (Prim2SF_valid a) (Prim2SF_valid b)).
  destruct (SFcompare (Prim2SF a) (Prim2SF b)) as [[| |]|]; try discriminate; reflexivity.
Qed.

Lemma Fltb_leb a b : (a <? b)%float = true -> (a <=? b)%float = true.
Proof.
  rewrite FloatAxioms.ltb_spec, FloatAxioms.leb_spec. unfold SFltb, SFleb.
  destruct (SFcompare (Prim2SF a) (Prim2SF b)) as [[| |]|]; try discriminate; reflexivity.
Qed.

Lemma not_number_unordered a b :
  ~ is_number a -> (a <? b)%float = false /\ (b <? a)%float = false.
Proof.
  rewrite is_number_SF, !FloatAxioms.ltb_spec. unfold SFltb.
  destruct (Prim2SF a) as [sx|[|]| |sx mx ex]; simpl; try tauto.
  intros _. destruct (Prim2SF b) as [sy|[|]| |sy my ey]; split; reflexivity.
Qed.

(** ** Magnitudes through the operations of binary64 *)

Section Magnitudes.

Local Open Scope R_scope.

Lemma rnd_bound_le X b : Rabs X <= b -> rnd_bound X <= 2 * b + 1.
Proof.
  intros H. unfold rnd_bound.
  assert (Hu : u53 <= 1) by (rewrite u53_value; lra).
  assert (He : eta <= 1).
  { rewrite eta_split, u53_value.
    assert (bpow (-1022) <= bpow 0) by (apply bpow_le; lia).
    rewrite bpow_0 in H0. pose proof (bpow_pos (-1022)). nra. }
  pose proof (Rabs_pos X). pose proof u53_pos. nra.
Qed.

Lemma Fmul_fin a b x y :
  Ffin a -> Ffin b -> Rabs (F2R a) <= x -> Rabs (F2R b) <= y ->
  2 * (x * y) + 1 < bpow 1024 ->
  Ffin (a * b)%float /\ Rabs (F2R (a * b)%float) <= 2 * (x * y) + 1.
Proof.
  intros Fa Fb Ha Hb Hlim.
  assert (Hprod : Rabs (F2R a * F2R b) <= x * y).
  { rewrite Rabs_mult. pose proof (Rabs_pos (F2R a)). pose proof (Rabs_pos (F2R b)). nra. }
  pose proof (rnd_bound_le _ _ Hprod) as Hr.
  destruct (Fmul_bound a b Fa Fb ltac:(lra)) as (F & B & _). split; [exact F | lra].
Qed.

Lemma Fadd_fin a b x y :
  Ffin a -> Ffin b -> Rabs (F2R a) <= x -> Rabs (F2R b) <= y ->
  2 * (x + y) + 1 < bpow 1024 ->
  Ffin (a + b)%float /\ Rabs (F2R (a + b)%float) <= 2 * (x + y) + 1.
Proof.
  intros Fa Fb Ha Hb Hlim.
  assert (Hsum : Rabs (F2R a + F2R b) <= x + y).
  { pose proof (Rabs_triang (F2R a) (F2R b)). lra. }
  pose proof (rnd_bound_le _ _ Hsum) as Hr.
  destruct (Fadd_bound a b Fa Fb ltac:(lra)) as (F & B). split; [exact F | lra].
Qed.

Lemma Fsub_fin a b x y :
  Ffin a -> Ffin b -> Rabs (F2R a) <= x -> Rabs (F2R b) <= y ->
  2 * (x + y) + 1 < bpow 1024 ->
  Ffin (a - b)%float /\ Rabs (F2R (a - b)%float) <= 2 * (x + y) + 1.
Proof.
  intros Fa Fb Ha Hb Hlim.
  assert (Hsum : Rabs (F2R a - F2R b) <= x + y).
  { unfold Rminus. pose proof (Rabs_triang (F2R a) (- F2R b)).
    rewrite Rabs_Ropp in H. lra. }
  pose proof (rnd_bound_le _ _ Hsum) as Hr.
  destruct (Fsub_bound a b Fa Fb ltac:(lra)) as (F & B). split; [exact F | lra].
Qed.

Lemma F2R_pow2 (f : float) (e : Z) :
  Prim2SF f = S754_finite false 4503599627370496 (e - 52) -> F2R f = bpow e.
Proof.
  intros H. unfold F2R. rewrite H. unfold SF2R.
  change 4503599627370496%Z with (2 ^ 52)%Z. rewrite <- bpow_IZR by lia.
  rewrite <- bpow_add. replace (52 + (e - 52))%Z with e by lia. lra.
Qed.

Lemma F2R_opp_pow2 (f : float) (e : Z) :
  Prim2SF f = S754_finite true 4503599627370496 (e - 52) -> F2R f = - bpow e.
Proof.
  intros H. unfold F2R. rewrite H. unfold SF2R.
  change 4503599627370496%Z with (2 ^ 52)%Z. rewrite <- bpow_IZR by lia.
  rewrite <- bpow_add. replace (52 + (e - 52))%Z with e by lia. lra.
Qed.

Lemma Ffin_number a : Ffin a -> is_number a.
Proof.
  intros F. apply is_number_SF. unfold Ffin in F.
  destruct (Prim2SF a); try exact I; contradiction.
Qed.

(** The value [RandomDuration] hands to [ClampFloat] is a number when the
    bounds are within 2^1000 and the jitter factor within 2^10. *)
Lemma RandomDuration_unclamped_finite minS maxS jf u v :
  Ffin minS -> Ffin maxS -> Ffin jf -> Ffin u -> Ffin v ->
  Rabs (F2R minS) <= bpow 1000 -> Rabs (F2R maxS) <= bpow 1000 ->
  Rabs (F2R jf) <= bpow 10 ->
  0 <= F2R u < 1 -> 0 <= F2R v < 1 ->
  let duration := (minS + u * (maxS - minS))%float in
  Ffin (duration + duration * jf * (v * 2 - 1))%float.
Proof.
  intros Fmin Fmax Fjf Fu Fv Hmin Hmax Hjf Hu Hv duration.
  set (B := bpow 1000) in *.
  assert (HB : 1 <= B) by (apply bpow_ge_1; lia).
  assert (Hlim : bpow 1024 = 16777216 * B).
  { change 1024%Z with (24 + 1000)%Z. rewrite bpow_add. fold B.
    rewrite (bpow_IZR 24) by lia. change (2 ^ 24)%Z with 16777216%Z. reflexivity. }
  assert (Hten : bpow 10 = 1024).
  { rewrite (bpow_IZR 10) by lia. change (2 ^ 10)%Z with 1024%Z. reflexivity. }
  rewrite Hten in Hjf.
  assert (Hu' : Rabs (F2R u) <= 1) by (apply Rabs_bound; lra).
  destruct (Fsub_fin maxS minS B B Fmax Fmin Hmax Hmin ltac:(lra)) as (F1 & B1).
  destruct (Fmul_fin u (maxS - minS) 1 _ Fu F1 Hu' B1 ltac:(lra)) as (F2 & B2).
  destruct (Fadd_fin minS (u * (maxS - minS)) B _ Fmin F2 Hmin B2 ltac:(lra)) as (F3 & B3).
  fold duration in F3, B3.
  destruct (Fmul_fin duration jf _ 1024 F3 Fjf B3 Hjf ltac:(lra)) as (F4 & B4).
  destruct (jitter_factor_bound v Fv Hv) as (F5 & B5).
  assert (B5' : Rabs (F2R (v * 2 - 1)%float) <= 2) by lra.
  destruct (Fmul_fin (duration * jf) (v * 2 - 1) _ 2 F4 F5 B4 B5' ltac:(lra)) as (F6 & B6).
  destruct (Fadd_fin duration (duration * jf * (v * 2 - 1)) _ _ F3 F6 B3 B6 ltac:(lra))
    as (F7 & _).
  exact F7.
Qed.

End Magnitudes.

(** Floats in order between two finite floats are finite. *)
Lemma SFfin_chain lo x y hi :
  SFfin lo -> SFfin hi ->
  SFleb lo x = true -> SFleb x y = true -> SFleb y hi = true ->
  SFfin x /\ SFfin y.
Proof.
  intros Flo Fhi H1 H2 H3.
  assert (Fy : SFfin y).
  { destruct y as [sy|[|]| |sy my ey]; try exact I.
    - destruct x as [sx|[|]| |sx mx ex]; try discriminate H2.
      destruct lo as [sl|[|]| |sl ml el]; try contradiction; discriminate H1.
    - destruct hi as [sh|[|]| |sh mh eh]; try contradiction; discriminate H3.
    - discriminate H3. }
  split; [|exact Fy].
  apply (SFfin_between lo x y Flo Fy); now left.
Qed.

Lemma Ffin_chain lo x y hi :
  Ffin lo -> Ffin hi ->
  (lo <=? x)%float = true -> (x <=? y)%float = true -> (y <=? hi)%float = true ->
  Ffin x /\ Ffin y.
Proof.
  rewrite !FloatAxioms.leb_spec. apply SFfin_chain.
Qed.

(** ** ClampFloat and RandomDuration *)

Lemma ClampFloat_spec (value min max : float) :
  (min <=? max)%float = true ->
  let r := bandwidth.ClampFloat value min max in
  (is_number value -> (min <=? r)%float = true /\ (r <=? max)%float = true) /\
  ((min <=? value)%float = true -> (value <=? max)%float = true -> r = value) /\
  (~ is_number value -> r = value).
Proof.
  intros Horder. cbv zeta. unfold bandwidth.ClampFloat.
  destruct (Fleb_numbers _ _ Horder) as [Nmin Nmax].
  split; [|split].
  - intros Nv. destruct (value <? min)%float eqn:Hlow.
    + split; [now apply Fleb_refl | exact Horder].
    + destruct (max <? value)%float eqn:Hhigh.
      * split; [exact Horder | now apply Fleb_refl].
      * split; now apply Fltb_false_leb.
  - intros Hlo Hhi. now rewrite (Fleb_not_ltb _ _ Hlo), (Fleb_not_ltb _ _ Hhi).
  - intros Hnan.
    destruct (not_number_unordered value min Hnan) as [-> _].
    destruct (not_number_unordered value max Hnan) as [_ ->]. reflexivity.
Qed.

(** X1: [ClampFloat] with bounds in order (hence numbers): a value that is a
    number is carried into the range, and is returned as it is when it is
    already within; a value that is not a number is returned as it is. *)
Theorem ClampFloat_within_the_bounds (value min max : float) :
  (min <=? max)%float = true ->
  let r := bandwidth.ClampFloat value min max in
  (is_number value -> (min <=? r)%float = true /\ (r <=? max)%float = true) /\
  ((min <=? value)%float = true -> (value <=? max)%float = true -> r = value) /\
  (~ is_number value -> r = value).
Proof. exact (ClampFloat_spec value min max). Qed.

Lemma ClampFloat_within_the_bounds_witness :
  (0.5 <=? bandwidth.ClampFloat 12 0.5 2)%float = true /\
  (bandwidth.ClampFloat 12 0.5 2 <=? 2)%float = true.
Proof.
  apply (ClampFloat_within_the_bounds 12 0.5 2); reflexivity.
Defined.

Section Duration.

Local Open Scope R_scope.

Lemma RandomDuration_spec minSeconds maxSeconds jitterFactor w :
  (minSeconds <=? maxSeconds)%float = true ->
  exists d w',
    bandwidth.RandomDuration minSeconds maxSeconds jitterFactor w = Some (d, w') /\
    next_float w' = S (S (next_float w)) /\
    (is_number d ->
     (minSeconds <=? d)%float = true /\ (d <=? maxSeconds)%float = true) /\
    ((-0x1p1000 <=? minSeconds)%float = true ->
     (maxSeconds <=? 0x1p1000)%float = true ->
     (-0x1p10 <=? jitterFactor)%float = true ->
     (jitterFactor <=? 0x1p10)%float = true ->
     rand.float_draws_ok w ->
     is_number d).
Proof.
  intros Horder. unfold bandwidth.RandomDuration, bind, rand.Float64, ret.
  cbn [float_draws next_float].
  set (u := float_draws w (next_float w)).
  set (v := float_draws w (S (next_float w))).
  set (duration := (minSeconds + u * (maxSeconds - minSeconds))%float).
  set (value := (duration + duration * jitterFactor * (v * 2 - 1))%float).
  destruct (ClampFloat_spec value minSeconds maxSeconds Horder) as (Hin & _ & Hnan).
  eexists _, _. split; [reflexivity|]. split; [reflexivity|]. split.
  - intros Hd. apply Hin.
    unfold is_number. destruct (value =? value)%float eqn:Hv; [reflexivity|].
    assert (Hn : ~ is_number value) by (unfold is_number; rewrite Hv; discriminate).
    rewrite (Hnan Hn) in Hd. contradiction.
  - intros Hlo Hhi Hjlo Hjhi Hok.
    assert (Flo : Ffin (-0x1p1000)%float) by exact I.
    assert (Fhi : Ffin 0x1p1000%float) by exact I.
    destruct (Ffin_chain _ _ _ _ Flo Fhi Hlo Horder Hhi) as [Fmin Fmax].
    assert (Fjf : Ffin jitterFactor).
    { apply (Ffin_between (-0x1p10)%float jitterFactor 0x1p10%float); try assumption; exact I. }
    assert (Vhi : F2R 0x1p1000%float = bpow 1000) by (apply F2R_pow2; reflexivity).
    assert (Vlo : F2R (-0x1p1000)%float = - bpow 1000) by (apply F2R_opp_pow2; reflexivity).
    assert (Jhi : F2R 0x1p10%float = bpow 10) by (apply F2R_pow2; reflexivity).
    assert (Jlo : F2R (-0x1p10)%float = - bpow 10) by (apply F2R_opp_pow2; reflexivity).
    pose proof (Fleb_real _ _ Flo Fmin Hlo) as R1.
    pose proof (Fleb_real _ _ Fmin Fmax Horder) as R2.
    pose proof (Fleb_real _ _ Fmax Fhi Hhi) as R3.
    assert (Fjlo : Ffin (-0x1p10)%float) by exact I.
    assert (Fjhi : Ffin 0x1p10%float) by exact I.
    pose proof (Fleb_real _ _ Fjlo Fjf Hjlo) as R4.
    pose proof (Fleb_real _ _ Fjf Fjhi Hjhi) as R5.
    rewrite Vlo in R1. rewrite Vhi in R3. rewrite Jlo in R4. rewrite Jhi in R5.
    destruct (Hok (next_float w)) as [Hu0 Hu1].
    destruct (Hok (S (next_float w))) as [Hv0 Hv1].
    destruct (Ffin_draw _ Hu0 Hu1) as [Fu Ru].
    destruct (Ffin_draw _ Hv0 Hv1) as [Fv Rv].
    assert (Fvalue : Ffin value).
    { apply RandomDuration_unclamped_finite; try assumption; apply Rabs_bound; lra. }
    destruct (Hin (Ffin_number _ Fvalue)) as [Hd _].
    apply (Fleb_numbers _ _ Hd).
Qed.

End Duration.

(** X3: [RandomDuration] with bounds in order draws twice and returns a
    duration that is within the bounds or is not a number.  With bounds
    within 2^1000 in magnitude, a jitter factor within 2^10 and draws in
    [0,1) as the library promises, it is a number, hence within the
    bounds. *)
Theorem RandomDuration_within_the_bounds
    (minSeconds maxSeconds jitterFactor : float) (w : World) :
  (minSeconds <=? maxSeconds)%float = true ->
  exists d w',
    bandwidth.RandomDuration minSeconds maxSeconds jitterFactor w = Some (d, w') /\
    next_float w' = S (S (next_float w)) /\
    (is_number d ->
     (minSeconds <=? d)%float = true /\ (d <=? maxSeconds)%float = true) /\
    ((-0x1p1000 <=? minSeconds)%float = true ->
     (maxSeconds <=? 0x1p1000)%float = true ->
     (-0x1p10 <=? jitterFactor)%float = true ->
     (jitterFactor <=? 0x1p10)%float = true ->
     rand.float_draws_ok w ->
     is_number d).
Proof. exact (RandomDuration_spec minSeconds maxSeconds jitterFactor w). Qed.

Lemma RandomDuration_within_the_bounds_witness :
  exists d w',
    bandwidth.RandomDuration 30 180 0.25 uneven_world = Some (d, w') /\
    (30 <=? d)%float = true /\ (d <=? 180)%float = true.
Proof.
  destruct (RandomDuration_within_the_bounds 30 180 0.25 uneven_world eq_refl)
    as (d & w' & Hrun & _ & Hin & Hnum).
  exists d, w'. split; [exact Hrun|].
  apply Hin, Hnum; [reflexivity.. | exact uneven_world_draws_ok].
Defined.

(** ** Rounding to the nearest float, exactly *)

Section Binary64Nearest.

Local Open Scope R_scope.

Lemma bpow_lt_inv a b : bpow a < bpow b -> (a < b)%Z.
Proof.
  intros H. destruct (Z.lt_ge_cases a b) as [Hlt|Hge]; [exact Hlt|].
  pose proof (bpow_le b a Hge). lra.
Qed.

Lemma IZR_squeeze a b : IZR a <= IZR b < IZR a + 1 -> a = b.
Proof.
  intros [H1 H2]. apply le_IZR in H1.
  assert (b < a + 1)%Z by (apply lt_IZR; rewrite plus_IZR; exact H2). lia.
Qed.

Lemma round_located_exact mrs x :
  located mrs x -> x = IZR (shr_m mrs) ->
  round_nearest_even (shr_m mrs) (loc_of_shr_record mrs) = shr_m mrs.
Proof.
  destruct mrs as [m r s]. unfold located. simpl shr_m. simpl shr_r. simpl shr_s.
  intros [Hm H] Hx. destruct r, s; simpl; try reflexivity; exfalso; lra.
Qed.

(** The mantissa a shift hands to the second shift of [binary_round_aux]
    comes out of it as it is, or halved when it is 2^53. *)
Lemma second_shift m1 E :
  (0 <= m1 <= 2 ^ 53)%Z -> (-1074 <= E)%Z ->
  let '(mrs'', e'') := shr_fexp prec emax m1 E loc_Exact in
  IZR (shr_m mrs'') * bpow e'' = IZR m1 * bpow E /\
  (0 <= shr_m mrs'')%Z /\
  (shr_m mrs'' = 0%Z <-> m1 = 0%Z) /\
  (E <= e'' <= E + 1)%Z /\
  (e'' = (E + 1)%Z -> m1 = (2 ^ 53)%Z).
Proof.
  intros Hm1 HE. unfold shr_fexp.
  set (n2 := (SpecFloat.fexp prec emax (Zdigits2 m1 + E) - E)%Z).
  assert (Hpos : (0 <= m1)%Z) by lia.
  destruct (shr_located (shr_record_of_loc m1 loc_Exact) E n2 (IZR m1)
              (located_exact m1 Hpos)) as [He Hloc].
  destruct (shr (shr_record_of_loc m1 loc_Exact) E n2) as [mrs'' e''].
  simpl in He, Hloc. subst e''.
  pose proof (located_range _ _ Hloc) as Hrange.
  assert (Hm'' : (0 <= shr_m mrs'')%Z) by (destruct Hloc; assumption).
  assert (Hn2 : (n2 <= 0 \/ (n2 = 1 /\ m1 = 2 ^ 53))%Z).
  { destruct (Z.eq_dec m1 (2 ^ 53)%Z) as [->|Hne].
    - right. split; [|reflexivity]. subst n2.
      change (Zdigits2 (2 ^ 53)%Z) with 54%Z.
      change (SpecFloat.fexp prec emax (54 + E)) with (fexp64 (54 + E)).
      rewrite fexp64_eq. lia.
    - left. subst n2.
      change (SpecFloat.fexp prec emax (Zdigits2 m1 + E)) with (fexp64 (Zdigits2 m1 + E)).
      rewrite fexp64_eq.
      destruct (Z.eq_dec m1 0%Z) as [->|Hnz]; [simpl; lia|].
      pose proof (Zdigits2_bounds m1 ltac:(lia)) as [Hlo _].
      assert (Hlt : IZR m1 < bpow 53).
      { rewrite bpow_IZR by lia. apply IZR_lt. lia. }
      assert (Zdigits2 m1 - 1 < 53)%Z by (apply bpow_lt_inv; lra).
      lia. }
  destruct Hn2 as [Hn2|[Hn2 ->]].
  - replace (Z.max 0 n2) with 0%Z in * by lia.
    change (- 0)%Z with 0%Z in Hrange. rewrite bpow_0, Rmult_1_r in Hrange.
    apply IZR_squeeze in Hrange. rewrite Hrange, Z.add_0_r.
    split; [reflexivity|]. split; [lia|]. split; [tauto|]. split; lia.
  - rewrite Hn2 in *. change (Z.max 0 1) with 1%Z in *.
    assert (Hhalf : IZR (2 ^ 53) * bpow (- (1)) = IZR (2 ^ 52)).
    { change (- (1))%Z with (-1)%Z. rewrite bpow_m1.
      change (2 ^ 53)%Z with (2 * 2 ^ 52)%Z. rewrite mult_IZR. lra. }
    rewrite Hhalf in Hrange. apply IZR_squeeze in Hrange. rewrite Hrange.
    split.
    + rewrite bpow_add, bpow_1. change (2 ^ 53)%Z with (2 * 2 ^ 52)%Z.
      rewrite mult_IZR. lra.
    + split; [lia|]. split; [split; intros H; [|discriminate H]; exfalso;
        assert (2 ^ 52 = 0)%Z by congruence; lia|].
      split; [lia | reflexivity].
Qed.

Lemma binary_round_aux_nearest sx mx ex lx x :
  located (shr_record_of_loc mx lx) x -> (0 < mx)%Z ->
  let E := fexp64 (Zdigits2 mx + ex) in
  (ex <= E)%Z ->
  exists m' m1 : Z,
    (0 <= m')%Z /\
    IZR m' <= x * bpow (ex - E) < IZR m' + 1 /\
    (m' <= m1 <= m' + 1)%Z /\
    (x * bpow (ex - E) = IZR m' -> m1 = m') /\
    (E = (Zdigits2 mx + ex - 53)%Z -> (2 ^ 52 <= m')%Z) /\
    match binary_round_aux prec emax sx mx ex lx with
    | S754_zero s => s = sx /\ m1 = 0%Z
    | S754_finite s m e => s = sx /\ IZR (Z.pos m) * bpow e = IZR m1 * bpow E
    | S754_infinity s => s = sx /\ bpow 1024 <= IZR m1 * bpow E
    | S754_nan => False
    end.
Proof.
  intros Hloc Hmx E HE.
  pose proof (located_record_m _ _ _ Hloc) as [_ Hx].
  set (n := (E - ex)%Z).
  assert (Hn : (0 <= n)%Z) by (subst n; lia).
  assert (HEdef : E = Z.max (Zdigits2 mx + ex - 53) (-1074)) by apply fexp64_eq.
  unfold binary_round_aux. unfold shr_fexp at 1.
  change (SpecFloat.fexp prec emax (Zdigits2 mx + ex) - ex)%Z with n.
  destruct (shr_located (shr_record_of_loc mx lx) ex n x Hloc) as [He' Hloc'].
  destruct (shr (shr_record_of_loc mx lx) ex n) as [mrs' e'].
  simpl in He', Hloc'. replace (Z.max 0 n) with n in * by lia.
  replace (ex + n)%Z with E in He' by (subst n; lia). subst e'.
  replace (- n)%Z with (ex - E)%Z in Hloc' by (subst n; lia).
  set (m' := shr_m mrs') in *.
  set (m1 := round_nearest_even m' (loc_of_shr_record mrs')).
  destruct (round_located mrs' _ Hloc') as (Hm1 & _ & _). fold m' m1 in Hm1.
  pose proof (round_located_exact mrs' _ Hloc') as Hexact. fold m' m1 in Hexact.
  pose proof (located_range _ _ Hloc') as Hrange. fold m' in Hrange.
  assert (Hm' : (0 <= m')%Z) by (destruct Hloc'; assumption).
  pose proof (Zdigits2_bounds mx Hmx) as [Hlo Hhi].
  set (dx := Zdigits2 mx) in *.
  (* the value is below 2^dx *)
  assert (Hxhi : x < bpow dx).
  { assert (Hdx : (0 <= dx)%Z) by (pose proof (Zdigits2_pos mx Hmx); subst dx; lia).
    rewrite bpow_IZR in Hhi |- * by exact Hdx.
    apply lt_IZR in Hhi.
    assert (IZR (mx + 1) <= IZR (2 ^ dx)) by (apply IZR_le; lia).
    rewrite plus_IZR in H. lra. }
  assert (Hscale : bpow dx * bpow (ex - E) <= bpow 53).
  { rewrite <- bpow_add. apply bpow_le. lia. }
  assert (Hm'lt : (m' < 2 ^ 53)%Z).
  { apply lt_IZR. rewrite <- bpow_IZR by lia.
    pose proof (bpow_pos (ex - E)). nra. }
  assert (Hlead : E = (dx + ex - 53)%Z -> (2 ^ 52 <= m')%Z).
  { intros HEn. apply IZR_lt_succ_le. rewrite <- bpow_IZR by lia.
    assert (Hs : bpow (dx - 1) * bpow (ex - E) = bpow 52).
    { rewrite <- bpow_add. f_equal. lia. }
    pose proof (bpow_pos (ex - E)). nra. }
  exists m', m1. split; [exact Hm'|]. split; [exact Hrange|]. split; [exact Hm1|].
  split; [intros Hx'; apply Hexact; exact Hx'|]. split; [exact Hlead|].
  pose proof (second_shift m1 E ltac:(lia) ltac:(lia)) as Hsecond.
  destruct (shr_fexp prec emax m1 E loc_Exact) as [mrs'' e''].
  destruct Hsecond as (Hval & Hpos'' & Hzero & He'' & Hcarry).
  destruct (shr_m mrs'') as [|m|m] eqn:Em''; [| |lia].
  - split; [reflexivity|]. now apply Hzero.
  - change (emax - prec)%Z with 971%Z.
    destruct (Z.leb_spec e'' 971) as [Hle|Hgt].
    + split; [reflexivity | exact Hval].
    + split; [reflexivity|].
      destruct (Z.eq_dec e'' (E + 1)%Z) as [Hc|Hnc].
      * rewrite (Hcarry Hc). 
        apply Rle_trans with (bpow 53 * bpow 971).
        -- rewrite <- bpow_add. apply bpow_le. lia.
        -- rewrite (bpow_IZR 53) by lia.
           assert (bpow 971 <= bpow E) by (apply bpow_le; lia).
           assert (0 < IZR (2 ^ 53)) by (apply IZR_lt; lia). nra.
      * assert (HeE : e'' = E) by lia. subst e''.
        assert (2 ^ 52 <= m')%Z by (apply Hlead; lia).
        apply Rle_trans with (bpow 52 * bpow 972).
        -- rewrite <- bpow_add. apply bpow_le. lia.
        -- rewrite (bpow_IZR 52) by lia.
           assert (bpow 972 <= bpow E) by (apply bpow_le; lia).
           assert (IZR (2 ^ 52) <= IZR m1) by (apply IZR_le; lia).
           assert (0 < IZR (2 ^ 52)) by (apply IZR_lt; lia).
           pose proof (bpow_pos 972). nra.
Qed.

End Binary64Nearest.

Section Binary64Monotone.

Local Open Scope R_scope.

Lemma canonical_top ma ea :
  fexp64 (Z.pos (digits2_pos ma) + ea) = ea -> (ea <= 971)%Z ->
  IZR (Z.pos ma) * bpow ea < bpow 1024.
Proof.
  intros C He. rewrite fexp64_eq in C.
  pose proof (Zdigits2_bounds (Z.pos ma) ltac:(lia)) as [_ Hhi]. simpl Zdigits2 in Hhi.
  apply Rlt_le_trans with (bpow (Z.pos (digits2_pos ma)) * bpow ea).
  - pose proof (bpow_pos ea). nra.
  - rewrite <- bpow_add. apply bpow_le. lia.
Qed.

(** A float on the grid of exponent [E] or coarser is a multiple of 2^E. *)
Lemma on_grid ma ea E :
  (E <= ea)%Z ->
  IZR (Z.pos ma) * bpow ea = IZR (Z.pos ma * 2 ^ (ea - E)) * bpow E.
Proof.
  intros H. rewrite mult_IZR, <- bpow_IZR by lia.
  rewrite Rmult_assoc, <- bpow_add. do 2 f_equal. lia.
Qed.

Lemma round_not_above sx mx ex lx x ma ea :
  located (shr_record_of_loc mx lx) x -> (0 < mx)%Z ->
  (ex <= fexp64 (Zdigits2 mx + ex))%Z ->
  fexp64 (Z.pos (digits2_pos ma) + ea) = ea -> (ea <= 971)%Z ->
  x * bpow ex <= IZR (Z.pos ma) * bpow ea ->
  match binary_round_aux prec emax sx mx ex lx with
  | S754_zero s => s = sx
  | S754_finite s m e => s = sx /\ IZR (Z.pos m) * bpow e <= IZR (Z.pos ma) * bpow ea
  | _ => False
  end.
Proof.
  intros Hloc Hmx HE Ca Hea Hle.
  destruct (binary_round_aux_nearest sx mx ex lx x Hloc Hmx HE)
    as (m' & m1 & Hm' & Hrange & Hm1 & Hexact & _ & Hres).
  set (E := fexp64 (Zdigits2 mx + ex)) in *.
  pose proof (located_record_m _ _ _ Hloc) as [_ Hx].
  pose proof (Zdigits2_bounds mx Hmx) as [Hlo _].
  pose proof (Zdigits2_bounds (Z.pos ma) ltac:(lia)) as [_ Hahi]. simpl Zdigits2 in Hahi.
  set (da := Z.pos (digits2_pos ma)) in *. set (dx := Zdigits2 mx) in *.
  assert (Hgrid : (E <= ea)%Z).
  { assert (Hb : bpow (dx - 1 + ex) < bpow (da + ea)).
    { rewrite !bpow_add. pose proof (bpow_pos ex). pose proof (bpow_pos ea). nra. }
    apply bpow_lt_inv in Hb. subst E. rewrite fexp64_eq in *. lia. }
  rewrite (on_grid ma ea E Hgrid) in Hle |- *.
  set (k := (Z.pos ma * 2 ^ (ea - E))%Z) in *.
  assert (Hsplit : bpow (ex - E) * bpow E = bpow ex).
  { rewrite <- bpow_add. f_equal. lia. }
  pose proof (bpow_pos E) as HG.
  assert (Hx' : x * bpow (ex - E) <= IZR k).
  { apply (Rmult_le_reg_r (bpow E)); [exact HG|]. rewrite Rmult_assoc, Hsplit. exact Hle. }
  assert (Hm1k : (m1 <= k)%Z).
  { assert (Hm'k : (m' <= k)%Z) by (apply le_IZR; lra).
    destruct (Z.eq_dec m' k) as [Heq|Hne]; [|lia].
    rewrite Hexact; [lia|]. subst k. rewrite <- Heq in Hx'. lra. }
  assert (Hval : IZR m1 * bpow E <= IZR k * bpow E).
  { apply Rmult_le_compat_r; [lra | apply IZR_le, Hm1k]. }
  assert (Htop : IZR k * bpow E < bpow 1024).
  { subst k. rewrite <- (on_grid ma ea E Hgrid). now apply canonical_top. }
  destruct (binary_round_aux prec emax sx mx ex lx) as [s|s| |s m e].
  - apply Hres.
  - destruct Hres as [_ Hinf]. lra.
  - exact Hres.
  - destruct Hres as [Hs Hv]. split; [exact Hs|]. rewrite Hv. exact Hval.
Qed.

Lemma round_not_below sx mx ex lx x ma ea :
  located (shr_record_of_loc mx lx) x -> (0 < mx)%Z ->
  (ex <= fexp64 (Zdigits2 mx + ex))%Z ->
  fexp64 (Z.pos (digits2_pos ma) + ea) = ea ->
  IZR (Z.pos ma) * bpow ea <= x * bpow ex ->
  match binary_round_aux prec emax sx mx ex lx with
  | S754_finite s m e => s = sx /\ IZR (Z.pos ma) * bpow ea <= IZR (Z.pos m) * bpow e
  | S754_infinity s => s = sx
  | _ => False
  end.
Proof.
  intros Hloc Hmx HE Ca Hle.
  destruct (binary_round_aux_nearest sx mx ex lx x Hloc Hmx HE)
    as (m' & m1 & Hm' & Hrange & Hm1 & _ & Hlead & Hres).
  set (E := fexp64 (Zdigits2 mx + ex)) in *.
  pose proof (located_record_m _ _ _ Hloc) as [_ Hx].
  pose proof (Zdigits2_bounds mx Hmx) as [_ Hhi].
  pose proof (Zdigits2_bounds (Z.pos ma) ltac:(lia)) as [Halo _]. simpl Zdigits2 in Halo.
  set (da := Z.pos (digits2_pos ma)) in *. set (dx := Zdigits2 mx) in *.
  assert (Hdx : (0 < dx)%Z) by (apply Zdigits2_pos; exact Hmx).
  assert (Hxhi : x < bpow dx).
  { rewrite bpow_IZR in Hhi |- * by lia. apply lt_IZR in Hhi.
    assert (IZR (mx + 1) <= IZR (2 ^ dx)) by (apply IZR_le; lia).
    rewrite plus_IZR in H. lra. }
  assert (Hbin : (da + ea <= dx + ex)%Z).
  { assert (Hb : bpow (da - 1 + ea) < bpow (dx + ex)).
    { rewrite !bpow_add. pose proof (bpow_pos ex). pose proof (bpow_pos ea). nra. }
    apply bpow_lt_inv in Hb. lia. }
  pose proof (bpow_pos E) as HG.
  assert (Hsplit : bpow (ex - E) * bpow E = bpow ex).
  { rewrite <- bpow_add. f_equal. lia. }
  assert (Hval : IZR (Z.pos ma) * bpow ea <= IZR m1 * bpow E /\ (0 < m1)%Z).
  { assert (HEdef : E = Z.max (dx + ex - 53) (-1074)) by apply fexp64_eq.
    rewrite fexp64_eq in Ca. fold da in Ca.
    destruct (Z.eq_dec ea E) as [Heq|Hne].
    - (* the same grid *)
      rewrite Heq in Hle |- *.
      assert (Hma : IZR (Z.pos ma) <= x * bpow (ex - E)).
      { apply (Rmult_le_reg_r (bpow E)); [exact HG|]. rewrite Rmult_assoc, Hsplit. exact Hle. }
      assert (Z.pos ma <= m')%Z by (apply IZR_lt_succ_le; lra).
      split; [|lia]. apply Rmult_le_compat_r; [lra | apply IZR_le; lia].
    - (* a lower binade *)
      assert (HEn : E = (dx + ex - 53)%Z) by lia.
      specialize (Hlead HEn).
      split; [|lia].
      pose proof (Zdigits2_bounds (Z.pos ma) ltac:(lia)) as [_ Hahi]. simpl Zdigits2 in Hahi.
      fold da in Hahi.
      apply Rle_trans with (bpow (da + ea)).
      + rewrite bpow_add. pose proof (bpow_pos ea). nra.
      + apply Rle_trans with (bpow 52 * bpow E).
        * rewrite <- bpow_add. apply bpow_le. lia.
        * rewrite (bpow_IZR 52) by lia.
          apply Rmult_le_compat_r; [lra | apply IZR_le; lia]. }
  destruct Hval as [Hval Hpos].
  destruct (binary_round_aux prec emax sx mx ex lx) as [s|s| |s m e].
  - destruct Hres as [_ Hz]. lia.
  - apply Hres.
  - exact Hres.
  - destruct Hres as [Hs Hv]. split; [exact Hs|]. rewrite Hv. exact Hval.
Qed.

End Binary64Monotone.

Section Binary64Products.

Local Open Scope R_scope.

Lemma mul_grid mx ex my ey :
  fexp64 (Z.pos (digits2_pos mx) + ex) = ex ->
  fexp64 (Z.pos (digits2_pos my) + ey) = ey ->
  (ex + ey <= fexp64 (Zdigits2 (Z.pos (mx * my)) + (ex + ey)))%Z.
Proof.
  intros Cx Cy. simpl Zdigits2. pose proof (digits2_pos_mul mx my) as Hd.
  rewrite fexp64_eq in *. lia.
Qed.

Lemma SF2R_positive m e : SF2R (S754_finite false m e) = IZR (Z.pos m) * bpow e.
Proof. simpl. lra. Qed.

Lemma SF2R_negative m e : SF2R (S754_finite true m e) < 0.
Proof.
  simpl. pose proof (bpow_pos e). assert (0 < IZR (Z.pos m)) by (apply IZR_lt; lia). nra.
Qed.

Lemma SF2R_positive_pos m e : 0 < SF2R (S754_finite false m e).
Proof.
  rewrite SF2R_positive. pose proof (bpow_pos e).
  assert (0 < IZR (Z.pos m)) by (apply IZR_lt; lia). nra.
Qed.

(** The product of two floats that are not negative does not pass a float
    that bounds the exact product, from either side. *)
Lemma SFmul_not_above x y c :
  valid_binary x = true -> valid_binary y = true -> valid_binary c = true ->
  SFfin x -> SFfin y -> SFfin c ->
  0 <= SF2R x -> 0 <= SF2R y -> SF2R x * SF2R y <= SF2R c ->
  SFfin (SFmul prec emax x y) /\ SF2R (SFmul prec emax x y) <= SF2R c.
Proof.
  intros Vx Vy Vc Fx Fy Fc Hx Hy Hle.
  destruct x as [sx|sx| |sx mx ex]; try contradiction;
    destruct y as [sy|sy| |sy my ey]; try contradiction;
    try (simpl in *; split; [exact I | nra]).
  destruct sx; [pose proof (SF2R_negative mx ex); lra|].
  destruct sy; [pose proof (SF2R_negative my ey); lra|].
  pose proof (SF2R_positive_pos mx ex) as Px. pose proof (SF2R_positive_pos my ey) as Py.
  assert (Pc : 0 < SF2R c) by nra.
  destruct c as [sc|sc| |sc mc ec]; try contradiction; try (simpl in Pc; lra).
  destruct sc; [pose proof (SF2R_negative mc ec); lra|].
  destruct (valid_finite _ _ _ Vx) as [Cx _]. destruct (valid_finite _ _ _ Vy) as [Cy _].
  destruct (valid_finite _ _ _ Vc) as [Cc Hec].
  rewrite !SF2R_positive in Hle.
  assert (Hprod : IZR (Z.pos (mx * my)) * bpow (ex + ey) <= IZR (Z.pos mc) * bpow ec).
  { rewrite Pos2Z.inj_mul, mult_IZR, bpow_add. lra. }
  pose proof (round_not_above false (Z.pos (mx * my)) (ex + ey) loc_Exact
                (IZR (Z.pos (mx * my))) mc ec
                (located_exact (Z.pos (mx * my)) ltac:(lia)) ltac:(lia) (mul_grid _ _ _ _ Cx Cy) Cc Hec Hprod)
    as Hres.
  unfold SFmul. change (xorb false false) with false.
  destruct (binary_round_aux prec emax false (Z.pos (mx * my)) (ex + ey) loc_Exact)
    as [s|s| |s m e]; try contradiction.
  - split; [exact I|]. change (SF2R (S754_zero s)) with 0. lra.
  - destruct Hres as [-> Hv]. split; [exact I|]. rewrite !SF2R_positive. exact Hv.
Qed.

Lemma SFmul_not_below x y c :
  valid_binary x = true -> valid_binary y = true -> valid_binary c = true ->
  SFfin x -> SFfin y -> SFfin c ->
  0 <= SF2R x -> 0 <= SF2R y -> SF2R c <= SF2R x * SF2R y ->
  SFfin (SFmul prec emax x y) ->
  SF2R c <= SF2R (SFmul prec emax x y).
Proof.
  intros Vx Vy Vc Fx Fy Fc Hx Hy Hle Fxy.
  assert (Hzero : SF2R x * SF2R y = 0 -> SF2R c <= SF2R (SFmul prec emax x y)).
  { intros Hz. rewrite Hz in Hle.
    destruct x as [sx|sx| |sx mx ex]; try contradiction;
      destruct y as [sy|sy| |sy my ey]; try contradiction; try (simpl in *; nra).
    destruct sx; [pose proof (SF2R_negative mx ex); lra|].
    destruct sy; [pose proof (SF2R_negative my ey); lra|].
    pose proof (SF2R_positive_pos mx ex). pose proof (SF2R_positive_pos my ey). nra. }
  destruct x as [sx|sx| |sx mx ex]; try contradiction;
    destruct y as [sy|sy| |sy my ey]; try contradiction;
    try (apply Hzero; simpl; nra).
  clear Hzero.
  destruct sx; [pose proof (SF2R_negative mx ex); lra|].
  destruct sy; [pose proof (SF2R_negative my ey); lra|].
  destruct (valid_finite _ _ _ Vx) as [Cx _]. destruct (valid_finite _ _ _ Vy) as [Cy _].
  unfold SFmul in *. change (xorb false false) with false in *.
  destruct c as [sc|sc| |sc mc ec]; try contradiction.
  - (* the bound is zero *)
    pose proof (binary_round_aux_nearest false (Z.pos (mx * my)) (ex + ey) loc_Exact
                  (IZR (Z.pos (mx * my))) (located_exact (Z.pos (mx * my)) ltac:(lia)) ltac:(lia)
                  (mul_grid _ _ _ _ Cx Cy)) as (m' & m1 & _ & _ & _ & _ & _ & Hres).
    destruct (binary_round_aux prec emax false (Z.pos (mx * my)) (ex + ey) loc_Exact)
      as [s|s| |s m e]; try contradiction.
    + simpl. lra.
    + destruct Hres as [-> _]. pose proof (SF2R_positive_pos m e). simpl SF2R at 1. lra.
  - destruct sc.
    + (* the bound is negative *)
      pose proof (binary_round_aux_nearest false (Z.pos (mx * my)) (ex + ey) loc_Exact
                    (IZR (Z.pos (mx * my))) (located_exact (Z.pos (mx * my)) ltac:(lia)) ltac:(lia)
                    (mul_grid _ _ _ _ Cx Cy)) as (m' & m1 & _ & _ & _ & _ & _ & Hres).
      pose proof (SF2R_negative mc ec).
      destruct (binary_round_aux prec emax false (Z.pos (mx * my)) (ex + ey) loc_Exact)
        as [s|s| |s m e]; try contradiction.
      * simpl SF2R at 2. lra.
      * destruct Hres as [-> _]. pose proof (SF2R_positive_pos m e). lra.
    + destruct (valid_finite _ _ _ Vc) as [Cc _].
      rewrite !SF2R_positive in Hle.
      assert (Hprod : IZR (Z.pos mc) * bpow ec <= IZR (Z.pos (mx * my)) * bpow (ex + ey)).
      { rewrite Pos2Z.inj_mul, mult_IZR, bpow_add. lra. }
      pose proof (round_not_below false (Z.pos (mx * my)) (ex + ey) loc_Exact
                    (IZR (Z.pos (mx * my))) mc ec
                    (located_exact (Z.pos (mx * my)) ltac:(lia)) ltac:(lia) (mul_grid _ _ _ _ Cx Cy) Cc Hprod)
        as Hres.
      destruct (binary_round_aux prec emax false (Z.pos (mx * my)) (ex + ey) loc_Exact)
        as [s|s| |s m e]; try contradiction.
      destruct Hres as [-> Hv]. rewrite !SF2R_positive. exact Hv.
Qed.

End Binary64Products.

Section Binary64Durations.

Local Open Scope R_scope.

Lemma Fmul_not_above a b c :
  Ffin a -> Ffin b -> Ffin c -> 0 <= F2R a -> 0 <= F2R b ->
  F2R a * F2R b <= F2R c ->
  Ffin (a * b)%float /\ F2R (a * b)%float <= F2R c.
Proof.
  unfold Ffin, F2R. rewrite FloatAxioms.mul_spec. intros Fa Fb Fc.
  apply SFmul_not_above; auto using Prim2SF_valid.
Qed.

Lemma Fmul_not_below a b c :
  Ffin a -> Ffin b -> Ffin c -> 0 <= F2R a -> 0 <= F2R b ->
  F2R c <= F2R a * F2R b -> Ffin (a * b)%float ->
  F2R c <= F2R (a * b)%float.
Proof.
  unfold Ffin, F2R. rewrite FloatAxioms.mul_spec. intros Fa Fb Fc.
  apply SFmul_not_below; auto using Prim2SF_valid.
Qed.

(** [int64] of a float between two integers of the range. *)
Lemma int64_of_float_between f (A B : Z) :
  Ffin f -> (int64_min <= A)%Z -> (B <= int64_max)%Z ->
  IZR A <= F2R f <= IZR B ->
  (A <= int64_of_float f <= B)%Z.
Proof.
  unfold Ffin, F2R, int64_of_float, trunc_float. intros Ff HA HB [Hlo Hhi].
  destruct (Prim2SF f) as [s|s| |s m e]; try contradiction.
  - simpl in Hlo, Hhi. apply le_IZR in Hlo, Hhi.
    replace ((int64_min <=? 0)%Z && (0 <=? int64_max)%Z) with true by reflexivity. lia.
  - set (a := if (0 <=? e)%Z then Z.shiftl (Z.pos m) e else Z.shiftr (Z.pos m) (- e)).
    assert (Ha : IZR a <= IZR (Z.pos m) * bpow e < IZR a + 1).
    { subst a. destruct (Z.leb_spec 0 e) as [He|He].
      - rewrite Z.shiftl_mul_pow2 by lia. rewrite mult_IZR, <- bpow_IZR by lia. lra.
      - rewrite Z.shiftr_div_pow2 by lia.
        assert (Hp : (0 < 2 ^ (- e))%Z) by (apply Z.pow_pos_nonneg; lia).
        pose proof (Z.div_mod (Z.pos m) (2 ^ (- e)) ltac:(lia)) as Hdm.
        pose proof (Z.mod_pos_bound (Z.pos m) (2 ^ (- e)) Hp) as Hmod.
        set (q := (Z.pos m / 2 ^ (- e))%Z) in *. set (r := (Z.pos m mod 2 ^ (- e))%Z) in *.
        assert (Hinv : IZR (2 ^ (- e)) * bpow e = 1).
        { rewrite <- bpow_IZR by lia. rewrite <- bpow_add.
          replace (- e + e)%Z with 0%Z by lia. apply bpow_0. }
        rewrite Hdm, plus_IZR, mult_IZR.
        assert (Hr : 0 <= IZR r * bpow e < 1).
        { pose proof (bpow_pos e) as Hb.
          assert (0 <= IZR r) by (apply IZR_le; lia).
          assert (IZR r < IZR (2 ^ (- e))) by (apply IZR_lt; lia).
          split; [nra|]. rewrite <- Hinv. nra. }
        replace ((IZR (2 ^ (- e)) * IZR q + IZR r) * bpow e)
          with (IZR q * (IZR (2 ^ (- e)) * bpow e) + IZR r * bpow e) by ring.
        rewrite Hinv. lra. }
    assert (Hapos : (0 <= a)%Z).
    { apply Z.lt_succ_r. apply lt_IZR. rewrite succ_IZR.
      pose proof (bpow_pos e). assert (0 < IZR (Z.pos m)) by (apply IZR_lt; lia). nra. }
    fold a. simpl SF2R in Hlo, Hhi.
    set (v := if s then (- a)%Z else a).
    assert (Hv : (A <= v <= B)%Z).
    { subst v. destruct s.
      - split.
        + apply le_IZR. rewrite opp_IZR. lra.
        + apply Z.lt_succ_r. apply lt_IZR. rewrite succ_IZR, opp_IZR. lra.
      - split.
        + apply Z.lt_succ_r. apply lt_IZR. rewrite succ_IZR. lra.
        + apply le_IZR. lra. }
    destruct (Z.leb_spec int64_min v); [|lia].
    destruct (Z.leb_spec v int64_max); [|lia]. simpl. exact Hv.
Qed.

Lemma F2R_1e9 : Ffin 1e9%float /\ F2R 1e9%float = 1000000000.
Proof.
  split; [exact I|]. unfold F2R.
  replace (Prim2SF 1e9%float) with (S754_finite false 8388608000000000 (-23)) by reflexivity.
  unfold SF2R.
  replace (bpow (-23)) with (/ 8388608).
  - lra.
  - change (-23)%Z with (- (23))%Z. rewrite bpow_opp, (bpow_IZR 23) by lia.
    change (2 ^ 23)%Z with 8388608%Z. reflexivity.
Qed.

(** [time.Duration(d * float64(time.Second))] for between [lo] and [hi]
    seconds. *)
Lemma of_seconds_between d (lo hi : Z) :
  Ffin d -> (0 <= lo)%Z -> (lo <= hi)%Z -> (hi <= 9000000)%Z ->
  IZR lo <= F2R d <= IZR hi ->
  (lo * time.Second <= time.of_seconds d <= hi * time.Second)%Z.
Proof.
  intros Fd Hlo Hlh Hhi [Hdlo Hdhi]. unfold time.of_seconds.
  destruct F2R_1e9 as [Fe Ve].
  assert (H0 : 0 <= IZR lo) by (apply IZR_le; lia).
  destruct (float64_of_int_exact (lo * 1000000000)) as [Fa Va];
    [change (2 ^ 53)%Z with 9007199254740992%Z; lia|].
  destruct (float64_of_int_exact (hi * 1000000000)) as [Fb Vb];
    [change (2 ^ 53)%Z with 9007199254740992%Z; lia|].
  rewrite mult_IZR in Va, Vb.
  destruct (Fmul_not_above d 1e9 (float64_of_int (hi * 1000000000)) Fd Fe Fb) as [Fp Hup];
    [lra | rewrite Ve; lra | rewrite Ve, Vb; nra |].
  pose proof (Fmul_not_below d 1e9 (float64_of_int (lo * 1000000000)) Fd Fe Fa) as Hdown.
  specialize (Hdown ltac:(lra) ltac:(rewrite Ve; lra) ltac:(rewrite Ve, Va; nra) Fp).
  change time.Second with 1000000000%Z.
  apply int64_of_float_between; [exact Fp | unfold int64_min; lia | unfold int64_max; lia |].
  rewrite !mult_IZR. lra.
Qed.

(** A whole number of seconds is the float of that number. *)
Lemma Seconds_whole (q : Z) :
  (0 <= q < 2 ^ 53)%Z ->
  Ffin (time.Seconds (q * time.Second)) /\ F2R (time.Seconds (q * time.Second)) = IZR q.
Proof.
  intros Hq. unfold time.Seconds.
  rewrite Z.quot_mul by (unfold time.Second; lia).
  rewrite Z.rem_mul by (unfold time.Second; lia).
  replace (float64_of_int 0 / 1e9)%float with 0%float by reflexivity.
  destruct (float64_of_int_exact q Hq) as [Fq Vq].
  unfold Ffin, F2R in *. rewrite FloatAxioms.add_spec.
  replace (Prim2SF 0%float) with (S754_zero false) by reflexivity.
  destruct (Prim2SF (float64_of_int q)) as [s|s| |s m e]; try contradiction.
  - destruct s; split; try exact I; simpl in *; exact Vq.
  - split; [exact I | exact Vq].
Qed.

End Binary64Durations.

Section Binary64Quotients.

Local Open Scope R_scope.









End Binary64Quotients.

(** ** The concurrency wave function, continued *)

(** X2: whatever the elapsed time and the draw, CalculateConcurrency with
    min <= max returns a count within [min, max]. *)
Theorem CalculateConcurrency_within_range
    (elapsedSeconds : R) (min max : Z) (randomness : R) (w : World) :
  min <= max ->
  exists n w',
    wave.CalculateConcurrency elapsedSeconds min max randomness w = Some (n, w') /\
    min <= n <= max.
Proof.
  intros Hle. unfold wave.CalculateConcurrency, bind, rand.Intn, ret.
  change (3 <=? 0) with false. cbv iota.
  eexists _, _. split; [reflexivity|].
  unfold wave.concurrency_of. apply Clamp_bounds, Hle.
Qed.

Lemma CalculateConcurrency_within_range_witness :
  exists n w',
    wave.CalculateConcurrency 75 2 8 0.3 unperturbed_world = Some (n, w') /\
    2 <= n <= 8.
Proof. apply CalculateConcurrency_within_range. lia. Defined.

(** ** NewScheduler *)

Section NewScheduler.

Import controller.

Lemma init_status_spec agents : forall acc w,
  exists result w',
    init_status agents acc w = Some (result, w') /\
    clock w' = clock w /\ next_clock w' = (next_clock w + length agents)%nat /\
    (forall id, is_Some (result !! id) <->
       is_Some (acc !! id) \/ exists agent, agent ∈ agents /\ AgentConfig.ID agent = id) /\
    (forall id status, result !! id = Some status ->
       acc !! id = Some status \/
       exists agent k,
         agent ∈ agents /\ AgentConfig.ID agent = id /\
         (next_clock w <= k < next_clock w + length agents)%nat /\
         status = AgentStatus.mk id (clock w k - 24 * time.Hour) 0 0
                    (AgentConfig.Region agent)).
Proof.
  induction agents as [|agent rest IH]; intros acc w; simpl.
  - exists acc, w. split; [reflexivity|]. split; [reflexivity|]. split; [lia|]. split.
    + intros id. split; [auto|]. intros [H|(a & Hin & _)]; [exact H | inversion Hin].
    + intros id status H. left. exact H.
  - unfold bind at 1. unfold time.Now at 1.
    set (w1 := mkWorld _ _ _ _ _ _ _ _).
    set (entry := AgentStatus.mk _ _ _ _ _).
    destruct (IH (<[AgentConfig.ID agent := entry]> acc) w1)
      as (result & w' & Hrun & Hclock & Hnext & Hdom & Hval).
    exists result, w'. split; [exact Hrun|]. split; [exact Hclock|].
    split; [rewrite Hnext; simpl; lia|]. split.
    + intros id. rewrite Hdom. split.
      * intros [Hacc|(a & Hin & Hid)].
        -- destruct (decide (AgentConfig.ID agent = id)) as [E|Hne].
           ++ right. exists agent. split; [left | exact E].
           ++ rewrite lookup_insert_ne in Hacc by exact Hne. left. exact Hacc.
        -- right. exists a. split; [right; exact Hin | exact Hid].
      * intros [Hacc|(a & Hin & Hid)].
        -- destruct (decide (AgentConfig.ID agent = id)) as [E|Hne].
           ++ left. rewrite E, lookup_insert_eq. eauto.
           ++ left. rewrite lookup_insert_ne by exact Hne. exact Hacc.
        -- apply elem_of_cons in Hin. destruct Hin as [->|Hin].
           ++ left. rewrite Hid, lookup_insert_eq. eauto.
           ++ right. exists a. auto.
    + intros id status Hres. apply Hval in Hres.
      destruct Hres as [Hacc|(a & k & Hin & Hid & Hk & Hst)].
      * destruct (decide (AgentConfig.ID agent = id)) as [E|Hne].
        -- rewrite E, lookup_insert_eq in Hacc. injection Hacc as <-.
           right. exists agent, (next_clock w). split; [left|]. split; [exact E|].
           split; [lia|]. subst entry. rewrite E. unfold time.Add. f_equal; lia.
        -- rewrite lookup_insert_ne in Hacc by exact Hne. left. exact Hacc.
      * right. exists a, k. split; [right; exact Hin|]. split; [exact Hid|].
        simpl in Hk. split; [lia|]. exact Hst.
Qed.

End NewScheduler.

Lemma NewScheduler_spec (config : controller.Config.t) (w : World) :
  exists s w',
    controller.NewScheduler config w = Some (s, w') /\
    controller.Scheduler.config s = config /\
    controller.SchedulerState.Phase (controller.Scheduler.state s) = "idle" /\
    controller.SchedulerState.ActiveAgents (controller.Scheduler.state s) = ∅ /\
    controller.SchedulerState.TargetTotalBW (controller.Scheduler.state s)
    = controller.Config.GetTargetBandwidthMbps config /\
    controller.SchedulerState.RotationCount (controller.Scheduler.state s) = 0 /\
    controller.SchedulerState.NextRotation (controller.Scheduler.state s)
    = clock w (next_clock w) /\
    (forall id,
       is_Some (controller.Scheduler.agentStatus s !! id) <->
       exists agent, agent ∈ controller.Config.Agents config /\
                     controller.AgentConfig.ID agent = id) /\
    (forall id status,
       controller.Scheduler.agentStatus s !! id = Some status ->
       controller.AgentStatus.AgentID status = id /\
       controller.AgentStatus.UseCount status = 0 /\
       controller.AgentStatus.TotalRuntime status = 0 /\
       (exists agent, agent ∈ controller.Config.Agents config /\
                      controller.AgentConfig.ID agent = id /\
                      controller.AgentStatus.Region status
                      = controller.AgentConfig.Region agent) /\
       exists k, (next_clock w <= k < next_clock w')%nat /\
                 controller.AgentStatus.LastUsed status = clock w k - 24 * time.Hour).
Proof.
  unfold controller.NewScheduler. unfold bind at 1. unfold time.Now at 1.
  set (w1 := mkWorld _ _ _ _ _ _ _ _).
  destruct (init_status_spec (controller.Config.Agents config) ∅ w1)
    as (result & w2 & Hrun & Hclock & Hnext & Hdom & Hval).
  unfold bind at 1. rewrite Hrun. unfold bind, time.Now, ret.
  eexists _, _. split; [reflexivity|]. simpl.
  repeat (split; [reflexivity|]). split.
  - intros id. rewrite Hdom. split.
    + intros [H|H]; [|exact H]. rewrite lookup_empty in H. destruct H; discriminate.
    + auto.
  - intros id status Hres. apply Hval in Hres.
    destruct Hres as [H|(a & k & Hin & Hid & Hk & ->)];
      [rewrite lookup_empty in H; discriminate|].
    simpl. repeat (split; [reflexivity|]). split.
    + exists a. auto.
    + exists k. rewrite Hnext. simpl in Hk |- *. split; [lia | reflexivity].
Qed.

(** X4: a new scheduler is idle with no active agent, aims at the configured
    target, is due to rotate at once, and holds one status entry per
    configured agent id and no other: never used, and last used a day
    before a reading of the clock taken while it was built. *)
Theorem NewScheduler_initial_state (config : controller.Config.t) (w : World) :
  exists s w',
    controller.NewScheduler config w = Some (s, w') /\
    controller.Scheduler.config s = config /\
    controller.SchedulerState.Phase (controller.Scheduler.state s) = "idle" /\
    controller.SchedulerState.ActiveAgents (controller.Scheduler.state s) = ∅ /\
    controller.SchedulerState.TargetTotalBW (controller.Scheduler.state s)
    = controller.Config.GetTargetBandwidthMbps config /\
    controller.SchedulerState.RotationCount (controller.Scheduler.state s) = 0 /\
    controller.SchedulerState.NextRotation (controller.Scheduler.state s)
    = clock w (next_clock w) /\
    (forall id,
       is_Some (controller.Scheduler.agentStatus s !! id) <->
       exists agent, agent ∈ controller.Config.Agents config /\
                     controller.AgentConfig.ID agent = id) /\
    (forall id status,
       controller.Scheduler.agentStatus s !! id = Some status ->
       controller.AgentStatus.AgentID status = id /\
       controller.AgentStatus.UseCount status = 0 /\
       controller.AgentStatus.TotalRuntime status = 0 /\
       (exists agent, agent ∈ controller.Config.Agents config /\
                      controller.AgentConfig.ID agent = id /\
                      controller.AgentStatus.Region status
                      = controller.AgentConfig.Region agent) /\
       exists k, (next_clock w <= k < next_clock w')%nat /\
                 controller.AgentStatus.LastUsed status = clock w k - 24 * time.Hour).
Proof. exact (NewScheduler_spec config w). Qed.

(** ** selectRandomURL, the agents to stop and to start, shutdown *)

Lemma selectRandomURL_spec (s : controller.Scheduler.t) (w : World) :
  exists url w',
    controller.selectRandomURL s w = Some (url, w') /\
    (controller.Config.URLs (controller.Scheduler.config s) = [] ->
     url = "https://dl.google.com/linux/direct/google-chrome-stable_current_amd64.deb" /\
     w' = w) /\
    (controller.Config.URLs (controller.Scheduler.config s) <> [] ->
     url ∈ controller.Config.URLs (controller.Scheduler.config s)).
Proof.
  unfold controller.selectRandomURL.
  destruct (controller.Config.URLs (controller.Scheduler.config s)) as [|u urls] eqn:Hurls.
  - exists "https://dl.google.com/linux/direct/google-chrome-stable_current_amd64.deb", w.
    simpl. split; [reflexivity|]. split; [auto | congruence].
  - change (length (u :: urls) =? 0)%nat with false. cbv iota.
    unfold bind, rand.Intn.
    destruct (Z.leb_spec (Z.of_nat (length (u :: urls))) 0) as [Hle|_];
      [simpl in Hle; lia|].
    set (idx := Z.to_nat (int_draws w (next_int w) mod Z.of_nat (length (u :: urls)))).
    assert (Hidx : (idx < length (u :: urls))%nat).
    { subst idx.
      pose proof (Z.mod_pos_bound (int_draws w (next_int w))
                    (Z.of_nat (length (u :: urls))) ltac:(simpl; lia)). lia. }
    destruct (lookup_lt_is_Some_2 _ _ Hidx) as [url Hurl].
    rewrite Hurl. eexists url, _. split; [reflexivity|].
    split; [discriminate|]. intros _. eapply list_elem_of_lookup_2, Hurl.
Qed.

(** X10: selectRandomURL never fails: without a configured locator it returns
    the built-in one and draws nothing; otherwise it returns one of the
    configured locators. *)
Theorem selectRandomURL_default_or_configured (s : controller.Scheduler.t) (w : World) :
  exists url w',
    controller.selectRandomURL s w = Some (url, w') /\
    (controller.Config.URLs (controller.Scheduler.config s) = [] ->
     url = "https://dl.google.com/linux/direct/google-chrome-stable_current_amd64.deb" /\
     w' = w) /\
    (controller.Config.URLs (controller.Scheduler.config s) <> [] ->
     url ∈ controller.Config.URLs (controller.Scheduler.config s)).
Proof. exact (selectRandomURL_spec s w). Qed.

Section Sets.

Import controller.

Lemma omap_keys_NoDup {A B} (f : string * A -> option B) (g : B -> string)
    (l : list (string * A)) :
  NoDup l.*1 ->
  (forall kv b, f kv = Some b -> g b = kv.1) ->
  NoDup (g <$> omap f l).
Proof.
  intros Hnd Hkey. induction l as [|kv l IH]; simpl; [constructor|].
  inversion Hnd as [|? ? Hnotin Hnd']; subst.
  destruct (f kv) as [b|] eqn:Hf; simpl; [|apply IH, Hnd'].
  constructor; [|apply IH, Hnd'].
  intros Hin. apply list_elem_of_fmap in Hin. destruct Hin as (b' & Hg & Hin).
  apply list_elem_of_omap in Hin. destruct Hin as (kv' & Hin & Hf').
  apply Hkey in Hf, Hf'. apply Hnotin.
  apply list_elem_of_fmap. exists kv'. split; [congruence | exact Hin].
Qed.

End Sets.

(** The two differences between the active set and the new one. *)
Lemma rotation_sets
    (s : controller.Scheduler.t)
    (newAllocations : gmap string controller.AgentAllocation.t) :
  let active := controller.SchedulerState.ActiveAgents (controller.Scheduler.state s) in
  NoDup (controller.findAgentsToStop s newAllocations) /\
  (forall id, id ∈ controller.findAgentsToStop s newAllocations <->
              id ∈ dom active ∖ dom newAllocations) /\
  controller.findAgentsToStart s newAllocations
  ≡ₚ (map_to_list (newAllocations ∖ active)).*2.
Proof.
  intros active. split; [|split].
  - unfold controller.findAgentsToStop.
    rewrite <- (list_fmap_id (omap _ _)).
    apply omap_keys_NoDup; [apply NoDup_fst_map_to_list|].
    intros [id a] b. simpl. destruct (newAllocations !! id); [discriminate|].
    intros [= <-]. reflexivity.
  - intros id. rewrite findAgentsToStop_spec, elem_of_difference, !elem_of_dom.
    fold active. rewrite <- eq_None_not_Some. reflexivity.
  - unfold controller.findAgentsToStart. fold active.
    set (keep := fun kv : string * controller.AgentAllocation.t =>
                   match active !! kv.1 with
                   | Some _ => None
                   | None => Some kv
                   end).
    assert (Hsnd : forall l,
               omap (fun kv : string * controller.AgentAllocation.t =>
                       match active !! kv.1 with
                       | Some _ => None
                       | None => Some kv.2
                       end) l = (omap keep l).*2).
    { induction l as [|kv l IH]; simpl; [reflexivity|].
      unfold keep at 1. destruct (active !! kv.1); simpl; [exact IH | f_equal; exact IH]. }
    rewrite Hsnd. apply fmap_Permutation.
    apply NoDup_Permutation.
    + apply (NoDup_fmap_1 fst).
      apply omap_keys_NoDup; [apply NoDup_fst_map_to_list|].
      intros kv b. unfold keep. destruct (active !! kv.1); [discriminate|].
      intros [= <-]. reflexivity.
    + apply NoDup_map_to_list.
    + intros [id a]. rewrite list_elem_of_omap, elem_of_map_to_list, lookup_difference_Some.
      split.
      * intros ([id' a'] & Hin & Hkeep). apply elem_of_map_to_list in Hin.
        unfold keep in Hkeep. simpl in Hkeep.
        destruct (active !! id') eqn:Hold; [discriminate|].
        injection Hkeep as -> ->. auto.
      * intros [Hnew Hold]. exists (id, a).
        split; [apply elem_of_map_to_list, Hnew|].
        unfold keep. simpl. rewrite Hold. reflexivity.
Qed.

(** X7: the agents to stop are the active agents that have no new allocation,
    each listed once; the allocations to start are the new allocations of
    the agents that were not active, one for each such agent. *)
Theorem rotation_difference_sets
    (s : controller.Scheduler.t)
    (newAllocations : gmap string controller.AgentAllocation.t) :
  let active := controller.SchedulerState.ActiveAgents (controller.Scheduler.state s) in
  NoDup (controller.findAgentsToStop s newAllocations) /\
  (forall id, id ∈ controller.findAgentsToStop s newAllocations <->
              id ∈ dom active ∖ dom newAllocations) /\
  controller.findAgentsToStart s newAllocations
  ≡ₚ (map_to_list (newAllocations ∖ active)).*2.
Proof.
  intros active. destruct (rotation_sets s newAllocations) as (Hstop & Hstops & Hstarts).
  split; [exact Hstop|]. split; [exact Hstops | exact Hstarts].
Qed.

(** X11: on shutdown every active agent is sent one command, the one that
    stops all its downloads, and no other agent is sent anything. *)
Theorem stopAllAgents_stops_each_active_agent (s : controller.Scheduler.t) :
  let active := controller.SchedulerState.ActiveAgents (controller.Scheduler.state s) in
  NoDup (controller.stopAllAgents s).*1 /\
  (forall id, id ∈ (controller.stopAllAgents s).*1 <-> id ∈ dom active) /\
  Forall (fun target => protocol.StopCommand.CommandID target.2 = "")
    (controller.stopAllAgents s).
Proof.
  intros active. unfold controller.stopAllAgents. fold active.
  assert (Hfst : (map (fun kv : string * controller.AgentAllocation.t =>
                         controller.stopAgent kv.1) (map_to_list active)).*1
                 = (map_to_list active).*1).
  { induction (map_to_list active) as [|kv l IH]; simpl; [reflexivity|].
    f_equal. exact IH. }
  split; [rewrite Hfst; apply NoDup_fst_map_to_list|]. split.
  - intros id. rewrite Hfst, elem_of_dom. split.
    + intros Hin. apply list_elem_of_fmap in Hin. destruct Hin as ([id' a] & -> & Hin).
      apply elem_of_map_to_list in Hin. simpl. eauto.
    + intros [a Ha]. apply list_elem_of_fmap. exists (id, a).
      split; [reflexivity | apply elem_of_map_to_list, Ha].
  - apply Forall_forall. intros target Hin.
    apply list_elem_of_fmap in Hin. destruct Hin as (kv & -> & _). reflexivity.
Qed.

(** ** selectAgents *)

Section Selection.

Import bandwidth controller.

(** The weights are computed for every candidate that has a status entry. *)
Lemma agent_weights_returns s available : forall w,
  (forall agent, agent ∈ available -> is_Some (Scheduler.agentStatus s !! AgentConfig.ID agent)) ->
  exists weights w',
    agent_weights s available w = Some (weights, w') /\
    length weights = length available.
Proof.
  induction available as [|agent rest IH]; intros w Hstatus; simpl.
  - exists [], w. split; reflexivity.
  - destruct (Hstatus agent ltac:(left)) as [status Hst].
    unfold bind at 1. unfold agent_weight. rewrite Hst.
    unfold bind at 1. unfold time.Since at 1. unfold bind at 1. unfold time.Now at 1.
    unfold ret at 1. unfold ret at 1.
    set (w1 := mkWorld _ _ _ _ _ _ _ _).
    destruct (IH w1) as (ws & w' & Hrun & Hlen).
    { intros a Ha. apply Hstatus. right. exact Ha. }
    unfold bind at 1. rewrite Hrun. unfold ret.
    eexists _, _. split; [reflexivity|]. simpl. rewrite Hlen. reflexivity.
Qed.

(** The selection of indices, as [select_loop_selects] gives it. *)
Lemma WeightedRandomSelection_indices count weights w :
  0 <= count ->
  exists selected w',
    WeightedRandomSelection count weights w = Some (selected, w') /\
    Z.of_nat (length selected) = Z.min count (Z.of_nat (length weights)) /\
    NoDup selected /\
    Forall (fun idx => (idx < length weights)%nat) selected.
Proof.
  intros Hcount. unfold WeightedRandomSelection.
  destruct (Z.geb_spec count (Z.of_nat (length weights))) as [Hall|Hfew].
  - exists (seq 0 (length weights)), w. split; [reflexivity|].
    split; [rewrite length_seq; lia|].
    split; [apply NoDup_seq|].
    apply Forall_forall. intros idx Hin. apply elem_of_seq in Hin. lia.
  - destruct (Z.ltb_spec count 0); [lia|].
    destruct (select_loop_selects (Z.to_nat count) [] (seq 0 (length weights)) weights w)
      as (selected & rest & w' & Hloop & Hlen & Hperm).
    + rewrite length_seq. reflexivity.
    + rewrite length_seq. lia.
    + simpl in Hlen, Hperm.
      assert (Hnodup : NoDup (selected ++ rest)).
      { rewrite <- Hperm. apply NoDup_seq. }
      exists selected, w'. split; [exact Hloop|].
      split; [lia|].
      split; [apply NoDup_app in Hnodup; tauto|].
      apply Forall_forall. intros idx Hin.
      assert (Hseq : idx ∈ seq 0 (length weights)).
      { rewrite Hperm. apply elem_of_app. left. exact Hin. }
      apply elem_of_seq in Hseq. lia.
Qed.

Lemma pick_agents_returns available selectedIndices : forall w,
  Forall (fun idx => (idx < length available)%nat) selectedIndices ->
  exists selected,
    pick_agents available selectedIndices w = Some (selected, w) /\
    Forall2 (fun idx agent => available !! idx = Some agent) selectedIndices selected.
Proof.
  induction selectedIndices as [|idx rest IH]; intros w Hvalid; simpl.
  - exists []. split; [reflexivity | constructor].
  - inversion Hvalid as [|? ? Hidx Hrest]; subst.
    destruct (lookup_lt_is_Some_2 _ _ Hidx) as [agent Hagent]. rewrite Hagent.
    destruct (IH w Hrest) as (picked & Hrun & Hall).
    unfold bind. rewrite Hrun. unfold ret.
    exists (agent :: picked). split; [reflexivity|]. constructor; assumption.
Qed.

Lemma picked_ids_NoDup (available : list AgentConfig.t) idxs picked :
  NoDup (AgentConfig.ID <$> available) -> NoDup idxs ->
  Forall2 (fun idx agent => available !! idx = Some agent) idxs picked ->
  NoDup (AgentConfig.ID <$> picked).
Proof.
  intros Hids Hnd Hall. induction Hall as [|idx agent idxs picked Hidx Hall IH]; simpl.
  - constructor.
  - inversion Hnd as [|? ? Hnotin Hnd']; subst. constructor; [|apply IH, Hnd'].
    intros Hin. apply list_elem_of_fmap in Hin. destruct Hin as (other & Hid & Hin).
    apply (list_elem_of_lookup_1) in Hin. destruct Hin as [j Hj].
    destruct (Forall2_lookup_r _ _ _ _ _ Hall Hj) as (idx' & Hidx' & Hother).
    assert (idx = idx').
    { apply (NoDup_lookup _ idx idx' (AgentConfig.ID agent) Hids);
        rewrite list_lookup_fmap; [rewrite Hidx | rewrite Hother]; simpl; congruence. }
    subst idx'. apply Hnotin. eapply list_elem_of_lookup_2, Hidx'.
Qed.

End Selection.

(** What selectAgents returns. *)
Lemma selectAgents_spec
    (s : controller.Scheduler.t) (connectedAgents : list string) (count : Z) (w : World) :
  (forall agent, agent ∈ controller.Config.Agents (controller.Scheduler.config s) ->
     is_Some (controller.Scheduler.agentStatus s !! controller.AgentConfig.ID agent)) ->
  0 <= count ->
  exists selected w',
    controller.selectAgents s connectedAgents count w = Some (selected, w') /\
    Z.of_nat (length selected)
    = Z.min count
        (Z.of_nat (length (filter (fun agent => controller.AgentConfig.ID agent ∈ connectedAgents)
                             (controller.Config.Agents (controller.Scheduler.config s))))) /\
    (forall agent, agent ∈ selected ->
       agent ∈ controller.Config.Agents (controller.Scheduler.config s) /\
       controller.AgentConfig.ID agent ∈ connectedAgents) /\
    (NoDup (controller.AgentConfig.ID <$> controller.Config.Agents (controller.Scheduler.config s)) ->
     NoDup (controller.AgentConfig.ID <$> selected)).
Proof.
  intros Hstatus Hcount. unfold controller.selectAgents.
  set (available := filter (fun agent => controller.AgentConfig.ID agent ∈ connectedAgents)
                      (controller.Config.Agents (controller.Scheduler.config s))).
  destruct (Nat.eqb_spec (length available) 0) as [Hnone|Hsome].
  - exists [], w. split; [reflexivity|]. rewrite Hnone. split; [simpl; lia|].
    split; [intros agent Hin; inversion Hin | intros _; constructor].
  - set (count' := if count >? Z.of_nat (length available)
                   then Z.of_nat (length available) else count).
    assert (Hcount' : count' = Z.min count (Z.of_nat (length available))).
    { subst count'. rewrite Z.gtb_ltb.
      destruct (Z.ltb_spec (Z.of_nat (length available)) count); lia. }
    destruct (agent_weights_returns s available w) as (weights & w1 & Hweights & Hlen).
    { intros agent Hin. apply Hstatus. apply list_elem_of_filter in Hin. tauto. }
    destruct (WeightedRandomSelection_indices count' weights w1 ltac:(lia))
      as (idxs & w2 & Hsel & Hn & Hnd & Hvalid).
    rewrite Hlen in Hvalid, Hn.
    destruct (pick_agents_returns available idxs w2 Hvalid) as (selected & Hpick & Hall).
    unfold bind at 1. rewrite Hweights. unfold bind at 1. rewrite Hsel.
    exists selected, w2. split; [exact Hpick|].
    split; [rewrite <- (Forall2_length _ _ _ Hall); lia|]. split.
    + intros agent Hin. apply list_elem_of_lookup_1 in Hin. destruct Hin as [j Hj].
      destruct (Forall2_lookup_r _ _ _ _ _ Hall Hj) as (idx & _ & Hagent).
      apply list_elem_of_lookup_2 in Hagent.
      apply list_elem_of_filter in Hagent. tauto.
    + intros Hids. eapply picked_ids_NoDup; [|exact Hnd | exact Hall].
      subst available. clear -Hids.
      induction (controller.Config.Agents (controller.Scheduler.config s)) as [|a l IH];
        [constructor|].
      inversion Hids as [|? ? Hnotin Hids']; subst.
      rewrite filter_cons. destruct (decide _); [|apply IH, Hids'].
      simpl. constructor; [|apply IH, Hids'].
      intros Hin. apply Hnotin. apply list_elem_of_fmap in Hin.
      destruct Hin as (b & Hb & Hin). apply list_elem_of_filter in Hin.
      apply list_elem_of_fmap. exists b. tauto.
Qed.

(** X5: when every configured agent has a status entry and the count is not
    negative, selectAgents does not fail; it returns min(count, number of
    configured agents that are connected) agents, each of them configured
    and connected, and no agent id twice when the configured ids are
    distinct. *)
Theorem selectAgents_selects_connected_agents
    (s : controller.Scheduler.t) (connectedAgents : list string) (count : Z) (w : World) :
  (forall agent, agent ∈ controller.Config.Agents (controller.Scheduler.config s) ->
     is_Some (controller.Scheduler.agentStatus s !! controller.AgentConfig.ID agent)) ->
  0 <= count ->
  exists selected w',
    controller.selectAgents s connectedAgents count w = Some (selected, w') /\
    Z.of_nat (length selected)
    = Z.min count
        (Z.of_nat (length (filter (fun agent => controller.AgentConfig.ID agent ∈ connectedAgents)
                             (controller.Config.Agents (controller.Scheduler.config s))))) /\
    (forall agent, agent ∈ selected ->
       agent ∈ controller.Config.Agents (controller.Scheduler.config s) /\
       controller.AgentConfig.ID agent ∈ connectedAgents) /\
    (NoDup (controller.AgentConfig.ID <$> controller.Config.Agents (controller.Scheduler.config s)) ->
     NoDup (controller.AgentConfig.ID <$> selected)).
Proof.
  intros Hstatus Hcount.
  destruct (selectAgents_spec s connectedAgents count w Hstatus Hcount)
    as (selected & w' & Hrun & Hrest).
  exists selected, w'. split; [exact Hrun | exact Hrest].
Qed.

Lemma stable_scheduler_statuses :
  forall agent, agent ∈ controller.Config.Agents (controller.Scheduler.config stable_scheduler) ->
    is_Some (controller.Scheduler.agentStatus stable_scheduler !! controller.AgentConfig.ID agent).
Proof.
  intros agent Hin. simpl in Hin.
  repeat (apply elem_of_cons in Hin; destruct Hin as [->|Hin]);
    [eexists; vm_compute; reflexivity.. | inversion Hin].
Qed.

Lemma selectAgents_selects_connected_agents_witness :
  exists selected w',
    controller.selectAgents stable_scheduler ["a1"; "a3"] 1 rotation_world
    = Some (selected, w') /\
    Z.of_nat (length selected) = 1 /\
    (forall agent, agent ∈ selected -> controller.AgentConfig.ID agent ∈ ["a1"; "a3"]).
Proof.
  destruct (selectAgents_selects_connected_agents stable_scheduler ["a1"; "a3"] 1
              rotation_world stable_scheduler_statuses ltac:(lia))
    as (selected & w' & Hrun & Hlen & Hin & _).
  exists selected, w'. split; [exact Hrun|]. split; [exact Hlen|].
  intros agent Hagent. apply Hin, Hagent.
Defined.

(** ** allocateBandwidth *)

Section Allocation.

Import bandwidth controller.

Lemma cap_allocations_spec agents : forall i bandwidthAllocations acc w,
  (i + length agents <= length bandwidthAllocations)%nat ->
  exists result w',
    cap_allocations agents i bandwidthAllocations acc w = Some (result, w') /\
    (forall id, is_Some (result !! id) <->
       is_Some (acc !! id) \/ exists agent, agent ∈ agents /\ AgentConfig.ID agent = id) /\
    (forall id a, result !! id = Some a ->
       acc !! id = Some a \/
       exists agent allocated,
         agent ∈ agents /\ AgentConfig.ID agent = id /\
         allocated ∈ bandwidthAllocations /\
         AgentAllocation.AgentID a = id /\
         AgentAllocation.AllocatedBW a = Z.min allocated (AgentConfig.MaxBandwidth agent)).
Proof.
  induction agents as [|agent rest IH]; intros i bws acc w Hlen; simpl.
  - exists acc, w. split; [reflexivity|]. split.
    + intros id. split; [auto|]. intros [H|(a & Hin & _)]; [exact H | inversion Hin].
    + intros id a H. left. exact H.
  - simpl in Hlen.
    destruct (lookup_lt_is_Some_2 bws i ltac:(lia)) as [allocated Hi]. rewrite Hi.
    unfold bind at 1. unfold time.Now at 1.
    set (w1 := mkWorld _ _ _ _ _ _ _ _).
    set (entry := AgentAllocation.mk _ _ _ _ _ _).
    destruct (IH (S i) bws (<[AgentConfig.ID agent := entry]> acc) w1 ltac:(lia))
      as (result & w' & Hrun & Hdom & Hval).
    exists result, w'. split; [exact Hrun|]. split.
    + intros id. rewrite Hdom. split.
      * intros [Hacc|(a & Hin & Hid)].
        -- destruct (decide (AgentConfig.ID agent = id)) as [E|Hne].
           ++ right. exists agent. split; [left | exact E].
           ++ rewrite lookup_insert_ne in Hacc by exact Hne. left. exact Hacc.
        -- right. exists a. split; [right; exact Hin | exact Hid].
      * intros [Hacc|(a & Hin & Hid)].
        -- destruct (decide (AgentConfig.ID agent = id)) as [E|Hne].
           ++ left. rewrite E, lookup_insert_eq. eauto.
           ++ left. rewrite lookup_insert_ne by exact Hne. exact Hacc.
        -- apply elem_of_cons in Hin. destruct Hin as [->|Hin].
           ++ left. rewrite Hid, lookup_insert_eq. eauto.
           ++ right. exists a. auto.
    + intros id a Hres. apply Hval in Hres.
      destruct Hres as [Hacc|(ag & al & Hin & Hid & Hal & Haid & Hbw)].
      * destruct (decide (AgentConfig.ID agent = id)) as [E|Hne].
        -- rewrite E, lookup_insert_eq in Hacc. injection Hacc as <-.
           right. exists agent, allocated. split; [left|]. split; [exact E|].
           split; [eapply list_elem_of_lookup_2, Hi|]. split; [exact E|].
           subst entry. simpl. rewrite Z.gtb_ltb.
           destruct (Z.ltb_spec (AgentConfig.MaxBandwidth agent) allocated); lia.
        -- rewrite lookup_insert_ne in Hacc by exact Hne. left. exact Hacc.
      * right. exists ag, al. split; [right; exact Hin|]. auto.
Qed.

End Allocation.

(** What allocateBandwidth returns. *)
Lemma allocateBandwidth_spec
    (s : controller.Scheduler.t) (agents : list controller.AgentConfig.t) (w : World) :
  exists allocations w',
    controller.allocateBandwidth s agents w = Some (allocations, w') /\
    (forall id, id ∈ dom allocations <-> id ∈ controller.AgentConfig.ID <$> agents) /\
    (forall id a, allocations !! id = Some a ->
       controller.AgentAllocation.AgentID a = id /\
       exists agent,
         agent ∈ agents /\ controller.AgentConfig.ID agent = id /\
         controller.AgentAllocation.AllocatedBW a <= controller.AgentConfig.MaxBandwidth agent /\
         (controller.SchedulerConfig.ServerBandwidthMin (controller.sched_cfg s)
          <= controller.SchedulerConfig.ServerBandwidthMax (controller.sched_cfg s) ->
          Z.min (controller.SchedulerConfig.ServerBandwidthMin (controller.sched_cfg s))
            (controller.AgentConfig.MaxBandwidth agent)
          <= controller.AgentAllocation.AllocatedBW a
          <= controller.SchedulerConfig.ServerBandwidthMax (controller.sched_cfg s))).
Proof.
  unfold controller.allocateBandwidth.
  destruct (Nat.eqb_spec (length agents) 0) as [Hnone|Hsome].
  - exists ∅, w. split; [reflexivity|].
    destruct agents; [|discriminate]. split.
    + intros id. rewrite dom_empty. split; intros H; [apply elem_of_empty in H; contradiction | inversion H].
    + intros id a H. rewrite lookup_empty in H. discriminate.
  - destruct (AllocateBandwidth_returns
                (controller.SchedulerState.TargetTotalBW (controller.Scheduler.state s))
                (controller.SchedulerConfig.BandwidthRandomness (controller.sched_cfg s))
                (controller.SchedulerConfig.ServerBandwidthMin (controller.sched_cfg s))
                (controller.SchedulerConfig.ServerBandwidthMax (controller.sched_cfg s))
                (Z.of_nat (length agents)) w ltac:(lia))
      as (bws & w1 & Hbw & Hlen & Hin).
    destruct (cap_allocations_spec agents 0 bws ∅ w1 ltac:(lia))
      as (allocations & w' & Hcap & Hdom & Hval).
    unfold bind. rewrite Hbw. exists allocations, w'. split; [exact Hcap|]. split.
    + intros id. rewrite elem_of_dom, Hdom, list_elem_of_fmap. split.
      * intros [H|(agent & Hagent & Hid)];
          [rewrite lookup_empty in H; destruct H; discriminate|].
        exists agent. auto.
      * intros (agent & Hid & Hagent). right. exists agent. auto.
    + intros id a Ha. apply Hval in Ha.
      destruct Ha as [H|(agent & allocated & Hagent & Hid & Hal & Haid & Hbwa)];
        [rewrite lookup_empty in H; discriminate|].
      split; [exact Haid|]. exists agent. split; [exact Hagent|]. split; [exact Hid|].
      split; [lia|]. intros Hle. specialize (Hin Hle).
      rewrite Forall_forall in Hin. specialize (Hin allocated Hal). simpl in Hin. lia.
Qed.

(** X6: allocateBandwidth never fails.  It records one allocation under the
    id of each selected agent and under no other id; the allocation carries
    that id and a throughput that does not exceed the capacity of a selected
    agent of that id nor, when the configured bounds are ordered, the
    per-server maximum, and that is no less than the smaller of the
    per-server minimum and that capacity. *)
Theorem allocateBandwidth_one_allocation_per_agent
    (s : controller.Scheduler.t) (agents : list controller.AgentConfig.t) (w : World) :
  exists allocations w',
    controller.allocateBandwidth s agents w = Some (allocations, w') /\
    (forall id, id ∈ dom allocations <-> id ∈ controller.AgentConfig.ID <$> agents) /\
    (forall id a, allocations !! id = Some a ->
       controller.AgentAllocation.AgentID a = id /\
       exists agent,
         agent ∈ agents /\ controller.AgentConfig.ID agent = id /\
         controller.AgentAllocation.AllocatedBW a <= controller.AgentConfig.MaxBandwidth agent /\
         (controller.SchedulerConfig.ServerBandwidthMin (controller.sched_cfg s)
          <= controller.SchedulerConfig.ServerBandwidthMax (controller.sched_cfg s) ->
          Z.min (controller.SchedulerConfig.ServerBandwidthMin (controller.sched_cfg s))
            (controller.AgentConfig.MaxBandwidth agent)
          <= controller.AgentAllocation.AllocatedBW a
          <= controller.SchedulerConfig.ServerBandwidthMax (controller.sched_cfg s))).
Proof.
  destruct (allocateBandwidth_spec s agents w) as (allocations & w' & Hrun & Hrest).
  exists allocations, w'. split; [exact Hrun | exact Hrest].
Qed.

(** ** performRotation *)

Section Pipeline.

Import bandwidth controller.

Lemma CalculateStagger_returns count totalDuration w :
  0 < count ->
  exists delays w',
    CalculateStagger count totalDuration w = Some (delays, w') /\
    length delays = Z.to_nat count.
Proof.
  intros Hpos. unfold CalculateStagger.
  destruct (Z.eqb_spec count 0); [lia|].
  destruct (Z.ltb_spec count 0); [lia|].
  destruct (stagger_loop_returns (Z.to_nat count) 0
              (totalDuration / float64_of_int count)%float [] w)
    as (delays & w' & Hrun & Hlen & _).
  exists delays, w'. split; [exact Hrun | exact Hlen].
Qed.

Lemma with_delays_returns {A} (items : list A) : forall i delays w,
  (i + length items <= length delays)%nat ->
  exists scheduled,
    with_delays items i delays w = Some (scheduled, w) /\
    scheduled.*1 = items.
Proof.
  induction items as [|x rest IH]; intros i delays w Hlen; simpl.
  - exists []. split; reflexivity.
  - simpl in Hlen.
    destruct (lookup_lt_is_Some_2 delays i ltac:(lia)) as [d Hd]. rewrite Hd.
    destruct (IH (S i) delays w ltac:(lia)) as (scheduled & Hrun & Hitems).
    unfold bind. rewrite Hrun. unfold ret.
    eexists. split; [reflexivity|]. rewrite fmap_cons, Hitems. reflexivity.
Qed.

Lemma rampDownAgents_returns s agentIDs w :
  exists scheduled w',
    rampDownAgents s agentIDs w = Some (scheduled, w') /\ scheduled.*1 = agentIDs.
Proof.
  unfold rampDownAgents. destruct (Nat.eqb_spec (length agentIDs) 0) as [Hnone|Hsome].
  - exists [], w. split; [reflexivity|]. destruct agentIDs; [reflexivity | discriminate].
  - destruct (CalculateStagger_returns (Z.of_nat (length agentIDs))
                (time.Seconds (SchedulerConfig.RampDownDuration (sched_cfg s))) w ltac:(lia))
      as (delays & w' & Hrun & Hlen).
    destruct (with_delays_returns agentIDs 0 delays w' ltac:(lia)) as (scheduled & Hwith & Hitems).
    unfold bind. rewrite Hrun. exists scheduled, w'. split; [exact Hwith | exact Hitems].
Qed.

Lemma rampUpAgents_returns s allocations w :
  exists scheduled w',
    rampUpAgents s allocations w = Some (scheduled, w') /\ scheduled.*1 = allocations.
Proof.
  unfold rampUpAgents. destruct (Nat.eqb_spec (length allocations) 0) as [Hnone|Hsome].
  - exists [], w. split; [reflexivity|]. destruct allocations; [reflexivity | discriminate].
  - destruct (CalculateStagger_returns (Z.of_nat (length allocations))
                (time.Seconds (SchedulerConfig.RampUpDuration (sched_cfg s))) w ltac:(lia))
      as (delays & w' & Hrun & Hlen).
    destruct (with_delays_returns allocations 0 delays w' ltac:(lia))
      as (scheduled & Hwith & Hitems).
    unfold bind. rewrite Hrun. exists scheduled, w'. split; [exact Hwith | exact Hitems].
Qed.

(** Rescheduling moves the deadline and nothing else. *)
Lemma scheduleNextRotation_returns s w :
  exists next w',
    scheduleNextRotation s w
    = Some (Scheduler.set_state (SchedulerState.set_NextRotation next (Scheduler.state s)) s, w').
Proof.
  unfold scheduleNextRotation, RandomDuration, bind, rand.Float64, time.Now, ret.
  eexists _, _. reflexivity.
Qed.

(** A map holds no more entries than a list that names all its keys. *)
Lemma size_le_keys {A} (m : gmap string A) (keys : list string) :
  (forall id, id ∈ dom m -> id ∈ keys) -> (size m <= length keys)%nat.
Proof.
  intros Hsub. rewrite <- length_map_to_list, <- (length_fmap fst).
  apply submseteq_length, NoDup_submseteq; [apply NoDup_fst_map_to_list|].
  intros id Hin. apply Hsub, elem_of_dom.
  apply list_elem_of_fmap in Hin. destruct Hin as ([id' a] & -> & Hin).
  apply elem_of_map_to_list in Hin. eauto.
Qed.

(** What a rotation does from its plan to its commit when no other task
    takes a step in between, as at the start of [Run]. *)
Lemma performRotation_spec s connectedAgents newConcurrency w :
  (forall agent, agent ∈ Config.Agents (Scheduler.config s) ->
     is_Some (Scheduler.agentStatus s !! AgentConfig.ID agent)) ->
  0 <= newConcurrency ->
  exists s' log w',
    performRotation s connectedAgents newConcurrency w = Some ((s', log), w') /\
    let old := SchedulerState.ActiveAgents (Scheduler.state s) in
    let new := SchedulerState.ActiveAgents (Scheduler.state s') in
    SchedulerState.Phase (Scheduler.state s') = "stable" /\
    SchedulerState.RotationCount (Scheduler.state s')
    = wrap64 (SchedulerState.RotationCount (Scheduler.state s) + 1) /\
    (exists k, (next_clock w <= k < next_clock w')%nat /\
               SchedulerState.LastRotation (Scheduler.state s') = clock w k) /\
    Scheduler.config s' = Scheduler.config s /\
    Scheduler.agentStatus s' = Scheduler.agentStatus s /\
    (Z.of_nat (size new) <= newConcurrency) /\
    (forall id, id ∈ dom new ->
       id ∈ connectedAgents /\
       id ∈ AgentConfig.ID <$> Config.Agents (Scheduler.config s)) /\
    NoDup (stops log).*1 /\
    (forall id, id ∈ (stops log).*1 <-> id ∈ dom old ∖ dom new) /\
    (starts log).*1 ≡ₚ (map_to_list (new ∖ old)).*2.
Proof.
  intros Hstatus Hcount. unfold performRotation.
  set (s_down := set_phase "ramping_down" s).
  destruct (selectAgents_spec s_down connectedAgents newConcurrency w Hstatus Hcount)
    as (selected & w0 & Hsel & Hlen & Hin & _).
  destruct (allocateBandwidth_spec s_down selected w0)
    as (allocations & w1 & Halloc & Hdom & _).
  unfold bind at 1. unfold plan_rotation. unfold bind at 1. rewrite Hsel, Halloc.
  set (toStop := findAgentsToStop s_down allocations).
  assert (Hstops : exists stops w2,
             (if (0 <? length toStop)%nat then rampDownAgents s_down toStop else ret [])
               w1 = Some (stops, w2) /\ stops.*1 = toStop).
  { destruct (0 <? length toStop)%nat eqn:Hany.
    - apply rampDownAgents_returns.
    - exists [], w1. split; [reflexivity|].
      apply Nat.ltb_ge in Hany. destruct toStop; [reflexivity | simpl in Hany; lia]. }
  destruct Hstops as (stops & w2 & Hstops & Hstopped).
  unfold bind at 1. rewrite Hstops.
  set (s_up := set_phase "ramping_up" s_down).
  set (toStart := findAgentsToStart s_up allocations).
  assert (Hstarts : exists starts w3,
             (if (0 <? length toStart)%nat then rampUpAgents s_up toStart else ret [])
               w2 = Some (starts, w3) /\ starts.*1 = toStart).
  { destruct (0 <? length toStart)%nat eqn:Hany.
    - apply rampUpAgents_returns.
    - exists [], w2. split; [reflexivity|].
      apply Nat.ltb_ge in Hany. destruct toStart; [reflexivity | simpl in Hany; lia]. }
  destruct Hstarts as (starts & w3 & Hstarts & Hstarted).
  unfold bind at 1. rewrite Hstarts.
  unfold bind at 1. unfold commit_rotation at 1. unfold bind at 1. unfold time.Now at 1.
  unfold ret at 1.
  set (w4 := mkWorld _ _ _ _ _ _ _ _).
  set (s_c := Scheduler.set_state _ s_up).
  destruct (scheduleNextRotation_returns s_c w4) as (next & w5 & Hsched).
  unfold bind at 1. rewrite Hsched. unfold ret.
  eexists _, _, w5. split; [reflexivity|]. simpl.
  (* the clock along the rotation *)
  pose proof (advances_selectAgents _ _ _ _ _ _ Hsel) as L0.
  pose proof (advances_AllocateBandwidth) as _.
  assert (L1 : clock_later w0 w1).
  { apply allocateBandwidth_fresh in Halloc. tauto. }
  assert (L2 : clock_later w1 w2).
  { destruct (0 <? length toStop)%nat.
    - eapply advances_rampDownAgents, Hstops.
    - eapply advances_ret, Hstops. }
  assert (L3 : clock_later w2 w3).
  { destruct (0 <? length toStart)%nat.
    - eapply advances_rampUpAgents, Hstarts.
    - eapply advances_ret, Hstarts. }
  pose proof (advances_scheduleNextRotation _ _ _ _ Hsched) as L5.
  pose proof (clock_later_trans _ _ _ L0 (clock_later_trans _ _ _ L1
                (clock_later_trans _ _ _ L2 L3))) as [Hclock Hnext].
  destruct L5 as [_ Hnext5]. simpl in Hnext5.
  split; [reflexivity|]. split; [reflexivity|]. split.
  { exists (next_clock w3). split; [lia | rewrite Hclock; reflexivity]. }
  split; [reflexivity|]. split; [reflexivity|]. split.
  { pose proof (size_le_keys allocations (AgentConfig.ID <$> selected)) as Hsize.
    rewrite length_fmap in Hsize. specialize (Hsize (fun id H => proj1 (Hdom id) H)). lia. }
  split.
  { intros id Hid. apply Hdom in Hid. apply list_elem_of_fmap in Hid.
    destruct Hid as (agent & -> & Hagent). apply Hin in Hagent.
    split; [tauto|]. apply list_elem_of_fmap. exists agent. tauto. }
  rewrite Hstopped, Hstarted. exact (rotation_sets s allocations).
Qed.

End Pipeline.

(** ** The start of Run *)

Section Startup.

Import controller.

(** X29: whatever the configuration, the agents connected and the clock, the
    start of [Run] with a concurrency that is not negative does not fail:
    the scheduler is built and its first rotation completes.  It is then
    in phase "stable" with one rotation counted and the configuration it
    was given, it has a status for exactly the configured agents, and its
    active agents, at most as many as asked, are connected and configured
    ones; since none was active before, nobody is stopped. *)
Theorem Run_start_completes_the_first_rotation
    (config : Config.t) (connectedAgents : list string) (newConcurrency : Z) (w : World) :
  0 <= newConcurrency ->
  exists s w',
    Run_start config connectedAgents newConcurrency w = Some (s, w') /\
    Scheduler.config s = config /\
    SchedulerState.Phase (Scheduler.state s) = "stable" /\
    SchedulerState.RotationCount (Scheduler.state s) = 1 /\
    (forall id,
       is_Some (Scheduler.agentStatus s !! id) <->
       exists agent, agent ∈ Config.Agents config /\ AgentConfig.ID agent = id) /\
    Z.of_nat (size (SchedulerState.ActiveAgents (Scheduler.state s))) <= newConcurrency /\
    (forall id, id ∈ dom (SchedulerState.ActiveAgents (Scheduler.state s)) ->
       id ∈ connectedAgents /\ id ∈ AgentConfig.ID <$> Config.Agents config) /\
    exists s0 w0 log,
      NewScheduler config w = Some (s0, w0) /\
      performRotation s0 connectedAgents newConcurrency w0 = Some ((s, log), w') /\
      stops log = [].
Proof.
  intros Hcount. unfold Run_start.
  destruct (NewScheduler_spec config w)
    as (s0 & w0 & Hnew & Hcfg & _ & Hactive & _ & Hzero & _ & Hstatus & _).
  unfold bind at 1. rewrite Hnew.
  destruct (performRotation_spec s0 connectedAgents newConcurrency w0)
    as (s & log & w' & Hrot & Hphase & Hcnt & _ & Hcfg' & Hst' & Hsize & Hin & _ & Hstops & _).
  { intros agent Hagent. apply Hstatus. exists agent. split; [|reflexivity].
    rewrite Hcfg in Hagent. exact Hagent. }
  { exact Hcount. }
  unfold bind. rewrite Hrot. unfold ret. exists s, w'.
  split; [reflexivity|]. split; [congruence|]. split; [exact Hphase|].
  split; [rewrite Hcnt, Hzero; reflexivity|]. split.
  { intros id. rewrite Hst'. apply Hstatus. }
  split; [exact Hsize|]. split.
  { intros id Hid. rewrite <- Hcfg. apply Hin, Hid. }
  exists s0, w0, log. split; [reflexivity|]. split; [exact Hrot|].
  destruct (stops log) as [|[id delay] rest] eqn:E; [reflexivity|].
  exfalso. assert (Hid : id ∈ ((id, delay) :: rest).*1) by apply list_elem_of_here.
  apply Hstops in Hid. rewrite Hactive, dom_empty in Hid.
  apply elem_of_difference in Hid. destruct Hid as [Hid _].
  apply elem_of_empty in Hid. exact Hid.
Qed.

End Startup.

Lemma Run_start_completes_the_first_rotation_witness :
  exists s w',
    controller.Run_start fleet_config ["a1"] 1 overlap_world = Some (s, w') /\
    controller.SchedulerState.Phase (controller.Scheduler.state s) = "stable" /\
    controller.SchedulerState.RotationCount (controller.Scheduler.state s) = 1.
Proof.
  destruct (Run_start_completes_the_first_rotation fleet_config ["a1"] 1 overlap_world
              ltac:(lia))
    as (s & w' & Hrun & _ & Hphase & Hcount & _).
  exists s, w'. split; [exact Hrun|]. split; [exact Hphase | exact Hcount].
Defined.

(** ** The times of the next rotation and of the ramps *)

Section Timing.

Import bandwidth controller.

Local Open Scope R_scope.

Lemma whole_seconds_in_range (q : Z) :
  (0 <= q <= 9000000)%Z ->
  let D := time.Seconds (q * time.Second) in
  Ffin D /\ F2R D = IZR q /\
  (-0x1p1000 <=? D)%float = true /\ (D <=? 0x1p1000)%float = true /\
  (D <=? 0x1p1023)%float = true /\
  ((1 <= q)%Z -> (0x1p-990 <=? D)%float = true).
Proof.
  intros Hq D.
  destruct (Seconds_whole q) as [FD VD];
    [change (2 ^ 53)%Z with 9007199254740992%Z; lia|].
  fold D in FD, VD.
  assert (Hq0 : 0 <= IZR q <= 9000000) by (split; apply IZR_le; lia).
  assert (Hbig : forall e, (24 <= e)%Z -> 9000000 <= bpow e).
  { intros e He. apply Rle_trans with (bpow 24); [|apply bpow_le; exact He].
    rewrite (bpow_IZR 24) by lia. change (2 ^ 24)%Z with 16777216%Z. lra. }
  split; [exact FD|]. split; [exact VD|].
  split; [|split; [|split]].
  - apply Fleb_true; [exact I | exact FD|].
    rewrite (F2R_opp_pow2 (-0x1p1000)%float 1000) by reflexivity. rewrite VD.
    pose proof (bpow_pos 1000). lra.
  - apply Fleb_true; [exact FD | exact I|].
    rewrite (F2R_pow2 0x1p1000%float 1000) by reflexivity. rewrite VD.
    pose proof (Hbig 1000%Z ltac:(lia)). lra.
  - apply Fleb_true; [exact FD | exact I|].
    rewrite F2R_high, VD. pose proof (Hbig 1023%Z ltac:(lia)). lra.
  - intros H1. apply Fleb_true; [exact I | exact FD|].
    rewrite F2R_low, VD.
    assert (bpow (-990) <= bpow 0) by (apply bpow_le; lia). rewrite bpow_0 in H.
    assert (1 <= IZR q) by (apply IZR_le; lia). lra.
Qed.

(** X27: with rotation intervals of whole seconds, 0 <= min <= max <= 9000000 s,
    a timing randomness within 2^10 in magnitude and draws in [0,1),
    scheduleNextRotation sets the next rotation no sooner than the minimum
    interval and no later than the maximum interval after the time it
    reads, and changes nothing else. *)
Theorem scheduleNextRotation_within_the_interval (s : Scheduler.t) (w : World) (qmin qmax : Z) :
  SchedulerConfig.RotationIntervalMin (sched_cfg s) = (qmin * time.Second)%Z ->
  SchedulerConfig.RotationIntervalMax (sched_cfg s) = (qmax * time.Second)%Z ->
  (0 <= qmin)%Z -> (qmin <= qmax)%Z -> (qmax <= 9000000)%Z ->
  (-0x1p10 <=? SchedulerConfig.TimingRandomness (sched_cfg s))%float = true ->
  (SchedulerConfig.TimingRandomness (sched_cfg s) <=? 0x1p10)%float = true ->
  rand.float_draws_ok w ->
  exists interval w',
    scheduleNextRotation s w
    = Some (Scheduler.set_state
              (SchedulerState.set_NextRotation (clock w (next_clock w) + interval)
                 (Scheduler.state s)) s, w') /\
    (SchedulerConfig.RotationIntervalMin (sched_cfg s) <= interval
     <= SchedulerConfig.RotationIntervalMax (sched_cfg s))%Z.
Proof.
  intros Hmin Hmax H0 Hle Hhi Hjlo Hjhi Hok.
  unfold scheduleNextRotation. rewrite Hmin, Hmax.
  destruct (whole_seconds_in_range qmin ltac:(lia)) as (Fmin & Vmin & Lmin & _).
  destruct (whole_seconds_in_range qmax ltac:(lia)) as (Fmax & Vmax & _ & Umax & _).
  set (minS := time.Seconds (qmin * time.Second)) in *.
  set (maxS := time.Seconds (qmax * time.Second)) in *.
  assert (Horder : (minS <=? maxS)%float = true).
  { apply Fleb_true; [exact Fmin | exact Fmax|]. rewrite Vmin, Vmax. apply IZR_le, Hle. }
  destruct (RandomDuration_spec minS maxS
              (SchedulerConfig.TimingRandomness (sched_cfg s)) w Horder)
    as (d & w1 & Hrun & _ & Hin & Hnum).
  specialize (Hnum Lmin Umax Hjlo Hjhi Hok). destruct (Hin Hnum) as [Hdlo Hdhi].
  assert (Fd : Ffin d) by (apply (Ffin_between minS d maxS); assumption).
  pose proof (Fleb_real _ _ Fmin Fd Hdlo) as Rlo.
  pose proof (Fleb_real _ _ Fd Fmax Hdhi) as Rhi.
  rewrite Vmin in Rlo. rewrite Vmax in Rhi.
  unfold bind at 1. rewrite Hrun. unfold bind, time.Now, ret, time.Add.
  assert (Hclock : clock w1 (next_clock w1) = clock w (next_clock w)).
  { unfold RandomDuration, bind, rand.Float64, ret in Hrun.
    injection Hrun as _ <-. reflexivity. }
  rewrite Hclock.
  eexists (time.of_seconds d), _. split; [reflexivity|].
  apply of_seconds_between; try assumption. split; assumption.
Qed.

Lemma with_delays_within {A} (P : Z -> Prop) (items : list A) :
  forall i delays w scheduled w',
    with_delays items i delays w = Some (scheduled, w') ->
    Forall (fun d => P (time.of_seconds d)) delays ->
    Forall (fun p => P p.2) scheduled.
Proof.
  induction items as [|x rest IH]; intros i delays w scheduled w' Hrun Hall;
    simpl in Hrun.
  - run_inv Hrun. constructor.
  - destruct (delays !! i) as [d|] eqn:Hd; [|discriminate].
    run_inv Hrun. constructor.
    + simpl. rewrite Forall_forall in Hall. apply Hall.
      eapply list_elem_of_lookup_2, Hd.
    + eapply IH; eassumption.
Qed.

Lemma staggered_within {A} (items : list A) (q : Z) (w : World) :
  (1 <= q <= 9000000)%Z ->
  (0 < length items)%nat -> (Z.of_nat (length items) <= 4294967296)%Z ->
  rand.float_draws_ok w ->
  exists scheduled w',
    (delays <- CalculateStagger (Z.of_nat (length items)) (time.Seconds (q * time.Second)) ;;
     with_delays items 0 delays)%world w = Some (scheduled, w') /\
    scheduled.*1 = items /\
    Forall (fun p => (0 <= p.2 <= q * time.Second)%Z) scheduled.
Proof.
  intros Hq Hsome Hmany Hok.
  destruct (whole_seconds_in_range q ltac:(lia)) as (FD & VD & _ & _ & Hhi & Hlo).
  specialize (Hlo ltac:(lia)).
  set (D := time.Seconds (q * time.Second)) in *.
  set (count := Z.of_nat (length items)) in *.
  unfold CalculateStagger.
  destruct (Z.eqb_spec count 0) as [|_]; [subst count; lia|].
  destruct (Z.ltb_spec count 0) as [|_]; [subst count; lia|].
  destruct (stagger_loop_returns (Z.to_nat count) 0 (D / float64_of_int count)%float [] w)
    as (delays & w' & Hrun & Hlen & _).
  pose proof (stagger_loop_within D count Hlo Hhi ltac:(subst count; lia)
                (Z.to_nat count) 0%Z [] w delays w' Hok ltac:(lia)
                ltac:(subst count; lia) Hrun ltac:(constructor)) as Hall.
  destruct (with_delays_returns items 0 delays w') as (scheduled & Hsched & Hitems).
  { rewrite Hlen. subst count. simpl. lia. }
  exists scheduled, w'. split; [|split; [exact Hitems|]].
  - unfold bind. rewrite Hrun. exact Hsched.
  - apply (with_delays_within (fun z => (0 <= z <= q * time.Second)%Z)
             items 0%nat delays w' scheduled w' Hsched).
    eapply Forall_impl; [exact Hall|]. intros d [Hd0 HdD]. simpl.
    assert (Fd : Ffin d).
    { apply (Ffin_between 0%float d D); [exact I | exact FD | exact Hd0 | now apply Fltb_leb]. }
    assert (F0 : Ffin 0%float) by exact I.
    pose proof (Fleb_real _ _ F0 Fd Hd0) as R0.
    pose proof (Fltb_real _ _ Fd FD HdD) as RD.
    replace (F2R 0%float) with 0 in R0 by reflexivity. rewrite VD in RD.
    replace 0%Z with (0 * time.Second)%Z at 1 by reflexivity.
    apply of_seconds_between; [exact Fd | lia | lia | lia |].
    split; [exact R0 | lra].
Qed.

(** X28: with ramp durations of whole seconds between 1 and 9000000, at most
    2^32 agents and draws in [0,1): rampDownAgents schedules one stop for
    each agent it is given, in their order, each after a delay that is not
    negative and does not exceed the ramp-down duration it then waits for;
    rampUpAgents schedules one start for each allocation, each after a
    delay that is not negative and does not exceed the ramp-up duration. *)
Theorem ramps_stay_within_their_windows
    (s : Scheduler.t) (agentIDs : list string) (allocations : list AgentAllocation.t)
    (qdown qup : Z) (w : World) :
  SchedulerConfig.RampDownDuration (sched_cfg s) = (qdown * time.Second)%Z ->
  SchedulerConfig.RampUpDuration (sched_cfg s) = (qup * time.Second)%Z ->
  (1 <= qdown <= 9000000)%Z -> (1 <= qup <= 9000000)%Z ->
  (Z.of_nat (length agentIDs) <= 4294967296)%Z ->
  (Z.of_nat (length allocations) <= 4294967296)%Z ->
  rand.float_draws_ok w ->
  (exists stops w',
     rampDownAgents s agentIDs w = Some (stops, w') /\
     stops.*1 = agentIDs /\
     Forall (fun stop =>
               (0 <= stop.2 <= SchedulerConfig.RampDownDuration (sched_cfg s))%Z) stops) /\
  (exists starts w',
     rampUpAgents s allocations w = Some (starts, w') /\
     starts.*1 = allocations /\
     Forall (fun start =>
               (0 <= start.2 <= SchedulerConfig.RampUpDuration (sched_cfg s))%Z) starts).
Proof.
  intros Hdown Hup Hqd Hqu Hn1 Hn2 Hok. split.
  - unfold rampDownAgents. rewrite Hdown.
    destruct agentIDs as [|id rest].
    + exists [], w. split; [reflexivity|]. split; [reflexivity | constructor].
    + change (length (id :: rest) =? 0)%nat with false. cbv iota.
      apply staggered_within; [exact Hqd | simpl; lia | exact Hn1 | exact Hok].
  - unfold rampUpAgents. rewrite Hup.
    destruct allocations as [|alloc rest].
    + exists [], w. split; [reflexivity|]. split; [reflexivity | constructor].
    + change (length (alloc :: rest) =? 0)%nat with false. cbv iota.
      apply staggered_within; [exact Hqu | simpl; lia | exact Hn2 | exact Hok].
Qed.

End Timing.

Lemma scheduleNextRotation_within_the_interval_witness :
  exists interval w',
    controller.scheduleNextRotation stable_scheduler uneven_world
    = Some (controller.Scheduler.set_state
              (controller.SchedulerState.set_NextRotation
                 (clock uneven_world (next_clock uneven_world) + interval)
                 (controller.Scheduler.state stable_scheduler)) stable_scheduler, w') /\
    seconds 30 <= interval <= seconds 180.
Proof.
  apply (scheduleNextRotation_within_the_interval stable_scheduler uneven_world 30 180
           eq_refl eq_refl ltac:(lia) ltac:(lia) ltac:(lia) eq_refl eq_refl
           uneven_world_draws_ok).
Defined.

Lemma ramps_stay_within_their_windows_witness :
  exists stops w',
    controller.rampDownAgents stable_scheduler ["a1"; "a2"] uneven_world = Some (stops, w') /\
    stops.*1 = ["a1"; "a2"] /\
    Forall (fun stop => 0 <= stop.2 <= seconds 20) stops.
Proof.
  apply (ramps_stay_within_their_windows stable_scheduler ["a1"; "a2"] [] 20 15 uneven_world
           eq_refl eq_refl ltac:(lia) ltac:(lia) ltac:(simpl; lia) ltac:(simpl; lia)
           uneven_world_draws_ok).
Defined.

(** ** isRegionOverused *)

Section Regions2.

Import controller.



End Regions2.


(** ** The scheduler and its tasks, interleaved *)

Section Fleet.
Import controller fleet.

Lemma of_fleet_empty cfg : of_fleet cfg ∅.
Proof. intros id alloc H. rewrite lookup_empty in H. discriminate. Qed.

Lemma pick_agents_from available indices w picked w' :
  pick_agents available indices w = Some (picked, w') ->
  forall agent, agent ∈ picked -> agent ∈ available.
Proof.
  revert picked w'. induction indices as [|idx rest IH]; intros picked w' Hrun; simpl in Hrun.
  - run_inv Hrun. intros agent Hin. inversion Hin.
  - destruct (available !! idx) as [agent0|] eqn:Hidx; [|discriminate].
    run_inv Hrun. intros agent Hin.
    apply elem_of_cons in Hin. destruct Hin as [->|Hin].
    + eapply list_elem_of_lookup_2, Hidx.
    + eapply IH; eassumption.
Qed.

Lemma selectAgents_from s connectedAgents count w selected w' :
  selectAgents s connectedAgents count w = Some (selected, w') ->
  forall agent, agent ∈ selected -> agent ∈ Config.Agents (Scheduler.config s).
Proof.
  unfold selectAgents. intros Hrun agent Hin.
  destruct (_ =? _)%nat; [run_inv Hrun; inversion Hin|].
  run_inv Hrun.
  match goal with
  | H : pick_agents _ _ _ = Some _ |- _ => pose proof (pick_agents_from _ _ _ _ _ H agent Hin) as Hav
  end.
  apply list_elem_of_filter in Hav. apply Hav.
Qed.

Lemma plan_rotation_of_fleet s connectedAgents newConcurrency w allocations w' :
  plan_rotation s connectedAgents newConcurrency w = Some (allocations, w') ->
  of_fleet (Scheduler.config s) allocations.
Proof.
  unfold plan_rotation. intros Hrun. run_inv Hrun.
  destruct (allocateBandwidth_spec s a w0) as (allocations' & w1 & Halloc & _ & Hentries).
  rewrite Halloc in Hrun. injection Hrun as <- <-.
  intros id alloc Hlook. destruct (Hentries id alloc Hlook) as (Hid & agent & Hin & Hagent & _).
  split; [exact Hid|]. apply list_elem_of_fmap. exists agent. split; [now symmetry|].
  eapply selectAgents_from; eassumption.
Qed.

Ltac pair_inv :=
  match goal with
  | H : (_, _) = (_, _) |- _ => injection H as <- <-
  end.

Lemma rotation_step_fleet s connectedAgents newConcurrency pc w s' pc' w' :
  rotation_step s connectedAgents newConcurrency pc w = Some ((s', pc'), w') ->
  of_fleet (Scheduler.config s) (SchedulerState.ActiveAgents (Scheduler.state s)) ->
  of_fleet (Scheduler.config s) (planned pc) ->
  Scheduler.config s' = Scheduler.config s /\
  of_fleet (Scheduler.config s) (SchedulerState.ActiveAgents (Scheduler.state s')) /\
  (forall pc1, pc' = Some pc1 -> of_fleet (Scheduler.config s) (planned pc1)).
Proof.
  intros Hrun Hactive Hpc. destruct pc; simpl in Hrun.
  - run_inv Hrun. pair_inv. split; [reflexivity|]. split; [assumption|].
    intros pc1 [= <-]. apply of_fleet_empty.
  - run_inv Hrun. pair_inv. split; [reflexivity|]. split; [assumption|].
    intros pc1 [= <-]. eapply plan_rotation_of_fleet; eassumption.
  - run_inv Hrun. pair_inv. split; [reflexivity|]. split; [assumption|].
    intros pc1 [= <-]. exact Hpc.
  - destruct (0 <? length toStop)%nat.
    + run_inv Hrun. pair_inv. split; [reflexivity|]. split; [assumption|].
      intros pc1 [= <-]. exact Hpc.
    + run_inv Hrun. pair_inv. split; [reflexivity|]. split; [assumption|].
      intros pc1 [= <-]. exact Hpc.
  - destruct (wake <=? clock_peek w); [|discriminate].
    injection Hrun as <- <- <-. split; [reflexivity|]. split; [assumption|].
    intros pc1 [= <-]. exact Hpc.
  - run_inv Hrun. pair_inv. split; [reflexivity|]. split; [assumption|].
    intros pc1 [= <-]. exact Hpc.
  - run_inv Hrun. pair_inv. split; [reflexivity|]. split; [assumption|].
    intros pc1 [= <-]. exact Hpc.
  - unfold commit_rotation in Hrun. run_inv Hrun. pair_inv. run_inv Hrun0.
    unfold time.Now in Hrun. injection Hrun as <- <-.
    split; [reflexivity|]. split; [exact Hpc|].
    intros pc1 [= <-]. apply of_fleet_empty.
  - destruct (scheduleNextRotation_returns s w) as (next & w1 & Hnext).
    run_inv Hrun. rewrite Hnext in Hrun0. injection Hrun0 as <- <-.
    pair_inv. split; [reflexivity|]. split; [assumption|]. discriminate.
Qed.

Lemma step_fleet cfg e sys sys' :
  step e sys = Some sys' -> fleet_invariant cfg sys -> fleet_invariant cfg sys'.
Proof.
  intros Hstep (Hcfg & Hactive & Htasks). subst cfg.
  destruct e as [agg|task connected n|agentID]; simpl in Hstep.
  - destruct (evaluateAndAdjust (sched sys) agg (world sys)) as [[[s outcome] w]|] eqn:Hrun;
      [|discriminate].
    unfold evaluateAndAdjust in Hrun. run_inv Hrun.
    destruct (time.After _ _).
    + run_inv Hrun. pair_inv. injection Hstep as <-.
      split; [reflexivity|]. split; [exact Hactive|].
      apply Forall_app. split; [exact Htasks|]. constructor; [apply of_fleet_empty|constructor].
    + run_inv Hrun. pair_inv. injection Hstep as <-.
      split; [reflexivity|]. split; [exact Hactive|exact Htasks].
  - destruct (rotations sys !! task) as [pc|] eqn:Hpc; [|discriminate].
    destruct (rotation_step (sched sys) connected n pc (world sys))
      as [[[s pc'] w]|] eqn:Hrun; [|discriminate].
    assert (Hplanned : of_fleet (Scheduler.config (sched sys)) (planned pc)).
    { eapply (Forall_lookup_1 _ _ _ _ Htasks Hpc). }
    destruct (rotation_step_fleet _ _ _ _ _ _ _ _ Hrun Hactive Hplanned)
      as (Hcfg' & Hactive' & Hpc').
    destruct pc' as [pc1|]; injection Hstep as <-.
    + split; [exact Hcfg'|]. split; [exact Hactive'|].
      apply Forall_insert; [exact Htasks|]. now apply Hpc'.
    + split; [exact Hcfg'|]. split; [exact Hactive'|].
      now apply Forall_delete.
  - injection Hstep as <-. split; [reflexivity|]. split; [|exact Htasks].
    intros id alloc Hlook. simpl in Hlook.
    apply lookup_delete_Some in Hlook. apply Hactive, Hlook.
Qed.

Lemma run_fleet cfg events : forall sys sys',
  run events sys = Some sys' -> fleet_invariant cfg sys -> fleet_invariant cfg sys'.
Proof.
  induction events as [|e rest IH]; intros sys sys' Hrun Hinv; simpl in Hrun.
  - now injection Hrun as <-.
  - destruct (step e sys) as [sys1|] eqn:Hstep; [|discriminate].
    eapply IH; [exact Hrun|]. eapply step_fleet; eassumption.
Qed.

(** X9: whatever the ticks, the steps of the rotation tasks and the
    disconnections that follow, and however they interleave: from a state
    with no rotation in flight whose active allocations are filed under
    their own agent's id and are of configured agents, every state reached
    has the same configuration and active allocations of that kind. *)
Theorem run_keeps_active_agents_configured events sys sys' :
  rotations sys = [] ->
  of_fleet (Scheduler.config (sched sys))
    (SchedulerState.ActiveAgents (Scheduler.state (sched sys))) ->
  run events sys = Some sys' ->
  Scheduler.config (sched sys') = Scheduler.config (sched sys) /\
  of_fleet (Scheduler.config (sched sys))
    (SchedulerState.ActiveAgents (Scheduler.state (sched sys'))).
Proof.
  intros Hnone Hactive Hrun.
  assert (Hinv : fleet_invariant (Scheduler.config (sched sys)) sys).
  { split; [reflexivity|]. split; [exact Hactive|]. rewrite Hnone. constructor. }
  destruct (run_fleet _ _ _ _ Hrun Hinv) as (Hcfg & Hactive' & _). now split.
Qed.

End Fleet.

Lemma stable_scheduler_of_fleet :
  fleet.of_fleet fleet_config
    (controller.SchedulerState.ActiveAgents (controller.Scheduler.state stable_scheduler)).
Proof.
  intros id alloc H. simpl in H. apply lookup_singleton_Some in H. destruct H as [<- <-].
  split; [reflexivity|]. simpl. apply list_elem_of_here.
Qed.

Lemma run_keeps_active_agents_configured_witness :
  exists sys',
    controller.run disconnect_events due_system = Some sys' /\
    controller.Scheduler.config (controller.sched sys') = fleet_config /\
    fleet.of_fleet fleet_config
      (controller.SchedulerState.ActiveAgents
         (controller.Scheduler.state (controller.sched sys'))).
Proof.
  destruct (controller.run disconnect_events due_system) as [sys'|] eqn:Hrun;
    [|vm_compute in Hrun; discriminate].
  exists sys'. split; [reflexivity|].
  exact (run_keeps_active_agents_configured disconnect_events due_system sys'
           eq_refl stable_scheduler_of_fleet Hrun).
Defined.

(** ** A rotation among the other tasks *)

Section Among.

Import controller rotation.

(** [rotation_step] is [rotation_step_sends] without the sends. *)
Lemma rotation_step_sends_step s connectedAgents newConcurrency pc w :
  rotation_step s connectedAgents newConcurrency pc w
  = match rotation_step_sends s connectedAgents newConcurrency pc w with
    | Some ((s', pc', _), w') => Some ((s', pc'), w')
    | None => None
    end.
Proof.
  destruct pc as [| |allocations|allocations toStop|allocations wake|allocations
                 |allocations|allocations|]; simpl; unfold bind, ret.
  - reflexivity.
  - destruct (plan_rotation s connectedAgents newConcurrency w) as [[? ?]|]; reflexivity.
  - reflexivity.
  - destruct (0 <? length toStop)%nat; [|reflexivity].
    destruct (rampDownAgents s toStop w) as [[? ?]|]; reflexivity.
  - destruct (wake <=? clock_peek w); reflexivity.
  - reflexivity.
  - destruct (0 <? length (findAgentsToStart s allocations))%nat.
    + destruct (rampUpAgents s (findAgentsToStart s allocations) w) as [[? ?]|]; reflexivity.
    + reflexivity.
  - reflexivity.
  - first [reflexivity | destruct (scheduleNextRotation s w) as [[? ?]|]; reflexivity].
Qed.

(** A move of the rotation followed or of the rest is a step of the system
    that has the rotation as its first task. *)
Lemma move_is_step m f :
  is_Some (task f) ->
  whole <$> move m f = step (event_of m) (whole f).
Proof.
  intros [pc Hpc]. destruct f as [sys opc log]. simpl in Hpc. subst opc.
  destruct m as [[agg|k connectedAgents newConcurrency|agentID]|connectedAgents newConcurrency];
    unfold whole; simpl.
  - destruct (evaluateAndAdjust (sched sys) agg (world sys)) as [[[s [|boosts]] w]|];
      reflexivity.
  - destruct (rotations sys !! k) as [pc0|]; [|reflexivity].
    destruct (rotation_step (sched sys) connectedAgents newConcurrency pc0 (world sys))
      as [[[s [pc1|]] w]|]; reflexivity.
  - reflexivity.
  - rewrite rotation_step_sends_step.
    destruct (rotation_step_sends (sched sys) connectedAgents newConcurrency pc (world sys))
      as [[[[s [pc1|]] sends] w]|]; reflexivity.
Qed.

(** No step changes the configuration or turns the clock back. *)
Lemma rotation_step_advances s connectedAgents newConcurrency pc w s' pc' w' :
  rotation_step s connectedAgents newConcurrency pc w = Some ((s', pc'), w') ->
  Scheduler.config s' = Scheduler.config s /\ clock_later w w'.
Proof.
  intros Hrun.
  destruct pc as [| |allocations|allocations toStop|allocations wake|allocations
                 |allocations|allocations|]; simpl in Hrun.
  - run_inv Hrun. injection H as <- <-. split; [reflexivity | apply clock_later_refl].
  - run_inv Hrun. injection H as <- <-. split; [reflexivity|].
    eapply plan_rotation_fresh; eassumption.
  - run_inv Hrun. injection H as <- <-. split; [reflexivity | apply clock_later_refl].
  - destruct (0 <? length toStop)%nat.
    + run_inv Hrun. injection H as <- <-. split; [reflexivity|].
      eapply clock_later_trans; [eapply advances_rampDownAgents; eassumption|].
      eapply advances_Now; eassumption.
    + run_inv Hrun. injection H as <- <-. split; [reflexivity | apply clock_later_refl].
  - destruct (wake <=? clock_peek w); [|discriminate].
    injection Hrun as <- <- <-. split; [reflexivity | apply clock_later_refl].
  - run_inv Hrun. injection H as <- <-. split; [reflexivity | apply clock_later_refl].
  - run_inv Hrun. injection H as <- <-. split; [reflexivity|].
    destruct (0 <? length (findAgentsToStart s allocations))%nat.
    + eapply advances_rampUpAgents; eassumption.
    + eapply advances_ret; eassumption.
  - run_inv Hrun. injection H as <- <-.
    pose proof (advances_commit_rotation _ _ _ _ _ Hrun0) as Hlater.
    unfold commit_rotation in Hrun0. run_inv Hrun0.
    split; [reflexivity | exact Hlater].
  - run_inv Hrun. injection H as <- <-.
    pose proof (advances_scheduleNextRotation _ _ _ _ Hrun0) as Hlater.
    apply scheduleNextRotation_keeps in Hrun0. split; [apply Hrun0 | exact Hlater].
Qed.

Lemma step_advances e sys sys' :
  step e sys = Some sys' ->
  Scheduler.config (sched sys') = Scheduler.config (sched sys) /\
  clock_later (world sys) (world sys').
Proof.
  intros Hstep. destruct e as [agg|k connectedAgents newConcurrency|agentID]; simpl in Hstep.
  - destruct (evaluateAndAdjust (sched sys) agg (world sys)) as [[[s outcome] w]|] eqn:Hrun;
      [|discriminate].
    assert (Hs : Scheduler.config s = Scheduler.config (sched sys) /\
                 clock_later (world sys) w).
    { unfold evaluateAndAdjust in Hrun. run_inv Hrun.
      apply advances_Now in Hrun0.
      destruct (time.After _ _); run_inv Hrun; injection H as <- <-;
        (split; [reflexivity | exact Hrun0]). }
    destruct outcome; injection Hstep as <-; exact Hs.
  - destruct (rotations sys !! k) as [pc|]; [|discriminate].
    destruct (rotation_step (sched sys) connectedAgents newConcurrency pc (world sys))
      as [[[s pc'] w]|] eqn:Hrun; [|discriminate].
    apply rotation_step_advances in Hrun.
    destruct pc'; injection Hstep as <-; exact Hrun.
  - injection Hstep as <-. split; [reflexivity | apply clock_later_refl].
Qed.

Lemma omap_keys_NoDup_in {A B} (f : string * A -> option B) (g : B -> string)
    (l : list (string * A)) :
  NoDup l.*1 ->
  (forall kv b, kv ∈ l -> f kv = Some b -> g b = kv.1) ->
  NoDup (g <$> omap f l).
Proof.
  intros Hnd Hkey. induction l as [|kv l IH]; simpl; [constructor|].
  inversion Hnd as [|? ? Hnotin Hnd']; subst.
  assert (Hrest : NoDup (g <$> omap f l)).
  { apply IH; [exact Hnd'|]. intros kv' b Hin. apply Hkey. now apply list_elem_of_further. }
  destruct (f kv) as [b|] eqn:Hf; simpl; [|exact Hrest].
  constructor; [|exact Hrest].
  intros Hin. apply list_elem_of_fmap in Hin. destruct Hin as (b' & Hg & Hin).
  apply list_elem_of_omap in Hin. destruct Hin as (kv' & Hin & Hf').
  apply Hkey in Hf; [|apply list_elem_of_here].
  apply Hkey in Hf'; [|now apply list_elem_of_further].
  apply Hnotin. apply list_elem_of_fmap. exists kv'. split; [congruence | exact Hin].
Qed.

(** The allocations to start, when those of the new set are filed under
    their agents' ids: one for each agent of the new set that is not
    active. *)
Lemma findAgentsToStart_ids s (allocations : gmap string AgentAllocation.t) :
  (forall id a, allocations !! id = Some a -> AgentAllocation.AgentID a = id) ->
  NoDup (AgentAllocation.AgentID <$> findAgentsToStart s allocations) /\
  (forall alloc, alloc ∈ findAgentsToStart s allocations ->
     allocations !! AgentAllocation.AgentID alloc = Some alloc /\
     SchedulerState.ActiveAgents (Scheduler.state s) !! AgentAllocation.AgentID alloc = None) /\
  (forall id a, allocations !! id = Some a ->
     SchedulerState.ActiveAgents (Scheduler.state s) !! id = None ->
     a ∈ findAgentsToStart s allocations).
Proof.
  intros Hfiled. split; [|split].
  - unfold findAgentsToStart. apply omap_keys_NoDup_in; [apply NoDup_fst_map_to_list|].
    intros [id a] b Hin. simpl. apply elem_of_map_to_list in Hin.
    destruct (SchedulerState.ActiveAgents (Scheduler.state s) !! id); [discriminate|].
    intros [= <-]. eapply Hfiled, Hin.
  - intros alloc Hin. apply findAgentsToStart_spec in Hin.
    destruct Hin as (id & Hnew & Hold).
    rewrite (Hfiled _ _ Hnew). split; assumption.
  - intros id a Hnew Hold. apply findAgentsToStart_spec. eauto.
Qed.

(** The sends of the ramp-up are for the allocations found, in their order. *)
Lemma ramp_up_sends s toStart w :
  exists scheduled w',
    (if (0 <? length toStart)%nat then rampUpAgents s toStart else ret []) w
    = Some (scheduled, w') /\
    scheduled.*1 = toStart.
Proof.
  destruct (0 <? length toStart)%nat eqn:Hany; [apply rampUpAgents_returns|].
  exists [], w. split; [reflexivity|].
  apply Nat.ltb_ge in Hany. destruct toStart; [reflexivity | simpl in Hany; lia].
Qed.

(** The step that computes the agents to start. *)
Lemma move_find_start f allocations connectedAgents newConcurrency :
  task f = Some (AtFindStart allocations) ->
  exists f' scheduled,
    move (Own connectedAgents newConcurrency) f = Some f' /\
    task f' = Some (AtCommit allocations) /\
    sched (others f') = sched (others f) /\
    rotations (others f') = rotations (others f) /\
    clock_later (world (others f)) (world (others f')) /\
    sent f' = mkLog (stops (sent f)) (starts (sent f) ++ scheduled) /\
    scheduled.*1 = findAgentsToStart (sched (others f)) allocations.
Proof.
  intros Htask. unfold move. rewrite Htask. simpl.
  destruct (ramp_up_sends (sched (others f))
              (findAgentsToStart (sched (others f)) allocations) (world (others f)))
    as (scheduled & w' & Hrun & Hitems).
  assert (Hlater : clock_later (world (others f)) w').
  { destruct (0 <? length (findAgentsToStart (sched (others f)) allocations))%nat.
    - eapply advances_rampUpAgents, Hrun.
    - eapply advances_ret, Hrun. }
  unfold bind. rewrite Hrun. unfold ret. simpl.
  eexists _, scheduled. split; [reflexivity|]. simpl.
  rewrite app_nil_r. auto 10.
Qed.

(** The step that commits. *)
Lemma move_commit f allocations connectedAgents newConcurrency :
  task f = Some (AtCommit allocations) ->
  exists f',
    move (Own connectedAgents newConcurrency) f = Some f' /\
    task f' = Some AtSchedule /\
    sent f' = sent f /\
    rotations (others f') = rotations (others f) /\
    sched (others f')
    = Scheduler.set_state
        (SchedulerState.mk "stable" allocations
           (SchedulerState.NextRotation (Scheduler.state (sched (others f))))
           (SchedulerState.TargetTotalBW (Scheduler.state (sched (others f))))
           (SchedulerState.CurrentTotalBW (Scheduler.state (sched (others f))))
           (clock_peek (world (others f)))
           (wrap64 (SchedulerState.RotationCount (Scheduler.state (sched (others f))) + 1)))
        (sched (others f)).
Proof.
  intros Htask. unfold move. rewrite Htask. simpl.
  unfold bind, commit_rotation, bind, time.Now, ret. simpl.
  eexists. split; [reflexivity|]. simpl. rewrite !app_nil_r.
  destruct (sent f). auto.
Qed.

Ltac own_inv H :=
  run_inv H;
  repeat (progress (repeat match goal with
                           | E : bind _ _ _ = Some _ |- _ => run_inv E
                           | E : ret _ _ = Some _ |- _ =>
                               apply ret_Some in E; destruct E as [? ?]
                           | E : (_, _) = (_, _) |- _ => injection E as ? ?
                           end;
                    subst)).

(** Each move keeps what holds of the rotation followed. *)
Lemma move_following sys0 m f f' :
  following sys0 f -> move m f = Some f' -> following sys0 f'.
Proof.
  intros (Hcfg & Hlater & Hfresh & Hstops & Hstarts & Hnew & Hapart & Hstage) Hmove.
  destruct m as [e|connectedAgents newConcurrency]; simpl in Hmove.
  - (* the rest of the system *)
    destruct (step e (others f)) as [sys|] eqn:Hstep; [|discriminate].
    injection Hmove as <-. apply step_advances in Hstep. destruct Hstep as [Hcfg' Hlater'].
    unfold following, new_set, stopped, started in *. simpl.
    split; [congruence|]. split; [eapply clock_later_trans; eassumption|].
    split.
    { intros id a Ha. eapply fresh_allocation_weaken;
        [apply Hfresh, Ha | auto | apply clock_later_refl | exact Hlater']. }
    auto.
  - (* the rotation itself *)
    destruct (task f) as [pc|] eqn:Htask; [|discriminate].
    destruct (rotation_step_sends (sched (others f)) connectedAgents newConcurrency pc
                (world (others f))) as [[[[s pc'] sends] w]|] eqn:Hrun; [|discriminate].
    injection Hmove as <-.
    pose proof (rotation_step_sends_step (sched (others f)) connectedAgents newConcurrency
                  pc (world (others f))) as Hstep.
    rewrite Hrun in Hstep. apply rotation_step_advances in Hstep.
    destruct Hstep as [Hcfg' Hlater'].
    assert (Hweaken : forall id a,
               new_set f !! id = Some a ->
               fresh_allocation
                 (Config.Agents (Scheduler.config (sched sys0)))
                 (world sys0) w id a).
    { intros id a Ha. eapply fresh_allocation_weaken;
        [apply Hfresh, Ha | auto | apply clock_later_refl | exact Hlater']. }
    unfold following, new_set, stopped, started in *. rewrite Htask in *. simpl.
    split; [congruence|]. split; [eapply clock_later_trans; eassumption|].
    destruct pc as [| |allocations|allocations toStop|allocations wake|allocations
                   |allocations|allocations|]; simpl in Hrun.
    + (* AtStart *)
      own_inv Hrun. simpl in *. rewrite Hstage. simpl.
      split; [intros id x Hx; rewrite lookup_empty in Hx; discriminate|].
      split; [constructor|]. split; [constructor|].
      split; [intros id Hid; inversion Hid|]. split; [intros id Hid; inversion Hid|].
      reflexivity.
    + (* AtPlan *)
      own_inv Hrun. simpl in *. rewrite Hstage. simpl.
      match goal with
      | E : plan_rotation _ _ _ _ = Some _ |- _ =>
          apply plan_rotation_fresh in E; destruct E as [_ Hplanned]
      end.
      split.
      { intros id x Hx. eapply fresh_allocation_weaken;
          [apply Hplanned, Hx | rewrite Hcfg; auto | exact Hlater | apply clock_later_refl]. }
      split; [constructor|]. split; [constructor|].
      split; [intros id Hid; inversion Hid|]. split; [intros id Hid; inversion Hid|].
      reflexivity.
    + (* AtFindStop *)
      own_inv Hrun. simpl in *. rewrite Hstage. simpl.
      split; [exact Hweaken|].
      split; [constructor|]. split; [constructor|].
      split; [intros id Hid; inversion Hid|]. split; [intros id Hid; inversion Hid|].
      split; [reflexivity|]. split; [apply rotation_sets|].
      intros id Hid. apply findAgentsToStop_spec in Hid. apply Hid.
    + (* AtRampDown *)
      destruct Hstage as (Hsent & Hnodup & Hout). rewrite Hsent. simpl.
      assert (Hitems : (stops sends).*1 = toStop /\ starts sends = [] /\
                       new_set (mkFollowed (mkSystem s (rotations (others f)) w) pc' sends)
                       = allocations /\
                       match pc' with
                       | Some (Sleeping _ _) | Some (AtRampUp _) => True
                       | _ => False
                       end).
      { unfold new_set. simpl. destruct (0 <? length toStop)%nat eqn:Hany.
        - own_inv Hrun.
          match goal with
          | E : rampDownAgents _ _ _ = Some _ |- _ => apply rampDownAgents_items in E
          end.
          simpl. auto.
        - own_inv Hrun. simpl. apply Nat.ltb_ge in Hany.
          destruct toStop; [auto | simpl in Hany; lia]. }
      destruct Hitems as (Hitems & Hnone & Hset & Hpc').
      unfold new_set in Hset. simpl in Hset.
      rewrite Hitems, Hnone. simpl.
      assert (Hplanned : match pc' with Some pc0 => fleet.planned pc0 | None => ∅ end
                         = allocations) by exact Hset.
      rewrite Hplanned.
      split; [exact Hweaken|].
      split; [exact Hnodup|]. split; [constructor|].
      split; [exact Hout|]. split; [intros id _ Hid; inversion Hid|].
      destruct pc' as [[]|]; try contradiction; reflexivity.
    + (* Sleeping *)
      unfold bind in Hrun.
      destruct (wake <=? clock_peek (world (others f))); [|discriminate].
      simpl in Hrun. unfold ret in Hrun. injection Hrun as <- <- <- <-.
      simpl in *. rewrite !app_nil_r.
      split; [exact Hweaken|]. auto.
    + (* AtRampUp *)
      own_inv Hrun. simpl in *. rewrite !app_nil_r.
      split; [exact Hweaken|]. auto.
    + (* AtFindStart *)
      own_inv Hrun. simpl in *. rewrite Hstage, app_nil_r. simpl.
      match goal with
      | E : _ _ = Some (?a, _) |- _ =>
          assert (Hitems : a.*1 = findAgentsToStart (sched (others f)) allocations);
          [ destruct (0 <? length (findAgentsToStart (sched (others f)) allocations))%nat
              eqn:Hany;
            [ eapply rampUpAgents_items, E
            | apply ret_Some in E; destruct E as [<- _];
              apply Nat.ltb_ge in Hany;
              destruct (findAgentsToStart (sched (others f)) allocations);
              [reflexivity | simpl in Hany; lia] ]
          | ]
      end.
      rewrite Hitems.
      destruct (findAgentsToStart_ids (sched (others f)) allocations) as (Hnd & Hin & _).
      { intros id x Hx. apply Hfresh in Hx. apply Hx. }
      split; [exact Hweaken|].
      split; [exact Hstops|]. split; [exact Hnd|].
      split; [exact Hnew|]. split.
      { intros id Hid Hstarted. apply Hnew in Hid.
        apply list_elem_of_fmap in Hstarted. destruct Hstarted as (alloc & -> & Halloc).
        apply Hin in Halloc. destruct Halloc as [Halloc _]. congruence. }
      intros alloc Halloc. apply Hin, Halloc.
    + (* AtCommit *)
      own_inv Hrun. simpl in *. rewrite !app_nil_r.
      split; [intros id x Hx; rewrite lookup_empty in Hx; discriminate|].
      split; [exact Hstops|]. split; [exact Hstarts|].
      split; [intros id _; apply lookup_empty|]. split; [exact Hapart | exact I].
    + (* AtSchedule *)
      own_inv Hrun. simpl in *. rewrite !app_nil_r.
      split; [intros id x Hx; rewrite lookup_empty in Hx; discriminate|].
      split; [exact Hstops|]. split; [exact Hstarts|].
      split; [intros id _; apply lookup_empty|]. split; [exact Hapart | exact I].
Qed.

Lemma follow_following sys0 moves : forall f f',
  following sys0 f -> follow moves f = Some f' -> following sys0 f'.
Proof.
  induction moves as [|m rest IH]; intros f f' Hinv Hrun; simpl in Hrun.
  - now injection Hrun as <-.
  - destruct (move m f) as [f1|] eqn:Hmove; [|discriminate].
    eapply IH; [|exact Hrun]. eapply move_following; eassumption.
Qed.

Lemma start_following_following sys0 : following sys0 (start_following sys0).
Proof.
  unfold following, new_set, stopped, started. simpl.
  split; [reflexivity|]. split; [apply clock_later_refl|].
  split; [intros id a Ha; rewrite lookup_empty in Ha; discriminate|].
  split; [constructor|]. split; [constructor|].
  split; [intros id Hid; inversion Hid|]. split; [intros id Hid; inversion Hid|].
  reflexivity.
Qed.

(** C1, amended: follow a rotation from its start through any moves of its
    own and of the rest of the system (ticks, disconnections, the steps of
    other rotations).  While it holds its new allocation set, the
    allocation of a worker of that set, whether or not the worker was
    active before, is the one planned in this rotation: filed under the
    worker's id, started at a clock reading taken since the rotation began,
    within the capacity of the configured agent of that id, and without
    command id, locator or planned duration as long as the rotation has
    scheduled no start for the worker.  The rotation schedules no stop for
    the worker.  It has scheduled no start when it comes to compute the
    agents to start; that step schedules a start for the worker exactly
    when the worker is not in the active set then.  The commit records the
    planned allocation for the worker. *)
Theorem rotation_continuing_worker
    (moves : list Move) (sys0 : System) (f : Followed)
    (agentID : string) (recorded : AgentAllocation.t) :
  follow moves (start_following sys0) = Some f ->
  new_set f !! agentID = Some recorded ->
  AgentAllocation.AgentID recorded = agentID /\
  (exists k, (next_clock (world sys0) <= k < next_clock (world (others f)))%nat /\
             AgentAllocation.StartTime recorded = clock (world sys0) k) /\
  (exists agent,
     agent ∈ Config.Agents (Scheduler.config (sched sys0)) /\
     AgentConfig.ID agent = agentID /\
     AgentAllocation.AllocatedBW recorded <= AgentConfig.MaxBandwidth agent) /\
  ((agentID ∉ started f) ->
   AgentAllocation.CurrentCommand recorded = "" /\
   AgentAllocation.URL recorded = "" /\
   AgentAllocation.PlannedDuration recorded = 0) /\
  (agentID ∉ stopped f) /\
  (forall allocations, task f = Some (AtFindStart allocations) ->
     started f = [] /\
     forall connectedAgents newConcurrency, exists f',
       move (Own connectedAgents newConcurrency) f = Some f' /\
       task f' = Some (AtCommit allocations) /\
       sched (others f') = sched (others f) /\
       stopped f' = stopped f /\
       (agentID ∈ started f' <->
        SchedulerState.ActiveAgents (Scheduler.state (sched (others f))) !! agentID
        = None)) /\
  (forall allocations, task f = Some (AtCommit allocations) ->
     forall connectedAgents newConcurrency, exists f',
       move (Own connectedAgents newConcurrency) f = Some f' /\
       task f' = Some AtSchedule /\
       stopped f' = stopped f /\
       started f' = started f /\
       SchedulerState.ActiveAgents (Scheduler.state (sched (others f'))) !! agentID
       = Some recorded).
Proof.
  intros Hrun Hrecorded.
  pose proof (follow_following sys0 moves _ _ (start_following_following sys0) Hrun)
    as (_ & _ & Hfresh & _ & _ & Hnew & _ & Hstage).
  destruct (Hfresh _ _ Hrecorded) as (Hid & Hdur & Hcmd & Hurl & Hstart & Hcap).
  split; [exact Hid|]. split; [exact Hstart|]. split; [exact Hcap|].
  split; [auto|]. split.
  { intros Hin. apply Hnew in Hin. congruence. }
  split.
  - intros allocations Htask. rewrite Htask in Hstage.
    unfold new_set in Hrecorded, Hfresh. rewrite Htask in Hrecorded, Hfresh.
    simpl in Hrecorded, Hfresh.
    split; [unfold started; rewrite Hstage; reflexivity|].
    intros connectedAgents newConcurrency.
    destruct (move_find_start f allocations connectedAgents newConcurrency Htask)
      as (f' & scheduled & Hmove & Htask' & Hsched & _ & _ & Hsent & Hitems).
    exists f'. split; [exact Hmove|]. split; [exact Htask'|]. split; [exact Hsched|].
    unfold stopped, started. rewrite Hsent, Hstage. simpl. rewrite Hitems.
    split; [reflexivity|].
    destruct (findAgentsToStart_ids (sched (others f)) allocations) as (_ & Hin & Hout).
    { intros id x Hx. apply Hfresh in Hx. apply Hx. }
    split.
    + intros Hstarted. apply list_elem_of_fmap in Hstarted.
      destruct Hstarted as (alloc & -> & Halloc). apply Hin, Halloc.
    + intros Hold. apply list_elem_of_fmap. exists recorded.
      split; [now symmetry | eapply Hout; eassumption].
  - intros allocations Htask.
    unfold new_set in Hrecorded. rewrite Htask in Hrecorded. simpl in Hrecorded.
    intros connectedAgents newConcurrency.
    destruct (move_commit f allocations connectedAgents newConcurrency Htask)
      as (f' & Hmove & Htask' & Hsent & _ & Hsched).
    exists f'. split; [exact Hmove|]. split; [exact Htask'|].
    unfold stopped, started. rewrite Hsent, Hsched. simpl.
    split; [reflexivity|]. split; [reflexivity | exact Hrecorded].
Qed.

(** X8: follow a rotation from its start through any moves of its own and
    of the rest of the system.  At every point it has scheduled at most one
    stop for an agent and at most one start, and never both for the same
    agent; no stop is for an agent of the new allocation set it holds;
    nothing is scheduled before the ramp-down and no start before the
    agents to start are computed, and each start is then for an allocation
    of the new set.  The configuration is the one the rotation began with.
    The commit makes the new set the active set, whatever the active set
    was by then, sets the phase to "stable" and the last rotation to the
    time it reads, and counts one rotation more; it leaves the deadline,
    the configuration and the agents' statuses as they are. *)
Theorem rotation_sends_and_commit (moves : list Move) (sys0 : System) (f : Followed) :
  follow moves (start_following sys0) = Some f ->
  Scheduler.config (sched (others f)) = Scheduler.config (sched sys0) /\
  NoDup (stopped f) /\
  NoDup (started f) /\
  (forall id, id ∈ stopped f -> id ∉ started f) /\
  (forall id, id ∈ stopped f -> new_set f !! id = None) /\
  (task f = Some AtStart \/ task f = Some AtPlan \/
   (exists allocations, task f = Some (AtFindStop allocations)) \/
   (exists allocations toStop, task f = Some (AtRampDown allocations toStop)) ->
   stopped f = [] /\ started f = []) /\
  ((exists allocations wake, task f = Some (Sleeping allocations wake)) \/
   (exists allocations, task f = Some (AtRampUp allocations)) \/
   (exists allocations, task f = Some (AtFindStart allocations)) ->
   started f = []) /\
  (forall allocations, task f = Some (AtCommit allocations) ->
     (forall alloc, alloc ∈ (starts (sent f)).*1 ->
        allocations !! AgentAllocation.AgentID alloc = Some alloc) /\
     forall connectedAgents newConcurrency, exists f',
       move (Own connectedAgents newConcurrency) f = Some f' /\
       task f' = Some AtSchedule /\
       sent f' = sent f /\
       let s := sched (others f) in
       let s' := sched (others f') in
       SchedulerState.ActiveAgents (Scheduler.state s') = allocations /\
       SchedulerState.Phase (Scheduler.state s') = "stable" /\
       SchedulerState.LastRotation (Scheduler.state s') = clock_peek (world (others f)) /\
       SchedulerState.RotationCount (Scheduler.state s')
       = wrap64 (SchedulerState.RotationCount (Scheduler.state s) + 1) /\
       SchedulerState.NextRotation (Scheduler.state s')
       = SchedulerState.NextRotation (Scheduler.state s) /\
       Scheduler.config s' = Scheduler.config s /\
       Scheduler.agentStatus s' = Scheduler.agentStatus s).
Proof.
  intros Hrun.
  pose proof (follow_following sys0 moves _ _ (start_following_following sys0) Hrun)
    as (Hcfg & _ & _ & Hstops & Hstarts & Hnew & Hapart & Hstage).
  split; [exact Hcfg|]. split; [exact Hstops|]. split; [exact Hstarts|].
  split; [exact Hapart|]. split; [exact Hnew|]. split; [|split].
  - unfold stopped, started.
    intros [Htask|[Htask|[[allocations Htask]|(allocations & toStop & Htask)]]];
      rewrite Htask in Hstage.
    + rewrite Hstage. split; reflexivity.
    + rewrite Hstage. split; reflexivity.
    + rewrite Hstage. split; reflexivity.
    + destruct Hstage as [Hsent _]. rewrite Hsent. split; reflexivity.
  - unfold started.
    intros [(allocations & wake & Htask)|[[allocations Htask]|[allocations Htask]]];
      rewrite Htask in Hstage; rewrite Hstage; reflexivity.
  - intros allocations Htask. rewrite Htask in Hstage. split; [exact Hstage|].
    intros connectedAgents newConcurrency.
    destruct (move_commit f allocations connectedAgents newConcurrency Htask)
      as (f' & Hmove & Htask' & Hsent & _ & Hsched).
    exists f'. split; [exact Hmove|]. split; [exact Htask'|]. split; [exact Hsent|].
    rewrite Hsched. simpl. auto 10.
Qed.

End Among.

(** The rotation of the example comes to compute the agents to start with
    a1 in its new set, a2 stopped and a1 no longer active. *)
Lemma disconnect_moves_run :
  exists f allocations,
    rotation.follow disconnect_moves (rotation.start_following busy_system) = Some f /\
    rotation.task f = Some (controller.AtFindStart allocations) /\
    allocations !! "a1"
    = Some (controller.AgentAllocation.mk "a1" 1000 (seconds 1190) 0 "" "") /\
    stopped f = ["a2"] /\
    controller.SchedulerState.ActiveAgents
      (controller.Scheduler.state (controller.sched (rotation.others f))) !! "a1" = None.
Proof.
  eexists _, _. split; [vm_compute; reflexivity|].
  split; [vm_compute; reflexivity|]. split; [vm_compute; reflexivity|].
  split; vm_compute; reflexivity.
Qed.

Lemma rotation_continuing_worker_witness :
  exists f f',
    rotation.follow disconnect_moves (rotation.start_following busy_system) = Some f /\
    controller.SchedulerState.ActiveAgents (controller.Scheduler.state busy_scheduler)
    !! "a1" = Some prior_allocation /\
    ("a1" ∉ stopped f) /\
    rotation.move (rotation.Own ["a1"; "a3"] 2) f = Some f' /\
    "a1" ∈ started f'.
Proof.
  destruct disconnect_moves_run as (f & allocations & Hrun & Htask & Hnew & _ & Hgone).
  assert (Hset : new_set f !! "a1"
                 = Some (controller.AgentAllocation.mk "a1" 1000 (seconds 1190) 0 "" "")).
  { unfold new_set. rewrite Htask. exact Hnew. }
  destruct (rotation_continuing_worker disconnect_moves busy_system f "a1" _ Hrun Hset)
    as (_ & _ & _ & _ & Hnostop & Hstart & _).
  destruct (Hstart allocations Htask) as [_ Hstep].
  destruct (Hstep ["a1"; "a3"] 2) as (f' & Hmove & _ & _ & _ & Hiff).
  exists f, f'. split; [exact Hrun|]. split; [reflexivity|]. split; [exact Hnostop|].
  split; [exact Hmove|]. apply Hiff, Hgone.
Defined.

Lemma rotation_sends_and_commit_witness :
  exists f,
    rotation.follow disconnect_moves (rotation.start_following busy_system) = Some f /\
    stopped f = ["a2"] /\
    started f = [] /\
    NoDup (stopped f).
Proof.
  destruct disconnect_moves_run as (f & allocations & Hrun & Htask & _ & Hstopped & _).
  destruct (rotation_sends_and_commit disconnect_moves busy_system f Hrun)
    as (_ & Hnodup & _ & _ & _ & _ & Hnone & _).
  exists f. split; [exact Hrun|]. split; [exact Hstopped|].
  split; [apply Hnone; right; right; eauto | exact Hnodup].
Defined.

(** ** The configuration file *)

Section Config.

Import config.

Lemma validate_agents_accepts agents : forall agentIDs,
  validate_agents agents agentIDs = None <->
  Forall (fun agent => controller.AgentConfig.ID agent <> "" /\
                       0 < controller.AgentConfig.MaxBandwidth agent) agents /\
  NoDup (controller.AgentConfig.ID <$> agents) /\
  (forall id, id ∈ controller.AgentConfig.ID <$> agents -> id ∉ agentIDs).
Proof.
  induction agents as [|agent rest IH]; intros seen; simpl.
  - split; [|reflexivity]. intros _. split; [constructor|]. split; [constructor|].
    intros id Hin. inversion Hin.
  - destruct (String.eqb_spec (controller.AgentConfig.ID agent) "") as [Hempty|Hid].
    { split; [discriminate|]. intros (Hall & _). inversion Hall; subst. tauto. }
    destruct (decide (controller.AgentConfig.ID agent ∈ seen)) as [Hseen|Hfresh].
    { split; [discriminate|]. intros (_ & _ & Hnew). exfalso.
      apply (Hnew (controller.AgentConfig.ID agent)); [left | exact Hseen]. }
    destruct (Z.leb_spec (controller.AgentConfig.MaxBandwidth agent) 0) as [Hbw|Hbw].
    { split; [discriminate|]. intros (Hall & _). inversion Hall; subst. lia. }
    rewrite IH. split.
    + intros (Hall & Hnd & Hnew). split; [constructor; auto|]. split.
      * constructor; [|exact Hnd]. intros Hin. apply (Hnew _ Hin).
        apply elem_of_union. left. apply elem_of_singleton. reflexivity.
      * intros id Hin. apply elem_of_cons in Hin. destruct Hin as [->|Hin]; [exact Hfresh|].
        intros Hs. apply (Hnew id Hin). apply elem_of_union. right. exact Hs.
    + intros (Hall & Hnd & Hnew). inversion Hall; subst. inversion Hnd; subst.
      split; [assumption|]. split; [assumption|].
      intros id Hin. apply not_elem_of_union. split.
      * intros Hsame. apply elem_of_singleton in Hsame. subst id. contradiction.
      * apply Hnew. right. exact Hin.
Qed.

Lemma Validate_accepts c :
  Validate c = None <->
  ServerConfig.AuthToken (Config.Server c) <> "" /\
  Config.Agents c <> [] /\
  Config.URLs c <> [] /\
  controller.SchedulerConfig.MinConcurrent (Config.Scheduler c)
  <= controller.SchedulerConfig.MaxConcurrent (Config.Scheduler c) /\
  controller.SchedulerConfig.MinConcurrent (Config.Scheduler c)
  <= Z.of_nat (length (Config.Agents c)) /\
  Forall (fun agent => controller.AgentConfig.ID agent <> "" /\
                       0 < controller.AgentConfig.MaxBandwidth agent) (Config.Agents c) /\
  NoDup (controller.AgentConfig.ID <$> Config.Agents c).
Proof.
  unfold Validate.
  destruct (String.eqb_spec (ServerConfig.AuthToken (Config.Server c)) "") as [Htok|Htok].
  { split; [discriminate | tauto]. }
  destruct (Nat.eqb_spec (length (Config.Agents c)) 0) as [Hag|Hag].
  { split; [discriminate|]. intros (_ & Hne & _).
    destruct (Config.Agents c); [congruence | discriminate]. }
  destruct (Nat.eqb_spec (length (Config.URLs c)) 0) as [Hurl|Hurl].
  { split; [discriminate|]. intros (_ & _ & Hne & _).
    destruct (Config.URLs c); [congruence | discriminate]. }
  rewrite !Z.gtb_ltb.
  destruct (Z.ltb_spec (controller.SchedulerConfig.MaxConcurrent (Config.Scheduler c))
              (controller.SchedulerConfig.MinConcurrent (Config.Scheduler c))) as [Hmm|Hmm].
  { split; [discriminate|]. intros H. lia. }
  destruct (Z.ltb_spec (Z.of_nat (length (Config.Agents c)))
              (controller.SchedulerConfig.MinConcurrent (Config.Scheduler c))) as [Hma|Hma].
  { split; [discriminate|]. intros H. lia. }
  rewrite validate_agents_accepts. split.
  - intros (Hall & Hnd & _). repeat split; try assumption.
    + intros E. rewrite E in Hag. contradiction.
    + intros E. rewrite E in Hurl. contradiction.
  - intros (_ & _ & _ & _ & _ & Hall & Hnd). split; [exact Hall|]. split; [exact Hnd|].
    intros id _. apply not_elem_of_empty.
Qed.

Lemma default_string_twice value fallback :
  fallback <> "" ->
  default_string (default_string value fallback) fallback = default_string value fallback.
Proof.
  intros Hne. unfold default_string.
  destruct (String.eqb_spec value "") as [->|Hv].
  - destruct (String.eqb_spec fallback ""); [contradiction | reflexivity].
  - destruct (String.eqb_spec value ""); [contradiction | reflexivity].
Qed.

Lemma default_int_twice value fallback :
  fallback <> 0 ->
  default_int (default_int value fallback) fallback = default_int value fallback.
Proof.
  intros Hne. unfold default_int.
  destruct (Z.eqb_spec value 0) as [->|Hv].
  - destruct (Z.eqb_spec fallback 0); [contradiction | reflexivity].
  - destruct (Z.eqb_spec value 0); [contradiction | reflexivity].
Qed.

Lemma default_float_twice value fallback :
  (fallback =? 0)%float = false ->
  default_float (default_float value fallback) fallback = default_float value fallback.
Proof.
  intros Hne. unfold default_float.
  destruct (value =? 0)%float eqn:Hv.
  - rewrite Hne. reflexivity.
  - rewrite Hv. reflexivity.
Qed.

Lemma defaults_fixed c : defaults (defaults c) = defaults c.
Proof.
  unfold defaults. simpl.
  rewrite !default_string_twice by discriminate.
  rewrite !default_int_twice by (unfold time.Second; lia).
  rewrite !default_float_twice by reflexivity.
  reflexivity.
Qed.

End Config.

(** X13: Validate accepts a configuration exactly when the token is not
    empty, there is an agent and a locator, min_concurrent exceeds neither
    max_concurrent nor the number of agents, and every agent has an id that
    is not empty, a capacity above zero and an id of its own.  It sets no
    lower bound on min_concurrent. *)
Theorem Validate_accepts_exactly_the_wellformed (c : config.Config.t) :
  config.Validate c = None <->
  config.ServerConfig.AuthToken (config.Config.Server c) <> "" /\
  config.Config.Agents c <> [] /\
  config.Config.URLs c <> [] /\
  controller.SchedulerConfig.MinConcurrent (config.Config.Scheduler c)
  <= controller.SchedulerConfig.MaxConcurrent (config.Config.Scheduler c) /\
  controller.SchedulerConfig.MinConcurrent (config.Config.Scheduler c)
  <= Z.of_nat (length (config.Config.Agents c)) /\
  Forall (fun agent => controller.AgentConfig.ID agent <> "" /\
                       0 < controller.AgentConfig.MaxBandwidth agent)
    (config.Config.Agents c) /\
  NoDup (controller.AgentConfig.ID <$> config.Config.Agents c).
Proof.
  split; intros H.
  - apply Validate_accepts in H. exact H.
  - apply Validate_accepts. exact H.
Qed.

(** X14: the defaults are filled in once and for all: loading the result
    again changes nothing, no numeric setting of the scheduler, port or
    named setting that has a default is left at zero or empty, and the
    settings given are kept. *)
Theorem defaults_fill_in_once (c : config.Config.t) :
  let d := config.defaults c in
  config.defaults d = d /\
  config.Config.Agents d = config.Config.Agents c /\
  config.Config.URLs d = config.Config.URLs c /\
  config.ServerConfig.AuthToken (config.Config.Server d)
  = config.ServerConfig.AuthToken (config.Config.Server c) /\
  (let sc := config.Config.Scheduler c in
   let sd := config.Config.Scheduler d in
   controller.SchedulerConfig.MinConcurrent sd <> 0 /\
   controller.SchedulerConfig.MaxConcurrent sd <> 0 /\
   controller.SchedulerConfig.RotationIntervalMin sd <> 0 /\
   controller.SchedulerConfig.RotationIntervalMax sd <> 0 /\
   controller.SchedulerConfig.ServerBandwidthMin sd <> 0 /\
   controller.SchedulerConfig.ServerBandwidthMax sd <> 0 /\
   controller.SchedulerConfig.RampUpDuration sd <> 0 /\
   controller.SchedulerConfig.RampDownDuration sd <> 0 /\
   (controller.SchedulerConfig.MinConcurrent sc <> 0 ->
    controller.SchedulerConfig.MinConcurrent sd = controller.SchedulerConfig.MinConcurrent sc) /\
   (controller.SchedulerConfig.MaxConcurrent sc <> 0 ->
    controller.SchedulerConfig.MaxConcurrent sd = controller.SchedulerConfig.MaxConcurrent sc) /\
   (controller.SchedulerConfig.MinConcurrent sc = 0 ->
    controller.SchedulerConfig.MinConcurrent sd = 2) /\
   (controller.SchedulerConfig.MaxConcurrent sc = 0 ->
    controller.SchedulerConfig.MaxConcurrent sd = 8)).
Proof.
  intros d. subst d. split; [apply defaults_fixed|].
  split; [reflexivity|]. split; [reflexivity|]. split; [reflexivity|].
  cbv zeta. unfold config.defaults. simpl. unfold config.default_int, time.Second.
  repeat match goal with
  | |- context [?x =? 0] => destruct (Z.eqb_spec x 0)
  end; repeat split; try lia; try congruence.
Qed.

(** ** The metrics aggregator *)

Section Metrics.

Import metrics.

Lemma tally_breakdown l : forall acc,
  NoDup l.*1 ->
  forall id,
    (forall entry, (id, entry) ∈ l ->
       breakdown (fold_left tally_agent l acc) !! id
       = Some (AgentMetrics.CurrentBandwidth entry)) /\
    (id ∉ l.*1 ->
       breakdown (fold_left tally_agent l acc) !! id = breakdown acc !! id).
Proof.
  induction l as [|[key entry] rest IH]; intros acc Hnd id; simpl.
  - split; [intros e Hin; inversion Hin | reflexivity].
  - inversion Hnd as [|? ? Hnotin Hnd']; subst.
    destruct (IH (tally_agent acc (key, entry)) Hnd' id) as [Hin Hout]. split.
    + intros e He. apply elem_of_cons in He. destruct He as [[= -> ->]|He].
      * rewrite Hout by exact Hnotin. simpl. apply lookup_insert_eq.
      * apply Hin, He.
    + intros Hfresh. apply not_elem_of_cons in Hfresh. destruct Hfresh as [Hne Hfresh].
      rewrite Hout by exact Hfresh. simpl. apply lookup_insert_ne. congruence.
Qed.

Lemma tally_active l : forall acc,
  activeCount (fold_left tally_agent l acc)
  = activeCount acc
    + Z.of_nat (length (List.filter (fun entry : string * AgentMetrics.t =>
                                       AgentMetrics.ActiveCommands entry.2 >? 0) l)).
Proof.
  induction l as [|entry rest IH]; intros acc; simpl; [lia|].
  rewrite IH. simpl. destruct (AgentMetrics.ActiveCommands entry.2 >? 0); simpl; lia.
Qed.

(** What an aggregate holds. *)
Lemma GetAggregated_spec m w :
  exists agg,
    GetAggregated m w
    = Some (agg, mkWorld (float_draws w) (int_draws w) (clock w) (uuids w)
                   (next_float w) (next_int w) (S (next_clock w)) (next_uuid w)) /\
    AggregatedMetrics.Timestamp agg = clock w (next_clock w) /\
    AggregatedMetrics.TotalAgents agg = Z.of_nat (size (MetricsAggregator.agentMetrics m)) /\
    (forall id,
       AggregatedMetrics.AgentBreakdown agg !! id
       = AgentMetrics.CurrentBandwidth <$> MetricsAggregator.agentMetrics m !! id) /\
    AggregatedMetrics.ActiveAgents agg
    = Z.of_nat (length (List.filter (fun entry : string * AgentMetrics.t =>
                                       AgentMetrics.ActiveCommands entry.2 >? 0)
                          (map_to_list (MetricsAggregator.agentMetrics m)))) /\
    0 <= AggregatedMetrics.ActiveAgents agg <= AggregatedMetrics.TotalAgents agg /\
    (MetricsAggregator.agentMetrics m = ∅ ->
     AggregatedMetrics.TotalBandwidth agg = 0%float /\
     AggregatedMetrics.AverageBandwidth agg = 0%float).
Proof.
  unfold GetAggregated, bind, time.Now, ret. eexists. split; [reflexivity|]. simpl.
  set (agents := map_to_list (MetricsAggregator.agentMetrics m)).
  assert (Hactive := tally_active agents (mkTally ∅ 0 0 0)). simpl in Hactive.
  split; [reflexivity|]. split; [unfold agents; rewrite length_map_to_list; reflexivity|].
  split; [|split; [exact Hactive|split]].
  - intros id.
    destruct (tally_breakdown agents (mkTally ∅ 0 0 0) (NoDup_fst_map_to_list _) id)
      as [Hin Hout].
    destruct (MetricsAggregator.agentMetrics m !! id) as [entry|] eqn:Hid; simpl.
    + apply Hin. apply elem_of_map_to_list, Hid.
    + rewrite Hout; [apply lookup_empty|].
      intros Hmem. apply list_elem_of_fmap in Hmem. destruct Hmem as ([k e] & -> & Hmem).
      apply elem_of_map_to_list in Hmem. simpl in Hid. congruence.
  - rewrite Hactive. split; [lia|].
    pose proof (filter_length_le
                  (fun entry : string * AgentMetrics.t =>
                     AgentMetrics.ActiveCommands entry.2 >? 0) agents). lia.
  - intros Hempty. unfold agents. rewrite Hempty, map_to_list_empty. split; reflexivity.
Qed.

End Metrics.

(** X15: an aggregate counts every agent that has reported, shows for each of
    them, and for no other, the current bandwidth of its last report, and
    counts as active those whose last report had commands running; with no
    report at all the totals are zero. *)
Theorem GetAggregated_reports_every_agent (m : metrics.MetricsAggregator.t) (w : World) :
  exists agg w',
    metrics.GetAggregated m w = Some (agg, w') /\
    metrics.AggregatedMetrics.Timestamp agg = clock w (next_clock w) /\
    metrics.AggregatedMetrics.TotalAgents agg
    = Z.of_nat (size (metrics.MetricsAggregator.agentMetrics m)) /\
    (forall id,
       metrics.AggregatedMetrics.AgentBreakdown agg !! id
       = metrics.AgentMetrics.CurrentBandwidth
           <$> metrics.MetricsAggregator.agentMetrics m !! id) /\
    metrics.AggregatedMetrics.ActiveAgents agg
    = Z.of_nat (length (List.filter
                          (fun entry : string * metrics.AgentMetrics.t =>
                             metrics.AgentMetrics.ActiveCommands entry.2 >? 0)
                          (map_to_list (metrics.MetricsAggregator.agentMetrics m)))) /\
    0 <= metrics.AggregatedMetrics.ActiveAgents agg
      <= metrics.AggregatedMetrics.TotalAgents agg /\
    (metrics.MetricsAggregator.agentMetrics m = ∅ ->
     metrics.AggregatedMetrics.TotalBandwidth agg = 0%float /\
     metrics.AggregatedMetrics.AverageBandwidth agg = 0%float).
Proof.
  destruct (GetAggregated_spec m w) as (agg & Hrun & Hrest).
  eexists agg, _. split; [exact Hrun | exact Hrest].
Qed.

(** X16: the figures an agent reports are those the next aggregate shows for
    it, with the time of the report; the other agents and the history are
    untouched; once the agent is removed the aggregate shows nothing for it
    and the others as before. *)
Theorem reported_metrics_reach_the_aggregate
    (m : metrics.MetricsAggregator.t) (agentID : string)
    (report : metrics.MetricsPayload.t) (w : World) :
  exists m1 w1 agg w2 agg' w3,
    metrics.UpdateAgentMetrics m agentID report w = Some (m1, w1) /\
    metrics.GetAggregated m1 w1 = Some (agg, w2) /\
    metrics.GetAggregated (metrics.RemoveAgent m1 agentID) w2 = Some (agg', w3) /\
    metrics.GetAgentMetrics m1 agentID
    = Some (metrics.AgentMetrics.mk agentID (clock w (next_clock w))
              (metrics.MetricsPayload.CurrentBandwidth report)
              (metrics.MetricsPayload.AverageBandwidth report)
              (metrics.MetricsPayload.BytesDownloaded report)
              (metrics.MetricsPayload.ActiveCommands report)
              (metrics.MetricsPayload.CommandMetrics report)) /\
    metrics.AggregatedMetrics.AgentBreakdown agg !! agentID
    = Some (metrics.MetricsPayload.CurrentBandwidth report) /\
    metrics.AggregatedMetrics.AgentBreakdown agg' !! agentID = None /\
    metrics.GetAgentMetrics (metrics.RemoveAgent m1 agentID) agentID = None /\
    (forall other, other <> agentID ->
       metrics.GetAgentMetrics m1 other = metrics.GetAgentMetrics m other /\
       metrics.AggregatedMetrics.AgentBreakdown agg !! other
       = metrics.AggregatedMetrics.AgentBreakdown agg' !! other) /\
    metrics.MetricsAggregator.history m1 = metrics.MetricsAggregator.history m /\
    metrics.MetricsAggregator.history (metrics.RemoveAgent m1 agentID)
    = metrics.MetricsAggregator.history m.
Proof.
  unfold metrics.UpdateAgentMetrics, bind, time.Now, ret.
  eexists _, _. 
  match goal with |- exists agg w2 agg' w3, Some (?m1, ?w1) = _ /\ _ =>
    destruct (GetAggregated_spec m1 w1) as (agg & Hagg & _ & _ & Hbreak & _);
    destruct (GetAggregated_spec (metrics.RemoveAgent m1 agentID)
                (mkWorld (float_draws w1) (int_draws w1) (clock w1) (uuids w1)
                   (next_float w1) (next_int w1) (S (next_clock w1)) (next_uuid w1)))
      as (agg' & Hagg' & _ & _ & Hbreak' & _)
  end.
  eexists agg, _, agg', _.
  split; [reflexivity|]. split; [exact Hagg|]. split; [exact Hagg'|].
  unfold metrics.GetAgentMetrics. simpl in *.
  split; [apply lookup_insert_eq|].
  split; [rewrite Hbreak, lookup_insert_eq; reflexivity|].
  split; [rewrite Hbreak', lookup_delete_eq; reflexivity|].
  split; [apply lookup_delete_eq|].
  split; [|split; reflexivity].
  intros other Hne. split; [apply lookup_insert_ne; congruence|].
  rewrite Hbreak, Hbreak'. rewrite lookup_delete_ne by congruence. reflexivity.
Qed.

Section History.

Import metrics.

(** A snapshot is added at the end of the history, which is then cut down
    from its start to the bound. *)
Lemma RecordSnapshot_spec m w :
  0 <= MetricsAggregator.maxHistory m ->
  exists agg m' w',
    GetAggregated m w = Some (agg, w') /\
    RecordSnapshot m w = Some (m', w') /\
    MetricsAggregator.agentMetrics m' = MetricsAggregator.agentMetrics m /\
    MetricsAggregator.maxHistory m' = MetricsAggregator.maxHistory m /\
    MetricsAggregator.history m'
    = drop (length (MetricsAggregator.history m ++ [agg])
            - Z.to_nat (MetricsAggregator.maxHistory m))
        (MetricsAggregator.history m ++ [agg]) /\
    Z.of_nat (length (MetricsAggregator.history m'))
    = Z.min (Z.of_nat (length (MetricsAggregator.history m)) + 1)
        (MetricsAggregator.maxHistory m).
Proof.
  intros Hmax. destruct (GetAggregated_spec m w) as (agg & Hagg & _).
  unfold RecordSnapshot, bind. rewrite Hagg.
  set (h := MetricsAggregator.history m ++ [agg]).
  assert (Hlen : length h = S (length (MetricsAggregator.history m))).
  { unfold h. rewrite length_app. simpl. lia. }
  rewrite Z.gtb_ltb.
  destruct (Z.ltb_spec (MetricsAggregator.maxHistory m) (Z.of_nat (length h))) as [Hcut|Hfit].
  - destruct (Z.ltb_spec (Z.of_nat (length h) - MetricsAggregator.maxHistory m) 0); [lia|].
    rewrite Z.gtb_ltb.
    destruct (Z.ltb_spec (Z.of_nat (length h))
                (Z.of_nat (length h) - MetricsAggregator.maxHistory m)); [lia|].
    assert (E : Z.to_nat (Z.of_nat (length h) - MetricsAggregator.maxHistory m)
                = (length h - Z.to_nat (MetricsAggregator.maxHistory m))%nat) by lia.
    rewrite E. cbn [orb]. unfold ret.
    eexists agg, _, _. split; [reflexivity|]. split; [reflexivity|].
    cbn [MetricsAggregator.agentMetrics MetricsAggregator.maxHistory MetricsAggregator.history].
    split; [reflexivity|]. split; [reflexivity|]. split; [reflexivity|].
    rewrite length_drop. lia.
  - unfold ret. eexists agg, _, _. split; [reflexivity|]. split; [reflexivity|].
    cbn [MetricsAggregator.agentMetrics MetricsAggregator.maxHistory MetricsAggregator.history].
    fold h.
    replace (length h - Z.to_nat (MetricsAggregator.maxHistory m))%nat with 0%nat by lia.
    rewrite drop_0. split; [reflexivity|]. split; [reflexivity|]. split; [reflexivity|].
    lia.
Qed.

End History.

(** X17: with a history bound that is not negative, a snapshot is recorded at
    the end of the history and the oldest snapshots are dropped to keep
    the history within the bound: it holds min(previous length + 1, bound)
    snapshots, the last of them the new one when the bound is above zero.
    The agents' figures are untouched. *)
Theorem RecordSnapshot_keeps_history_bounded (m : metrics.MetricsAggregator.t) (w : World) :
  0 <= metrics.MetricsAggregator.maxHistory m ->
  exists agg m' w',
    metrics.GetAggregated m w = Some (agg, w') /\
    metrics.RecordSnapshot m w = Some (m', w') /\
    metrics.MetricsAggregator.agentMetrics m' = metrics.MetricsAggregator.agentMetrics m /\
    metrics.MetricsAggregator.maxHistory m' = metrics.MetricsAggregator.maxHistory m /\
    Z.of_nat (length (metrics.MetricsAggregator.history m'))
    = Z.min (Z.of_nat (length (metrics.MetricsAggregator.history m)) + 1)
        (metrics.MetricsAggregator.maxHistory m) /\
    (exists dropped,
       metrics.MetricsAggregator.history m ++ [agg]
       = dropped ++ metrics.MetricsAggregator.history m') /\
    (0 < metrics.MetricsAggregator.maxHistory m ->
     last (metrics.MetricsAggregator.history m') = Some agg).
Proof.
  intros Hmax.
  destruct (RecordSnapshot_spec m w Hmax) as (agg & m' & w' & Hagg & Hrun & Hm & Hb & Hh & Hl).
  exists agg, m', w'. repeat (split; [assumption|]). split.
  - exists (take (length (metrics.MetricsAggregator.history m ++ [agg])
                  - Z.to_nat (metrics.MetricsAggregator.maxHistory m))
              (metrics.MetricsAggregator.history m ++ [agg])).
    rewrite Hh. symmetry. apply take_drop.
  - intros Hpos. rewrite Hh, length_app, drop_app_le by (simpl; lia).
    apply last_snoc.
Qed.

Lemma RecordSnapshot_keeps_history_bounded_witness :
  exists agg m' w',
    metrics.GetAggregated metrics.NewMetricsAggregator even_world = Some (agg, w') /\
    metrics.RecordSnapshot metrics.NewMetricsAggregator even_world = Some (m', w') /\
    Z.of_nat (length (metrics.MetricsAggregator.history m')) = 1 /\
    last (metrics.MetricsAggregator.history m') = Some agg.
Proof.
  destruct (RecordSnapshot_keeps_history_bounded metrics.NewMetricsAggregator even_world
              ltac:(simpl; lia))
    as (agg & m' & w' & Hagg & Hrun & _ & _ & Hlen & _ & Hlast).
  exists agg, m', w'. split; [exact Hagg|]. split; [exact Hrun|].
  split; [exact Hlen|]. apply Hlast. simpl. lia.
Defined.

(** X18: asked for the last count snapshots, the aggregator returns the last
    min(count, length) of its history, oldest first, for a count that is
    not negative; a negative count makes it panic. *)
Theorem GetRecentHistory_returns_the_latest (m : metrics.MetricsAggregator.t) (count : Z) :
  let history := metrics.MetricsAggregator.history m in
  (0 <= count ->
   metrics.GetRecentHistory m count
   = Some (drop (length history - Z.to_nat count) history)) /\
  (count < 0 -> metrics.GetRecentHistory m count = None).
Proof.
  intros history. unfold metrics.GetRecentHistory. fold history.
  rewrite Z.gtb_ltb. split; intros Hcount.
  - destruct (Z.ltb_spec (Z.of_nat (length history)) count) as [Hmore|Hless].
    + destruct (Z.eqb_spec (Z.of_nat (length history)) 0) as [Hnone|Hsome].
      * destruct history; [reflexivity | simpl in Hnone; lia].
      * destruct (Z.ltb_spec (Z.of_nat (length history)) 0); [lia|].
        rewrite Z.sub_diag. simpl.
        replace (length history - Z.to_nat count)%nat with 0%nat by lia.
        rewrite !drop_0, Nat2Z.id, firstn_all. reflexivity.
    + destruct (Z.eqb_spec count 0) as [->|Hsome].
      * simpl. rewrite Nat.sub_0_r, drop_all. reflexivity.
      * destruct (Z.ltb_spec count 0); [lia|].
        replace (Z.to_nat (Z.of_nat (length history) - count))
          with (length history - Z.to_nat count)%nat by lia.
        rewrite take_ge; [reflexivity|]. rewrite length_drop. lia.
  - destruct (Z.ltb_spec (Z.of_nat (length history)) count); [lia|].
    destruct (Z.eqb_spec count 0); [lia|].
    destruct (Z.ltb_spec count 0); [reflexivity | lia].
Qed.

Section Stats.

Import metrics.

Lemma stats_extremes_spec (history : list AggregatedMetrics.t) :
  forall (seen : list float) (total min max : float),
    Forall (fun bw => (bw <? min)%float = false) seen ->
    Forall (fun bw => (max <? bw)%float = false) seen ->
    exists total' min' max',
      stats_extremes history total min max = (total', min', max') /\
      Forall (fun bw => (bw <? min')%float = false) (seen ++ bandwidths history) /\
      Forall (fun bw => (max' <? bw)%float = false) (seen ++ bandwidths history) /\
      (min' = min \/ min' ∈ bandwidths history) /\
      (max' = max \/ max' ∈ bandwidths history).
Proof.
  induction history as [|snapshot rest IH]; intros seen total min max Hmin Hmax.
  - exists total, min, max. simpl. rewrite app_nil_r.
    repeat split; try assumption; now left.
  - simpl stats_extremes.
    set (bw := AggregatedMetrics.TotalBandwidth snapshot).
    set (min1 := if (bw <? min)%float then bw else min).
    set (max1 := if (max <? bw)%float then bw else max).
    destruct (IH (seen ++ [bw]) (total + bw)%float min1 max1)
      as (total' & min' & max' & Hrun & Hlow & Hhigh & Hmin' & Hmax').
    + apply Forall_app. split.
      * subst min1. destruct (bw <? min)%float eqn:Hlt; [|exact Hmin].
        eapply Forall_impl; [exact Hmin|]. intros x Hx. simpl in Hx.
        destruct (x <? bw)%float eqn:Hxb; [|reflexivity].
        rewrite (Fltb_trans x bw min Hxb Hlt) in Hx. discriminate.
      * constructor; [|constructor]. subst min1.
        destruct (bw <? min)%float eqn:Hlt; [apply Fltb_irrefl|exact Hlt].
    + apply Forall_app. split.
      * subst max1. destruct (max <? bw)%float eqn:Hlt; [|exact Hmax].
        eapply Forall_impl; [exact Hmax|]. intros x Hx. simpl in Hx.
        destruct (bw <? x)%float eqn:Hxb; [|reflexivity].
        rewrite (Fltb_trans max bw x Hlt Hxb) in Hx. discriminate.
      * constructor; [|constructor]. subst max1.
        destruct (max <? bw)%float eqn:Hlt; [apply Fltb_irrefl|exact Hlt].
    + exists total', min', max'. split; [exact Hrun|].
      unfold bandwidths in *. rewrite fmap_cons, (cons_middle _ seen), app_assoc.
      fold bw. repeat split; try assumption.
      * destruct Hmin' as [->|Hin]; [|right; now apply list_elem_of_further].
        subst min1. destruct (bw <? min)%float; [right; apply list_elem_of_here|now left].
      * destruct Hmax' as [->|Hin]; [|right; now apply list_elem_of_further].
        subst max1. destruct (max <? bw)%float; [right; apply list_elem_of_here|now left].
Qed.

(** X19: [GetStats] over the snapshots of the last [duration]: with none it
    answers the zero statistics; otherwise the sample count is their number,
    the minimum and the maximum are bandwidths of two of them, no snapshot's
    bandwidth is below the minimum or above the maximum, and a single
    snapshot has deviation zero. *)
Theorem GetStats_extremes_are_attained (m : MetricsAggregator.t) (duration : Z) (w : World) :
  exists window stats w',
    GetHistory m duration w = Some (window, w') /\
    GetStats m duration w = Some (stats, w') /\
    BandwidthStats.SampleCount stats = Z.of_nat (length window) /\
    (window = [] -> stats = BandwidthStats.mk 0 0 0 0 0) /\
    (window <> [] ->
       BandwidthStats.Min stats ∈ bandwidths window /\
       BandwidthStats.Max stats ∈ bandwidths window /\
       Forall (fun bw => (bw <? BandwidthStats.Min stats)%float = false /\
                         (BandwidthStats.Max stats <? bw)%float = false)
         (bandwidths window)) /\
    (length window = 1%nat -> BandwidthStats.StandardDeviation stats = 0%float).
Proof.
  unfold GetStats.
  destruct (GetHistory m duration w) as [[window w']|] eqn:Hhist.
  2:{ unfold GetHistory, bind, time.Now, ret in Hhist. discriminate. }
  exists window.
  unfold bind at 1. rewrite Hhist.
  destruct window as [|first rest].
  - exists (BandwidthStats.mk 0 0 0 0 0), w'.
    split; [reflexivity|]. split; [reflexivity|]. split; [reflexivity|].
    split; [reflexivity|]. split; [|discriminate].
    intros H. now contradiction H.
  - set (bw0 := AggregatedMetrics.TotalBandwidth first).
    destruct (stats_extremes_spec (first :: rest) [] 0%float bw0 bw0)
      as (total' & min' & max' & Hrun & Hlow & Hhigh & Hmin' & Hmax');
      [constructor|constructor|].
    rewrite Hrun. eexists _, w'. unfold ret.
    split; [reflexivity|]. split; [reflexivity|].
    cbn [BandwidthStats.SampleCount BandwidthStats.Min BandwidthStats.Max
         BandwidthStats.StandardDeviation].
    split; [reflexivity|]. split; [discriminate|]. split.
    + intros _.
      assert (Hfirst : bw0 ∈ bandwidths (first :: rest)) by apply list_elem_of_here.
      split; [destruct Hmin' as [->|]; assumption|].
      split; [destruct Hmax' as [->|]; assumption|].
      rewrite app_nil_l in Hlow, Hhigh. rewrite Forall_forall in *.
      intros x Hx. split; [now apply Hlow|now apply Hhigh].
    + intros Hone. destruct rest; [reflexivity|discriminate].
Qed.

End Stats.

(** ** The server *)

Section Registry.
Import server registry.

Lemma SendToAgent_spec s agentID msg :
  live s ->
  exists s' err,
    SendToAgent s agentID msg = Some (s', err) /\
    Server.clients s' = Server.clients s /\
    (within_capacity s -> within_capacity s') /\
    match err with
    | None =>
        exists client,
          GetClient s agentID = Some client /\
          (length (Client.SendChan client) < SendChan_capacity)%nat /\
          GetClient s' agentID
          = Some (Client.set_SendChan (Client.SendChan client ++ [msg]) client) /\
          (forall id, Server.clients s !! id <> Server.clients s !! agentID ->
                      GetClient s' id = GetClient s id)
    | Some _ =>
        s' = s /\
        (GetClient s agentID = None \/
         exists client,
           GetClient s agentID = Some client /\
           (SendChan_capacity <= length (Client.SendChan client))%nat)
    end.
Proof.
  intros Hlive. unfold SendToAgent, GetClient.
  destruct (Server.clients s !! agentID) as [p|] eqn:Hp.
  2:{ eexists s, _. split; [reflexivity|]. split; [reflexivity|]. split; [auto|].
      split; [reflexivity|]. now left. }
  destruct (Hlive _ _ Hp) as [client Hclient]. rewrite Hclient.
  destruct (Nat.ltb_spec (length (Client.SendChan client)) SendChan_capacity) as [Hroom|Hfull].
  - eexists _, None. split; [reflexivity|]. split; [reflexivity|]. split.
    + intros Hcap q c. simpl. intros Hq.
      apply lookup_insert_Some in Hq. destruct Hq as [[<- <-]|[_ Hq]].
      * simpl. rewrite length_app. simpl. lia.
      * apply (Hcap _ _ Hq).
    + exists client. split; [reflexivity|]. split; [exact Hroom|]. simpl. split.
      * rewrite Hp. apply lookup_insert_eq.
      * intros id Hid.
        destruct (Server.clients s !! id) as [q|]; [|reflexivity].
        apply lookup_insert_ne. congruence.
  - eexists s, _. split; [reflexivity|]. split; [reflexivity|]. split; [auto|].
    split; [reflexivity|]. right. exists client. split; [reflexivity|exact Hfull].
Qed.

Lemma site_server_live : live site_server.
Proof.
  intros id p H. simpl in H.
  apply lookup_insert_Some in H. destruct H as [[<- <-]|[_ H]]; [eexists; reflexivity|].
  apply lookup_singleton_Some in H. destruct H as [<- <-]. eexists; reflexivity.
Qed.

Lemma check_stale_spec entries :
  NoDup entries.*1 ->
  forall s w,
    (forall key p, (key, p) ∈ entries ->
       Server.clients s !! key = Some p /\ is_Some (Server.objects s !! p)) ->
    exists s' w',
      check_stale entries s w = Some (s', w') /\
      Server.objects s' = Server.objects s /\
      Server.config s' = Server.config s /\
      next_clock w' = (next_clock w + length entries)%nat /\
      clock w' = clock w /\
      (forall id, id ∉ entries.*1 -> Server.clients s' !! id = Server.clients s !! id) /\
      (forall id p, (id, p) ∈ entries ->
         exists client k,
           Server.objects s !! p = Some client /\
           (next_clock w <= k < next_clock w')%nat /\
           Server.clients s' !! id
           = if time.Sub (clock w k) (Client.LastSeen client) >? 120 * time.Second
             then None else Some p).
Proof.
  induction entries as [|[key p] rest IH]; intros Hnodup s w Hentries.
  - exists s, w. split; [reflexivity|]. split; [reflexivity|]. split; [reflexivity|].
    split; [simpl; lia|]. split; [reflexivity|]. split; [reflexivity|].
    intros id q Hin. inversion Hin.
  - simpl in Hnodup. apply NoDup_cons in Hnodup. destruct Hnodup as [Hfresh Hnodup].
    destruct (Hentries key p ltac:(left)) as [Hkey [client Hclient]].
    simpl check_stale. rewrite Hclient.
    unfold bind at 1. unfold time.Since, bind at 1, time.Now, ret.
    set (w1 := mkWorld (float_draws w) (int_draws w) (clock w) (uuids w)
                 (next_float w) (next_int w) (S (next_clock w)) (next_uuid w)).
    set (stale := time.Sub (clock w (next_clock w)) (Client.LastSeen client)
                  >? 120 * time.Second).
    set (s1 := if stale then Server.set_clients (delete key (Server.clients s)) s else s).
    assert (Hobj1 : Server.objects s1 = Server.objects s) by (subst s1; now destruct stale).
    assert (Hcfg1 : Server.config s1 = Server.config s) by (subst s1; now destruct stale).
    assert (Hother : forall id, id <> key ->
              Server.clients s1 !! id = Server.clients s !! id).
    { intros id Hid. subst s1. destruct stale; [|reflexivity]. simpl.
      now apply lookup_delete_ne. }
    assert (Hkey1 : Server.clients s1 !! key = if stale then None else Some p).
    { subst s1. destruct stale; [|exact Hkey]. simpl. apply lookup_delete_eq. }
    destruct (IH Hnodup s1 w1) as (s' & w' & Hrun & Hobj & Hcfg & Hnext & Hclock & Hkeep & Hrest).
    { intros id q Hin. rewrite Hobj1.
      destruct (Hentries id q ltac:(now right)) as [Hid Hq]. split; [|exact Hq].
      rewrite Hother; [exact Hid|].
      intros ->. apply Hfresh. apply list_elem_of_fmap. now exists (key, q). }
    exists s', w'. split.
    { subst s1. destruct stale; exact Hrun. }
    split; [congruence|]. split; [congruence|].
    split; [rewrite Hnext; simpl; lia|]. split; [exact Hclock|]. split.
    + intros id Hid. simpl in Hid. apply not_elem_of_cons in Hid. destruct Hid as [Hne Hid].
      rewrite (Hkeep id Hid). now apply Hother.
    + intros id q Hin. apply elem_of_cons in Hin. destruct Hin as [[= -> ->]|Hin].
      * exists client, (next_clock w). split; [exact Hclient|].
        split; [rewrite Hnext; simpl; lia|].
        rewrite (Hkeep key Hfresh). exact Hkey1.
      * destruct (Hrest id q Hin) as (c & k & Hc & Hk & Hid).
        exists c, k. split; [congruence|]. split; [simpl in Hk; lia|exact Hid].
Qed.

(** X24: [checkStaleClients] on a server whose registered clients all exist
    reads the clock once for each registered client and touches no client
    object.  It registers nobody, and each registered agent is kept or
    dropped on one of those readings: dropped when the reading is more than
    120 s after the client was last seen, kept at its address otherwise. *)
Theorem checkStaleClients_drops_the_silent s w :
  live s ->
  exists s' w',
    checkStaleClients s w = Some (s', w') /\
    Server.objects s' = Server.objects s /\
    Server.config s' = Server.config s /\
    next_clock w' = (next_clock w + size (Server.clients s))%nat /\
    (forall id, Server.clients s !! id = None -> Server.clients s' !! id = None) /\
    (forall id p, Server.clients s !! id = Some p ->
       exists client k,
         Server.objects s !! p = Some client /\
         (next_clock w <= k < next_clock w')%nat /\
         Server.clients s' !! id
         = if time.Sub (clock w k) (Client.LastSeen client) >? 120 * time.Second
           then None else Some p).
Proof.
  intros Hlive. unfold checkStaleClients.
  destruct (check_stale_spec (map_to_list (Server.clients s))
              (NoDup_fst_map_to_list _) s w)
    as (s' & w' & Hrun & Hobj & Hcfg & Hnext & _ & Hkeep & Hrest).
  { intros key p Hin. apply elem_of_map_to_list in Hin. split; [exact Hin|].
    apply (Hlive _ _ Hin). }
  exists s', w'. split; [exact Hrun|]. split; [exact Hobj|]. split; [exact Hcfg|].
  split; [rewrite Hnext, length_map_to_list; reflexivity|]. split.
  - intros id Hnone. rewrite Hkeep; [exact Hnone|].
    intros Hin. apply list_elem_of_fmap in Hin. destruct Hin as ([key p] & -> & Hin).
    apply elem_of_map_to_list in Hin. simpl in Hnone. congruence.
  - intros id p Hin. apply Hrest. now apply elem_of_map_to_list.
Qed.

End Registry.

(** X22: [SendToAgent] on a server whose registered clients all exist never
    blocks and never fails to return.  It reports no error exactly when the
    agent is registered and its channel holds fewer than 256 messages, and
    then the message is the last of that channel and the other clients are
    as before; with an error the server is unchanged.  The registry is as
    before in both cases, and channels within their capacity stay within
    it. *)
Theorem SendToAgent_queues_or_refuses
    (s : server.Server.t) (agentID : string) (msg : server.Message.t) :
  registry.live s ->
  exists s' err,
    server.SendToAgent s agentID msg = Some (s', err) /\
    server.Server.clients s' = server.Server.clients s /\
    (registry.within_capacity s -> registry.within_capacity s') /\
    match err with
    | None =>
        exists client,
          server.GetClient s agentID = Some client /\
          (length (server.Client.SendChan client) < server.SendChan_capacity)%nat /\
          server.GetClient s' agentID
          = Some (server.Client.set_SendChan (server.Client.SendChan client ++ [msg]) client) /\
          (forall id, server.Server.clients s !! id <> server.Server.clients s !! agentID ->
                      server.GetClient s' id = server.GetClient s id)
    | Some _ =>
        s' = s /\
        (server.GetClient s agentID = None \/
         exists client,
           server.GetClient s agentID = Some client /\
           (server.SendChan_capacity <= length (server.Client.SendChan client))%nat)
    end.
Proof. exact (SendToAgent_spec s agentID msg). Qed.

Lemma SendToAgent_queues_or_refuses_witness :
  exists s' err,
    server.SendToAgent site_server "a1"
      (server.Message.mk server.MsgTypeStopCommand (seconds 1200) "a1"
         (server.StopPayload (protocol.StopCommand.mk ""))) = Some (s', err) /\
    server.Server.clients s' = server.Server.clients site_server.
Proof.
  destruct (SendToAgent_queues_or_refuses site_server "a1"
              (server.Message.mk server.MsgTypeStopCommand (seconds 1200) "a1"
                 (server.StopPayload (protocol.StopCommand.mk ""))) site_server_live)
    as (s' & err & Hrun & Hclients & _).
  exists s', err. split; [exact Hrun | exact Hclients].
Defined.

Lemma checkStaleClients_drops_the_silent_witness :
  exists s' w',
    server.checkStaleClients site_server rotation_world = Some (s', w') /\
    server.Server.objects s' = server.Server.objects site_server.
Proof.
  destruct (checkStaleClients_drops_the_silent site_server rotation_world site_server_live)
    as (s' & w' & Hrun & Hobj & _).
  exists s', w'. split; [exact Hrun | exact Hobj].
Defined.

Section Sessions.
Import server registry.

Lemma GetConnectedAgents_registered s id :
  id ∈ GetConnectedAgents s <-> is_Some (Server.clients s !! id).
Proof.
  unfold GetConnectedAgents. rewrite list_elem_of_fmap. split.
  - intros ([key p] & -> & Hin). apply elem_of_map_to_list in Hin. now exists p.
  - intros [p Hp]. exists (id, p). split; [reflexivity|]. now apply elem_of_map_to_list.
Qed.

(** X21: after [handleRegister] the client is the one [GetClient] finds under
    the registered id, with the id, the name and the payload of the
    registration and its channel and last-seen time as before, and the id is
    among the connected agents; the other ids and the other client objects
    are as before. *)
Theorem handleRegister_registers_the_client s p payload client :
  Server.objects s !! p = Some client ->
  exists s',
    handleRegister s p payload = Some s' /\
    let id := RegisterPayload.AgentID payload in
    GetClient s' id
    = Some (Client.mk id (RegisterPayload.Name payload) (Client.SendChan client)
              (Client.LastSeen client) (Some payload)) /\
    id ∈ GetConnectedAgents s' /\
    (forall id', id' <> id ->
       Server.clients s' !! id' = Server.clients s !! id' /\
       (id' ∈ GetConnectedAgents s' <-> id' ∈ GetConnectedAgents s)) /\
    (forall q, q <> p -> Server.objects s' !! q = Server.objects s !! q) /\
    (live s -> live s') /\
    (within_capacity s -> within_capacity s').
Proof.
  intros Hclient. unfold handleRegister. rewrite Hclient.
  eexists. split; [reflexivity|]. cbv zeta.
  set (id := RegisterPayload.AgentID payload).
  split; [|split; [|split; [|split; [|split]]]].
  - unfold GetClient. simpl. rewrite lookup_insert_eq. apply lookup_insert_eq.
  - apply GetConnectedAgents_registered. simpl. rewrite lookup_insert_eq. now eexists.
  - intros id' Hne.
    assert (Hsame : <[id := p]> (Server.clients s) !! id' = Server.clients s !! id')
      by (apply lookup_insert_ne; congruence).
    split; [exact Hsame|]. rewrite !GetConnectedAgents_registered. simpl. now rewrite Hsame.
  - intros q Hq. simpl. apply lookup_insert_ne. congruence.
  - intros Hlive id' q. simpl. intros Hq.
    destruct (decide (q = p)) as [->|Hne].
    + rewrite lookup_insert_eq. now eexists.
    + rewrite lookup_insert_ne by congruence.
      apply lookup_insert_Some in Hq. destruct Hq as [[_ <-]|[_ Hq]]; [congruence|].
      apply (Hlive _ _ Hq).
  - intros Hcap q c. simpl. intros Hq.
    apply lookup_insert_Some in Hq. destruct Hq as [[<- <-]|[_ Hq]].
    + simpl. apply (Hcap _ _ Hclient).
    + apply (Hcap _ _ Hq).
Qed.

(** X23: the end of [handleClient] for a client that never registered changes
    nothing.  For a client with an agent id it leaves no registration, no
    active allocation and no metrics under that id, whichever client object
    is registered under it, and leaves the other ids' registrations,
    allocations and metrics and every client object as they were. *)
Theorem handleClient_cleanup_forgets_the_agent s sched m p client :
  Server.objects s !! p = Some client ->
  exists s' sched' m',
    handleClient_cleanup s sched m p = Some (s', sched', m') /\
    let id := Client.AgentID client in
    let active s := controller.SchedulerState.ActiveAgents (controller.Scheduler.state s) in
    (id = "" -> s' = s /\ sched' = sched /\ m' = m) /\
    (id <> "" ->
       GetClient s' id = None /\
       (id ∉ GetConnectedAgents s') /\
       active sched' !! id = None /\
       metrics.GetAgentMetrics m' id = None /\
       Server.objects s' = Server.objects s /\
       forall id', id' <> id ->
         Server.clients s' !! id' = Server.clients s !! id' /\
         active sched' !! id' = active sched !! id' /\
         metrics.GetAgentMetrics m' id' = metrics.GetAgentMetrics m id').
Proof.
  intros Hclient. unfold handleClient_cleanup. rewrite Hclient.
  destruct (String.eqb_spec (Client.AgentID client) "") as [Hnone|Hid]; simpl negb; cbv iota.
  - eexists _, _, _. split; [reflexivity|]. cbv zeta. split; [auto|]. intros H; contradiction.
  - eexists _, _, _. split; [reflexivity|]. cbv zeta. split; [intros H; contradiction|].
    intros _. split; [|split; [|split; [|split; [|split]]]].
    + unfold GetClient. simpl. now rewrite lookup_delete_eq.
    + rewrite GetConnectedAgents_registered. simpl. rewrite lookup_delete_eq.
      intros [q Hq]. discriminate.
    + simpl. apply lookup_delete_eq.
    + unfold metrics.GetAgentMetrics, metrics.RemoveAgent. simpl. apply lookup_delete_eq.
    + reflexivity.
    + intros id' Hne. simpl. split; [|split].
      * apply lookup_delete_ne. congruence.
      * apply lookup_delete_ne. congruence.
      * unfold metrics.GetAgentMetrics, metrics.RemoveAgent. simpl.
        apply lookup_delete_ne. congruence.
Qed.

(** ** The Authorization header *)

Lemma substring_whole (s : string) : String.substring 0 (String.length s) s = s.
Proof. induction s as [|c s IH]; [reflexivity|]. simpl. now rewrite IH. Qed.

Lemma prefix_split (p : string) : forall s : string,
  String.prefix p s = true ->
  s = (p ++ String.substring (String.length p) (String.length s - String.length p) s)%string.
Proof.
  induction p as [|c p IH]; intros s Hpre.
  - simpl. rewrite Nat.sub_0_r. symmetry. apply substring_whole.
  - destruct s as [|d s]; [discriminate|]. simpl in Hpre.
    destruct (Ascii.ascii_dec c d) as [->|]; [|discriminate].
    simpl.
    change (String d s
            = String d (p ++ String.substring (String.length p)
                               (String.length s - String.length p) s)%string).
    f_equal. now apply IH.
Qed.

Lemma prefix_append (p s : string) : String.prefix p (p ++ s) = true.
Proof.
  induction p as [|c p IH]; [now destruct s|].
  change (String.prefix (String c p) (String c (p ++ s)) = true). simpl.
  destruct (Ascii.ascii_dec c c); [exact IH | congruence].
Qed.

Lemma substring_append (p s : string) :
  String.substring (String.length p) (String.length (p ++ s) - String.length p) (p ++ s) = s.
Proof.
  induction p as [|c p IH].
  - change ("" ++ s)%string with s. simpl. rewrite Nat.sub_0_r. apply substring_whole.
  - change (String c p ++ s)%string with (String c (p ++ s)%string). simpl. exact IH.
Qed.

(** X20: a connection is taken on exactly when its Authorization header is
    the configured token after "Bearer ", or is the bare token and the token
    does not itself begin with "Bearer ". *)
Theorem authorized_accepts_the_token s authHeader :
  let token := config.ServerConfig.AuthToken (config.Config.Server (Server.config s)) in
  authorized s authHeader = true <->
  authHeader = ("Bearer " ++ token)%string \/
  (authHeader = token /\ String.prefix "Bearer " token = false).
Proof.
  cbv zeta. unfold authorized, TrimPrefix.
  set (token := config.ServerConfig.AuthToken (config.Config.Server (Server.config s))).
  split.
  - destruct (String.prefix "Bearer " authHeader) eqn:Hpre; intros Heq;
      apply String.eqb_eq in Heq.
    + left. rewrite (prefix_split _ _ Hpre) at 1. now rewrite Heq.
    + right. subst authHeader. split; [reflexivity | exact Hpre].
  - intros [->|[-> Hpre]].
    + rewrite prefix_append, substring_append. apply String.eqb_refl.
    + rewrite Hpre. apply String.eqb_refl.
Qed.

End Sessions.

Lemma handleRegister_registers_the_client_witness :
  exists s',
    server.handleRegister site_server 0 a1_registration = Some s' /\
    "a1" ∈ server.GetConnectedAgents s'.
Proof.
  destruct (handleRegister_registers_the_client site_server 0 a1_registration
              (server.Client.mk "a1" "a1" [] (seconds 1000) None) eq_refl)
    as (s' & Hrun & _ & Hin & _).
  exists s'. split; [exact Hrun | exact Hin].
Defined.

Lemma handleClient_cleanup_forgets_the_agent_witness :
  exists s' sched' m',
    server.handleClient_cleanup site_server stable_scheduler metrics.NewMetricsAggregator 0
    = Some (s', sched', m') /\
    server.GetClient s' "a1" = None /\
    controller.SchedulerState.ActiveAgents (controller.Scheduler.state sched') !! "a1" = None.
Proof.
  destruct (handleClient_cleanup_forgets_the_agent site_server stable_scheduler
              metrics.NewMetricsAggregator 0
              (server.Client.mk "a1" "a1" [] (seconds 1000) None) eq_refl)
    as (s' & sched' & m' & Hrun & _ & Hgone).
  destruct (Hgone ltac:(discriminate)) as (Hclient & _ & Hactive & _).
  exists s', sched', m'. split; [exact Hrun|]. split; [exact Hclient | exact Hactive].
Defined.

(** ** startAgent *)

Section Dispatch.
Import controller server registry dispatch.


End Dispatch.


(** ** Metrics from a connection *)

Section Reports.

Import server registry.

(** X25: the figures received on a connection that has not registered are
    dropped: the aggregator is unchanged and the clock is not read.  Those
    received on a connection after its registration are filed under the
    registered id, stamped with the time of their arrival, and replace what
    was filed under that id; the figures of the other agents and the
    history are untouched. *)
Theorem handleMetrics_files_under_the_registered_id s m p client report w :
  Server.objects s !! p = Some client ->
  (Client.AgentID client = "" -> handleMetrics s m p report w = Some (m, w)) /\
  (forall registration s',
     RegisterPayload.AgentID registration <> "" ->
     handleRegister s p registration = Some s' ->
     exists m' w',
       handleMetrics s' m p report w = Some (m', w') /\
       metrics.GetAgentMetrics m' (RegisterPayload.AgentID registration)
       = Some (metrics.AgentMetrics.mk (RegisterPayload.AgentID registration)
                 (clock w (next_clock w))
                 (metrics.MetricsPayload.CurrentBandwidth report)
                 (metrics.MetricsPayload.AverageBandwidth report)
                 (metrics.MetricsPayload.BytesDownloaded report)
                 (metrics.MetricsPayload.ActiveCommands report)
                 (metrics.MetricsPayload.CommandMetrics report)) /\
       (forall other, other <> RegisterPayload.AgentID registration ->
          metrics.GetAgentMetrics m' other = metrics.GetAgentMetrics m other) /\
       metrics.MetricsAggregator.history m' = metrics.MetricsAggregator.history m).
Proof.
  intros Hclient. split.
  - intros Hnone. unfold handleMetrics. rewrite Hclient, Hnone. reflexivity.
  - intros registration s' Hid Hreg. unfold handleRegister in Hreg.
    rewrite Hclient in Hreg. injection Hreg as <-.
    unfold handleMetrics. cbn [Server.objects]. rewrite lookup_insert_eq.
    cbn [Client.AgentID].
    destruct (String.eqb_spec (RegisterPayload.AgentID registration) "") as [|_];
      [contradiction|].
    unfold metrics.UpdateAgentMetrics, bind, time.Now, ret.
    eexists _, _. split; [reflexivity|].
    unfold metrics.GetAgentMetrics. cbn [metrics.MetricsAggregator.agentMetrics
                                         metrics.MetricsAggregator.history].
    split; [apply lookup_insert_eq|]. split; [|reflexivity].
    intros other Hother. apply lookup_insert_ne. congruence.
Qed.

End Reports.

Lemma handleMetrics_files_under_the_registered_id_witness :
  exists s' m' w',
    server.handleRegister site_server 0 a1_registration = Some s' /\
    server.handleMetrics s' metrics.NewMetricsAggregator 0
      (metrics.MetricsPayload.mk 300 280 1000000 1 []) tick_world = Some (m', w') /\
    metrics.AgentMetrics.LastUpdate <$> metrics.GetAgentMetrics m' "a1" = Some (seconds 1100).
Proof.
  destruct (handleMetrics_files_under_the_registered_id site_server
              metrics.NewMetricsAggregator 0
              (server.Client.mk "a1" "a1" [] (seconds 1000) None)
              (metrics.MetricsPayload.mk 300 280 1000000 1 []) tick_world eq_refl)
    as [_ Hfiled].
  destruct (Hfiled a1_registration _ ltac:(discriminate) eq_refl)
    as (m' & w' & Hrun & Hget & _).
  eexists _, m', w'. split; [reflexivity|]. split; [exact Hrun|].
  change "a1" with (server.RegisterPayload.AgentID a1_registration).
  rewrite Hget. reflexivity.
Defined.
